(** * Connected Runtime Services: native event buffers

    A shallow embedding of [hotspot/src/share/vm/services/connectedRuntime.cpp]
    (the lock-free list [AList], the thread-local buffers [TLB], the pool
    [TLBManager], the facade [NativeMemory], the [CrsMessage] record family
    and the entry points of [ConnectedRuntime]) together with the properties
    of the design specification that concern them.

    Conventions of the embedding.
    - The target is an LP64 build: [uintx] is a 64-bit unsigned integer, a
      pointer takes 8 bytes, [jint] and an [enum] take 4.  [uintx] values are
      [Z] with the wrap-around written out where the C++ expression can wrap.
    - HotSpot's [assert] is compiled out of product builds: an assertion is
      never executed here; where a property needs one, it is a hypothesis.
    - Operations are modelled as one thread executes them without
      interference (every compare-and-swap succeeds at its first attempt);
      an upcall into the agent is an event appended to a trace.
    - An address inside the reserved region is a [Z], relative to
      [_rs.base()].  A [TLB*] is the index of the TLB in [_buffers].
    - The outcomes of [os::commit_memory] and [os::uncommit_memory] are read
      from an oracle carried in the state.

    The first part of the file holds the embedding, the second the lemmas. *)

From Stdlib Require Import ZArith Lia.
From Stdlib.Strings Require Import Byte.
From stdpp Require Import gmap list strings.

Local Open Scope Z_scope.

(* ===================================================================== *)
(** * Part I: the embedding                                               *)
(* ===================================================================== *)

(** ** Machine integers and alignment *)

Definition Thread := nat.

(** [uintx] arithmetic on LP64: results are reduced modulo [2^64]. *)
Definition uintx (z : Z) : Z := z mod 2 ^ 64.

(** The narrowing cast [(u2)size]. *)
Definition u2 (z : Z) : Z := z mod 2 ^ 16.

(** [align_up(size, alignment)] of utilities/align.hpp, for an alignment
    that is a power of two: the least multiple of [alignment] that is not
    below [size].  [align_up_mask] is the macro's own bit formula
    [(size + (alignment - 1)) & ~(alignment - 1)]; the two agree
    ([align_up_mask_eq]). *)
Definition align_up (size alignment : Z) : Z :=
  (size + (alignment - 1)) / alignment * alignment.

Definition align_up_mask (size alignment : Z) : Z :=
  Z.land (size + (alignment - 1)) (Z.lnot (alignment - 1)).

Definition K : Z := 1024.

(** ** C strings *)

(** A [char] array is a [list byte] and [x00] the terminator.  A C string
    argument ([const char *]) is given by the bytes before its terminator. *)

#[global] Instance byte_eq_decision : EqDecision byte := Byte.byte_eq_dec.

Definition NUL : byte := x00.

Definition is_c_string (s : list byte) : Prop := NUL ∉ s.

(** The string a [char*] denotes: what [strlen], [strcmp] and
    [java_lang_String::create_from_str] read from an array. *)
Fixpoint c_str (a : list byte) : list byte :=
  match a with
  | [] => []
  | c :: a' => if decide (c = NUL) then [] else c :: c_str a'
  end.

Definition strlen (a : list byte) : Z := Z.of_nat (length (c_str a)).

(** [strcpy(dst, src)]: the bytes written to [dst]. *)
Definition strcpy (src : list byte) : list byte := src ++ [NUL].

(** [memcpy(dst, src, n)]: the [n] bytes written; a byte read past the end
    of what the model knows of [src] is unspecified and shown as [NUL]. *)
Definition memcpy (src : list byte) (n : Z) : list byte :=
  take (Z.to_nat n) src ++ replicate (Z.to_nat n - length src)%nat NUL.

(** [Symbol::as_C_string(buf, size)] of oops/symbol.cpp: copies at most
    [size - 1] bytes of the symbol and terminates them. *)
Definition as_C_string (sym : list byte) (size : Z) : list byte :=
  if decide (0 < size) then take (Z.to_nat (size - 1)) sym ++ [NUL] else [].

(** The array that starts [n] bytes into [a] (the pointer [a + n]). *)
Definition offset_ptr (a : list byte) (n : Z) : list byte := drop (Z.to_nat n) a.

(** Writing [bytes] into the array [a] from offset [n] on. *)
Definition write_at (a : list byte) (n : Z) (bytes : list byte) : list byte :=
  take (Z.to_nat n) a ++ bytes ++ drop (Z.to_nat n + length bytes)%nat a.

(** ** AList: the intrusive singly-linked list *)

Module AList.

(** An [Item] is named by its address.  The [_next] fields of all the Items
    form one store of links (a missing key is a NULL link); an [AList] adds
    the head pointer [_list]. *)
Abbreviation Item := nat.
Abbreviation links := (gmap Item Item).

Record state := mk { _next : links; _list : option Item }.

(** [Item::set_next] and [Item::next]. *)
Definition set_next (i : Item) (n : option Item) (nx : links) : links :=
  partial_alter (λ _, n) i nx.
Definition next (i : Item) (nx : links) : option Item := nx !! i.

Definition head (s : state) : option Item := _list s.

(** [AList::add].  Without a [remove] in flight the head is never a lock
    placeholder (the only Item whose link is [&_marker]), so the [continue]
    is not taken, and without a concurrent writer the compare-and-swap finds
    [_list == head]: the loop body runs once. *)
Definition add (i : Item) (s : state) : state :=
  let head := _list s in
  {| _next := set_next i head (_next s); _list := Some i |}.

(** The walk [while (tail->next()) tail = tail->next();]: it ends at the
    first Item whose link is NULL and runs for ever round a cycle.  A walk
    that has followed [size nx] links has met an Item twice, so that many
    steps decide it; [None] stands for the walk that does not end. *)
Fixpoint find_tail (fuel : nat) (nx : links) (tail : Item) : option Item :=
  match fuel with
  | O => None
  | S fuel' =>
      match next tail nx with
      | None => Some tail
      | Some n => find_tail fuel' nx n
      end
  end.

(** [AList::add_list]. *)
Definition add_list (l : Item) (s : state) : option state :=
  match find_tail (S (size (_next s))) (_next s) l with
  | None => None
  | Some tail =>
      let head := _list s in
      Some {| _next := set_next tail head (_next s); _list := Some l |}
  end.

(** [AList::remove].  The placeholder [lock] is installed and replaced by
    [head->next()] within the operation, so no state between operations
    shows it. *)
Definition remove (s : state) : option Item * state :=
  match _list s with
  | None => (None, s)
  | Some head =>
      (Some head,
       {| _next := set_next head None (_next s); _list := next head (_next s) |})
  end.

(** The sequence of Items a pointer reaches through the links. *)
Fixpoint chain (nx : links) (p : option Item) (l : list Item) : Prop :=
  match l with
  | [] => p = None
  | i :: l' => p = Some i ∧ chain nx (nx !! i) l'
  end.

(** What the list holds, front first. *)
Definition holds (s : state) (l : list Item) : Prop :=
  chain (_next s) (_list s) l.

(** *** Sequences of operations *)

(** An operation of a thread: [add(i)], or [add_list(l)] for a chain the
    caller built, given by its Items in link order (so [l] is the first). *)
Inductive action := Add (i : Item) | AddList (cs : list Item).

Definition op : Type := Thread * action.

Definition items (a : action) : list Item :=
  match a with Add i => [i] | AddList cs => cs end.

(** [add_list(NULL)] dereferences a null pointer: no result. *)
Definition exec (a : action) (s : state) : option state :=
  match a with
  | Add i => Some (add i s)
  | AddList [] => None
  | AddList (l :: _) => add_list l s
  end.

Fixpoint run (ops : list op) (s : state) : option state :=
  match ops with
  | [] => Some s
  | (_, a) :: ops' =>
      match exec a s with
      | Some s' => run ops' s'
      | None => None
      end
  end.

(** [remove] repeated until it returns NULL: the Items returned, in order. *)
Fixpoint drain (fuel : nat) (s : state) : option (list Item * state) :=
  match fuel with
  | O => None
  | S fuel' =>
      match remove s with
      | (None, s') => Some ([], s')
      | (Some i, s') =>
          match drain fuel' s' with
          | Some (l, s'') => Some (i :: l, s'')
          | None => None
          end
      end
  end.

(** The Items in the order the operations inserted them, those of one
    thread, and the order in which a stack gives them back. *)
Definition inserted (ops : list op) : list Item :=
  ops ≫= (λ o, items (snd o)).

Definition by_thread (t : Thread) (ops : list op) : list op :=
  filter (λ o, fst o = t) ops.

Definition lifo (ops : list op) : list Item := inserted (reverse ops).

(** The chains handed to [add_list] are linked in the store, each ending
    in a NULL link. *)
Definition chains_built (nx : links) (ops : list op) : Prop :=
  ∀ t cs, (t, AddList cs) ∈ ops → ∃ c, cs !! 0%nat = Some c ∧ chain nx (Some c) cs.

(** The design specification's reading of the order of removal: what a
    thread inserted comes back in the order in which the thread inserted
    it. *)
Definition respects_insertion_order (t : Thread) (ops : list op) (out : list Item) : Prop :=
  inserted (by_thread t ops) `sublist_of` out.

(** *** The list as the sequence it holds

    The pool below keeps each of its ALists by the sequence the list holds;
    [add_holds], [add_list_holds] and [remove_holds] relate these to the
    operations on links. *)
Definition add_seq (i : Item) (l : list Item) : list Item := i :: l.
Definition add_list_seq (cs l : list Item) : list Item := cs ++ l.
Definition remove_seq (l : list Item) : option Item * list Item :=
  match l with
  | [] => (None, [])
  | i :: l' => (Some i, l')
  end.

End AList.

(** ** The operating system *)

(** [os::vm_page_size()], and the answers [os::commit_memory] and
    [os::uncommit_memory] will give, next first; a call past the end of a
    list succeeds. *)
Record OS := mkOS {
  vm_page_size : Z;
  commit_memory_results : list bool;
  uncommit_memory_results : list bool }.

Definition os_commit_memory (os : OS) : bool * OS :=
  match commit_memory_results os with
  | [] => (true, os)
  | r :: rs => (r, mkOS (vm_page_size os) rs (uncommit_memory_results os))
  end.

Definition os_uncommit_memory (os : OS) : bool * OS :=
  match uncommit_memory_results os with
  | [] => (true, os)
  | r :: rs => (r, mkOS (vm_page_size os) (commit_memory_results os) rs)
  end.

(** ** TLB: the thread-local buffer *)

Inductive CrsMessageBackReferenceId := CRS_MESSAGE_BACK_REFERENCE_CLASS_LOAD.

(** [_reference_message] is an array of [CRS_MESSAGE_BACK_REFERENCE_ID_COUNT]
    = 1 pointers: one slot.  [TLB()] initialises [_owner] and [_base] only;
    the fields it leaves unspecified are shown as zero and NULL. *)
Record TLB := mkTLB {
  _pos : Z;
  _base : Z;
  _owner : option Thread;
  _reference_message : option Z }.

Definition TLB_new : TLB := mkTLB 0 0 None None.

#[global] Instance TLB_inhabited : Inhabited TLB := populate TLB_new.

Definition TLB_set_base (base : Z) (b : TLB) : TLB :=
  mkTLB (_pos b) base (_owner b) (_reference_message b).

Definition TLB_lease (thread : Thread) (b : TLB) : TLB :=
  mkTLB 0 (_base b) (Some thread) None.

Definition TLB_release (b : TLB) : TLB :=
  mkTLB (_pos b) (_base b) None (_reference_message b).

Definition TLB_reference_message (back_ref_id : CrsMessageBackReferenceId) (b : TLB) : option Z :=
  _reference_message b.

Definition TLB_set_reference_message (back_ref_id : CrsMessageBackReferenceId)
    (message : option Z) (b : TLB) : TLB :=
  mkTLB (_pos b) (_base b) (_owner b) message.

(** [TLBManager::align = sizeof(intptr_t)]. *)
Definition TLBManager_align : Z := 8.

(** [TLB::alloc]: the pointer handed out and the buffer after the bump. *)
Definition TLB_alloc (size : Z) (b : TLB) : Z * TLB :=
  let ptr := _base b + _pos b in
  (ptr, mkTLB (uintx (_pos b + align_up size TLBManager_align)) (_base b) (_owner b)
          (_reference_message b)).

(** ** TLBManager: the pool *)

(** The three ALists and the chain [_not_finished] are kept by the sequences
    they hold ([AList.add_seq] and the like), [_buffers] as the TLBs by
    index.  [_num_committed] is a [jint]; it stays far below [2^31] for any
    area under 16 TiB and is kept as a [Z]. *)
Record TLBManager := mkTLBManager {
  _free_list : list nat;
  _leased_list : list nat;
  _uncommitted_list : list nat;
  _buffers : gmap nat TLB;
  _buffer_size : Z;
  _num_committed : Z;
  _buffers_count : Z;
  _area_size : Z;
  _bytes_used : Z;
  _not_finished : list nat }.

Definition tlb (m : TLBManager) (b : nat) : TLB := _buffers m !!! b.

Definition set_free_list (l : list nat) (m : TLBManager) : TLBManager :=
  mkTLBManager l (_leased_list m) (_uncommitted_list m) (_buffers m) (_buffer_size m)
    (_num_committed m) (_buffers_count m) (_area_size m) (_bytes_used m) (_not_finished m).

Definition set_leased_list (l : list nat) (m : TLBManager) : TLBManager :=
  mkTLBManager (_free_list m) l (_uncommitted_list m) (_buffers m) (_buffer_size m)
    (_num_committed m) (_buffers_count m) (_area_size m) (_bytes_used m) (_not_finished m).

Definition set_uncommitted_list (l : list nat) (m : TLBManager) : TLBManager :=
  mkTLBManager (_free_list m) (_leased_list m) l (_buffers m) (_buffer_size m)
    (_num_committed m) (_buffers_count m) (_area_size m) (_bytes_used m) (_not_finished m).

Definition set_tlb (b : nat) (t : TLB) (m : TLBManager) : TLBManager :=
  mkTLBManager (_free_list m) (_leased_list m) (_uncommitted_list m) (<[b := t]> (_buffers m))
    (_buffer_size m) (_num_committed m) (_buffers_count m) (_area_size m) (_bytes_used m)
    (_not_finished m).

Definition set_num_committed (n : Z) (m : TLBManager) : TLBManager :=
  mkTLBManager (_free_list m) (_leased_list m) (_uncommitted_list m) (_buffers m) (_buffer_size m)
    n (_buffers_count m) (_area_size m) (_bytes_used m) (_not_finished m).

Definition set_bytes_used (n : Z) (m : TLBManager) : TLBManager :=
  mkTLBManager (_free_list m) (_leased_list m) (_uncommitted_list m) (_buffers m) (_buffer_size m)
    (_num_committed m) (_buffers_count m) (_area_size m) n (_not_finished m).

Definition set_not_finished (l : list nat) (m : TLBManager) : TLBManager :=
  mkTLBManager (_free_list m) (_leased_list m) (_uncommitted_list m) (_buffers m) (_buffer_size m)
    (_num_committed m) (_buffers_count m) (_area_size m) (_bytes_used m) l.

(** The sizes the constructor settles, in its own order: [_buffers_count],
    [_buffer_size] and [_num_committed].  The last divides by
    [_buffer_size]; a division by zero has no result. *)
Definition TLBManager_geometry (page_size size : Z) : option (Z * Z * Z) :=
  let initialCommittedSizeEstimate := Z.min (640 * K) size in
  let desiredBufferSize := 8 * K in
  let buffers_count := size / desiredBufferSize in
  let buffers_count := if decide (buffers_count < 2) then 2 else buffers_count in
  let buffer_size := uintx (align_up (size / buffers_count) page_size) in
  let '(buffer_size, buffers_count) :=
    if decide (buffer_size > 2 ^ 16) then (2 ^ 16, size / 2 ^ 16)
    else (buffer_size, buffers_count) in
  if decide (buffer_size = 0) then None
  else
    let num_committed :=
      Z.min (Z.max 1 (initialCommittedSizeEstimate / buffer_size)) buffers_count in
    Some (buffer_size, buffers_count, num_committed).

(** [for (intx i = n; --i >= lo; ) body(i)]: [i] runs from [n - 1] down
    to [lo]. *)
Fixpoint for_down {A} (n lo : nat) (body : nat → A → A) (a : A) : A :=
  match n with
  | O => a
  | S n' => if decide (lo ≤ n')%nat then for_down n' lo body (body n' a) else a
  end.

(** [TLBManager::TLBManager(size)].  The result is the pool, the operating
    system after the call, and whether the pool came up usable: when the
    first commit fails the constructor calls [ConnectedRuntime::disable] and
    returns with its lists empty ([false]). *)
Definition TLBManager_ctor (size : Z) (os : OS) : option (TLBManager * OS * bool) :=
  match TLBManager_geometry (vm_page_size os) size with
  | None => None
  | Some (buffer_size, buffers_count, num_committed) =>
      let area_size := uintx (buffers_count * buffer_size) in
      let n := Z.to_nat buffers_count in
      let buffers : gmap nat TLB := list_to_map (map (λ i, (i, TLB_new)) (seq 0 n)) in
      let m := mkTLBManager [] [] [] buffers buffer_size num_committed buffers_count
                 area_size 0 [] in
      let '(ok, os) := os_commit_memory os in
      if ok then
        let m := foldl
                   (λ m i, set_tlb i (TLB_set_base (Z.of_nat i * buffer_size) (tlb m i)) m)
                   m (seq 0 n) in
        let m := for_down (Z.to_nat num_committed) 0
                   (λ i m, set_free_list (AList.add_seq i (_free_list m)) m) m in
        let m := for_down n (Z.to_nat num_committed)
                   (λ i m, set_uncommitted_list (AList.add_seq i (_uncommitted_list m)) m) m in
        Some (m, os, true)
      else Some (m, os, false)
  end.

(** [TLBManager::lease_buffer]. *)
Definition lease_to (to_lease : nat) (thread : Thread) (m : TLBManager) : TLBManager :=
  let m := set_tlb to_lease (TLB_lease thread (tlb m to_lease)) m in
  let m := set_leased_list (AList.add_seq to_lease (_leased_list m)) m in
  set_bytes_used (uintx (_bytes_used m + _buffer_size m)) m.

Definition lease_buffer (thread : Thread) (m : TLBManager) (os : OS)
    : option nat * TLBManager * OS :=
  match AList.remove_seq (_free_list m) with
  | (Some to_lease, free) =>
      (Some to_lease, lease_to to_lease thread (set_free_list free m), os)
  | (None, _) =>
      match AList.remove_seq (_uncommitted_list m) with
      | (Some to_lease, uncommitted) =>
          let m := set_uncommitted_list uncommitted m in
          let '(ok, os) := os_commit_memory os in
          if ok then
            let m := set_num_committed (_num_committed m + 1) m in
            (Some to_lease, lease_to to_lease thread m, os)
          else
            (None, set_uncommitted_list (AList.add_seq to_lease (_uncommitted_list m)) m, os)
      | (None, _) => (None, m, os)
      end
  end.

Definition bytes_used (m : TLBManager) : Z := _bytes_used m.

Definition bytes_committed (m : TLBManager) : Z := uintx (_num_committed m * _buffer_size m).

(** The room left in a buffer as [ensure] computes it, in [uintx]. *)
Definition remaining_space (m : TLBManager) (b : nat) : Z :=
  uintx (_buffer_size m - _pos (tlb m b)).

(** [TLBManager::ensure]. *)
Definition ensure (buffer : option nat) (size : Z) (thread : Thread) (m : TLBManager) (os : OS)
    : option nat * TLBManager * OS :=
  match buffer with
  | Some b =>
      if decide (remaining_space m b >= size) then (Some b, m, os)
      else lease_buffer thread (set_tlb b (TLB_release (tlb m b)) m) os
  | None => lease_buffer thread m os
  end.

(** [TLBManager::alloc]. *)
Definition TLBManager_alloc (buffer : option nat) (size : Z) (m : TLBManager)
    : option Z * TLBManager :=
  match buffer with
  | None => (None, m)
  | Some b =>
      let '(p, t) := TLB_alloc size (tlb m b) in
      (Some p, set_tlb b t m)
  end.

(** [TLBManager::uncommit_buffer]; [uncommitted] is the caller's local chain. *)
Definition uncommit_buffer (buffer : nat) (uncommitted : list nat) (m : TLBManager) (os : OS)
    : bool * list nat * TLBManager * OS :=
  let '(ok, os) := os_uncommit_memory os in
  if ok then (true, buffer :: uncommitted, set_num_committed (_num_committed m - 1) m, os)
  else (false, uncommitted, m, os).

(** A [TLBClosure] that works on the TLB it is given and on a state [X] of
    its own; [None] when it does not return. *)
Definition TLBClosure (X : Type) : Type := nat → TLB → X → option (TLB * X).

(** The first loop of [TLBManager::flush_buffers]: one round for each buffer
    that [_leased_list.remove()] returns. *)
Fixpoint flush_leased {X} (f : TLBClosure X) (leased : list nat) (to_uncommit : Z)
    (uncommitted : list nat) (m : TLBManager) (os : OS) (x : X)
    : option (Z * list nat * TLBManager * OS * X) :=
  match leased with
  | [] => Some (to_uncommit, uncommitted, m, os, x)
  | to_flush :: leased' =>
      let m := set_leased_list leased' m in
      match _owner (tlb m to_flush) with
      | Some _ =>
          let m := set_not_finished (to_flush :: _not_finished m) m in
          flush_leased f leased' to_uncommit uncommitted m os x
      | None =>
          match f to_flush (tlb m to_flush) x with
          | None => None
          | Some (t, x) =>
              let m := set_tlb to_flush t m in
              let m := set_bytes_used (uintx (_bytes_used m - _buffer_size m)) m in
              if decide (to_uncommit = 0) then
                let m := set_free_list (AList.add_seq to_flush (_free_list m)) m in
                flush_leased f leased' to_uncommit uncommitted m os x
              else
                let '(ok, uncommitted', m', os') := uncommit_buffer to_flush uncommitted m os in
                if ok then flush_leased f leased' (to_uncommit - 1) uncommitted' m' os' x
                else
                  let m' := set_free_list (AList.add_seq to_flush (_free_list m')) m' in
                  flush_leased f leased' to_uncommit uncommitted' m' os' x
          end
      end
  end.

(** The loop [while (to_uncommit) { b = _free_list.remove(); ... }]: one
    round for each buffer taken off the free list. *)
Fixpoint uncommit_free (free : list nat) (to_uncommit : Z) (uncommitted : list nat)
    (m : TLBManager) (os : OS) : list nat * TLBManager * OS :=
  if decide (to_uncommit = 0) then (uncommitted, m, os)
  else
    match free with
    | [] => (uncommitted, m, os)
    | b :: free' =>
        let m := set_free_list free' m in
        let '(ok, uncommitted', m', os') := uncommit_buffer b uncommitted m os in
        if ok then uncommit_free free' (to_uncommit - 1) uncommitted' m' os'
        else (uncommitted', m', os')
    end.

(** [TLBManager::flush_buffers]. *)
Definition flush_buffers {X} (f : TLBClosure X) (committed_goal : Z) (m : TLBManager) (os : OS)
    (x : X) : option (TLBManager * OS * X) :=
  let committed_goal := committed_goal / _buffer_size m in
  let to_uncommit :=
    if decide (_num_committed m > committed_goal) then _num_committed m - committed_goal
    else 0 in
  match flush_leased f (_leased_list m) to_uncommit [] m os x with
  | None => None
  | Some (to_uncommit, uncommitted, m, os, x) =>
      let m :=
        match _not_finished m with
        | [] => m
        | not_finished =>
            set_not_finished []
              (set_leased_list (AList.add_list_seq not_finished (_leased_list m)) m)
        end in
      let '(uncommitted, m, os) := uncommit_free (_free_list m) to_uncommit uncommitted m os in
      let m :=
        match uncommitted with
        | [] => m
        | _ => set_uncommitted_list (AList.add_list_seq uncommitted (_uncommitted_list m)) m
        end in
      Some (m, os, x)
  end.

(** [TLBManager::leased_buffers_do], for a closure that works on the TLB:
    the leased list first, then the buffers put aside during a flush. *)
Definition leased_buffers_do {X} (f : nat → TLB → X → TLB * X) (m : TLBManager) (x : X)
    : TLBManager * X :=
  foldl (λ '(m, x) b, let '(t, x) := f b (tlb m b) x in (set_tlb b t m, x))
        (m, x) (_leased_list m ++ _not_finished m).

(** ** The runtime entities a record refers to *)

(** What the code reads of an [InstanceKlass] and of a [Method]: the name
    symbols (their UTF-8 bytes) and the trace ids.  A pointer to one is its
    key in the metaspace; an entity that was destroyed has no entry, and
    reading through its pointer is unspecified (shown as the default). *)
Record InstanceKlass := mkInstanceKlass {
  klass_name : list byte;
  klass_crs_trace_id : Z;
  class_loader_data_crs_trace_id : Z }.

Record Method := mkMethod {
  method_name : list byte;
  method_signature : list byte;
  method_holder : nat }.

Record Metaspace := mkMetaspace {
  klasses : gmap nat InstanceKlass;
  methods : gmap nat Method }.

#[global] Instance InstanceKlass_inhabited : Inhabited InstanceKlass :=
  populate (mkInstanceKlass [] 0 0).
#[global] Instance Method_inhabited : Inhabited Method := populate (mkMethod [] [] 0).

Definition klass_at (ms : Metaspace) (k : nat) : InstanceKlass := klasses ms !!! k.
Definition method_at (ms : Metaspace) (k : nat) : Method := methods ms !!! k.

(** ** CrsMessage: the records *)

Inductive CrsNotificationType :=
| CRS_MESSAGE_CLASS_LOAD
| CRS_MESSAGE_FIRST_CALL
| CRS_MESSAGE_DELETED
| CRS_MESSAGE_CLASS_LOAD_BLOWN
| CRS_MESSAGE_FIRST_CALL_BLOWN.

#[global] Instance CrsNotificationType_eq_dec : EqDecision CrsNotificationType.
Proof. solve_decision. Defined.

(** The layout of the records on LP64 (the header is the 4-byte tag and the
    2-byte size, padded to 8).
    - [CrsClassLoadMessage]: [_klass] at 8, [_loaderId] at 16, [_klass_id] at
      20, [_flags] at 24, [_hash] at 28, [_source] at 60; size 64.
    - [CrsClassLoadMessageBlown]: [_loaderId] at 8, [_klass_id] at 12,
      [_flags] at 16, [_hash] at 20, [_source_and_name] at 52.
    - [CrsFirstCallMessage]: [_method] at 8, [_holder_id] at 16; size 24.
    - [CrsFirstCallMessageBlown]: [_holder_id] at 8, [_method_name] at 12. *)
Definition DL_SHA256 : Z := 32.
Definition offset_of_source : Z := 60.
Definition sizeof_CrsClassLoadMessage : Z := 64.
Definition offset_of_source_and_name : Z := 52.
Definition sizeof_CrsFirstCallMessage : Z := 24.
Definition offset_of_method_name : Z := 12.

(** The fields after the header, one record for each class.  A [_hash] that
    the constructor did not fill is unspecified and shown as []. *)
Record ClassLoadFields := mkClassLoad {
  cl_klass : nat;
  cl_loaderId : Z;
  cl_klass_id : Z;
  cl_has_hash : bool;
  cl_has_source : bool;
  cl_has_same_source : bool;
  cl_hash : list byte;
  cl_source : list byte }.

Record ClassLoadBlownFields := mkClassLoadBlown {
  clb_loaderId : Z;
  clb_klass_id : Z;
  clb_has_hash : bool;
  clb_has_source : bool;
  clb_hash : list byte;
  clb_source_and_name : list byte }.

Record FirstCallFields := mkFirstCall {
  fc_method : nat;
  fc_holder_id : Z }.

Record FirstCallBlownFields := mkFirstCallBlown {
  fcb_holder_id : Z;
  fcb_method_name : list byte }.

Inductive Fields :=
| ClassLoad (f : ClassLoadFields)
| ClassLoadBlown (f : ClassLoadBlownFields)
| FirstCall (f : FirstCallFields)
| FirstCallBlown (f : FirstCallBlownFields)
| NoFields.

(** A record in the region: the header [_type], [_size] and the fields of
    the class that constructed it.  [switch_type] rewrites the tag alone, so
    a Deleted record keeps the fields it had. *)
Record CrsMessage := mkCrsMessage {
  _type : CrsNotificationType;
  _size : Z;
  fields : Fields }.

(** [CrsMessage::CrsMessage(type, size)]: the header it stores. *)
Definition CrsMessage_ctor (type : CrsNotificationType) (size : Z) (f : Fields) : CrsMessage :=
  mkCrsMessage type (u2 size) f.

Definition switch_type (new_type : CrsNotificationType) (msg : CrsMessage) : CrsMessage :=
  mkCrsMessage new_type (_size msg) (fields msg).

(** The cast of a record to [CrsClassLoadMessage*]; reading the fields of
    another class through it is unspecified (shown as the default). *)
Definition ClassLoad_default : ClassLoadFields := mkClassLoad 0 0 0 false false false [] [].

Definition as_ClassLoad (msg : CrsMessage) : ClassLoadFields :=
  match fields msg with ClassLoad f => f | _ => ClassLoad_default end.

(** How much of the region a record takes in the walk of a buffer. *)
Definition walk_step (msg : CrsMessage) : Z := align_up (_size msg) TLBManager_align.

(** ** The agent *)

(** The upcalls [notifyClassLoad(name, hash, classId, loaderId, source)] and
    [notifyFirstCall(holderId, methodName)], with the Java strings given by
    their bytes and a null reference by [None]. *)
Inductive Upcall :=
| notifyClassLoad (name : list byte) (hash : option (list byte)) (classId loaderId : Z)
    (source : option (list byte))
| notifyFirstCall (holderId : Z) (methodName : list byte).

(** A line written to [tty]: the report of a flush after an overflow. *)
Inductive TtyLine :=
| overflow_data_is_lost (before after : Z).

(** ** NativeMemory and the state around it *)

Record NativeMemory := mkNativeMemory {
  _tlb_manager : TLBManager;
  _previous_usage : Z;
  _overflow : bool }.

(** The part of the VM the subsystem reads and writes: the static [memory],
    the contents of the reserved region (the records, by address), each
    thread's [crs_thread_locals()->buffer()], the operating system, the
    metaspace, the upcalls the agent received and the lines on [tty], oldest
    first, and the static flags. *)
Record VM := mkVM {
  memory : NativeMemory;
  region : gmap Z CrsMessage;
  crs_thread_locals : gmap Thread nat;
  os : OS;
  metaspace : Metaspace;
  agent : list Upcall;
  tty : list TtyLine;
  UseCRS : bool;
  _is_init : bool;
  CrsClassLoadMessage_should_notify : bool;
  CrsFirstCallMessage_should_notify : bool }.

Definition manager (vm : VM) : TLBManager := _tlb_manager (memory vm).

Definition set_memory (nm : NativeMemory) (vm : VM) : VM :=
  mkVM nm (region vm) (crs_thread_locals vm) (os vm) (metaspace vm) (agent vm) (tty vm)
    (UseCRS vm) (_is_init vm) (CrsClassLoadMessage_should_notify vm)
    (CrsFirstCallMessage_should_notify vm).

Definition set_manager (m : TLBManager) (vm : VM) : VM :=
  set_memory (mkNativeMemory m (_previous_usage (memory vm)) (_overflow (memory vm))) vm.

Definition set_overflow (o : bool) (vm : VM) : VM :=
  set_memory (mkNativeMemory (manager vm) (_previous_usage (memory vm)) o) vm.

Definition set_previous_usage (u : Z) (vm : VM) : VM :=
  set_memory (mkNativeMemory (manager vm) u (_overflow (memory vm))) vm.

Definition set_region (r : gmap Z CrsMessage) (vm : VM) : VM :=
  mkVM (memory vm) r (crs_thread_locals vm) (os vm) (metaspace vm) (agent vm) (tty vm)
    (UseCRS vm) (_is_init vm) (CrsClassLoadMessage_should_notify vm)
    (CrsFirstCallMessage_should_notify vm).

Definition set_thread_locals (l : gmap Thread nat) (vm : VM) : VM :=
  mkVM (memory vm) (region vm) l (os vm) (metaspace vm) (agent vm) (tty vm)
    (UseCRS vm) (_is_init vm) (CrsClassLoadMessage_should_notify vm)
    (CrsFirstCallMessage_should_notify vm).

Definition set_os (o : OS) (vm : VM) : VM :=
  mkVM (memory vm) (region vm) (crs_thread_locals vm) o (metaspace vm) (agent vm) (tty vm)
    (UseCRS vm) (_is_init vm) (CrsClassLoadMessage_should_notify vm)
    (CrsFirstCallMessage_should_notify vm).

Definition set_agent (a : list Upcall) (vm : VM) : VM :=
  mkVM (memory vm) (region vm) (crs_thread_locals vm) (os vm) (metaspace vm) a (tty vm)
    (UseCRS vm) (_is_init vm) (CrsClassLoadMessage_should_notify vm)
    (CrsFirstCallMessage_should_notify vm).

Definition set_tty (t : list TtyLine) (vm : VM) : VM :=
  mkVM (memory vm) (region vm) (crs_thread_locals vm) (os vm) (metaspace vm) (agent vm) t
    (UseCRS vm) (_is_init vm) (CrsClassLoadMessage_should_notify vm)
    (CrsFirstCallMessage_should_notify vm).

Definition set_should_notify (class_load first_call : bool) (vm : VM) : VM :=
  mkVM (memory vm) (region vm) (crs_thread_locals vm) (os vm) (metaspace vm) (agent vm) (tty vm)
    (UseCRS vm) (_is_init vm) class_load first_call.

(** [thread->crs_thread_locals()->buffer()] and [set_buffer]. *)
Definition buffer_of (thread : Thread) (vm : VM) : option nat := crs_thread_locals vm !! thread.

Definition set_buffer (thread : Thread) (buffer : option nat) (l : gmap Thread nat)
    : gmap Thread nat :=
  partial_alter (λ _, buffer) thread l.

(** [NativeMemory::alloc(size, thread)]. *)
Definition NativeMemory_alloc (size : Z) (thread : Thread) (vm : VM) : option Z * VM :=
  if _overflow (memory vm) then (None, vm)
  else
    let buffer := buffer_of thread vm in
    let '(new_buffer, m, os') := ensure buffer size thread (manager vm) (os vm) in
    let vm := set_os os' (set_manager m vm) in
    let vm :=
      if decide (new_buffer ≠ buffer)
      then set_thread_locals (set_buffer thread new_buffer (crs_thread_locals vm)) vm
      else vm in
    match new_buffer with
    | Some _ =>
        let '(p, m) := TLBManager_alloc new_buffer size (manager vm) in
        (p, set_manager m vm)
    | None => (None, set_overflow true vm)
    end.

(** [NativeMemory::alloc(back_ref_id, is_reference, size, size_reference,
    thread)]; the second component of the result is [*is_reference] after
    the call. *)
Definition NativeMemory_alloc_ref (back_ref_id : CrsMessageBackReferenceId) (is_reference : bool)
    (size size_reference : Z) (thread : Thread) (vm : VM) : option Z * bool * VM :=
  if _overflow (memory vm) then (None, is_reference, vm)
  else
    let buffer := buffer_of thread vm in
    let '(new_buffer, m, os') := ensure buffer size thread (manager vm) (os vm) in
    let vm := set_os os' (set_manager m vm) in
    let '(vm, is_reference) :=
      if decide (new_buffer ≠ buffer)
      then (set_thread_locals (set_buffer thread new_buffer (crs_thread_locals vm)) vm, true)
      else (vm, is_reference) in
    match new_buffer with
    | Some b =>
        let '(message, m) :=
          TLBManager_alloc new_buffer (if is_reference then size_reference else size)
            (manager vm) in
        let m :=
          if is_reference
          then set_tlb b (TLB_set_reference_message back_ref_id message (tlb m b)) m
          else m in
        (message, is_reference, set_manager m vm)
    | None => (None, is_reference, set_overflow true vm)
    end.

(** [NativeMemory::reference_message]. *)
Definition NativeMemory_reference_message (ref_id : CrsMessageBackReferenceId) (thread : Thread)
    (vm : VM) : option Z :=
  match buffer_of thread vm with
  | Some b => TLB_reference_message ref_id (tlb (manager vm) b)
  | None => None
  end.

(** [NativeMemory::release_thread_buffer]. *)
Definition NativeMemory_release_thread_buffer (thread : Thread) (vm : VM) : VM :=
  match buffer_of thread vm with
  | Some b =>
      set_thread_locals (set_buffer thread None (crs_thread_locals vm))
        (set_manager (set_tlb b (TLB_release (tlb (manager vm) b)) (manager vm)) vm)
  | None => vm
  end.

(** ** Class-load records *)

(** The record at an address, read as a [CrsClassLoadMessage]; where no
    record was constructed the bytes are unspecified (the default). *)
Definition class_load_at (region : gmap Z CrsMessage) (a : Z) : ClassLoadFields :=
  match region !! a with
  | Some msg => as_ClassLoad msg
  | None => ClassLoad_default
  end.

(** [CrsClassLoadMessage::CrsClassLoadMessage]. *)
Definition CrsClassLoadMessage_ctor (ms : Metaspace) (size : Z) (ikh : nat)
    (hash source : option (list byte)) (reference : option Z) : CrsMessage :=
  let _klass := ikh in
  let _loaderId := class_loader_data_crs_trace_id (klass_at ms _klass) in
  let _klass_id := klass_crs_trace_id (klass_at ms _klass) in
  let '(has_hash, _hash) :=
    match hash with
    | Some h => (true, memcpy h DL_SHA256)
    | None => (false, [])
    end in
  let '(has_source, has_same_source, _source) :=
    match reference, source with
    | Some _, _ => (false, true, [])
    | None, Some s => (true, false, strcpy s)
    | None, None => (false, false, [])
    end in
  CrsMessage_ctor CRS_MESSAGE_CLASS_LOAD size
    (ClassLoad (mkClassLoad _klass _loaderId _klass_id has_hash has_source has_same_source
                  _hash _source)).

(** [strcmp(a, b) != 0] on the strings two arrays denote. *)
Definition strcmp_ne (a b : list byte) : bool := bool_decide (c_str a ≠ c_str b).

(** [CrsClassLoadMessage::post]. *)
Definition CrsClassLoadMessage_post (ikh : nat) (hash source : option (list byte))
    (thread : Thread) (vm : VM) : VM :=
  let previous_reference :=
    NativeMemory_reference_message CRS_MESSAGE_BACK_REFERENCE_CLASS_LOAD thread vm in
  let previous_reference :=
    match previous_reference with
    | Some a => if cl_has_source (class_load_at (region vm) a) then Some a else None
    | None => None
    end in
  let source :=
    match source with
    | Some [] => None
    | _ => source
    end in
  let is_new_reference :=
    match source, previous_reference with
    | Some s, Some a => strcmp_ne (cl_source (class_load_at (region vm) a)) s
    | Some _, None => true
    | None, _ => false
    end in
  let size_reference :=
    offset_of_source + match source with Some s => strlen s + 1 | None => 0 end in
  let size := if is_new_reference then size_reference else sizeof_CrsClassLoadMessage in
  let '(msg, is_new_reference, vm) :=
    NativeMemory_alloc_ref CRS_MESSAGE_BACK_REFERENCE_CLASS_LOAD is_new_reference
      size size_reference thread vm in
  match msg with
  | Some p =>
      set_region
        (<[p := CrsClassLoadMessage_ctor (metaspace vm)
                  (if is_new_reference then size_reference else size)
                  ikh hash source
                  (if is_new_reference then None else previous_reference)]> (region vm)) vm
  | None => vm
  end.

(** The [hash] argument of the upcall. *)
Definition hash_argument (has_hash : bool) (_hash : list byte) : option (list byte) :=
  if has_hash then Some (memcpy _hash DL_SHA256) else None.

(** [CrsClassLoadMessage::process]: the record at [this] is processed
    against the buffer [tlb]; the buffer and the agent's trace after it. *)
Definition CrsClassLoadMessage_process (ms : Metaspace) (region : gmap Z CrsMessage)
    (this : Z) (f : ClassLoadFields) (tlb : TLB) (agent : list Upcall) : TLB * list Upcall :=
  let name := klass_name (klass_at ms (cl_klass f)) in
  let '(source, tlb) :=
    if cl_has_source f then
      (Some (c_str (cl_source f)),
       TLB_set_reference_message CRS_MESSAGE_BACK_REFERENCE_CLASS_LOAD (Some this) tlb)
    else if cl_has_same_source f then
      match TLB_reference_message CRS_MESSAGE_BACK_REFERENCE_CLASS_LOAD tlb with
      | Some ref => (Some (c_str (cl_source (class_load_at region ref))), tlb)
      | None => (Some (c_str (cl_source ClassLoad_default)), tlb)
      end
    else (None, tlb) in
  (tlb,
   agent ++ [notifyClassLoad name (hash_argument (cl_has_hash f) (cl_hash f))
               (cl_klass_id f) (cl_loaderId f) source]).

(** ** Blown class-load records *)

(** [CrsClassLoadMessageBlown::CrsClassLoadMessageBlown]. *)
Definition CrsClassLoadMessageBlown_ctor (ms : Metaspace) (region : gmap Z CrsMessage)
    (size : Z) (from_message : ClassLoadFields) (from_tlb : TLB) (source_size : Z)
    : CrsMessage :=
  let source :=
    if cl_has_source from_message then memcpy (cl_source from_message) source_size
    else if cl_has_same_source from_message then
      match TLB_reference_message CRS_MESSAGE_BACK_REFERENCE_CLASS_LOAD from_tlb with
      | Some ref => memcpy (cl_source (class_load_at region ref)) source_size
      | None => memcpy (cl_source ClassLoad_default) source_size
      end
    else memcpy [] source_size in
  let name :=
    as_C_string (klass_name (klass_at ms (cl_klass from_message)))
      (size - (offset_of_source_and_name + source_size)) in
  CrsMessage_ctor CRS_MESSAGE_CLASS_LOAD_BLOWN size
    (ClassLoadBlown
       (mkClassLoadBlown (cl_loaderId from_message) (cl_klass_id from_message)
          (cl_has_hash from_message)
          (cl_has_source from_message || cl_has_same_source from_message)
          (memcpy (cl_hash from_message) DL_SHA256)
          (source ++ name))).

(** The size [CrsClassLoadMessageBlown::post] computes for the copy of the
    record [from_message] of the buffer [from_tlb], and the size of the
    source in it. *)
Definition blown_source_size (region : gmap Z CrsMessage) (from_size : Z)
    (from_message : ClassLoadFields) (from_tlb : TLB) : Z :=
  if cl_has_source from_message then uintx (from_size - offset_of_source)
  else if cl_has_same_source from_message then
    match TLB_reference_message CRS_MESSAGE_BACK_REFERENCE_CLASS_LOAD from_tlb with
    | Some ref =>
        uintx (match region !! ref with Some r => _size r | None => 0 end - offset_of_source)
    | None => uintx (0 - offset_of_source)
    end
  else 0.

Definition blown_size (ms : Metaspace) (from_message : ClassLoadFields) (source_size : Z) : Z :=
  offset_of_source_and_name + source_size
  + Z.of_nat (length (klass_name (klass_at ms (cl_klass from_message)))) + 1.

(** [CrsClassLoadMessageBlown::post]: [from] is the address of the record,
    [from_tlb] the buffer that holds it. *)
Definition CrsClassLoadMessageBlown_post (from_tlb : nat) (from : Z) (thread : Thread) (vm : VM)
    : VM :=
  match region vm !! from with
  | None => vm
  | Some from_record =>
      let from_message := as_ClassLoad from_record in
      let source_size :=
        blown_source_size (region vm) (_size from_record) from_message
          (tlb (manager vm) from_tlb) in
      let size := blown_size (metaspace vm) from_message source_size in
      let '(msg, vm) := NativeMemory_alloc size thread vm in
      match msg with
      | Some p =>
          set_region
            (<[p := CrsClassLoadMessageBlown_ctor (metaspace vm) (region vm) size from_message
                      (tlb (manager vm) from_tlb) source_size]> (region vm)) vm
      | None => vm
      end
  end.

(** [CrsClassLoadMessageBlown::process]. *)
Definition CrsClassLoadMessageBlown_process (f : ClassLoadBlownFields) (agent : list Upcall)
    : list Upcall :=
  let name := clb_source_and_name f in
  let '(source, name) :=
    if clb_has_source f then (Some (c_str name), offset_ptr name (strlen name + 1))
    else (None, name) in
  agent ++ [notifyClassLoad (c_str name) (hash_argument (clb_has_hash f) (clb_hash f))
              (clb_klass_id f) (clb_loaderId f) source].

(** [CrsClassLoadMessage::blow]. *)
Definition CrsClassLoadMessage_blow (tlb : nat) (this : Z) (thread : Thread) (vm : VM) : VM :=
  let vm := CrsClassLoadMessageBlown_post tlb this thread vm in
  set_region (alter (switch_type CRS_MESSAGE_DELETED) this (region vm)) vm.

(** ** First-call records *)

(** [CrsFirstCallMessage::CrsFirstCallMessage] and [post]. *)
Definition CrsFirstCallMessage_ctor (ms : Metaspace) (method : nat) : CrsMessage :=
  CrsMessage_ctor CRS_MESSAGE_FIRST_CALL sizeof_CrsFirstCallMessage
    (FirstCall (mkFirstCall method
                  (klass_crs_trace_id (klass_at ms (method_holder (method_at ms method)))))).

Definition CrsFirstCallMessage_post (method : nat) (thread : Thread) (vm : VM) : VM :=
  let '(msg, vm) := NativeMemory_alloc sizeof_CrsFirstCallMessage thread vm in
  match msg with
  | Some p => set_region (<[p := CrsFirstCallMessage_ctor (metaspace vm) method]> (region vm)) vm
  | None => vm
  end.

(** [CrsFirstCallMessage::process]: the name and the signature are copied
    one after the other into a scratch array. *)
Definition CrsFirstCallMessage_process (ms : Metaspace) (f : FirstCallFields)
    (agent : list Upcall) : list Upcall :=
  let m := method_at ms (fc_method f) in
  let method_name_length := Z.of_nat (length (method_name m)) in
  let method_sig_length := Z.of_nat (length (method_signature m)) in
  let name := as_C_string (method_name m) (method_name_length + 1) in
  let name :=
    write_at name method_name_length (as_C_string (method_signature m) (method_sig_length + 1)) in
  agent ++ [notifyFirstCall (fc_holder_id f) (c_str name)].

(** [CrsFirstCallMessageBlown::CrsFirstCallMessageBlown] and [post]. *)
Definition CrsFirstCallMessageBlown_ctor (ms : Metaspace) (size : Z)
    (from_message : FirstCallFields) : CrsMessage :=
  let m := method_at ms (fc_method from_message) in
  let name_length := Z.of_nat (length (method_name m)) in
  let _method_name := as_C_string (method_name m) (size - offset_of_method_name) in
  let _method_name :=
    write_at _method_name name_length
      (as_C_string (method_signature m) (size - offset_of_method_name - name_length)) in
  CrsMessage_ctor CRS_MESSAGE_FIRST_CALL_BLOWN size
    (FirstCallBlown (mkFirstCallBlown (fc_holder_id from_message) _method_name)).

Definition first_call_blown_size (ms : Metaspace) (from_message : FirstCallFields) : Z :=
  let m := method_at ms (fc_method from_message) in
  offset_of_method_name + Z.of_nat (length (method_name m))
  + Z.of_nat (length (method_signature m)) + 1.

Definition as_FirstCall (msg : CrsMessage) : FirstCallFields :=
  match fields msg with FirstCall f => f | _ => mkFirstCall 0 0 end.

Definition CrsFirstCallMessageBlown_post (from : Z) (thread : Thread) (vm : VM) : VM :=
  match region vm !! from with
  | None => vm
  | Some from_record =>
      let from_message := as_FirstCall from_record in
      let size := first_call_blown_size (metaspace vm) from_message in
      let '(msg, vm) := NativeMemory_alloc size thread vm in
      match msg with
      | Some p =>
          set_region
            (<[p := CrsFirstCallMessageBlown_ctor (metaspace vm) size from_message]> (region vm))
            vm
      | None => vm
      end
  end.

Definition CrsFirstCallMessageBlown_process (f : FirstCallBlownFields) (agent : list Upcall)
    : list Upcall :=
  agent ++ [notifyFirstCall (fcb_holder_id f) (c_str (fcb_method_name f))].

(** [CrsFirstCallMessage::blow]. *)
Definition CrsFirstCallMessage_blow (this : Z) (thread : Thread) (vm : VM) : VM :=
  let vm := CrsFirstCallMessageBlown_post this thread vm in
  set_region (alter (switch_type CRS_MESSAGE_DELETED) this (region vm)) vm.

(** ** Processing and the walk of a buffer *)

(** [CrsMessage::process]: the switch on the tag, each case casting the
    record to the class of the tag.  A record whose fields are of another
    class than its tag says is not constructed by any code here; processing
    one is unspecified and shown as no step. *)
Definition CrsMessage_process (ms : Metaspace) (region : gmap Z CrsMessage) (this : Z)
    (msg : CrsMessage) (tlb : TLB) (agent : list Upcall) : TLB * list Upcall :=
  match _type msg, fields msg with
  | CRS_MESSAGE_CLASS_LOAD, ClassLoad f => CrsClassLoadMessage_process ms region this f tlb agent
  | CRS_MESSAGE_CLASS_LOAD_BLOWN, ClassLoadBlown f =>
      (tlb, CrsClassLoadMessageBlown_process f agent)
  | CRS_MESSAGE_FIRST_CALL, FirstCall f => (tlb, CrsFirstCallMessage_process ms f agent)
  | CRS_MESSAGE_FIRST_CALL_BLOWN, FirstCallBlown f =>
      (tlb, CrsFirstCallMessageBlown_process f agent)
  | CRS_MESSAGE_DELETED, _ => (tlb, agent)
  | _, _ => (tlb, agent)
  end.

(** The loop of [MessageClosure::tlb_do]: from [p] up to [f], the step over
    a record taken before [message_do] sees it.  A record of size 0 stops
    the advance and the loop spins; one round for each byte of the buffer
    is more than a walk that advances needs, and [None] stands for the walk
    that does not end (or reads where no record was constructed). *)
Fixpoint MessageClosure_walk {St} (fuel : nat) (region : gmap Z CrsMessage)
    (message_do : Z → CrsMessage → St → St) (p f : Z) (s : St) : option St :=
  if decide (p < f) then
    match fuel with
    | O => None
    | S fuel' =>
        match region !! p with
        | None => None
        | Some msg =>
            MessageClosure_walk fuel' region message_do (p + walk_step msg) f
              (message_do p msg s)
        end
    end
  else Some s.

(** [TLBFlushClosure]: [tlb_do] with [message_do] calling [process]. *)
Definition TLBFlushClosure (ms : Metaspace) (region : gmap Z CrsMessage)
    : TLBClosure (list Upcall) :=
  λ _ tlb agent,
    let p := _base tlb in
    let f := p + _pos tlb in
    MessageClosure_walk (S (Z.to_nat (_pos tlb))) region
      (λ this msg '(tlb, agent), CrsMessage_process ms region this msg tlb agent)
      p f (tlb, agent).

(** [NativeMemory::flush]. *)
Definition NativeMemory_flush (vm : VM) : option VM :=
  let m := manager vm in
  let next_target := uintx (_previous_usage (memory vm) + bytes_used m) / 2 in
  let vm := set_previous_usage (bytes_used m) vm in
  let before := bytes_used m in
  match flush_buffers (TLBFlushClosure (metaspace vm) (region vm)) next_target m (os vm)
          (agent vm) with
  | None => None
  | Some (m, os', agent') =>
      let vm := set_agent agent' (set_os os' (set_manager m vm)) in
      if _overflow (memory vm)
      then Some (set_overflow false
                   (set_tty (tty vm ++ [overflow_data_is_lost before (bytes_used m)]) vm))
      else Some vm
  end.

(** [TLBReleaseClosure::tlb_do], on the TLB and the threads' buffer
    pointers, and [NativeMemory::release_buffers]. *)
Definition TLBReleaseClosure (b : nat) (tlb : TLB) (locals : gmap Thread nat)
    : TLB * gmap Thread nat :=
  match _owner tlb with
  | Some owner => (TLB_release tlb, set_buffer owner None locals)
  | None => (tlb, locals)
  end.

Definition NativeMemory_release_buffers (vm : VM) : VM :=
  let '(m, locals) := leased_buffers_do TLBReleaseClosure (manager vm) (crs_thread_locals vm) in
  set_thread_locals locals (set_manager m vm).

(** [NativeMemory::NativeMemory(size)]. *)
Definition NativeMemory_ctor (size : Z) (os : OS) : option (NativeMemory * OS * bool) :=
  match TLBManager_ctor size os with
  | None => None
  | Some (m, os, ok) => Some (mkNativeMemory m (bytes_committed m) false, os, ok)
  end.

(** ** ConnectedRuntime: the entry points *)

(** [VM_CRSOperation] and its execution by [VMThread::execute].  The latter
    is HotSpot's (runtime/vmThread.cpp): it evaluates [doit_prologue] in the
    requesting thread, cancels the operation when the answer is false, and
    otherwise runs [doit] with every other thread stopped, which is why
    [doit] is one step here. *)
Record VM_CRSOperation := mkVM_CRSOperation {
  _op_pre : option (VM → bool);
  _op_do : VM → VM;
  _and_stop : bool }.

Definition doit_prologue (op : VM_CRSOperation) (vm : VM) : bool :=
  match _op_pre op with
  | None => true
  | Some pre => pre vm
  end.

Definition doit (op : VM_CRSOperation) (vm : VM) : VM :=
  let vm := _op_do op vm in
  if _and_stop op then set_should_notify false false vm else vm.

Definition VMThread_execute (op : VM_CRSOperation) (vm : VM) : VM :=
  if doit_prologue op vm then doit op vm else vm.

Definition release_buffers_pre (vm : VM) : bool := bool_decide (bytes_used (manager vm) > 0).

Definition release_buffers_do (vm : VM) : VM := NativeMemory_release_buffers vm.

(** [ConnectedRuntime::flush_buffers]. *)
Definition ConnectedRuntime_flush_buffers (force and_stop : bool) (vm : VM) : option VM :=
  if negb (_is_init vm) then Some vm
  else
    let vm :=
      if force then
        VMThread_execute
          (mkVM_CRSOperation (Some release_buffers_pre) release_buffers_do and_stop) vm
      else vm in
    NativeMemory_flush vm.

(** [ConnectedRuntime::notify_class_load] and [notify_first_call]. *)
Definition notify_class_load (ikh : nat) (hash source : option (list byte)) (thread : Thread)
    (vm : VM) : VM :=
  if UseCRS vm && CrsClassLoadMessage_should_notify vm
  then CrsClassLoadMessage_post ikh hash source thread vm
  else vm.

Definition notify_first_call (thread : Thread) (method : nat) (vm : VM) : VM :=
  if UseCRS vm && CrsFirstCallMessage_should_notify vm
  then CrsFirstCallMessage_post method thread vm
  else vm.

(** The values of [CrsNotificationType] that [setNativeEventFilter] knows. *)
Definition CRS_DRAIN_QUEUE_AND_STOP_COMMAND : Z := -101.
Definition CRS_DRAIN_QUEUE_COMMAND : Z := -100.
Definition CRS_USE_CRS_COMMAND : Z := -99.
Definition CRS_EVENT_TO_JAVA_CALL : Z := -98.
Definition CRS_MESSAGE_FIRST_CALL_value : Z := 1.

(** [crs_Agent001_setNativeEventFilter], the agent's native method, for the
    events that reach the buffers: the filter of first-call events and the
    two drain commands.  ([CRS_USE_CRS_COMMAND] tears the subsystem down and
    [CRS_EVENT_TO_JAVA_CALL] belongs to the event queue; neither is part of
    this model, and both are shown as no step.) *)
Definition setNativeEventFilter (event : Z) (enabled : bool) (vm : VM) : option VM :=
  if decide (event = CRS_MESSAGE_FIRST_CALL_value) then
    Some (set_should_notify (CrsClassLoadMessage_should_notify vm) enabled vm)
  else if decide (event = CRS_DRAIN_QUEUE_COMMAND ∨ event = CRS_DRAIN_QUEUE_AND_STOP_COMMAND) then
    ConnectedRuntime_flush_buffers enabled
      (bool_decide (event = CRS_DRAIN_QUEUE_AND_STOP_COMMAND)) vm
  else Some vm.

(** The notifications of the running program, as events of a trace. *)
Inductive Notification :=
| ClassLoaded (ikh : nat) (hash source : option (list byte)) (thread : Thread)
| FirstCalled (thread : Thread) (method : nat).

Definition notify (vm : VM) (n : Notification) : VM :=
  match n with
  | ClassLoaded ikh hash source thread => notify_class_load ikh hash source thread vm
  | FirstCalled thread method => notify_first_call thread method vm
  end.

(** ** Concrete inputs used by the examples below *)

(** One thread adds two Items. *)
Definition ops_two_adds : list AList.op := [(1%nat, AList.Add 10%nat); (1%nat, AList.Add 11%nat)].

(** Two threads: thread 1 adds Item 10, thread 2 splices the chain
    20 -> 21, thread 1 adds Item 11. *)
Definition ops_two_threads : list AList.op :=
  [(1%nat, AList.Add 10%nat); (2%nat, AList.AddList [20%nat; 21%nat]); (1%nat, AList.Add 11%nat)].

Definition links_two_threads : AList.links := {[ 20%nat := 21%nat ]}.

(** ** Predicates of the design specification *)

(** Conservation of the buffers, as the specification states it: every
    buffer is on the free, the leased or the uncommitted list, and the
    committed counter counts the free and the leased ones. *)
Definition conservation (m : TLBManager) : Prop :=
  Z.of_nat (length (_free_list m) + length (_leased_list m) + length (_uncommitted_list m))
    = _buffers_count m
  ∧ _num_committed m = Z.of_nat (length (_free_list m) + length (_leased_list m)).

(** A pool between two operations: no flush has buffers put aside. *)
Definition quiescent (m : TLBManager) : Prop := _not_finished m = [].

(** ** Bringing the subsystem up *)

(** [ConnectedRuntime::init] with [UseCRS] set: [memory = new
    NativeMemory(CRSNativeMemoryAreaSize)]; a pool that did not come up has
    cleared [UseCRS].  [engage], for an agent that starts, sets
    [_is_init]. *)
Definition ConnectedRuntime_init (CRSNativeMemoryAreaSize : Z) (os : OS) (ms : Metaspace)
    : option VM :=
  match NativeMemory_ctor CRSNativeMemoryAreaSize os with
  | None => None
  | Some (nm, os, ok) => Some (mkVM nm ∅ ∅ os ms [] [] ok false true true)
  end.

Definition ConnectedRuntime_engage (vm : VM) : VM :=
  if UseCRS vm then
    mkVM (memory vm) (region vm) (crs_thread_locals vm) (os vm) (metaspace vm) (agent vm) (tty vm)
      (UseCRS vm) true (CrsClassLoadMessage_should_notify vm)
      (CrsFirstCallMessage_should_notify vm)
  else vm.

Definition no_metaspace : Metaspace := mkMetaspace ∅ ∅.

(** An operating system with 4 KiB pages whose calls all succeed, one whose
    first [uncommit_memory] fails, and one with 64 KiB pages. *)
Definition os_4K : OS := mkOS 4096 [] [].
Definition os_4K_uncommit_fails : OS := mkOS 4096 [] [false].
Definition os_64K : OS := mkOS 65536 [] [].

(** A pool of four buffers of 8 KiB, as the constructor builds it for an
    area of 32 KiB on 4 KiB pages. *)
Definition pool_32K : TLBManager :=
  match TLBManager_ctor (32 * K) os_4K with
  | Some (m, _, _) => m
  | None => mkTLBManager [] [] [] ∅ 0 0 0 0 0 []
  end.


(** A small metaspace: class 1, named [A], with trace id 7 and loader 3;
    class 2, named [B]; method 5 of class 1, [m()V]. *)
Definition A_name : list byte := [x41].
Definition B_name : list byte := [x42].

Definition metaspace_AB : Metaspace :=
  mkMetaspace
    {[ 1%nat := mkInstanceKlass A_name 7 3; 2%nat := mkInstanceKlass B_name 8 3 ]}
    {[ 5%nat := mkMethod [x6d] [x28; x29; x56] 1%nat ]}.

(** A subsystem with two buffers of 8 KiB, initialised and engaged; then
    threads 1 and 2 have each recorded a first call (and hold a buffer
    each), and thread 3 has found no buffer left. *)
Definition vm_two_buffers : VM :=
  match ConnectedRuntime_init (16 * K) os_4K metaspace_AB with
  | Some vm => ConnectedRuntime_engage vm
  | None => mkVM (mkNativeMemory pool_32K 0 false) ∅ ∅ os_4K metaspace_AB [] [] false false
              false false
  end.

Definition vm_overflowed : VM :=
  foldl notify vm_two_buffers
    [FirstCalled 1%nat 5%nat; FirstCalled 2%nat 5%nat; FirstCalled 3%nat 5%nat].

(** The walk of [MessageClosure::tlb_do] over a buffer comes to its end:
    from [_base] it meets a record of non-zero size at every step until it
    has passed [_pos] bytes. *)
Definition walkable (region : gmap Z CrsMessage) (t : TLB) : Prop :=
  is_Some (MessageClosure_walk (S (Z.to_nat (_pos t))) region (λ _ _ (s : unit), s)
             (_base t) (_base t + _pos t) tt).

(** A subsystem on 64 KiB pages with an area of 1 MiB: the buffers are of
    65536 bytes.  A class whose source string has 65475 bytes gives a record
    of 60 + 65475 + 1 = 65536 bytes. *)
Definition vm_64K_pages : VM :=
  match ConnectedRuntime_init (1024 * K) os_64K metaspace_AB with
  | Some vm => ConnectedRuntime_engage vm
  | None => vm_two_buffers
  end.

Definition source_65475 : list byte := replicate (Z.to_nat 65475) x61.

(** ** The forms of a class-load record *)

(** The source string the back-reference slot of a buffer stands for: that
    of the record it points to, when that record carries one. *)
Definition slot_source (vm : VM) (b : nat) : option (list byte) :=
  match TLB_reference_message CRS_MESSAGE_BACK_REFERENCE_CLASS_LOAD (tlb (manager vm) b) with
  | Some a =>
      if cl_has_source (class_load_at (region vm) a)
      then Some (c_str (cl_source (class_load_at (region vm) a)))
      else None
  | None => None
  end.

(** A full record carries its source string; a record in reference form
    says "the same source as the record in the slot" and has the fixed size
    of the class. *)
Definition full_form (msg : CrsMessage) (s : list byte) : Prop :=
  _type msg = CRS_MESSAGE_CLASS_LOAD
  ∧ cl_has_source (as_ClassLoad msg) = true
  ∧ cl_has_same_source (as_ClassLoad msg) = false
  ∧ c_str (cl_source (as_ClassLoad msg)) = s.

Definition reference_form (msg : CrsMessage) : Prop :=
  _type msg = CRS_MESSAGE_CLASS_LOAD
  ∧ cl_has_source (as_ClassLoad msg) = false
  ∧ cl_has_same_source (as_ClassLoad msg) = true
  ∧ _size msg = sizeof_CrsClassLoadMessage.

(** The size of a full record for a source string. *)
Definition full_size (s : list byte) : Z := offset_of_source + (Z.of_nat (length s) + 1).

(** Source strings: [ab], fifty [a] and fifty [b]. *)
Definition source_ab : list byte := [x61; x62].
Definition source_50a : list byte := replicate 50 x61.
Definition source_50b : list byte := replicate 50 x62.

(** Thread 1 has recorded a first call and holds buffer 0, written up to
    byte 24. *)
Definition vm_thread_1 : VM := notify vm_two_buffers (FirstCalled 1%nat 5%nat).

(** The design specification's reading of the reference form: the second
    record is smaller than the first. *)
Definition second_is_smaller (region : gmap Z CrsMessage) (p1 p2 : Z) : Prop :=
  ∃ r1 r2, region !! p1 = Some r1 ∧ region !! p2 = Some r2 ∧ _size r2 < _size r1.

(** A subsystem with two buffers of [size] bytes each: an area of twice
    [size] on pages of [size] bytes, initialised and engaged.  The pool the
    constructor builds then is [pool_of_two]: both buffers committed and
    free. *)
Definition vm_of_two (size : Z) : VM :=
  match ConnectedRuntime_init (2 * size) (mkOS size [] []) metaspace_AB with
  | Some vm => ConnectedRuntime_engage vm
  | None => vm_two_buffers
  end.

Definition pool_of_two (size : Z) : TLBManager :=
  mkTLBManager [0; 1]%nat [] []
    {[ 0%nat := mkTLB 0 0 None None; 1%nat := mkTLB 0 size None None ]}
    size 2 2 (2 * size) 0 [].

(** The three events of the example scenario, posted by thread 1: two
    classes from the same source of 50 bytes, then one from another. *)
Definition three_class_loads : list Notification :=
  [ClassLoaded 1%nat None (Some source_50a) 1%nat;
   ClassLoaded 2%nat None (Some source_50a) 1%nat;
   ClassLoaded 1%nat None (Some source_50b) 1%nat].

(** The state after the first [n] events of the scenario. *)
Definition after_events (vm : VM) (n : nat) : VM := foldl notify vm (take n three_class_loads).

(** The design specification's reading of the scenario, after the second
    event: thread 1 has moved to buffer 2 (index 1), and the record at its
    start is in reference form. *)
Definition second_event_is_reference_in_buffer_2 (vm : VM) : Prop :=
  buffer_of 1%nat vm = Some 1%nat
  ∧ ∃ r, region vm !! _base (tlb (manager vm) 1%nat) = Some r ∧ reference_form r.

(** Thread 1, holding buffer 0, loads two classes from the same source. *)
Definition same_source_twice (s : list byte) : VM :=
  foldl notify vm_thread_1
    [ClassLoaded 1%nat None (Some s) 1%nat; ClassLoaded 2%nat None (Some s) 1%nat].

(** ** After a flush: the program and the agent go on *)

(** What can happen next: the running program notifies of a class load or
    of a first call, or the agent calls [setNativeEventFilter]. *)
Inductive Step :=
| Notify (n : Notification)
| Filter (event : Z) (enabled : bool).

Definition step (vm : VM) (s : Step) : option VM :=
  match s with
  | Notify n => Some (notify vm n)
  | Filter event enabled => setNativeEventFilter event enabled vm
  end.

Fixpoint run_steps (vm : VM) (l : list Step) : option VM :=
  match l with
  | [] => Some vm
  | s :: l =>
      match step vm s with
      | Some vm' => run_steps vm' l
      | None => None
      end
  end.

(** The operation that [ConnectedRuntime::flush_buffers] hands to the VM
    thread when [force] is set. *)
Definition release_buffers_op (and_stop : bool) : VM_CRSOperation :=
  mkVM_CRSOperation (Some release_buffers_pre) release_buffers_do and_stop.

(** Record production is off: neither kind of event is recorded. *)
Definition production_off (vm : VM) : Prop :=
  CrsClassLoadMessage_should_notify vm = false ∧ CrsFirstCallMessage_should_notify vm = false.

(** The design specification's reading of the forced flush with stop: from
    the state it leaves, no notification writes a record, whatever else
    happens in between. *)
Definition production_stays_off (vm : VM) : Prop :=
  ∀ l vm1 n, run_steps vm l = Some vm1 → region (notify vm1 n) = region vm1.

(** ** The arguments of the subsystem *)

(** The characters of a string literal of the source. *)
Definition chars (s : string) : list byte := String.list_byte_of_string s.

Definition ARGS_ENV_VAR_NAME : list byte := chars "CRS_ARGUMENTS".
Definition USE_CRS_ARGUMENT : list byte := chars "useCRS".
Definition UNLOCK_CRS_ARGUMENT : list byte := chars "UnlockExperimentalCRS".
Definition USE_CRS_FORCE : list byte := chars "force".
Definition USE_CRS_AUTO : list byte := chars "auto".

Definition COMMA : byte := x2c.
Definition EQUALS : byte := x3d.

(** [ConnectedRuntime::LogLevel], in the order of the enumeration. *)
Inductive LogLevel :=
| CRS_LOG_LEVEL_TRACE
| CRS_LOG_LEVEL_DEBUG
| CRS_LOG_LEVEL_INFO
| CRS_LOG_LEVEL_WARNING
| CRS_LOG_LEVEL_ERROR
| CRS_LOG_LEVEL_OFF
| CRS_LOG_LEVEL_NOT_SET.

#[global] Instance LogLevel_eq_dec : EqDecision LogLevel.
Proof. solve_decision. Defined.

Definition LogLevel_value (l : LogLevel) : Z :=
  match l with
  | CRS_LOG_LEVEL_TRACE => 0
  | CRS_LOG_LEVEL_DEBUG => 1
  | CRS_LOG_LEVEL_INFO => 2
  | CRS_LOG_LEVEL_WARNING => 3
  | CRS_LOG_LEVEL_ERROR => 4
  | CRS_LOG_LEVEL_OFF => 5
  | CRS_LOG_LEVEL_NOT_SET => 6
  end.

(** [static_cast<LogLevel>(i)] for the indices of [values]. *)
Definition LogLevel_of_index (i : nat) : LogLevel :=
  match i with
  | 0 => CRS_LOG_LEVEL_TRACE
  | 1 => CRS_LOG_LEVEL_DEBUG
  | 2 => CRS_LOG_LEVEL_INFO
  | 3 => CRS_LOG_LEVEL_WARNING
  | 4 => CRS_LOG_LEVEL_ERROR
  | 5 => CRS_LOG_LEVEL_OFF
  | _ => CRS_LOG_LEVEL_NOT_SET
  end%nat.

(** [strchr(s, c)] for a character [c] other than NUL: the offset of its
    first occurrence in the string, if any. *)
Fixpoint index_of (c : byte) (s : list byte) : option nat :=
  match s with
  | [] => None
  | x :: s' => if decide (x = c) then Some 0%nat else S <$> index_of c s'
  end.

Definition strchr (s : list byte) (c : byte) : option nat := index_of c (c_str s).

(** [strncmp(a, b, n) == 0]: the two strings, each with its terminator,
    agree on their first [n] characters (the comparison ends at a
    terminator that both have). *)
Definition strncmp_eq (a b : list byte) (n : nat) : bool :=
  bool_decide (take n (c_str a ++ [NUL]) = take n (c_str b ++ [NUL])).

(** [strnequals(value1, value2, value2_len)]:
    [!strncmp(value1, value2, value2_len) && !value1[value2_len]]. *)
Definition strnequals (value1 value2 : list byte) (value2_len : nat) : bool :=
  strncmp_eq value1 value2 value2_len
  && bool_decide ((c_str value1 ++ [NUL]) !! value2_len = Some NUL).

(** [ConnectedRuntime::parse_log_level]. *)
Definition log_level_values : list (list byte) :=
  [chars "trace"; chars "debug"; chars "info"; chars "warning"; chars "error"; chars "off"].

Fixpoint parse_log_level_from (i : nat) (values : list (list byte)) (var : LogLevel)
    (value : list byte) (value_len : nat) : LogLevel :=
  match values with
  | [] => var
  | v :: values' =>
      if strnequals v value value_len then LogLevel_of_index i
      else parse_log_level_from (S i) values' var value value_len
  end.

Definition parse_log_level (var : LogLevel) (value : list byte) (value_len : nat) : LogLevel :=
  parse_log_level_from 0 log_level_values var value value_len.

(** The locals of [ConnectedRuntime::parse_arguments]. *)
Record ParsedArguments := mkParsedArguments {
  global_log_level : LogLevel;
  vm_log_level : LogLevel;
  use_crs : bool;
  unlock_is_set : bool }.

Definition options : list (list byte) :=
  [chars "log"; chars "log+vm"; USE_CRS_ARGUMENT; UNLOCK_CRS_ARGUMENT].

(** The [switch (i)] on the index of the option. *)
Definition parse_option (i : nat) (value : list byte) (value_len : nat) (st : ParsedArguments)
    : ParsedArguments :=
  match i with
  | 0%nat =>
      mkParsedArguments (parse_log_level (global_log_level st) value value_len)
        (vm_log_level st) (use_crs st) (unlock_is_set st)
  | 1%nat =>
      mkParsedArguments (global_log_level st)
        (parse_log_level (vm_log_level st) value value_len) (use_crs st) (unlock_is_set st)
  | 2%nat =>
      if strnequals USE_CRS_AUTO value value_len || strnequals USE_CRS_FORCE value value_len
      then mkParsedArguments (global_log_level st) (vm_log_level st) true (unlock_is_set st)
      else st
  | _ => st
  end.

(** The loop over [options] for an argument with [=] before the comma:
    [equals] and [comma] are offsets from [arguments]. *)
Definition parse_key_value (arguments : list byte) (equals comma : nat) (st : ParsedArguments)
    : ParsedArguments :=
  foldl (λ st io,
           if strncmp_eq arguments io.2 equals
           then parse_option io.1 (drop (S equals) arguments) (comma - S equals) st
           else st)
        st (imap pair options).

(** The other branch: an argument without [=]. *)
Definition parse_flag (arguments : list byte) (comma : nat) (st : ParsedArguments)
    : ParsedArguments :=
  if strnequals USE_CRS_ARGUMENT arguments comma
  then mkParsedArguments (global_log_level st) (vm_log_level st) true (unlock_is_set st)
  else if strnequals UNLOCK_CRS_ARGUMENT arguments comma
  then mkParsedArguments (global_log_level st) (vm_log_level st) (use_crs st) true
  else st.

(** The loop [while (true)] of [parse_arguments], one round for each unit
    of fuel; [None] when the fuel runs out. *)
Fixpoint parse_arguments_loop (fuel : nat) (arguments : list byte) (st : ParsedArguments)
    : option ParsedArguments :=
  match fuel with
  | O => None
  | S fuel' =>
      let equals := strchr arguments EQUALS in
      let '(comma, at_end) :=
        match strchr arguments COMMA with
        | Some n => (n, false)
        | None => (Z.to_nat (strlen arguments), true)
        end in
      let st :=
        match equals with
        | Some e =>
            if decide (e < comma)%nat then parse_key_value arguments e comma st
            else parse_flag arguments comma st
        | None => parse_flag arguments comma st
        end in
      if at_end then Some st else parse_arguments_loop fuel' (drop (S comma) arguments) st
  end.

(** [ConnectedRuntime::parse_arguments], on the flag [UseCRS] and on
    [_log_level].  A string of n characters has at most n commas. *)
Definition parse_arguments (arguments : list byte) (needs_unlock : bool)
    (flags : bool * LogLevel) : option (bool * LogLevel) :=
  let '(UseCRS, _log_level) := flags in
  match parse_arguments_loop (S (length arguments)) arguments
          (mkParsedArguments CRS_LOG_LEVEL_NOT_SET CRS_LOG_LEVEL_NOT_SET false false) with
  | None => None
  | Some st =>
      let UseCRS :=
        if use_crs st && (negb needs_unlock || unlock_is_set st) then true else UseCRS in
      let _log_level :=
        if decide (vm_log_level st ≠ CRS_LOG_LEVEL_NOT_SET) then vm_log_level st
        else if decide (global_log_level st ≠ CRS_LOG_LEVEL_NOT_SET) then global_log_level st
        else _log_level in
      Some (UseCRS, _log_level)
  end.

(** [ConnectedRuntime::parse_options]: [env] is the value of the
    environment variable [CRS_ARGUMENTS] when [os::getenv] returns it,
    [CRSArguments] the value of the VM option, when given. *)
Definition parse_options (env CRSArguments : option (list byte)) (flags : bool * LogLevel)
    : option (bool * LogLevel) :=
  match
    match env with
    | Some env_args => parse_arguments env_args true flags
    | None => Some flags
    end
  with
  | None => None
  | Some flags =>
      match CRSArguments with
      | Some a => parse_arguments a false flags
      | None => Some flags
      end
  end.

(** The comma-separated pieces of a string: what the rounds of the loop
    of [parse_arguments] see one after the other. *)
Fixpoint pieces (s : list byte) : list (list byte) :=
  match s with
  | [] => [[]]
  | c :: s' =>
      if decide (c = COMMA) then [] :: pieces s'
      else
        match pieces s' with
        | p :: ps => (c :: p) :: ps
        | [] => [[c]]
        end
  end.

(** One round of the loop on a piece. *)
Definition parse_piece (st : ParsedArguments) (piece : list byte) : ParsedArguments :=
  match index_of EQUALS piece with
  | Some e => parse_key_value piece e (length piece) st
  | None => parse_flag piece (length piece) st
  end.

(** ** The event queue of the service thread *)

(** A [CRSToJavaCallEvent] on the C heap.  The constructor of [CRSEvent]
    does not initialise [next]: [None] is a field that was never written,
    and reading it is an error of the model. *)
Record CRSToJavaCallEvent := mkCRSToJavaCallEvent {
  ev_next : option nat;
  ev_name : list byte }.

(** [event_queue_tail], a [CRSEvent **]: the address of [event_queue_head]
    or of the [next] field of an event. *)
Inductive TailRef :=
| AtHead
| AtNext (e : nat).

#[global] Instance TailRef_eq_dec : EqDecision TailRef.
Proof. solve_decision. Defined.

(** The heap of events, the queue, [ConnectedRuntime::_should_notify],
    [_is_init], [CRSToJavaCallEvent::_should_notify], the number of
    [Service_lock->notify_all()] calls and the names the agent's
    [notifyToJavaCall] was called with. *)
Record Service := mkService {
  events : gmap nat CRSToJavaCallEvent;
  event_queue_head : option nat;
  event_queue_tail : TailRef;
  should_notify_java : bool;
  service_is_init : bool;
  to_java_call_should_notify : bool;
  notify_all_calls : nat;
  to_java_calls : list (list byte) }.

Definition DOT : byte := x2e.

(** [CRSToJavaCallEvent::CRSToJavaCallEvent(holder_symbol, method_symbol)]:
    the array [name]. *)
Definition CRSToJavaCallEvent_name (holder_symbol method_symbol : list byte) : list byte :=
  let holder_name_length := Z.of_nat (length holder_symbol) in
  let method_name_length := Z.of_nat (length method_symbol) in
  let name := replicate (Z.to_nat (holder_name_length + 1 + method_name_length + 1)) NUL in
  let name := write_at name 0 (as_C_string holder_symbol (holder_name_length + 1)) in
  let name := write_at name holder_name_length [DOT] in
  write_at name (holder_name_length + 1) (as_C_string method_symbol (method_name_length + 1)).

(** [new CRSToJavaCallEvent(...)]: a cell the heap does not hold yet. *)
Definition new_event (s : Service) : nat := fresh (dom (events s)).

(** [ConnectedRuntime::schedule(event)], the event being the cell [e] of
    the heap. *)
Definition schedule (e : nat) (s : Service) : Service :=
  let evs :=
    match event_queue_tail s with
    | AtHead => events s
    | AtNext t => alter (λ c, mkCRSToJavaCallEvent (Some e) (ev_name c)) t (events s)
    end in
  let head :=
    match event_queue_tail s with
    | AtHead => Some e
    | AtNext _ => event_queue_head s
    end in
  mkService evs head (AtNext e) true (service_is_init s) (to_java_call_should_notify s)
    (if service_is_init s then S (notify_all_calls s) else notify_all_calls s)
    (to_java_calls s).

(** [ConnectedRuntime::notify_tojava_call]: [UseCRS] is the flag, [skip]
    says that the method is an initializer or a static initializer, or
    that its holder is the agent's class. *)
Definition notify_tojava_call (UseCRS skip : bool) (holder_symbol method_symbol : list byte)
    (s : Service) : Service :=
  if negb UseCRS || negb (service_is_init s) || negb (to_java_call_should_notify s) then s
  else if skip then s
  else
    let e := new_event s in
    let s :=
      mkService
        (<[e := mkCRSToJavaCallEvent None
                  (CRSToJavaCallEvent_name holder_symbol method_symbol)]> (events s))
        (event_queue_head s) (event_queue_tail s) (should_notify_java s) (service_is_init s)
        (to_java_call_should_notify s) (notify_all_calls s) (to_java_calls s) in
    schedule e s.

(** [CRSToJavaCallEvent::process] followed by [delete e]. *)
Definition process_and_delete (e : nat) (s : Service) : Service :=
  let calls :=
    match events s !! e with
    | Some c =>
        if to_java_call_should_notify s then to_java_calls s ++ [c_str (ev_name c)]
        else to_java_calls s
    | None => to_java_calls s
    end in
  mkService (delete e (events s)) (event_queue_head s) (event_queue_tail s)
    (should_notify_java s) (service_is_init s) (to_java_call_should_notify s)
    (notify_all_calls s) calls.

(** One round of the loop of [ConnectedRuntime::notify_java]: the state
    after it and whether the loop goes on ([more] and no [break]); [None]
    when the round reads a pointer that was never written or an event
    that is not on the heap. *)
Definition notify_java_round (s : Service) : option (Service * bool) :=
  let s := mkService (events s) (event_queue_head s) (event_queue_tail s) false
             (service_is_init s) (to_java_call_should_notify s) (notify_all_calls s)
             (to_java_calls s) in
  if decide (event_queue_tail s = AtHead) then Some (s, false)
  else
    match event_queue_head s with
    | None => None
    | Some e =>
        match events s !! e with
        | None => None
        | Some c =>
            if decide (event_queue_tail s = AtNext e) then
              let s := mkService (events s) (event_queue_head s) AtHead (should_notify_java s)
                         (service_is_init s) (to_java_call_should_notify s)
                         (notify_all_calls s) (to_java_calls s) in
              Some (process_and_delete e s, false)
            else
              match ev_next c with
              | None => None
              | Some n =>
                  let s := mkService (events s) (Some n) (event_queue_tail s)
                             (should_notify_java s) (service_is_init s)
                             (to_java_call_should_notify s) (notify_all_calls s)
                             (to_java_calls s) in
                  Some (process_and_delete e s, true)
              end
        end
    end.

(** [ConnectedRuntime::notify_java], when no other thread schedules an
    event meanwhile. *)
Fixpoint notify_java_loop (fuel : nat) (s : Service) : option Service :=
  match fuel with
  | O => None
  | S fuel' =>
      match notify_java_round s with
      | None => None
      | Some (s', more) => if more then notify_java_loop fuel' s' else Some s'
      end
  end.

Definition notify_java (fuel : nat) (s : Service) : option Service :=
  if negb (service_is_init s) then Some s else notify_java_loop fuel s.

(** The events the queue holds, from the first to the last: [head] and the
    [next] fields lead from one to the next, and [tail] is the address of
    the field after the last. *)
Definition queue_holds (s : Service) (l : list nat) : Prop :=
  NoDup l
  ∧ event_queue_tail s = match last l with Some t => AtNext t | None => AtHead end
  ∧ (l ≠ [] → event_queue_head s = head l)
  ∧ (∀ x, x ∈ l → is_Some (events s !! x))
  ∧ (∀ l1 a b l2, l = l1 ++ a :: b :: l2 → ev_next <$> events s !! a = Some (Some b)).

(** The events of a list carry the names of another, one for one. *)
Definition named (s : Service) (l : list nat) (names : list (list byte)) : Prop :=
  Forall2 (λ e n, (λ c, c_str (ev_name c)) <$> events s !! e = Some n) l names.

(** The service before any event: an empty queue. *)
Definition Service_init (is_init : bool) : Service :=
  mkService ∅ None AtHead false is_init true 0 [].

(** What the threads do to the queue: a thread calls into Java (and
    [notify_tojava_call] schedules an event), or the service thread makes
    one round of the loop of [notify_java]. *)
Inductive QueueStep :=
| ToJavaCall (holder_symbol method_symbol : list byte)
| ServiceRound.

Definition queue_step (s : Service) (st : QueueStep) : option Service :=
  match st with
  | ToJavaCall h m => Some (notify_tojava_call true false h m s)
  | ServiceRound => fst <$> notify_java_round s
  end.

Fixpoint queue_run (s : Service) (l : list QueueStep) : option Service :=
  match l with
  | [] => Some s
  | st :: l' =>
      match queue_step s st with
      | Some s' => queue_run s' l'
      | None => None
      end
  end.

(** A first-in first-out queue of names and the names delivered, and the
    same steps on it. *)
Definition fifo_step (q : list (list byte) * list (list byte)) (st : QueueStep)
    : list (list byte) * list (list byte) :=
  match st with
  | ToJavaCall h m => (q.1 ++ [h ++ [DOT] ++ m], q.2)
  | ServiceRound =>
      match q.1 with
      | [] => q
      | n :: pending => (pending, q.2 ++ [n])
      end
  end.

(** ** What the agent is to be told *)

(** [post] takes an empty source string for no source. *)
Definition normalized (source : option (list byte)) : option (list byte) :=
  match source with
  | Some [] => None
  | _ => source
  end.

(** The source that the back-reference slot of the buffer stands for after
    a notification, given the one it stood for before: a class-load event
    with a source makes it that source, any other event leaves it. *)
Definition source_after (cur : option (list byte)) (n : Notification) : option (list byte) :=
  match n with
  | ClassLoaded _ _ source _ =>
      match normalized source with
      | Some s => Some s
      | None => cur
      end
  | FirstCalled _ _ => cur
  end.

(** The upcall that the record of a notification makes when its buffer is
    processed.  A class-load event without a source is given the source
    the slot stands for. *)
Definition delivered (ms : Metaspace) (cur : option (list byte)) (n : Notification) : Upcall :=
  match n with
  | ClassLoaded ikh hash source _ =>
      notifyClassLoad (klass_name (klass_at ms ikh))
        ((λ h, memcpy h DL_SHA256) <$> hash)
        (klass_crs_trace_id (klass_at ms ikh))
        (class_loader_data_crs_trace_id (klass_at ms ikh))
        (source_after cur n)
  | FirstCalled _ method =>
      notifyFirstCall
        (klass_crs_trace_id (klass_at ms (method_holder (method_at ms method))))
        (method_name (method_at ms method) ++ method_signature (method_at ms method))
  end.

Fixpoint deliveries (ms : Metaspace) (cur : option (list byte)) (l : list Notification)
    : list Upcall :=
  match l with
  | [] => []
  | n :: l' => delivered ms cur n :: deliveries ms (source_after cur n) l'
  end.

(** An upper bound of the room the record of a notification takes. *)
Definition room_needed (n : Notification) : Z :=
  match n with
  | ClassLoaded _ _ source _ =>
      match normalized source with
      | Some s => align_up (Z.max sizeof_CrsClassLoadMessage (full_size s)) TLBManager_align
      | None => sizeof_CrsClassLoadMessage
      end
  | FirstCalled _ _ => sizeof_CrsFirstCallMessage
  end.

Definition rooms_needed (l : list Notification) : Z := foldr (λ n z, room_needed n + z) 0 l.

(** A notification of the thread [thread] whose strings are C strings. *)
Definition notification_of (ms : Metaspace) (thread : Thread) (n : Notification) : Prop :=
  match n with
  | ClassLoaded _ _ source th =>
      th = thread ∧ match source with Some s => is_c_string s | None => True end
  | FirstCalled th method =>
      th = thread
      ∧ is_c_string (method_name (method_at ms method))
      ∧ is_c_string (method_signature (method_at ms method))
  end.

(** The subsystem records events, and the thread [thread] holds the buffer
    [b], whose slot, if set, points below the position of the buffer. *)
Definition recording (vm : VM) (thread : Thread) (b : nat) : Prop :=
  UseCRS vm = true
  ∧ CrsClassLoadMessage_should_notify vm = true
  ∧ CrsFirstCallMessage_should_notify vm = true
  ∧ _overflow (memory vm) = false
  ∧ buffer_of thread vm = Some b
  ∧ 0 ≤ _pos (tlb (manager vm) b)
  ∧ _buffer_size (manager vm) ≤ 2 ^ 16
  ∧ (∀ a, _reference_message (tlb (manager vm) b) = Some a →
          a < _base (tlb (manager vm) b) + _pos (tlb (manager vm) b)).

(** The processing of the records of a buffer from [p] up to [f]:
    [MessageClosure::tlb_do] with [TLBFlushClosure::message_do]. *)
Definition process_records (ms : Metaspace) (region : gmap Z CrsMessage) (fuel : nat)
    (p f : Z) (t : TLB) (agent : list Upcall) : option (TLB * list Upcall) :=
  MessageClosure_walk fuel region
    (λ this msg '(tlb, agent), CrsMessage_process ms region this msg tlb agent)
    p f (t, agent).

(** The state after a record [r] that takes [al] bytes was written at the
    position of the buffer [b], the slot of the buffer becoming [slot]. *)
Definition written (vm : VM) (b : nat) (r : CrsMessage) (al : Z) (slot : option Z) : VM :=
  let t := tlb (manager vm) b in
  set_region (<[_base t + _pos t := r]> (region vm))
    (set_manager (set_tlb b (mkTLB (_pos t + al) (_base t) (_owner t) slot) (manager vm)) vm).

(** The slot of the TLB [t0] with which a buffer is processed follows the
    slot the buffer [b] had when it was written: they are the same
    whenever the latter stands for a source. *)
Definition follows (vm : VM) (b : nat) (t0 : TLB) : Prop :=
  slot_source vm b ≠ None → _reference_message t0 = _reference_message (tlb (manager vm) b).

(** The state in which [thread] has been leased the first buffer of the
    free list: what [lease_buffer] and [set_buffer] leave, before anything
    is written. *)
Definition leased_to (vm : VM) (thread : Thread) (b : nat) : VM :=
  set_thread_locals (set_buffer thread (Some b) (crs_thread_locals vm))
    (set_manager
       (lease_to b thread (set_free_list (tail (_free_list (manager vm))) (manager vm)))
       vm).

(** [ConnectedRuntime::notify_thread_exit]. *)
Definition notify_thread_exit (thread : Thread) (vm : VM) : VM :=
  NativeMemory_release_thread_buffer thread vm.

(** The subsystem records events, no buffer is leased, and the free list
    begins with the buffer [b]. *)
Definition idle (vm : VM) (thread : Thread) (b : nat) : Prop :=
  UseCRS vm = true
  ∧ CrsClassLoadMessage_should_notify vm = true
  ∧ CrsFirstCallMessage_should_notify vm = true
  ∧ _overflow (memory vm) = false
  ∧ buffer_of thread vm = None
  ∧ head (_free_list (manager vm)) = Some b
  ∧ _leased_list (manager vm) = []
  ∧ _not_finished (manager vm) = []
  ∧ _buffer_size (manager vm) ≤ 2 ^ 16.

(** The slot of the buffer [from_tlb] points to a full record of the
    source [s]. *)
Definition resolvable (region : gmap Z CrsMessage) (from_tlb : TLB) (s : list byte) : Prop :=
  ∃ a ra,
    _reference_message from_tlb = Some a ∧ region !! a = Some ra
    ∧ cl_source (as_ClassLoad ra) = strcpy s ∧ _size ra = full_size s
    ∧ full_size s < 2 ^ 16.

(** A class-load record as [post] constructs it: in full form with the
    size of its source, in reference form with a slot to resolve it, or
    without a source. *)
Definition as_posted (region : gmap Z CrsMessage) (from_tlb : TLB) (size : Z)
    (source : option (list byte)) (reference : option Z) : Prop :=
  match reference, source with
  | Some _, _ => ∃ s, is_c_string s ∧ resolvable region from_tlb s
  | None, Some s => is_c_string s ∧ size = full_size s ∧ size < 2 ^ 16
  | None, None => True
  end.

(** ** Eviction of metadata *)

(** An array of [Method] pointers: its elements, a NULL element being [None], and
    whether it lies in the shared archive.
    [Universe::the_empty_method_array()] is an array without elements:
    the loop over it finds nothing, as the comparison with it decides. *)
Record MethodArray := mkMethodArray {
  ma_methods : list (option nat);
  ma_is_shared : bool }.

(** [CrsClassLoadMessage::references]. *)
Definition CrsClassLoadMessage_references (f : ClassLoadFields) (ik : nat) : bool :=
  bool_decide (cl_klass f = ik).

(** [CrsFirstCallMessage::references], for a class, a method and an array
    of methods. *)
Definition CrsFirstCallMessage_references_klass (ms : Metaspace) (f : FirstCallFields)
    (ik : nat) : bool :=
  bool_decide (fc_holder_id f = klass_crs_trace_id (klass_at ms ik)).

Definition CrsFirstCallMessage_references_method (f : FirstCallFields) (m : nat) : bool :=
  bool_decide (fc_method f = m).

Definition CrsFirstCallMessage_references_methods (f : FirstCallFields)
    (methods : option MethodArray) : bool :=
  match methods with
  | Some a =>
      negb (ma_is_shared a)
      && existsb (λ method, match method with
                            | Some m => CrsFirstCallMessage_references_method f m
                            | None => false
                            end) (ma_methods a)
  | None => false
  end.

(** [MessageClosure::tlb_do] for a closure that writes to the buffers: the
    walk reads each record from the region as it is when the walk gets
    there, takes the step over it, and then calls [message_do]. *)
Fixpoint MessageClosure_walk_vm (fuel : nat) (message_do : Z → CrsMessage → VM → VM)
    (p f : Z) (vm : VM) : option VM :=
  if decide (p < f) then
    match fuel with
    | O => None
    | S fuel' =>
        match region vm !! p with
        | None => None
        | Some msg =>
            MessageClosure_walk_vm fuel' message_do (p + walk_step msg) f (message_do p msg vm)
        end
    end
  else Some vm.

Definition MessageClosure_tlb_do (message_do : nat → Z → CrsMessage → VM → VM) (b : nat)
    (vm : VM) : option VM :=
  let t := tlb (manager vm) b in
  MessageClosure_walk_vm (S (Z.to_nat (_pos t))) (message_do b) (_base t) (_base t + _pos t) vm.

(** [NativeMemory::buffers_do] and [TLBManager::leased_buffers_do] for such
    a closure: the buffers of the leased list as the list is when the loop
    begins (a buffer leased meanwhile is put before its head), then the
    buffers put aside during a flush. *)
Definition NativeMemory_buffers_do (tlb_do : nat → VM → option VM) (vm : VM) : option VM :=
  foldl (λ r b, match r with Some vm => tlb_do b vm | None => None end) (Some vm)
        (_leased_list (manager vm) ++ _not_finished (manager vm)).

(** [TLBKlassEvictionIntrospector::message_do], of the
    [notify_metaspace_eviction] for a class and its methods; [vm_thread]
    is [VMThread::vm_thread()]. *)
Definition TLBKlassEvictionIntrospector_message_do (ik : nat) (methods : option MethodArray)
    (vm_thread : Thread) (tlb : nat) (this : Z) (message : CrsMessage) (vm : VM) : VM :=
  match _type message with
  | CRS_MESSAGE_CLASS_LOAD =>
      if CrsClassLoadMessage_references (as_ClassLoad message) ik
      then CrsClassLoadMessage_blow tlb this vm_thread vm
      else vm
  | CRS_MESSAGE_FIRST_CALL =>
      if CrsFirstCallMessage_references_methods (as_FirstCall message) methods
         || CrsFirstCallMessage_references_klass (metaspace vm) (as_FirstCall message) ik
      then CrsFirstCallMessage_blow this vm_thread vm
      else vm
  | _ => vm
  end.

(** [ConnectedRuntime::notify_metaspace_eviction] for a class and its
    methods. *)
Definition notify_metaspace_eviction (ik : nat) (methods : option MethodArray)
    (vm_thread : Thread) (vm : VM) : option VM :=
  if negb (UseCRS vm) then Some vm
  else
    NativeMemory_buffers_do
      (MessageClosure_tlb_do (TLBKlassEvictionIntrospector_message_do ik methods vm_thread)) vm.

(** [TLBMethodEvictionIntrospector::message_do] and
    [ConnectedRuntime::notify_metaspace_eviction] for a method. *)
Definition TLBMethodEvictionIntrospector_message_do (m : nat) (vm_thread : Thread) (tlb : nat)
    (this : Z) (message : CrsMessage) (vm : VM) : VM :=
  match _type message with
  | CRS_MESSAGE_FIRST_CALL =>
      if CrsFirstCallMessage_references_method (as_FirstCall message) m
      then CrsFirstCallMessage_blow this vm_thread vm
      else vm
  | _ => vm
  end.

Definition notify_metaspace_eviction_method (m : nat) (vm_thread : Thread) (vm : VM)
    : option VM :=
  if negb (UseCRS vm) then Some vm
  else
    NativeMemory_buffers_do
      (MessageClosure_tlb_do (TLBMethodEvictionIntrospector_message_do m vm_thread)) vm.

(** The buffer [t'] begins, ends and has its slot where [t] has them. *)
Definition same_buffer (t t' : TLB) : Prop :=
  _base t' = _base t ∧ _pos t' = _pos t ∧ _reference_message t' = _reference_message t.

(** The buffers on the lists of the pool. *)
Definition all_buffers (m : TLBManager) : list nat :=
  _free_list m ++ _uncommitted_list m ++ _leased_list m ++ _not_finished m.

Definition in_use (m : TLBManager) : list nat := _leased_list m ++ _not_finished m.

(** *** What an eviction is to achieve *)

(** The record refers to the class [ik] or to one of [methods]: the test
    of the introspector of a class; and to the method [m]: that of the
    introspector of a method. *)
Definition refers_to_klass (ms : Metaspace) (ik : nat) (methods : option MethodArray)
    (msg : CrsMessage) : bool :=
  match _type msg with
  | CRS_MESSAGE_CLASS_LOAD => CrsClassLoadMessage_references (as_ClassLoad msg) ik
  | CRS_MESSAGE_FIRST_CALL =>
      CrsFirstCallMessage_references_methods (as_FirstCall msg) methods
      || CrsFirstCallMessage_references_klass ms (as_FirstCall msg) ik
  | _ => false
  end.

Definition refers_to_method (m : nat) (msg : CrsMessage) : bool :=
  match _type msg with
  | CRS_MESSAGE_FIRST_CALL => CrsFirstCallMessage_references_method (as_FirstCall msg) m
  | _ => false
  end.

(** An introspector with the test [refers]: a record that passes the test
    is blown. *)
Definition introspect (refers : CrsMessage → bool) (vm_thread : Thread) (tlb : nat) (this : Z)
    (message : CrsMessage) (vm : VM) : VM :=
  if refers message then
    match _type message with
    | CRS_MESSAGE_CLASS_LOAD => CrsClassLoadMessage_blow tlb this vm_thread vm
    | CRS_MESSAGE_FIRST_CALL => CrsFirstCallMessage_blow this vm_thread vm
    | _ => vm
    end
  else vm.

(** The records of a buffer: from [p], each record begins where the step
    over the one before ends, every step advances, and the last step ends
    at [f]. *)
Inductive chain (region : gmap Z CrsMessage) : Z → Z → list (Z * CrsMessage) → Prop :=
| chain_nil p : chain region p p []
| chain_cons p f msg l :
    region !! p = Some msg → 0 < walk_step msg →
    chain region (p + walk_step msg) f l →
    chain region p f ((p, msg) :: l).

(** The chain from [p] to [f], computed: [None] when there is none within
    [fuel] records. *)
Fixpoint records_of (fuel : nat) (region : gmap Z CrsMessage) (p f : Z)
    : option (list (Z * CrsMessage)) :=
  if decide (p = f) then Some []
  else
    match fuel with
    | O => None
    | S fuel' =>
        match region !! p with
        | None => None
        | Some msg =>
            if decide (0 < walk_step msg)
            then (λ l, (p, msg) :: l) <$> records_of fuel' region (p + walk_step msg) f
            else None
        end
    end.

(** A state with records: thread 1 has posted four events. *)
Definition vm_four_events : VM :=
  foldl notify vm_two_buffers
    [ClassLoaded 1%nat None (Some source_50a) 1%nat;
     ClassLoaded 2%nat None (Some source_50a) 1%nat;
     FirstCalled 1%nat 5%nat;
     ClassLoaded 1%nat None None 1%nat].

(** The size of the copy that [blow] would make of the record [msg] of the
    buffer [b]. *)
Definition blown_size_of (vm : VM) (b : nat) (msg : CrsMessage) : Z :=
  match _type msg with
  | CRS_MESSAGE_CLASS_LOAD =>
      blown_size (metaspace vm) (as_ClassLoad msg)
        (blown_source_size (region vm) (_size msg) (as_ClassLoad msg) (tlb (manager vm) b))
  | CRS_MESSAGE_FIRST_CALL => first_call_blown_size (metaspace vm) (as_FirstCall msg)
  | _ => 1
  end.

(** The copy fits a buffer and a header. *)
Definition fits (vm : VM) (b : nat) (msg : CrsMessage) : Prop :=
  blown_size_of vm b msg ≤ _buffer_size (manager vm) ∧ blown_size_of vm b msg < 2 ^ 16.

(** The buffer [b] holds a chain of records up to its position, none
    bigger than it may be, and each either does not pass the test [refers]
    or is at an address that is still [pending]; the position is aligned
    and within the buffer, and the slot points into the written part. *)
Definition records_ok (vm : VM) (refers : CrsMessage → bool) (pending : Z → Prop) (b : nat)
    : Prop :=
  let t := tlb (manager vm) b in
  0 ≤ _pos t ≤ _buffer_size (manager vm)
  ∧ (TLBManager_align | _pos t)
  ∧ (∀ a, _reference_message t = Some a → _base t ≤ a < _base t + _pos t)
  ∧ ∃ l, chain (region vm) (_base t) (_base t + _pos t) l
         ∧ Forall (λ '(a, msg), fits vm b msg ∧ (refers msg = false ∨ pending a)) l.

(** The pool as the constructor and the leases leave it: the buffers are
    of one size, each on one list only, buffer [i] begins [i] buffer sizes
    above the base of the area, and the buffer of the VM thread, if it
    has one, is a leased one. *)
Definition pool_geometry (vm : VM) (vm_thread : Thread) : Prop :=
  let m := manager vm in
  0 < _buffer_size m ≤ 2 ^ 16
  ∧ (TLBManager_align | _buffer_size m)
  ∧ NoDup (all_buffers m)
  ∧ Forall (λ b, _base (tlb m b) = Z.of_nat b * _buffer_size m) (all_buffers m)
  ∧ (∀ b, buffer_of vm_thread vm = Some b → b ∈ in_use m).

(** A state in which metadata can be evicted. *)
Definition evictable (vm : VM) (vm_thread : Thread) : Prop :=
  pool_geometry vm vm_thread
  ∧ Forall (records_ok vm (λ _, true) (λ _, True)) (in_use (manager vm)).

(** After the eviction: no record of a leased buffer passes the test. *)
Definition evicted (vm : VM) (refers : CrsMessage → bool) : Prop :=
  Forall (records_ok vm refers (λ _, False)) (in_use (manager vm)).

(** ** A record bigger than a buffer *)

(** A source string of 9000 bytes: the full record of a class load with it
    takes 60 + 9000 + 1 = 9061 bytes, more than a buffer of 8 KiB. *)
Definition source_9000 : list byte := replicate 9000 x61.

(** On the subsystem with two buffers of 8 KiB thread 1, which holds no
    buffer, has recorded the load of class 1 from that source. *)
Definition vm_long_source : VM :=
  notify_class_load 1%nat None (Some source_9000) 1%nat vm_two_buffers.

(* ===================================================================== *)
(** * Part II: lemmas and theorems                                        *)
(* ===================================================================== *)

(** ** Alignment *)

Lemma align_up_ge (x a : Z) : 0 < a → x ≤ align_up x a.
Proof.
  intros Ha. unfold align_up.
  pose proof (Z.div_mod (x + (a - 1)) a ltac:(lia)) as Hdm.
  pose proof (Z.mod_pos_bound (x + (a - 1)) a Ha) as Hm.
  nia.
Qed.

Lemma align_up_lt (x a : Z) : 0 < a → align_up x a < x + a.
Proof.
  intros Ha. unfold align_up.
  pose proof (Z.div_mod (x + (a - 1)) a ltac:(lia)) as Hdm.
  pose proof (Z.mod_pos_bound (x + (a - 1)) a Ha) as Hm.
  nia.
Qed.

Lemma align_up_divide (x a : Z) : (a | align_up x a).
Proof. unfold align_up. apply Z.divide_factor_r. Qed.

Lemma align_up_multiple (x a : Z) : 0 < a → (a | x) → align_up x a = x.
Proof.
  intros Ha [k ->]. unfold align_up.
  replace (k * a + (a - 1)) with ((a - 1) + k * a) by lia.
  rewrite Z.div_add by lia. rewrite (Z.div_small (a - 1) a) by lia. lia.
Qed.

Lemma align_up_le_multiple (x a b : Z) : 0 < a → (a | b) → x ≤ b → align_up x a ≤ b.
Proof.
  intros Ha [k ->] Hx. unfold align_up.
  assert ((x + (a - 1)) / a < k + 1); [|nia].
  apply Z.div_lt_upper_bound; [lia|]. nia.
Qed.

Lemma align_up_0 (a : Z) : 0 < a → align_up 0 a = 0.
Proof. intros Ha. apply align_up_multiple; [done|]. apply Z.divide_0_r. Qed.

Lemma align_up_pos (x a : Z) : 0 < a → 0 < x → a ≤ align_up x a.
Proof.
  intros Ha Hx. pose proof (align_up_ge x a Ha).
  destruct (align_up_divide x a) as [k Hk]. rewrite Hk in *.
  assert (1 ≤ k) by (destruct (decide (1 ≤ k)); [done|nia]). nia.
Qed.

(** The bit formula of the macro agrees with the arithmetic one. *)
Lemma align_up_mask_eq (x : Z) (n : Z) :
  0 ≤ n → align_up_mask x (2 ^ n) = align_up x (2 ^ n).
Proof.
  intros Hn. unfold align_up_mask, align_up.
  rewrite <- Z.ldiff_land.
  replace (2 ^ n - 1) with (Z.ones n) by (rewrite Z.ones_equiv; lia).
  rewrite Z.ldiff_ones_r by done.
  rewrite Z.shiftl_mul_pow2, Z.shiftr_div_pow2 by done. done.
Qed.

(** ** C strings *)

Lemma c_str_app_NUL (s rest : list byte) :
  is_c_string s → c_str (s ++ NUL :: rest) = s.
Proof.
  unfold is_c_string. induction s as [|c s IH]; intros Hs; simpl.
  - done.
  - rewrite not_elem_of_cons in Hs. destruct Hs as [Hc Hs].
    case_decide; [congruence|]. by rewrite IH.
Qed.

Lemma c_str_is_c_string (a : list byte) : is_c_string (c_str a).
Proof.
  unfold is_c_string. induction a as [|c a IH]; simpl.
  - apply not_elem_of_nil.
  - destruct (decide (c = NUL)); [apply not_elem_of_nil|].
    rewrite not_elem_of_cons. split; [congruence | done].
Qed.

Lemma c_str_id (s : list byte) : is_c_string s → c_str s = s.
Proof.
  unfold is_c_string. induction s as [|c s IH]; intros Hs; simpl; [done|].
  rewrite not_elem_of_cons in Hs. destruct Hs as [Hc Hs].
  case_decide; [congruence|]. by rewrite IH.
Qed.

Lemma strlen_c_string (s : list byte) : is_c_string s → strlen s = Z.of_nat (length s).
Proof. intros Hs. unfold strlen. by rewrite c_str_id. Qed.

Lemma strlen_strcpy (s : list byte) :
  is_c_string s → strlen (strcpy s) = Z.of_nat (length s).
Proof. intros Hs. unfold strlen, strcpy. by rewrite c_str_app_NUL. Qed.

Lemma c_str_strcpy (s : list byte) : is_c_string s → c_str (strcpy s) = s.
Proof. intros Hs. unfold strcpy. by rewrite c_str_app_NUL. Qed.

Lemma memcpy_exact (a : list byte) : memcpy a (Z.of_nat (length a)) = a.
Proof.
  unfold memcpy. rewrite Nat2Z.id, firstn_all, Nat.sub_diag. simpl.
  by rewrite app_nil_r.
Qed.

Lemma memcpy_0 (a : list byte) : memcpy a 0 = [].
Proof. unfold memcpy. by destruct a. Qed.

Lemma as_C_string_fits (sym : list byte) :
  as_C_string sym (Z.of_nat (length sym) + 1) = sym ++ [NUL].
Proof.
  unfold as_C_string. rewrite decide_True by lia.
  replace (Z.of_nat (length sym) + 1 - 1) with (Z.of_nat (length sym)) by lia.
  by rewrite Nat2Z.id, firstn_all.
Qed.

(** What follows a terminated string in an array is found after it. *)
Lemma offset_ptr_after_c_string (s rest : list byte) :
  is_c_string s → offset_ptr (s ++ NUL :: rest) (strlen (s ++ NUL :: rest) + 1) = rest.
Proof.
  intros Hs. unfold offset_ptr, strlen. rewrite c_str_app_NUL by done.
  replace (Z.to_nat (Z.of_nat (length s) + 1)) with (length s + 1)%nat by lia.
  rewrite <- drop_drop. rewrite drop_app_length. done.
Qed.

Lemma is_c_string_app (a b : list byte) : is_c_string a → is_c_string b → is_c_string (a ++ b).
Proof. unfold is_c_string. rewrite elem_of_app. tauto. Qed.

Lemma is_c_string_cons (c : byte) (s : list byte) :
  c ≠ NUL → is_c_string s → is_c_string (c :: s).
Proof. unfold is_c_string. rewrite elem_of_cons. naive_solver. Qed.

(** Writing over the middle of an array. *)
Lemma write_at_middle (a1 a2 a3 b : list byte) :
  length b = length a2 →
  write_at (a1 ++ a2 ++ a3) (Z.of_nat (length a1)) b = a1 ++ b ++ a3.
Proof.
  intros Hlen. unfold write_at. rewrite Nat2Z.id.
  rewrite take_app_length. f_equal. f_equal.
  rewrite Hlen, app_assoc. rewrite drop_app_length'; [done|].
  by rewrite length_app.
Qed.

(** A string literal holds no terminator. *)
Ltac solve_c_string := apply (bool_decide_unpack _); by vm_compute.

(** ** AList *)

Lemma AList_chain_inj nx p l1 l2 : AList.chain nx p l1 → AList.chain nx p l2 → l1 = l2.
Proof.
  revert p l2. induction l1 as [|i l1 IH]; intros p [|j l2]; simpl; try done.
  - intros -> [? _]. done.
  - intros [-> _] ?. done.
  - intros [-> H1] [[= <-] H2]. f_equal. eauto.
Qed.

Lemma AList_chain_app nx p l1 l2 :
  AList.chain nx p (l1 ++ l2) → ∃ q, AList.chain nx q l2.
Proof.
  revert p. induction l1 as [|i l1 IH]; intros p; simpl.
  - eauto.
  - intros [-> H]. eauto.
Qed.

(** A chain that ends in a NULL link meets no Item twice. *)
Lemma AList_chain_not_in_tail nx i l : AList.chain nx (Some i) (i :: l) → i ∉ l.
Proof.
  simpl. intros [_ H] Hin.
  apply list_elem_of_split in Hin as (l1 & l2 & ->).
  destruct (AList_chain_app _ _ l1 (i :: l2) H) as (q & Hq).
  simpl in Hq. destruct Hq as [-> Hq].
  pose proof (AList_chain_inj _ _ _ _ H Hq) as Heq.
  apply (f_equal length) in Heq. rewrite length_app in Heq. simpl in Heq. lia.
Qed.

Lemma AList_chain_NoDup nx p l : AList.chain nx p l → NoDup l.
Proof.
  revert p. induction l as [|i l IH]; intros p; simpl.
  - intros _. constructor.
  - intros [-> H]. constructor; [|eauto].
    apply (AList_chain_not_in_tail nx). simpl. done.
Qed.

Lemma AList_lookup_set_next_ne i j n nx : i ≠ j → AList.set_next i n nx !! j = nx !! j.
Proof. intros. unfold AList.set_next. by rewrite lookup_partial_alter_ne. Qed.

Lemma AList_lookup_set_next_eq i n nx : AList.set_next i n nx !! i = n.
Proof. unfold AList.set_next. by rewrite lookup_partial_alter_eq. Qed.

(** Writing the link of an Item that a chain does not contain leaves the
    chain as it was. *)
Lemma AList_chain_set_next nx i n p l :
  i ∉ l → AList.chain nx p l → AList.chain (AList.set_next i n nx) p l.
Proof.
  revert p. induction l as [|j l IH]; intros p Hi; simpl; [done|].
  rewrite not_elem_of_cons in Hi. destruct Hi as [Hij Hi].
  intros [-> H]. split; [done|]. rewrite AList_lookup_set_next_ne by done. eauto.
Qed.

Lemma AList_chain_links_in_store nx p l i :
  AList.chain nx p (l ++ [i]) → ∀ j, j ∈ l → is_Some (nx !! j).
Proof.
  revert p. induction l as [|k l IH]; intros p; simpl.
  - intros _ j Hj. by apply elem_of_nil in Hj.
  - intros [-> H] j Hj. apply elem_of_cons in Hj as [->|Hj]; [|eauto].
    destruct l; simpl in H; destruct H as [-> _]; eauto.
Qed.

(** The walk to the tail of a chain needs no more steps than the store has
    links, plus one. *)
Lemma AList_chain_length_bound nx p l : AList.chain nx p l → (length l ≤ S (size nx))%nat.
Proof.
  intros H. destruct (decide (l = [])) as [->|Hne]; [simpl; lia|].
  destruct (exists_last Hne) as (l' & i & ->).
  pose proof (AList_chain_NoDup _ _ _ H) as Hnd.
  apply NoDup_app in Hnd as (Hnd & _ & _).
  pose proof (AList_chain_links_in_store _ _ _ _ H) as Hdom.
  rewrite length_app. simpl.
  assert (length l' ≤ size nx)%nat; [|lia].
  rewrite <- (size_list_to_set (C:=gset AList.Item) l') by done.
  rewrite <- (size_dom (D:=gset AList.Item) nx). apply subseteq_size.
  intros j Hj. apply elem_of_list_to_set in Hj. apply elem_of_dom. eauto.
Qed.

Lemma AList_find_tail_chain fuel nx c cs :
  AList.chain nx (Some c) cs → (length cs ≤ fuel)%nat → AList.find_tail fuel nx c = last cs.
Proof.
  revert c cs. induction fuel as [|fuel IH]; intros c [|c' cs]; simpl; try done; try lia.
  intros [[= <-] H] Hlen. unfold AList.next. destruct cs as [|c2 cs]; simpl in H.
  - by rewrite H.
  - destruct H as [Hc2 H]. rewrite Hc2. rewrite (IH c2 (c2 :: cs)); [done| |simpl in *; lia].
    simpl. done.
Qed.

(** [add] puts the Item in front. *)
Lemma AList_add_holds i s l : AList.holds s l → i ∉ l → AList.holds (AList.add i s) (i :: l).
Proof.
  unfold AList.holds, AList.add. simpl. intros H Hi. split; [done|].
  rewrite AList_lookup_set_next_eq. by apply AList_chain_set_next.
Qed.

Lemma AList_chain_append nx c cs tail p l :
  AList.chain nx (Some c) cs → last cs = Some tail → AList.chain nx p l →
  (∀ x, x ∈ cs → x ∉ l) →
  AList.chain (AList.set_next tail p nx) (Some c) (cs ++ l).
Proof.
  revert c. induction cs as [|c' cs IH]; intros c; simpl; [done|].
  intros [[= <-] H] Hlast Hl Hdisj. split; [done|].
  assert (Hnd : NoDup (c :: cs)) by (apply (AList_chain_NoDup nx (Some c)); simpl; done).
  apply NoDup_cons in Hnd as [Hc Hnd].
  destruct cs as [|c2 cs].
  - simpl in *. injection Hlast as <-. rewrite AList_lookup_set_next_eq.
    apply AList_chain_set_next; [|done]. apply Hdisj. by left.
  - rewrite last_cons_cons in Hlast.
    assert (tail ≠ c).
    { intros ->. apply Hc. apply last_Some_elem_of. done. }
    rewrite AList_lookup_set_next_ne by done.
    simpl in H. destruct H as [Hc2 H]. rewrite Hc2.
    apply IH; [simpl; done|done|done|].
    intros x Hx. apply Hdisj. by right.
Qed.

(** [add_list] puts the whole chain in front, in its own order. *)
Lemma AList_add_list_holds c cs s l :
  AList.chain (AList._next s) (Some c) cs → AList.holds s l → (∀ x, x ∈ cs → x ∉ l) →
  ∃ s', AList.add_list c s = Some s' ∧ AList.holds s' (cs ++ l)
        ∧ ∃ tail, last cs = Some tail
                  ∧ AList._next s' = AList.set_next tail (AList._list s) (AList._next s).
Proof.
  intros Hcs Hl Hdisj. unfold AList.add_list.
  rewrite (AList_find_tail_chain _ _ _ cs Hcs) by by eapply AList_chain_length_bound.
  destruct (last cs) as [tail|] eqn:Hlast.
  2:{ apply last_None in Hlast. subst cs. simpl in Hcs. done. }
  eexists. split; [done|]. unfold AList.holds. cbn [AList._next AList._list].
  split; [by apply AList_chain_append|]. eauto.
Qed.

(** [remove] takes the front Item off. *)
Lemma AList_remove_holds s i l :
  AList.holds s (i :: l) → ∃ s', AList.remove s = (Some i, s') ∧ AList.holds s' l.
Proof.
  unfold AList.holds, AList.remove. intros H.
  pose proof (AList_chain_not_in_tail (AList._next s) i l) as Hi.
  simpl in H. destruct H as [Hhd H]. rewrite Hhd.
  eexists. split; [done|]. simpl. unfold AList.next.
  apply AList_chain_set_next; [|done]. apply Hi. simpl. done.
Qed.

Lemma AList_remove_empty s : AList.holds s [] → AList.remove s = (None, s).
Proof. unfold AList.holds, AList.remove. simpl. by intros ->. Qed.

(** The operations on sequences are those on links, seen through [holds]. *)
Lemma AList_remove_seq_refines s l :
  AList.holds s l →
  ∃ s', AList.remove s = (fst (AList.remove_seq l), s') ∧ AList.holds s' (snd (AList.remove_seq l)).
Proof.
  destruct l as [|i l]; intros H; simpl.
  - exists s. split; [by apply AList_remove_empty|done].
  - by apply AList_remove_holds.
Qed.

Lemma AList_inserted_cons o ops :
  AList.inserted (o :: ops) = AList.items (snd o) ++ AList.inserted ops.
Proof. done. Qed.

Lemma AList_inserted_app ops1 ops2 :
  AList.inserted (ops1 ++ ops2) = AList.inserted ops1 ++ AList.inserted ops2.
Proof. unfold AList.inserted. by rewrite bind_app. Qed.

Lemma AList_lifo_cons o ops :
  AList.lifo (o :: ops) = AList.lifo ops ++ AList.items (snd o).
Proof.
  unfold AList.lifo. rewrite reverse_cons, AList_inserted_app.
  unfold AList.inserted at 2. rewrite bind_cons. simpl. by rewrite app_nil_r.
Qed.

Lemma AList_lifo_perm ops : AList.lifo ops ≡ₚ AList.inserted ops.
Proof.
  induction ops as [|o ops IH]; [done|].
  rewrite AList_lifo_cons, AList_inserted_cons, IH. apply Permutation_app_comm.
Qed.

Lemma AList_chains_built_tail nx o ops :
  AList.chains_built nx (o :: ops) → AList.chains_built nx ops.
Proof. intros H t cs Hin. apply (H t cs). by right. Qed.

(** Running the operations on a list that holds [l]: the list then holds
    what they inserted, last operation first, in front of [l]. *)
Lemma AList_run_holds ops s l :
  AList.holds s l → NoDup (AList.inserted ops ++ l) → AList.chains_built (AList._next s) ops →
  ∃ s', AList.run ops s = Some s' ∧ AList.holds s' (AList.lifo ops ++ l).
Proof.
  revert s l. induction ops as [|[t a] ops IH]; intros s l Hl Hnd Hch.
  - exists s. done.
  - rewrite AList_inserted_cons in Hnd. simpl in Hnd.
    rewrite <- app_assoc in Hnd. apply NoDup_app in Hnd as (Hnda & Hdisj & Hnd).
    rewrite AList_lifo_cons. simpl. rewrite <- app_assoc.
    assert (Hdl : ∀ x, x ∈ AList.items a → x ∉ l).
    { intros x Hx Hxl. apply (Hdisj x Hx). apply elem_of_app. by right. }
    assert (Hdo : ∀ x, x ∈ AList.items a → x ∉ AList.inserted ops).
    { intros x Hx Hxl. apply (Hdisj x Hx). apply elem_of_app. by left. }
    assert (Hkeep : ∀ i n, i ∈ AList.items a →
               AList.chains_built (AList.set_next i n (AList._next s)) ops).
    { intros i n Hi t' cs' Hin.
      destruct (Hch t' cs') as (c' & Hc' & Hchain); [by right|].
      exists c'. split; [done|]. apply AList_chain_set_next; [|done].
      intros Hics. apply (Hdo i Hi). unfold AList.inserted.
      apply list_elem_of_bind. exists (t', AList.AddList cs'). done. }
    destruct a as [i|cs]; simpl in *.
    + destruct (IH (AList.add i s) (i :: l)) as (s' & Hrun & Hs').
      * apply AList_add_holds; [done|]. apply Hdl. by left.
      * apply NoDup_app. split; [by apply NoDup_app in Hnd as (? & _ & _)|]. split.
        -- intros x Hx Hxl. apply elem_of_cons in Hxl as [->|Hxl].
           ++ apply (Hdo i); [by left|done].
           ++ apply NoDup_app in Hnd as (_ & Hd & _). by apply (Hd x).
        -- constructor; [apply Hdl; by left|]. by apply NoDup_app in Hnd as (_ & _ & ?).
      * apply Hkeep. by left.
      * exists s'. done.
    + destruct (Hch t cs) as (c & Hc & Hchain); [by left|].
      destruct cs as [|c0 cs]; [done|]. simpl in Hc. injection Hc as ->.
      destruct (AList_add_list_holds c (c :: cs) s l Hchain Hl Hdl)
        as (s1 & Hadd & Hs1 & tail & Htail & Hnx).
      destruct (IH s1 ((c :: cs) ++ l)) as (s' & Hrun & Hs').
      * done.
      * apply NoDup_app. split; [by apply NoDup_app in Hnd as (? & _ & _)|]. split.
        -- intros x Hx Hxl. apply elem_of_app in Hxl as [Hxl|Hxl].
           ++ by apply (Hdo x).
           ++ apply NoDup_app in Hnd as (_ & Hd & _). by apply (Hd x).
        -- apply NoDup_app. split; [done|]. split; [done|].
           by apply NoDup_app in Hnd as (_ & _ & ?).
      * rewrite Hnx. apply Hkeep. by apply last_Some_elem_of.
      * exists s'. rewrite Hadd. done.
Qed.

(** Removing until NULL gives back what the list holds, front first. *)
Lemma AList_drain_holds s l :
  AList.holds s l →
  ∃ s', AList.drain (S (length l)) s = Some (l, s') ∧ AList._list s' = None.
Proof.
  revert s. induction l as [|i l IH]; intros s H.
  - exists s. simpl. rewrite AList_remove_empty by done. split; [done|]. apply H.
  - destruct (AList_remove_holds _ _ _ H) as (s1 & Hrem & Hs1).
    destruct (IH s1 Hs1) as (s' & Hdr & Hs').
    exists s'. split; [|done].
    change (AList.drain (S (length (i :: l))) s)
      with (match AList.remove s with
            | (None, s') => Some ([], s')
            | (Some i, s') =>
                match AList.drain (S (length l)) s' with
                | Some (l, s'') => Some (i :: l, s'')
                | None => None
                end
            end).
    rewrite Hrem, Hdr. done.
Qed.

Lemma AList_lifo_by_thread t ops :
  AList.lifo (AList.by_thread t ops) `sublist_of` AList.lifo ops.
Proof.
  unfold AList.lifo, AList.by_thread, AList.inserted.
  rewrite <- filter_reverse. apply bind_sublist, sublist_filter.
Qed.

(** C4, as the code has it.  For any sequence of [add] and [add_list]
    operations on an empty AList (the Items all distinct, each chain given
    to [add_list] linked and ending in NULL), followed by [remove] until it
    returns NULL: the operations and the removals all return, every
    inserted Item comes back exactly once, and the order is last in, first
    out -- the operations in reverse, the Items of a spliced chain together
    and in the chain's own link order -- so that what one thread inserted
    comes back in the reverse order of that thread's operations; and
    [remove] returns NULL only when the list holds nothing. *)
Theorem AList_drain_returns_lifo (ops : list AList.op) (nx : AList.links) :
  NoDup (AList.inserted ops) →
  AList.chains_built nx ops →
  ∃ s s',
    AList.run ops (AList.mk nx None) = Some s ∧
    AList.drain (S (length (AList.inserted ops))) s = Some (AList.lifo ops, s') ∧
    AList.head s' = None ∧
    AList.lifo ops ≡ₚ AList.inserted ops ∧
    NoDup (AList.lifo ops) ∧
    (∀ t, AList.lifo (AList.by_thread t ops) `sublist_of` AList.lifo ops) ∧
    (∀ s0 l, AList.holds s0 l → (fst (AList.remove s0) = None ↔ l = [])).
Proof.
  intros Hnd Hch.
  destruct (AList_run_holds ops (AList.mk nx None) []) as (s & Hrun & Hs).
  - done.
  - by rewrite app_nil_r.
  - done.
  - rewrite app_nil_r in Hs.
    destruct (AList_drain_holds s _ Hs) as (s' & Hdr & Hs').
    exists s, s'. split; [done|]. split.
    { rewrite <- (Permutation_length (AList_lifo_perm ops)). done. }
    split; [done|]. split; [apply AList_lifo_perm|]. split.
    { by rewrite AList_lifo_perm. }
    split; [intros t; apply AList_lifo_by_thread|].
    intros s0 [|i l] H0.
    + rewrite AList_remove_empty by done. done.
    + destruct (AList_remove_holds _ _ _ H0) as (s1 & -> & _). done.
Qed.

Lemma ops_two_threads_chains : AList.chains_built links_two_threads ops_two_threads.
Proof.
  intros t cs Hin. unfold ops_two_threads in Hin.
  repeat (apply elem_of_cons in Hin as [Hin|Hin]; [try discriminate|]).
  - injection Hin as -> ->. exists 20%nat. split; [done|]. simpl.
    unfold links_two_threads. rewrite lookup_singleton_eq.
    split; [done|]. split; [done|]. by rewrite lookup_singleton_ne.
  - by apply elem_of_nil in Hin.
Qed.

Lemma ops_two_threads_NoDup : NoDup (AList.inserted ops_two_threads).
Proof. apply (bool_decide_unpack _). by vm_compute. Qed.

Lemma AList_drain_returns_lifo_witness :
  ∃ s s',
    AList.run ops_two_threads (AList.mk links_two_threads None) = Some s ∧
    AList.drain (S (length (AList.inserted ops_two_threads))) s
      = Some (AList.lifo ops_two_threads, s') ∧
    AList.head s' = None ∧
    AList.lifo ops_two_threads ≡ₚ AList.inserted ops_two_threads ∧
    NoDup (AList.lifo ops_two_threads) ∧
    (∀ t, AList.lifo (AList.by_thread t ops_two_threads) `sublist_of` AList.lifo ops_two_threads) ∧
    (∀ s0 l, AList.holds s0 l → (fst (AList.remove s0) = None ↔ l = [])).
Proof.
  apply (AList_drain_returns_lifo ops_two_threads links_two_threads).
  - exact ops_two_threads_NoDup.
  - exact ops_two_threads_chains.
Defined.

(** What the two-thread example gives back. *)
Example ops_two_threads_lifo : AList.lifo ops_two_threads = [11; 20; 21; 10]%nat.
Proof. reflexivity. Qed.

(** C4 as stated fails: one thread adds Item 10 and then Item 11; the
    removals return 11 and then 10, which is not an order in which the
    thread's own insertions (10, then 11) are kept. *)
Lemma AList_insertion_order_not_kept :
  ∃ s out s',
    AList.run ops_two_adds (AList.mk ∅ None) = Some s ∧
    AList.drain 3 s = Some (out, s') ∧
    out = [11; 10]%nat ∧
    AList.inserted (AList.by_thread 1%nat ops_two_adds) = [10; 11]%nat ∧
    ¬ AList.respects_insertion_order 1%nat ops_two_adds out.
Proof.
  eexists _, _, _. split; [reflexivity|]. split; [reflexivity|]. split; [reflexivity|].
  split; [reflexivity|].
  unfold AList.respects_insertion_order.
  change (AList.inserted (AList.by_thread 1%nat ops_two_adds)) with [10; 11]%nat.
  intros H. apply sublist_cons_l in H as (k1 & k2 & Hk & H).
  apply sublist_cons_l in H as (k3 & k4 & -> & _).
  destruct k1 as [|? [|? k1]]; simplify_eq/=.
  - destruct k3; simplify_eq/=.
  - destruct k1; simplify_eq/=.
Qed.

(** ** The geometry of the pool *)

Lemma pow2_divide (n k : Z) : 0 ≤ n ≤ k → (2 ^ n | 2 ^ k).
Proof.
  intros H. exists (2 ^ (k - n)). rewrite <- Z.pow_add_r by lia. f_equal. lia.
Qed.

(** For a page size that is a power of two up to 64 KiB and an area of at
    least two bytes, the constructor settles a page-aligned buffer size of
    at most 65536, at least two buffers, and an initial commit of at least
    one and at most all of them. *)
Lemma TLBManager_geometry_bounds (n size : Z) :
  0 ≤ n ≤ 16 → 2 ≤ size < 2 ^ 64 →
  ∃ buffer_size buffers_count num_committed,
    TLBManager_geometry (2 ^ n) size = Some (buffer_size, buffers_count, num_committed)
    ∧ (2 ^ n | buffer_size) ∧ 0 < buffer_size ≤ 2 ^ 16
    ∧ 2 ≤ buffers_count ∧ 1 ≤ num_committed ≤ buffers_count.
Proof.
  intros Hn Hsize. unfold TLBManager_geometry, K.
  set (q := size / (8 * 1024)).
  set (count := if decide (q < 2) then 2 else q).
  assert (Hq : 8192 * q ≤ size < 8192 * (q + 1)).
  { pose proof (Z.div_mod size 8192 ltac:(lia)). pose proof (Z.mod_pos_bound size 8192 ltac:(lia)).
    unfold q. change (8 * 1024) with 8192. lia. }
  assert (Hcount : 2 ≤ count ∧ count ≤ size) by (unfold count; case_decide; lia).
  set (x := size / count).
  assert (Hx : 1 ≤ x ≤ 12287).
  { unfold x. split.
    - apply Z.div_le_lower_bound; lia.
    - assert (size / count < 12288); [|lia].
      apply Z.div_lt_upper_bound; [lia|]. unfold count. case_decide; lia. }
  assert (Hpage : 0 < 2 ^ n) by (apply Z.pow_pos_nonneg; lia).
  assert (Hbs : 0 < align_up x (2 ^ n) ≤ 2 ^ 16).
  { split.
    - pose proof (align_up_ge x (2 ^ n) Hpage). lia.
    - apply align_up_le_multiple; [done| |lia]. apply pow2_divide. lia. }
  unfold uintx. rewrite Z.mod_small by lia.
  rewrite decide_False by lia. rewrite decide_False by lia.
  eexists _, _, _. split; [reflexivity|].
  split; [apply align_up_divide|]. split; [done|]. split; [lia|]. lia.
Qed.

(** ** Reading a pool after an update *)

Lemma tlb_set_tlb_eq b t m : tlb (set_tlb b t m) b = t.
Proof. unfold tlb, set_tlb. simpl. by rewrite lookup_total_insert_eq. Qed.

Lemma tlb_set_tlb_ne b b' t m : b ≠ b' → tlb (set_tlb b t m) b' = tlb m b'.
Proof. intros. unfold tlb, set_tlb. simpl. by rewrite lookup_total_insert_ne. Qed.

Lemma tlb_lease_to_eq b thread m : tlb (lease_to b thread m) b = TLB_lease thread (tlb m b).
Proof. unfold lease_to, tlb. simpl. by rewrite lookup_total_insert_eq. Qed.

Lemma tlb_lease_to_ne b b' thread m : b ≠ b' → tlb (lease_to b thread m) b' = tlb m b'.
Proof. intros. unfold lease_to, tlb. simpl. by rewrite lookup_total_insert_ne. Qed.

(** What a lease that succeeds hands out: a buffer taken from the front of
    the free list or, after a commit, of the uncommitted list; it is reset
    and owned by the thread, and no other TLB has changed. *)
Lemma lease_buffer_Some thread m os b m' os' :
  lease_buffer thread m os = (Some b, m', os') →
  tlb m' b = TLB_lease thread (tlb m b)
  ∧ (∀ b', b' ≠ b → tlb m' b' = tlb m b')
  ∧ _buffer_size m' = _buffer_size m
  ∧ (_free_list m !! 0%nat = Some b ∨ (_free_list m = [] ∧ _uncommitted_list m !! 0%nat = Some b)).
Proof.
  unfold lease_buffer.
  destruct (_free_list m) as [|f free] eqn:Hfree; simpl.
  - destruct (_uncommitted_list m) as [|u unc] eqn:Hunc; simpl; [intros [=]|].
    destruct (os_commit_memory os) as [[] os1]; intros [= <- <- <-].
    split; [by rewrite tlb_lease_to_eq|]. split; [|by auto].
    intros b' Hb'. by rewrite tlb_lease_to_ne.
  - intros [= <- <- <-].
    split; [by rewrite tlb_lease_to_eq|]. split; [|by auto].
    intros b' Hb'. by rewrite tlb_lease_to_ne.
Qed.

(** A lease that fails leaves every TLB as it was. *)
Lemma lease_buffer_None thread m os m' os' :
  lease_buffer thread m os = (None, m', os') →
  (∀ b, tlb m' b = tlb m b) ∧ _buffer_size m' = _buffer_size m
  ∧ _free_list m' = _free_list m ∧ _leased_list m' = _leased_list m
  ∧ _uncommitted_list m' = _uncommitted_list m.
Proof.
  unfold lease_buffer.
  destruct (_free_list m) as [|f free] eqn:Hfree; simpl; [|intros [=]].
  destruct (_uncommitted_list m) as [|u unc] eqn:Hunc; simpl.
  - intros [= <- <-]. by rewrite Hfree, Hunc.
  - destruct (os_commit_memory os) as [[] os1]; intros [= <- <-]. simpl.
    by rewrite Hfree.
Qed.

(** ** Conservation of the buffers (C2) *)

Lemma lease_buffer_conservation thread m os :
  conservation m → conservation (lease_buffer thread m os).1.2.
Proof.
  unfold conservation, lease_buffer. intros [Hc Hn].
  destruct (_free_list m) as [|f free] eqn:Hfree; simpl.
  - destruct (_uncommitted_list m) as [|u unc] eqn:Hunc; simpl.
    + by rewrite Hfree, Hunc.
    + destruct (os_commit_memory os) as [[] os1]; simpl;
        rewrite ?Hfree; simpl in *; lia.
  - simpl in *. lia.
Qed.

Lemma lease_buffer_quiescent thread m os :
  quiescent m → quiescent (lease_buffer thread m os).1.2.
Proof.
  unfold quiescent, lease_buffer. intros Hq.
  destruct (_free_list m) as [|f free]; simpl; [|done].
  destruct (_uncommitted_list m) as [|u unc]; simpl; [done|].
  destruct (os_commit_memory os) as [[] os1]; simpl; done.
Qed.

Lemma for_down_free n lo m :
  for_down n lo (λ i m, set_free_list (AList.add_seq i (_free_list m)) m) m
  = set_free_list (seq lo (n - lo) ++ _free_list m) m.
Proof.
  revert m. induction n as [|n IH]; intros m; simpl.
  - by destruct m.
  - case_decide as Hlo.
    + rewrite IH. unfold set_free_list, AList.add_seq. simpl. f_equal.
      replace (S n - lo)%nat with (S (n - lo)) by lia.
      rewrite seq_S, <- app_assoc. simpl. do 3 f_equal. lia.
    + replace (S n - lo)%nat with 0%nat by lia. by destruct m.
Qed.

Lemma for_down_uncommitted n lo m :
  for_down n lo (λ i m, set_uncommitted_list (AList.add_seq i (_uncommitted_list m)) m) m
  = set_uncommitted_list (seq lo (n - lo) ++ _uncommitted_list m) m.
Proof.
  revert m. induction n as [|n IH]; intros m; simpl.
  - by destruct m.
  - case_decide as Hlo.
    + rewrite IH. unfold set_uncommitted_list, AList.add_seq. simpl. f_equal.
      replace (S n - lo)%nat with (S (n - lo)) by lia.
      rewrite seq_S, <- app_assoc. simpl. do 3 f_equal. lia.
    + replace (S n - lo)%nat with 0%nat by lia. by destruct m.
Qed.

(** Setting the bases touches no list and no counter. *)
Lemma set_bases_frame (g : nat → TLB → TLB) l m :
  let m' := foldl (λ m i, set_tlb i (g i (tlb m i)) m) m l in
  _free_list m' = _free_list m ∧ _leased_list m' = _leased_list m
  ∧ _uncommitted_list m' = _uncommitted_list m ∧ _not_finished m' = _not_finished m
  ∧ _num_committed m' = _num_committed m ∧ _buffers_count m' = _buffers_count m
  ∧ _buffer_size m' = _buffer_size m ∧ _bytes_used m' = _bytes_used m.
Proof.
  revert m. induction l as [|i l IH]; intros m; simpl; [done|].
  destruct (IH (set_tlb i (g i (tlb m i)) m)) as (?&?&?&?&?&?&?&?). done.
Qed.

(** A pool that came up holds every buffer on its free or uncommitted
    list. *)
Lemma TLBManager_ctor_conservation (n size : Z) (os os' : OS) (m : TLBManager) :
  0 ≤ n ≤ 16 → vm_page_size os = 2 ^ n → 2 ≤ size < 2 ^ 64 →
  TLBManager_ctor size os = Some (m, os', true) →
  conservation m ∧ quiescent m ∧ _leased_list m = [] ∧ 0 < _buffer_size m ≤ 2 ^ 16
  ∧ _bytes_used m = 0.
Proof.
  intros Hn Hpage Hsize. unfold TLBManager_ctor. rewrite Hpage.
  destruct (TLBManager_geometry_bounds n size Hn Hsize)
    as (bs & count & nc & -> & _ & Hbs & Hcount & Hnc).
  destruct (os_commit_memory os) as [[] os1]; [|done]. intros [= <- <-].
  rewrite for_down_uncommitted, for_down_free.
  match goal with |- context [foldl ?f ?m0 ?l] =>
    pose proof (set_bases_frame (λ i, TLB_set_base (Z.of_nat i * bs)) l m0) as Hfr end.
  simpl in Hfr. destruct Hfr as (Hf & Hl & Hu & Hnf & Hnum & Hbc & Hbsz & Hbu).
  unfold conservation, quiescent. simpl. rewrite Hf, Hl, Hu, Hnf, Hnum, Hbc, Hbsz, Hbu.
  simpl. rewrite !app_nil_r, !length_seq. repeat split; try lia.
Qed.

Lemma os_uncommit_memory_all_succeed os :
  Forall (λ r, r = true) (uncommit_memory_results os) →
  (os_uncommit_memory os).1 = true
  ∧ Forall (λ r, r = true) (uncommit_memory_results (os_uncommit_memory os).2).
Proof.
  unfold os_uncommit_memory. destruct (uncommit_memory_results os) as [|r rs] eqn:Hr; simpl.
  - intros _. split; [done|]. by rewrite Hr.
  - intros H. apply Forall_cons in H as [-> H]. done.
Qed.

Lemma os_uncommit_memory_keeps_success os :
  Forall (λ r, r = true) (uncommit_memory_results os) →
  Forall (λ r, r = true) (uncommit_memory_results (os_uncommit_memory os).2).
Proof.
  unfold os_uncommit_memory. destruct (uncommit_memory_results os) as [|r rs] eqn:Hr; simpl.
  - intros _. by rewrite Hr.
  - intros H. by apply Forall_cons in H as [_ H].
Qed.

(** The first loop of a flush moves every buffer of the leased list to the
    free list, to the buffers put aside or to the local chain of uncommitted
    buffers, whatever the operating system answers. *)
Lemma flush_leased_moves {X} (f : TLBClosure X) leased :
  ∀ tu unc m os x tu' unc' m' os' x',
    _leased_list m = leased →
    flush_leased f leased tu unc m os x = Some (tu', unc', m', os', x') →
    _leased_list m' = [] ∧ _uncommitted_list m' = _uncommitted_list m
    ∧ _buffers_count m' = _buffers_count m ∧ _buffer_size m' = _buffer_size m
    ∧ (length (_free_list m') + length (_not_finished m') + length unc'
       = length (_free_list m) + length (_not_finished m) + length unc + length leased)%nat
    ∧ _num_committed m' + Z.of_nat (length unc') = _num_committed m + Z.of_nat (length unc)
    ∧ (Forall (λ r, r = true) (uncommit_memory_results os) →
       Forall (λ r, r = true) (uncommit_memory_results os')).
Proof.
  induction leased as [|b leased IH]; intros tu unc m os x tu' unc' m' os' x' Hsync; simpl.
  - intros [= <- <- <- <- <-]. repeat split; try done; lia.
  - destruct (_owner (tlb (set_leased_list leased m) b)) as [owner|].
    + intros H. apply IH in H; [|done]. simpl in H.
      destruct H as (? & ? & ? & ? & ? & ? & ?). repeat split; try done; lia.
    + destruct (f b (tlb (set_leased_list leased m) b) x) as [[t x1]|]; [|done].
      case_decide as Htu.
      * intros H. apply IH in H; [|done]. simpl in H.
        destruct H as (? & ? & ? & ? & ? & ? & ?). repeat split; try done; lia.
      * unfold uncommit_buffer.
        pose proof (os_uncommit_memory_keeps_success os) as Hos.
        destruct (os_uncommit_memory os) as [[] os1]; simpl in Hos.
        -- intros H. apply IH in H; [|done]. simpl in H.
           destruct H as (? & ? & ? & ? & ? & ? & ?). repeat split; try done; try lia; auto.
        -- intros H. apply IH in H; [|done]. simpl in H.
           destruct H as (? & ? & ? & ? & ? & ? & ?). repeat split; try done; try lia; auto.
Qed.

(** The second loop, when [uncommit_memory] does not fail: every buffer it
    takes off the free list goes to the local chain. *)
Lemma uncommit_free_moves free :
  ∀ tu unc m os unc' m' os',
    _free_list m = free →
    Forall (λ r, r = true) (uncommit_memory_results os) →
    uncommit_free free tu unc m os = (unc', m', os') →
    _leased_list m' = _leased_list m ∧ _uncommitted_list m' = _uncommitted_list m
    ∧ _not_finished m' = _not_finished m ∧ _buffers_count m' = _buffers_count m
    ∧ (length (_free_list m') + length unc' = length (_free_list m) + length unc)%nat
    ∧ _num_committed m' + Z.of_nat (length unc') = _num_committed m + Z.of_nat (length unc).
Proof.
  induction free as [|b free IH]; intros tu unc m os unc' m' os' Hsync Hos; simpl.
  - case_decide as Htu; intros [= <- <- <-]; repeat split; done.
  - case_decide as Htu; [intros [= <- <- <-]; repeat split; done|].
    unfold uncommit_buffer.
    destruct (os_uncommit_memory_all_succeed os Hos) as [Hok Hos1].
    destruct (os_uncommit_memory os) as [ok os1]. simpl in Hok, Hos1. subst ok.
    intros H. apply IH in H; [|done|done]. simpl in H.
    destruct H as (? & ? & ? & ? & ? & ?). rewrite Hsync. simpl. repeat split; try done; lia.
Qed.

(** A flush during which [uncommit_memory] does not fail keeps the
    conservation of the buffers. *)
Lemma flush_buffers_conservation {X} (f : TLBClosure X) goal m os x m' os' x' :
  conservation m → quiescent m →
  Forall (λ r, r = true) (uncommit_memory_results os) →
  flush_buffers f goal m os x = Some (m', os', x') →
  conservation m' ∧ quiescent m'.
Proof.
  unfold conservation, quiescent, flush_buffers. intros [Hc Hn] Hq Hos.
  destruct (flush_leased _ _ _ _ _ _ _) as [[[[[tu unc] m1] os1] x1]|] eqn:Hfl; [|done].
  apply flush_leased_moves in Hfl as (Hl1 & Hu1 & Hb1 & _ & Hlen1 & Hnum1 & Hos1); [|done].
  specialize (Hos1 Hos).
  match goal with |- context [uncommit_free (_free_list ?M)] => set (m2 := M) end.
  assert (Hm2 : _free_list m2 = _free_list m1 ∧ _leased_list m2 = _not_finished m1
                ∧ _uncommitted_list m2 = _uncommitted_list m1 ∧ _not_finished m2 = []
                ∧ _num_committed m2 = _num_committed m1
                ∧ _buffers_count m2 = _buffers_count m1).
  { unfold m2. destruct (_not_finished m1) eqn:Hnf; simpl.
    - by rewrite Hl1, Hnf.
    - unfold AList.add_list_seq. rewrite Hl1, app_nil_r. done. }
  destruct Hm2 as (Hf2 & Hl2 & Hu2 & Hnf2 & Hnum2 & Hb2). clearbody m2.
  destruct (uncommit_free _ _ _ _ _) as [[unc3 m3] os3] eqn:Huf.
  apply uncommit_free_moves in Huf as (Hl3 & Hu3 & Hnf3 & Hb3 & Hlen3 & Hnum3); [|done|done].
  intros [= <- <- <-]. rewrite Hq in Hlen1. simpl in *.
  rewrite Hf2 in Hlen3. rewrite Hnum2 in Hnum3.
  destruct unc3 as [|u unc3]; simpl in *; unfold AList.add_list_seq;
    rewrite ?Hnf3, ?Hnf2, ?Hl3, ?Hl2, ?Hu3, ?Hu2, ?Hu1, ?Hb3, ?Hb2, ?Hb1;
    simpl; rewrite ?length_app; repeat split; try done; lia.
Qed.

(** C10: the constructor on an area of less than two bytes.  The buffer
    count is raised to 2, the buffer size is [align_up(size / 2, page)] = 0,
    and the initial commit divides by it: the constructor has no result,
    and none of the sizes the claim lists is settled.  (On a system with
    64 KiB pages the buffer size is 65536 itself, one more than a [u2]
    holds.) *)
Theorem TLBManager_ctor_tiny_area :
  TLBManager_geometry 4096 0 = None
  ∧ TLBManager_geometry 4096 1 = None
  ∧ TLBManager_ctor 0 os_4K = None
  ∧ TLBManager_geometry 65536 (1024 * K) = Some (65536, 128, 10).
Proof. repeat split; reflexivity. Qed.

(** C2: a pool of four committed buffers, all free, is flushed for the
    first time while [os::uncommit_memory] fails.  The second loop of
    [flush_buffers] has taken buffer 0 off the free list when the call
    fails, and leaves the loop without putting it back: the buffer is on no
    list any more, and the committed counter still counts it. *)
Theorem flush_loses_buffer_when_uncommit_fails :
  ∃ vm vm',
    ConnectedRuntime_init (32 * K) os_4K_uncommit_fails no_metaspace = Some vm
    ∧ conservation (manager vm) ∧ quiescent (manager vm)
    ∧ NativeMemory_flush vm = Some vm'
    ∧ _buffers_count (manager vm') = 4
    ∧ _free_list (manager vm') = [1; 2; 3]%nat
    ∧ _leased_list (manager vm') = []
    ∧ _uncommitted_list (manager vm') = []
    ∧ _not_finished (manager vm') = []
    ∧ _num_committed (manager vm') = 4
    ∧ ¬ conservation (manager vm').
Proof.
  eexists _, _. split; [vm_compute; reflexivity|].
  split; [by vm_compute|]. split; [by vm_compute|].
  split; [vm_compute; reflexivity|].
  repeat (split; [by vm_compute|]).
  intros [H _]. vm_compute in H. discriminate.
Qed.

(** ** ensure (C3) *)

(** X23.  [ensure(buf, size, thread)] for a buffer that is not written
    past its end ([_pos <= _buffer_size]) and [size <= _buffer_size].
    When [buf] is given and [_pos + size <= _buffer_size], it is returned
    and nothing changes.  Otherwise [buf], when given, is released -- its
    owner is cleared, its position, base and slot are kept -- and a buffer
    is leased: the head of the free list or, when that list is empty, the
    head of the uncommitted list after a commit that succeeds; it is reset
    to position 0 with an empty slot, owned by the thread and put at the
    head of the leased list, [_bytes_used] grows by a buffer size, and no
    other buffer changes; the result is NULL exactly when the free list is
    empty and the uncommitted list is empty or the commit fails.  A buffer
    that [ensure] returns has the room: [_pos + size <= _buffer_size]. *)
Theorem ensure_within_the_buffer (buffer : option nat) (size : Z) (thread : Thread)
    (m : TLBManager) (os : OS) (r : option nat) (m' : TLBManager) (os' : OS) :
  0 ≤ _buffer_size m < 2 ^ 64 →
  0 ≤ size ≤ _buffer_size m →
  (∀ b, buffer = Some b → 0 ≤ _pos (tlb m b) ≤ _buffer_size m) →
  ensure buffer size thread m os = (r, m', os') →
  (∀ b, buffer = Some b → _pos (tlb m b) + size ≤ _buffer_size m →
        r = Some b ∧ m' = m ∧ os' = os)
  ∧ ((∀ b, buffer = Some b → _buffer_size m < _pos (tlb m b) + size) →
     (∀ b, buffer = Some b → r ≠ Some b →
           tlb m' b = mkTLB (_pos (tlb m b)) (_base (tlb m b)) None
                        (_reference_message (tlb m b)))
     ∧ (∀ b', r = Some b' →
           (head (_free_list m) = Some b'
            ∨ (_free_list m = [] ∧ head (_uncommitted_list m) = Some b'
               ∧ (os_commit_memory os).1 = true))
           ∧ tlb m' b' = mkTLB 0 (_base (tlb m b')) (Some thread) None
           ∧ _leased_list m' = b' :: _leased_list m
           ∧ _bytes_used m' = uintx (_bytes_used m + _buffer_size m))
     ∧ (r = None ↔
        _free_list m = [] ∧ (_uncommitted_list m = [] ∨ (os_commit_memory os).1 = false))
     ∧ (∀ b'', buffer ≠ Some b'' → r ≠ Some b'' → tlb m' b'' = tlb m b''))
  ∧ (∀ b', r = Some b' →
       0 ≤ _pos (tlb m' b') ∧ _pos (tlb m' b') + size ≤ _buffer_size m').
Proof.
  intros Hbs Hsize Hpos Hens.
  assert (Hlease : ∀ m0, _buffer_size m0 = _buffer_size m → _bytes_used m0 = _bytes_used m →
            _free_list m0 = _free_list m → _uncommitted_list m0 = _uncommitted_list m →
            _leased_list m0 = _leased_list m →
            lease_buffer thread m0 os = (r, m', os') →
            (∀ b', r = Some b' →
               (head (_free_list m) = Some b'
                ∨ (_free_list m = [] ∧ head (_uncommitted_list m) = Some b'
                   ∧ (os_commit_memory os).1 = true))
               ∧ tlb m' b' = mkTLB 0 (_base (tlb m0 b')) (Some thread) None
               ∧ _leased_list m' = b' :: _leased_list m
               ∧ _bytes_used m' = uintx (_bytes_used m + _buffer_size m)
               ∧ _buffer_size m' = _buffer_size m)
            ∧ (r = None ↔
               _free_list m = [] ∧ (_uncommitted_list m = [] ∨ (os_commit_memory os).1 = false))
            ∧ (∀ b'', r ≠ Some b'' → tlb m' b'' = tlb m0 b'')).
  { intros m0 Hb0 Hu0 Hf0 Hun0 Hl0. unfold lease_buffer. rewrite Hf0, Hun0.
    destruct (_free_list m) as [|f free]; simpl.
    - destruct (_uncommitted_list m) as [|u unc]; simpl.
      + intros [= <- <- <-]. split; [done|]. split; [naive_solver|]. done.
      + destruct (os_commit_memory os) as [[] os1]; simpl; intros [= <- <- <-].
        * split.
          { intros b' [= <-]. rewrite tlb_lease_to_eq. unfold TLB_lease.
            split; [by right|]. split; [done|]. simpl. rewrite Hl0, Hu0, Hb0. done. }
          split; [naive_solver|].
          intros b'' Hne. rewrite tlb_lease_to_ne by congruence. done.
        * split; [done|]. split; [naive_solver|]. done.
    - intros [= <- <- <-]. split.
      { intros b' [= <-]. rewrite tlb_lease_to_eq. unfold TLB_lease.
        split; [by left|]. split; [done|]. simpl. rewrite Hl0, Hu0, Hb0. done. }
      split; [naive_solver|].
      intros b'' Hne. rewrite tlb_lease_to_ne by congruence. done. }
  unfold ensure in Hens. destruct buffer as [b|].
  - specialize (Hpos b eq_refl).
    assert (Hrem : remaining_space m b = _buffer_size m - _pos (tlb m b)).
    { unfold remaining_space, uintx. apply Z.mod_small. lia. }
    destruct (decide (remaining_space m b >= size)) as [Hroom|Hroom]; rewrite Hrem in Hroom.
    + injection Hens as <- <- <-. split; [by intros ? [= <-] _|]. split.
      * intros Hno. specialize (Hno b eq_refl). lia.
      * intros b' [= <-]. lia.
    + split; [intros ? [= <-] ?; lia|].
      destruct (Hlease (set_tlb b (TLB_release (tlb m b)) m)
                  eq_refl eq_refl eq_refl eq_refl eq_refl Hens) as (HS & HN & Hother).
      split.
      * intros _. split.
        { intros ? [= <-] Hne. rewrite Hother by done. by rewrite tlb_set_tlb_eq. }
        split.
        { intros b' Hb'. destruct (HS b' Hb') as (H1 & H2 & H3 & H4 & _).
          split; [done|]. split; [|done]. rewrite H2.
          destruct (decide (b' = b)) as [->|Hd].
          - by rewrite tlb_set_tlb_eq.
          - by rewrite tlb_set_tlb_ne. }
        split; [done|].
        intros b'' Hne1 Hne2. rewrite Hother by done. rewrite tlb_set_tlb_ne; [done|congruence].
      * intros b' Hb'. destruct (HS b' Hb') as (_ & H2 & _ & _ & H5).
        rewrite H2, H5. simpl. lia.
  - split; [done|].
    destruct (Hlease m eq_refl eq_refl eq_refl eq_refl eq_refl Hens) as (HS & HN & Hother).
    split.
    + intros _. split; [done|]. split.
      { intros b' Hb'. destruct (HS b' Hb') as (H1 & H2 & H3 & H4 & _). done. }
      split; [done|]. intros b'' _ Hne. by apply Hother.
    + intros b' Hb'. destruct (HS b' Hb') as (_ & H2 & _ & _ & H5).
      rewrite H2, H5. simpl. lia.
Qed.

(** C3: on a subsystem with two buffers of 8 KiB thread 1, which holds no
    buffer, records a class load whose source string has 9000 bytes.
    [ensure(NULL, 9061, thread)] leases buffer 0 without looking at the
    size, and the record moves the position of the buffer to 9064, beyond
    its 8192 bytes.  For the next record of the thread
    [ensure(buf, 24, thread)] computes the room as [8192 - 9064] in
    [uintx], that is [2^64 - 872], and returns the buffer as it is,
    although it has no room at all; [alloc] hands out the address 9064,
    which lies in buffer 1, and the record of the first call is written
    there. *)
Theorem ensure_returns_buffer_without_room :
  let vm := vm_long_source in
  let m := manager vm in
  buffer_of 1%nat vm_two_buffers = None
  ∧ buffer_of 1%nat vm = Some 0%nat
  ∧ _buffer_size m = 8192
  ∧ _base (tlb m 0%nat) = 0 ∧ _base (tlb m 1%nat) = 8192
  ∧ _pos (tlb m 0%nat) = 9064
  ∧ sizeof_CrsFirstCallMessage ≤ _buffer_size m
  ∧ remaining_space m 0%nat = 2 ^ 64 - 872
  ∧ ensure (Some 0%nat) sizeof_CrsFirstCallMessage 1%nat m (os vm) = (Some 0%nat, m, os vm)
  ∧ ¬ (_pos (tlb m 0%nat) + sizeof_CrsFirstCallMessage ≤ _buffer_size m)
  ∧ (TLBManager_alloc (Some 0%nat) sizeof_CrsFirstCallMessage m).1 = Some 9064
  ∧ _type <$> region (notify_first_call 1%nat 5%nat vm) !! 9064
    = Some CRS_MESSAGE_FIRST_CALL.
Proof.
  cbv zeta. split_and!; by vm_compute.
Qed.

Lemma ensure_within_the_buffer_witness :
  let m := manager vm_thread_1 in
  let os := os vm_thread_1 in
  let res := ensure (Some 0%nat) 8180 1%nat m os in
  let r := res.1.1 in
  let m' := res.1.2 in
  (∀ b, Some 0%nat = Some b → _pos (tlb m b) + 8180 ≤ _buffer_size m →
        r = Some b ∧ m' = m ∧ res.2 = os)
  ∧ ((∀ b, Some 0%nat = Some b → _buffer_size m < _pos (tlb m b) + 8180) →
     (∀ b, Some 0%nat = Some b → r ≠ Some b →
           tlb m' b = mkTLB (_pos (tlb m b)) (_base (tlb m b)) None
                        (_reference_message (tlb m b)))
     ∧ (∀ b', r = Some b' →
           (head (_free_list m) = Some b'
            ∨ (_free_list m = [] ∧ head (_uncommitted_list m) = Some b'
               ∧ (os_commit_memory os).1 = true))
           ∧ tlb m' b' = mkTLB 0 (_base (tlb m b')) (Some 1%nat) None
           ∧ _leased_list m' = b' :: _leased_list m
           ∧ _bytes_used m' = uintx (_bytes_used m + _buffer_size m))
     ∧ (r = None ↔
        _free_list m = [] ∧ (_uncommitted_list m = [] ∨ (os_commit_memory os).1 = false))
     ∧ (∀ b'', Some 0%nat ≠ Some b'' → r ≠ Some b'' → tlb m' b'' = tlb m b''))
  ∧ (∀ b', r = Some b' →
       0 ≤ _pos (tlb m' b') ∧ _pos (tlb m' b') + 8180 ≤ _buffer_size m').
Proof.
  intros m os res r m'.
  apply (ensure_within_the_buffer (Some 0%nat) 8180 1%nat m os r m' res.2).
  - vm_compute. split; [discriminate|reflexivity].
  - vm_compute. split; discriminate.
  - intros b [= <-]. vm_compute. split; discriminate.
  - subst r m' res. by destruct (ensure (Some 0%nat) 8180 1%nat m os) as [[? ?] ?].
Defined.

(** ** alloc and the overflow flag (C6) *)

Lemma lease_buffer_None_iff thread m os :
  (lease_buffer thread m os).1.1 = None
  ↔ _free_list m = [] ∧ (_uncommitted_list m = [] ∨ (os_commit_memory os).1 = false).
Proof.
  unfold lease_buffer.
  destruct (_free_list m) as [|f free]; simpl.
  - destruct (_uncommitted_list m) as [|u unc]; simpl; [naive_solver|].
    destruct (os_commit_memory os) as [[] os1]; simpl; naive_solver.
  - naive_solver.
Qed.








(** A flush that returns has cleared the flag, and has reported the bytes
    in use before and after it if the flag was set. *)
Lemma NativeMemory_flush_clears_overflow vm vm' :
  NativeMemory_flush vm = Some vm' →
  _overflow (memory vm') = false
  ∧ tty vm' =
      tty vm ++ (if _overflow (memory vm)
                 then [overflow_data_is_lost (bytes_used (manager vm)) (bytes_used (manager vm'))]
                 else []).
Proof.
  unfold NativeMemory_flush.
  destruct (flush_buffers _ _ _ _ _) as [[[m os1] agent1]|]; [|done]. simpl.
  destruct (_overflow (memory vm)) eqn:Ho; intros [= <-]; simpl.
  - done.
  - by rewrite app_nil_r.
Qed.

(** ** The walk of a buffer and the flush *)

(** Whether the walk ends depends on the records it steps over, not on what
    [message_do] does with them. *)
Lemma MessageClosure_walk_ends {S1 S2} fuel region
    (md1 : Z → CrsMessage → S1 → S1) (md2 : Z → CrsMessage → S2 → S2) p f s1 s2 :
  is_Some (MessageClosure_walk fuel region md1 p f s1) →
  is_Some (MessageClosure_walk fuel region md2 p f s2).
Proof.
  revert p s1 s2. induction fuel as [|fuel IH]; intros p s1 s2; simpl.
  - case_decide; [|eauto]. by intros [? ?].
  - case_decide; [|eauto]. destruct (region !! p) as [msg|]; [|by intros [? ?]]. apply IH.
Qed.

Lemma CrsMessage_process_keeps_buffer ms region this msg t agent :
  let t' := (CrsMessage_process ms region this msg t agent).1 in
  _base t' = _base t ∧ _pos t' = _pos t ∧ _owner t' = _owner t.
Proof.
  unfold CrsMessage_process.
  destruct (_type msg), (fields msg) as [f|f|f|f|]; simpl; try done.
  unfold CrsClassLoadMessage_process.
  destruct (cl_has_source f); simpl; [done|].
  destruct (cl_has_same_source f); simpl; [|done].
  destruct (TLB_reference_message _ t); done.
Qed.

Lemma MessageClosure_walk_keeps_buffer ms region fuel p f t agent t' agent' :
  MessageClosure_walk fuel region
    (λ this msg '(tlb, agent), CrsMessage_process ms region this msg tlb agent)
    p f (t, agent) = Some (t', agent') →
  _base t' = _base t ∧ _pos t' = _pos t ∧ _owner t' = _owner t.
Proof.
  revert p t agent. induction fuel as [|fuel IH]; intros p t agent; simpl.
  - case_decide; [done|]. by intros [= <- <-].
  - case_decide; [|by intros [= <- <-]].
    destruct (region !! p) as [msg|]; [|done].
    pose proof (CrsMessage_process_keeps_buffer ms region p msg t agent) as Hk.
    destruct (CrsMessage_process ms region p msg t agent) as [t1 agent1]. simpl in Hk.
    intros Hwalk. apply IH in Hwalk. naive_solver congruence.
Qed.

(** The flush closure returns on a buffer whose walk ends, and leaves the
    buffer's base, position and owner as they were. *)
Lemma TLBFlushClosure_returns ms region b t agent :
  walkable region t →
  ∃ t' agent', TLBFlushClosure ms region b t agent = Some (t', agent')
               ∧ _base t' = _base t ∧ _pos t' = _pos t ∧ _owner t' = _owner t.
Proof.
  unfold walkable, TLBFlushClosure. intros Hw.
  eapply (MessageClosure_walk_ends _ _ _
            (λ this msg '(tlb, agent), CrsMessage_process ms region this msg tlb agent)
            _ _ _ (t, agent)) in Hw.
  destruct Hw as [[t' agent'] Hw]. exists t', agent'. split; [done|].
  by eapply MessageClosure_walk_keeps_buffer.
Qed.

Lemma walkable_same_extent region t t' :
  _base t' = _base t → _pos t' = _pos t → walkable region t → walkable region t'.
Proof. unfold walkable. by intros -> ->. Qed.

Lemma flush_leased_returns ms region leased :
  ∀ tu unc m os agent,
    (∀ b, b ∈ leased → walkable region (tlb m b)) →
    is_Some (flush_leased (TLBFlushClosure ms region) leased tu unc m os agent).
Proof.
  induction leased as [|b leased IH]; intros tu unc m os agent Hw; simpl; [eauto|].
  assert (Hb : walkable region (tlb m b)) by (apply Hw; by left).
  assert (Hrest : ∀ m', (∀ b', b' ≠ b → tlb m' b' = tlb m b') →
            _base (tlb m' b) = _base (tlb m b) → _pos (tlb m' b) = _pos (tlb m b) →
            ∀ b', b' ∈ leased → walkable region (tlb m' b')).
  { intros m' Hne Hbase Hpos b' Hb'. destruct (decide (b' = b)) as [->|Hd].
    - by eapply walkable_same_extent.
    - rewrite Hne by done. apply Hw. by right. }
  change (tlb (set_leased_list leased m) b) with (tlb m b).
  destruct (_owner (tlb m b)).
  - apply IH. by apply Hrest.
  - destruct (TLBFlushClosure_returns ms region b (tlb m b) agent Hb)
      as (t' & agent' & -> & Hbase & Hpos & _).
    assert (Hstep : ∀ m', (∀ b', tlb m' b' = tlb (set_tlb b t' m) b') →
              ∀ b', b' ∈ leased → walkable region (tlb m' b')).
    { intros m' Hm'. apply Hrest.
      - intros b' Hb'. by rewrite Hm', tlb_set_tlb_ne.
      - by rewrite Hm', tlb_set_tlb_eq.
      - by rewrite Hm', tlb_set_tlb_eq. }
    case_decide.
    + apply IH, Hstep. done.
    + unfold uncommit_buffer. destruct (os_uncommit_memory os) as [[] os1].
      * apply IH, Hstep. done.
      * apply IH, Hstep. done.
Qed.

(** A flush returns when the walk of every buffer on the leased list
    ends. *)
Lemma NativeMemory_flush_returns vm :
  (∀ b, b ∈ _leased_list (manager vm) → walkable (region vm) (tlb (manager vm) b)) →
  is_Some (NativeMemory_flush vm).
Proof.
  intros Hw. unfold NativeMemory_flush, flush_buffers.
  match goal with |- context [flush_leased ?f ?l ?tu ?unc ?m ?os ?x] =>
    destruct (flush_leased_returns (metaspace vm) (region vm) l tu unc m os x Hw)
      as [[[[[tu1 unc1] m1] os1] x1] Hfl]
  end.
  simpl in Hfl |- *. rewrite Hfl.
  destruct (uncommit_free _ _ _ _ _) as [[unc2 m2] os2].
  destruct (_overflow _); eauto.
Qed.


(** The state [vm_overflowed]: two threads hold the two buffers, the flag
    is set, and the flush reports the 16 KiB in use. *)
Example vm_overflowed_state :
  _overflow (memory vm_overflowed) = true
  ∧ _leased_list (manager vm_overflowed) = [1; 0]%nat
  ∧ _free_list (manager vm_overflowed) = []
  ∧ crs_thread_locals vm_overflowed !! 3%nat = None
  ∧ (tty <$> NativeMemory_flush vm_overflowed)
    = Some [overflow_data_is_lost (16 * K) (16 * K)].
Proof. repeat split; by vm_compute. Qed.


(** ** The size in the header (C9) *)

(** The header holds the size a record was constructed with as long as the
    size is below [2^16]. *)
Lemma CrsMessage_ctor_size type size f :
  0 ≤ size < 2 ^ 16 → _size (CrsMessage_ctor type size f) = size.
Proof. intros H. unfold CrsMessage_ctor, u2. simpl. by apply Z.mod_small. Qed.

Lemma CrsClassLoadMessageBlown_ctor_size ms region from_message from_tlb source_size :
  let size := blown_size ms from_message source_size in
  0 ≤ size < 2 ^ 16 →
  _size (CrsClassLoadMessageBlown_ctor ms region size from_message from_tlb source_size)
  = offset_of_source_and_name + source_size
    + Z.of_nat (length (klass_name (klass_at ms (cl_klass from_message)))) + 1.
Proof.
  intros size H. unfold CrsClassLoadMessageBlown_ctor.
  rewrite CrsMessage_ctor_size by done. done.
Qed.

(** C9: on 64 KiB pages a buffer has 65536 bytes, and a class-load record
    of exactly that size passes [ensure] ([size <= _buffer_size]).  It is
    constructed at the start of a fresh buffer and takes all of it, and the
    header stores [(u2)65536 = 0]: the stored size is not the size of the
    record, which is above 65535.  The walk of the buffer then never moves
    past the record: a forced flush does not return. *)
Theorem header_size_wraps_at_64K :
  let size := offset_of_source + strlen source_65475 + 1 in
  let vm := notify_class_load 1%nat None (Some source_65475) 1%nat vm_64K_pages in
  size = 65536
  ∧ size ≤ _buffer_size (manager vm_64K_pages)
  ∧ buffer_of 1%nat vm = Some 0%nat
  ∧ _pos (tlb (manager vm) 0%nat) = 65536
  ∧ (_type <$> region vm !! 0) = Some CRS_MESSAGE_CLASS_LOAD
  ∧ (_size <$> region vm !! 0) = Some 0
  ∧ ConnectedRuntime_flush_buffers true false vm = None.
Proof. repeat split; by vm_compute. Qed.

(** ** Updates of the state that change nothing *)

Lemma set_manager_id vm : set_manager (manager vm) vm = vm.
Proof. by destruct vm as [[? ? ?] ? ? ? ? ? ? ? ? ? ?]. Qed.

Lemma set_os_id vm : set_os (os vm) vm = vm.
Proof. by destruct vm. Qed.

Lemma set_tlb_set_tlb b t1 t2 m : set_tlb b t2 (set_tlb b t1 m) = set_tlb b t2 m.
Proof. unfold set_tlb. simpl. by rewrite insert_insert_eq. Qed.

Lemma set_manager_set_manager m1 m2 vm : set_manager m2 (set_manager m1 vm) = set_manager m2 vm.
Proof. done. Qed.

(** ** Posting class-load records (C5, C8) *)

(** A class-load event with a source string, posted by a thread whose
    buffer has the room: the record is written at the buffer's position, in
    full form when the slot does not stand for the same source and in
    reference form when it does, and the slot moves to a full record. *)
Lemma CrsClassLoadMessage_post_in_place vm k hash s thread b :
  buffer_of thread vm = Some b →
  _overflow (memory vm) = false →
  is_c_string s → s ≠ [] →
  let m := manager vm in
  let t := tlb m b in
  let is_new := bool_decide (slot_source vm b ≠ Some s) in
  let size := if is_new then full_size s else sizeof_CrsClassLoadMessage in
  0 ≤ _pos t → _pos t + align_up size TLBManager_align ≤ _buffer_size m < 2 ^ 64 →
  CrsClassLoadMessage_post k hash (Some s) thread vm =
    set_region
      (<[_base t + _pos t :=
           CrsClassLoadMessage_ctor (metaspace vm) size k hash (Some s)
             (if is_new then None else _reference_message t)]> (region vm))
      (set_manager
         (set_tlb b
            (mkTLB (_pos t + align_up size TLBManager_align) (_base t) (_owner t)
               (if is_new then Some (_base t + _pos t) else _reference_message t)) m) vm).
Proof.
  intros Hbuf Ho Hs Hne. cbv zeta.
  set (is_new := bool_decide (slot_source vm b ≠ Some s)).
  set (size := if is_new then full_size s else sizeof_CrsClassLoadMessage).
  intros Hpos Hroom.
  assert (Hsize : 0 < size).
  { unfold size, full_size, offset_of_source, sizeof_CrsClassLoadMessage.
    destruct is_new; lia. }
  assert (Hal : size ≤ align_up size TLBManager_align) by (apply align_up_ge; done).
  assert (Hrem : remaining_space (manager vm) b >= size).
  { unfold remaining_space, uintx. rewrite Z.mod_small by lia. lia. }
  assert (Hstrlen : strlen s = Z.of_nat (length s)) by by apply strlen_c_string.
  destruct s as [|c s']; [done|].
  unfold CrsClassLoadMessage_post, NativeMemory_reference_message.
  rewrite Hbuf.
  assert (Hnew :
    match (match TLB_reference_message CRS_MESSAGE_BACK_REFERENCE_CLASS_LOAD (tlb (manager vm) b) with
           | Some a => if cl_has_source (class_load_at (region vm) a) then Some a else None
           | None => None
           end) with
    | Some a => strcmp_ne (cl_source (class_load_at (region vm) a)) (c :: s')
    | None => true
    end = is_new).
  { unfold is_new, slot_source.
    destruct (TLB_reference_message _ _) as [a|]; [|done].
    destruct (cl_has_source (class_load_at (region vm) a)); [|done].
    unfold strcmp_ne. rewrite (c_str_id (c :: s')) by done.
    apply bool_decide_ext. split; intros Hx Hy; apply Hx; congruence. }
  assert (Hprev : is_new = false →
    (match TLB_reference_message CRS_MESSAGE_BACK_REFERENCE_CLASS_LOAD (tlb (manager vm) b) with
     | Some a => if cl_has_source (class_load_at (region vm) a) then Some a else None
     | None => None
     end) = _reference_message (tlb (manager vm) b)).
  { unfold is_new, slot_source. unfold TLB_reference_message.
    destruct (_reference_message _) as [a|]; [|done].
    destruct (cl_has_source (class_load_at (region vm) a)); [done|].
    intros Hf. apply bool_decide_eq_false in Hf. by destruct Hf. }
  clearbody is_new.
  rewrite Hnew. rewrite Hstrlen.
  change (offset_of_source + (Z.of_nat (length (c :: s')) + 1)) with (full_size (c :: s')).
  unfold NativeMemory_alloc_ref. rewrite Ho, Hbuf. unfold ensure.
  change (if is_new then full_size (c :: s') else sizeof_CrsClassLoadMessage) with size.
  rewrite decide_True by exact Hrem.
  replace (if is_new then full_size (c :: s') else size) with size
    by (unfold size; by destruct is_new).
  cbv beta iota zeta.
  rewrite decide_False by (intros Hx; by apply Hx).
  cbv beta iota zeta.
  unfold TLBManager_alloc, TLB_alloc. cbv beta iota zeta.
  rewrite set_manager_id, set_os_id.
  replace (if is_new then full_size (c :: s') else size) with size
    by (unfold size; by destruct is_new).
  rewrite tlb_set_tlb_eq, set_tlb_set_tlb.
  unfold uintx. rewrite Z.mod_small by lia.
  destruct is_new.
  - reflexivity.
  - rewrite (Hprev eq_refl). reflexivity.
Qed.

Lemma CrsClassLoadMessage_ctor_full ms size k hash s :
  let msg := CrsClassLoadMessage_ctor ms size k hash (Some s) None in
  _type msg = CRS_MESSAGE_CLASS_LOAD ∧ _size msg = u2 size
  ∧ cl_has_source (as_ClassLoad msg) = true ∧ cl_has_same_source (as_ClassLoad msg) = false
  ∧ cl_source (as_ClassLoad msg) = strcpy s ∧ cl_klass (as_ClassLoad msg) = k.
Proof. unfold CrsClassLoadMessage_ctor. by destruct hash. Qed.

Lemma CrsClassLoadMessage_ctor_reference ms size k hash source a :
  let msg := CrsClassLoadMessage_ctor ms size k hash source (Some a) in
  _type msg = CRS_MESSAGE_CLASS_LOAD ∧ _size msg = u2 size
  ∧ cl_has_source (as_ClassLoad msg) = false ∧ cl_has_same_source (as_ClassLoad msg) = true
  ∧ cl_klass (as_ClassLoad msg) = k.
Proof. unfold CrsClassLoadMessage_ctor. by destruct hash. Qed.

Lemma slot_source_of_full vm b a ms size k hash s :
  _reference_message (tlb (manager vm) b) = Some a →
  region vm !! a = Some (CrsClassLoadMessage_ctor ms size k hash (Some s) None) →
  is_c_string s →
  slot_source vm b = Some s.
Proof.
  intros Hslot Hreg Hs. unfold slot_source, TLB_reference_message, class_load_at.
  rewrite Hslot, Hreg.
  destruct (CrsClassLoadMessage_ctor_full ms size k hash s) as (_ & _ & -> & _ & -> & _).
  by rewrite c_str_strcpy.
Qed.

Lemma full_size_bounds s : s ≠ [] → 62 ≤ full_size s.
Proof. unfold full_size, offset_of_source. destruct s; [done|]. simpl length. lia. Qed.

Lemma align_up_ge_multiple (x a b : Z) : 0 < a → (a | b) → b < x + a → b ≤ align_up x a.
Proof.
  intros Ha [j ->] Hx. pose proof (align_up_ge x a Ha).
  destruct (align_up_divide x a) as [k Hk]. rewrite Hk in *.
  assert (j ≤ k); [|nia]. destruct (decide (j ≤ k)); [done|]. nia.
Qed.

Lemma state_after_write vm b reg' t' vm' :
  vm' = set_region reg' (set_manager (set_tlb b t' (manager vm)) vm) →
  region vm' = reg' ∧ tlb (manager vm') b = t'
  ∧ (∀ thread, buffer_of thread vm' = buffer_of thread vm)
  ∧ _overflow (memory vm') = _overflow (memory vm)
  ∧ _buffer_size (manager vm') = _buffer_size (manager vm)
  ∧ metaspace vm' = metaspace vm.
Proof.
  intros ->. split; [done|]. split; [|done].
  unfold manager. simpl. apply tlb_set_tlb_eq.
Qed.


Lemma ensure_new_buffer buffer size thread m os b' m' os' :
  ensure buffer size thread m os = (Some b', m', os') → Some b' ≠ buffer →
  _pos (tlb m' b') = 0 ∧ _owner (tlb m' b') = Some thread.
Proof.
  unfold ensure. intros Hens Hne.
  assert (Hl : ∀ m0, lease_buffer thread m0 os = (Some b', m', os') →
            _pos (tlb m' b') = 0 ∧ _owner (tlb m' b') = Some thread).
  { intros m0 Hlease. apply lease_buffer_Some in Hlease as (-> & _). done. }
  destruct buffer as [b|]; [|by eapply Hl].
  case_decide; [|by eapply Hl]. by injection Hens as <- <- <-.
Qed.

(** A class-load record that opens a buffer is in full form: when posting
    an event with a source string moves the thread to another buffer, the
    record is written at the start of that buffer with its source, whatever
    the slot of the buffer left behind stood for, and the slot of the new
    buffer points to it. *)
Lemma CrsClassLoadMessage_post_new_buffer vm k hash s thread b' :
  _overflow (memory vm) = false → is_c_string s → s ≠ [] →
  let vm' := CrsClassLoadMessage_post k hash (Some s) thread vm in
  buffer_of thread vm' = Some b' →
  buffer_of thread vm' ≠ buffer_of thread vm →
  let p := _base (tlb (manager vm') b') in
  (∃ r, region vm' !! p = Some r ∧ full_form r s)
  ∧ _reference_message (tlb (manager vm') b') = Some p.
Proof.
  intros Ho Hs Hne vm'. unfold vm'. clear vm'.
  destruct s as [|c s']; [done|].
  unfold CrsClassLoadMessage_post.
  match goal with |- context [NativeMemory_alloc_ref _ ?isnew ?size ?sref _ _] =>
    generalize isnew; intros is_new; generalize sref; intros size_reference end.
  unfold NativeMemory_alloc_ref. rewrite Ho.
  destruct (ensure _ _ _ _ _) as [[new_buffer m1] os1] eqn:Hens.
  case_decide as Hnb.
  - destruct new_buffer as [b1|].
    + apply ensure_new_buffer in Hens as [Hpos Hown]; [|done].
      unfold TLBManager_alloc, TLB_alloc.
      cbn [manager set_thread_locals set_os set_manager set_memory set_region memory
           _tlb_manager region crs_thread_locals metaspace buffer_of].
      unfold buffer_of. cbn [crs_thread_locals set_region set_manager set_memory set_os set_thread_locals].
      unfold set_buffer. rewrite lookup_partial_alter_eq. intros [= ->] _. cbv zeta.
      unfold manager. cbn [memory set_region set_manager set_memory set_os set_thread_locals _tlb_manager].
      rewrite !tlb_set_tlb_eq. rewrite Hpos, Z.add_0_r.
      unfold TLB_set_reference_message. cbn [_base _reference_message region].
      rewrite lookup_insert_eq. split; [|done].
      eexists; split; [done|].
      destruct (CrsClassLoadMessage_ctor_full (metaspace vm) size_reference k hash (c :: s'))
        as (Ht & _ & Hhs & Hss & Hsrc & _).
      repeat split; try done. rewrite Hsrc. by apply c_str_strcpy.
    + unfold buffer_of. cbn [crs_thread_locals set_region set_manager set_thread_locals set_memory set_os set_overflow].
      unfold set_buffer. by rewrite lookup_partial_alter_eq.
  - assert (new_buffer = buffer_of thread vm) as -> by (by destruct (decide (new_buffer = buffer_of thread vm)); [|destruct Hnb]).
    destruct (buffer_of thread vm) as [b1|] eqn:Hb.
    + unfold TLBManager_alloc, TLB_alloc. unfold buffer_of in *.
      cbn [crs_thread_locals set_region set_manager set_thread_locals set_memory set_os set_overflow].
      by intros _ [].
    + unfold buffer_of in *.
      cbn [crs_thread_locals set_region set_manager set_thread_locals set_memory set_os set_overflow].
      by intros _ [].
Qed.

(** ** Deduplication of the source string (C5) *)

(** X1.  A thread whose buffer has the room posts two
    class-load events with the same non-empty source string and then one
    with another source, the slot of the buffer not standing for the first
    source already.  The first record is in full form, carries the source,
    and the slot points to it; the second is in reference form and leaves
    the slot alone; the third is a new full record, and the slot moves to
    it.  The reference form has the fixed size of the class (64 bytes): it
    never takes more room in the buffer than the full record, and its size
    is below the full record's exactly when the source has more than three
    bytes.  An empty source string is posted as no source. *)
Theorem consecutive_sources_are_deduplicated (vm : VM) (thread : Thread) (b : nat)
    (k1 k2 k3 : nat) (h1 h2 h3 : option (list byte)) (s s3 : list byte) :
  buffer_of thread vm = Some b →
  _overflow (memory vm) = false →
  is_c_string s → s ≠ [] → is_c_string s3 → s3 ≠ [] → s3 ≠ s →
  slot_source vm b ≠ Some s →
  let t := tlb (manager vm) b in
  0 ≤ _pos t →
  _pos t + align_up (full_size s) TLBManager_align + sizeof_CrsClassLoadMessage
    + align_up (full_size s3) TLBManager_align ≤ _buffer_size (manager vm) →
  _buffer_size (manager vm) ≤ 2 ^ 16 →
  let p1 := _base t + _pos t in
  let p2 := p1 + align_up (full_size s) TLBManager_align in
  let p3 := p2 + sizeof_CrsClassLoadMessage in
  let vm1 := CrsClassLoadMessage_post k1 h1 (Some s) thread vm in
  let vm2 := CrsClassLoadMessage_post k2 h2 (Some s) thread vm1 in
  let vm3 := CrsClassLoadMessage_post k3 h3 (Some s3) thread vm2 in
  (∃ r1 r2 r3,
     region vm1 !! p1 = Some r1 ∧ full_form r1 s ∧ _size r1 = full_size s
     ∧ _reference_message (tlb (manager vm1) b) = Some p1
     ∧ region vm2 !! p2 = Some r2 ∧ reference_form r2
     ∧ region vm2 !! p1 = Some r1
     ∧ _reference_message (tlb (manager vm2) b) = Some p1
     ∧ walk_step r2 ≤ walk_step r1
     ∧ (_size r2 < _size r1 ↔ (3 < length s)%nat)
     ∧ region vm3 !! p3 = Some r3 ∧ full_form r3 s3 ∧ _size r3 = full_size s3
     ∧ _reference_message (tlb (manager vm3) b) = Some p3)
  ∧ buffer_of thread vm3 = Some b
  ∧ (∀ k h t0 vm0,
       CrsClassLoadMessage_post k h (Some []) t0 vm0 = CrsClassLoadMessage_post k h None t0 vm0).
Proof.
  intros Hbuf Ho Hs Hne Hs3 Hne3 Hdiff Hslot t Hpos Hroom Hbs p1 p2 p3 vm1 vm2 vm3.
  pose proof (full_size_bounds s Hne) as Hfs.
  pose proof (full_size_bounds s3 Hne3) as Hfs3.
  pose proof (align_up_ge (full_size s) TLBManager_align ltac:(done)) as Ha1.
  pose proof (align_up_ge (full_size s3) TLBManager_align ltac:(done)) as Ha3.
  assert (Ha2 : align_up sizeof_CrsClassLoadMessage TLBManager_align = sizeof_CrsClassLoadMessage)
    by reflexivity.
  unfold sizeof_CrsClassLoadMessage in Hroom.
  (* first event *)
  pose proof (CrsClassLoadMessage_post_in_place vm k1 h1 s thread b Hbuf Ho Hs Hne) as H1.
  cbv zeta in H1. rewrite (bool_decide_eq_true_2 _ Hslot) in H1.
  fold t in H1. specialize (H1 Hpos ltac:(lia)). fold vm1 p1 in H1.
  apply state_after_write in H1 as (Hr1 & Ht1 & Hb1 & Ho1 & Hbs1 & Hms1).
  assert (Hss1 : slot_source vm1 b = Some s).
  { eapply slot_source_of_full; [by rewrite Ht1| |done].
    rewrite Hr1. apply lookup_insert_eq. }
  (* second event *)
  pose proof (CrsClassLoadMessage_post_in_place vm1 k2 h2 s thread b) as H2.
  rewrite Hb1, Ho1 in H2. specialize (H2 Hbuf Ho Hs Hne).
  cbv zeta in H2. rewrite Hss1 in H2.
  rewrite bool_decide_eq_false_2 in H2 by (intros Hx; by apply Hx).
  rewrite Ht1, Hbs1, Ha2 in H2. simpl in H2.
  specialize (H2 ltac:(lia) ltac:(unfold sizeof_CrsClassLoadMessage; lia)).
  fold vm2 in H2.
  replace (_base t + (_pos t + align_up (full_size s) TLBManager_align)) with p2 in H2
    by (unfold p2, p1; lia).
  apply state_after_write in H2 as (Hr2 & Ht2 & Hb2 & Ho2 & Hbs2 & Hms2).
  assert (Hp12 : p1 ≠ p2) by (unfold p2; lia).
  assert (Hss2 : slot_source vm2 b = Some s).
  { eapply slot_source_of_full; [by rewrite Ht2| |done].
    rewrite Hr2, lookup_insert_ne by done. rewrite Hr1. apply lookup_insert_eq. }
  (* third event *)
  pose proof (CrsClassLoadMessage_post_in_place vm2 k3 h3 s3 thread b) as H3.
  rewrite Hb2, Hb1, Ho2, Ho1 in H3. specialize (H3 Hbuf Ho Hs3 Hne3).
  cbv zeta in H3. rewrite Hss2 in H3.
  rewrite bool_decide_eq_true_2 in H3 by congruence.
  rewrite Ht2, Hbs2, Hbs1 in H3. simpl in H3.
  specialize (H3 ltac:(unfold sizeof_CrsClassLoadMessage; lia)
                 ltac:(unfold sizeof_CrsClassLoadMessage; lia)).
  fold vm3 in H3.
  replace (_base t + (_pos t + align_up (full_size s) TLBManager_align
                      + sizeof_CrsClassLoadMessage)) with p3 in H3
    by (unfold p3, p2, p1; lia).
  apply state_after_write in H3 as (Hr3 & Ht3 & Hb3 & Ho3 & Hbs3 & Hms3).
  split; [|split].
  - eexists _, _, _.
    split; [rewrite Hr1; apply lookup_insert_eq|].
    destruct (CrsClassLoadMessage_ctor_full (metaspace vm) (full_size s) k1 h1 s)
      as (Hty1 & Hsz1 & Hhs1 & Hss1' & Hsrc1 & _).
    assert (Hu1 : u2 (full_size s) = full_size s).
    { unfold u2. apply Z.mod_small. lia. }
    split; [unfold full_form; rewrite Hty1, Hhs1, Hss1', Hsrc1, c_str_strcpy; done|].
    split; [by rewrite Hsz1|].
    split; [by rewrite Ht1|].
    split; [rewrite Hr2; apply lookup_insert_eq|].
    destruct (CrsClassLoadMessage_ctor_reference (metaspace vm1) sizeof_CrsClassLoadMessage
                k2 h2 (Some s) p1) as (Hty2 & Hsz2 & Hhs2 & Hss2' & _).
    split; [unfold reference_form; rewrite Hty2, Hsz2, Hhs2, Hss2'; done|].
    split; [rewrite Hr2, lookup_insert_ne by done; rewrite Hr1; apply lookup_insert_eq|].
    split; [by rewrite Ht2|].
    split.
    { unfold walk_step. rewrite Hsz1, Hsz2, Hu1. change (u2 sizeof_CrsClassLoadMessage) with 64.
      change (align_up 64 TLBManager_align) with 64.
      apply align_up_ge_multiple; [done|by exists 8|unfold TLBManager_align; lia]. }
    split.
    { rewrite Hsz1, Hsz2, Hu1. change (u2 sizeof_CrsClassLoadMessage) with 64.
      unfold full_size, offset_of_source. lia. }
    split; [rewrite Hr3; apply lookup_insert_eq|].
    destruct (CrsClassLoadMessage_ctor_full (metaspace vm2) (full_size s3) k3 h3 s3)
      as (Hty3 & Hsz3 & Hhs3 & Hss3' & Hsrc3 & _).
    assert (Hu3 : u2 (full_size s3) = full_size s3).
    { unfold u2. apply Z.mod_small. lia. }
    split; [unfold full_form; rewrite Hty3, Hhs3, Hss3', Hsrc3, c_str_strcpy; done|].
    split; [by rewrite Hsz3|].
    by rewrite Ht3.
  - by rewrite Hb3, Hb2, Hb1.
  - reflexivity.
Qed.


Lemma consecutive_sources_are_deduplicated_witness :
  let vm1 := CrsClassLoadMessage_post 1%nat None (Some source_50a) 1%nat vm_thread_1 in
  let vm2 := CrsClassLoadMessage_post 2%nat None (Some source_50a) 1%nat vm1 in
  let vm3 := CrsClassLoadMessage_post 1%nat None (Some source_50b) 1%nat vm2 in
  (∃ r1 r2 r3,
     region vm1 !! 24 = Some r1 ∧ full_form r1 source_50a ∧ _size r1 = 111
     ∧ _reference_message (tlb (manager vm1) 0%nat) = Some 24
     ∧ region vm2 !! 136 = Some r2 ∧ reference_form r2
     ∧ region vm2 !! 24 = Some r1
     ∧ _reference_message (tlb (manager vm2) 0%nat) = Some 24
     ∧ walk_step r2 ≤ walk_step r1
     ∧ (_size r2 < _size r1 ↔ (3 < length source_50a)%nat)
     ∧ region vm3 !! 200 = Some r3 ∧ full_form r3 source_50b ∧ _size r3 = 111
     ∧ _reference_message (tlb (manager vm3) 0%nat) = Some 200)
  ∧ buffer_of 1%nat vm3 = Some 0%nat
  ∧ (∀ k h t0 vm0,
       CrsClassLoadMessage_post k h (Some []) t0 vm0 = CrsClassLoadMessage_post k h None t0 vm0).
Proof.
  apply (consecutive_sources_are_deduplicated vm_thread_1 1%nat 0%nat 1%nat 2%nat 1%nat
           None None None source_50a source_50b).
  - by vm_compute.
  - by vm_compute.
  - apply (bool_decide_unpack _). by vm_compute.
  - done.
  - apply (bool_decide_unpack _). by vm_compute.
  - done.
  - done.
  - by vm_compute.
  - by vm_compute.
  - by vm_compute.
  - by vm_compute.
Defined.

(** The reference form is not always the smaller one.  Thread 1 loads two
    classes from the source [ab]: the full record takes 63 bytes, the
    record in reference form that follows it takes 64. *)
Lemma reference_form_is_not_smaller :
  (∃ r1 r2,
     region (same_source_twice source_ab) !! 24 = Some r1
     ∧ region (same_source_twice source_ab) !! 88 = Some r2
     ∧ full_form r1 source_ab ∧ reference_form r2
     ∧ _size r1 = 63 ∧ _size r2 = 64)
  ∧ ¬ second_is_smaller (region (same_source_twice source_ab)) 24 88.
Proof.
  split.
  - eexists _, _. split; [vm_compute; reflexivity|]. split; [vm_compute; reflexivity|].
    split_and!; by vm_compute.
  - intros (r1 & r2 & H1 & H2 & Hlt).
    vm_compute in H1. vm_compute in H2.
    injection H1 as <-. injection H2 as <-. by vm_compute in Hlt.
Qed.

(** ** The scenario of two small buffers (C8) *)

Example vm_of_two_pool :
  manager (vm_of_two 64) = pool_of_two 64 ∧ manager (vm_of_two 128) = pool_of_two 128.
Proof. split; by vm_compute. Qed.

(** C8, as the code has it.  In a pool of 2 buffers of 128 bytes, thread 1
    posts three class-load events, the first two with the same source
    string of 50 bytes and the third with another.  The first event leases
    buffer 1 (index 0) and is written there as a full record of 111 bytes,
    which leaves 16 bytes.  The second event leases buffer 2 (index 1) and
    is written at its start, again as a full record that carries the
    source: the slot of buffer 2 points to it.  The third event finds no
    room in buffer 2 and no buffer to lease: it is dropped, the overflow
    flag is set and the thread is left without a buffer.  In general, a
    class-load record with a source that is the first of its thread in a
    buffer is in full form. *)
Theorem buffer_switch_writes_full_record :
  let vm0 := vm_of_two 128 in
  let vm1 := after_events vm0 1 in
  let vm2 := after_events vm0 2 in
  let vm3 := after_events vm0 3 in
  (_buffer_size (manager vm0) = 128 ∧ _buffers_count (manager vm0) = 2
   ∧ _base (tlb (manager vm0) 0%nat) = 0 ∧ _base (tlb (manager vm0) 1%nat) = 128)
  ∧ (buffer_of 1%nat vm1 = Some 0%nat
     ∧ (∃ r, region vm1 !! 0 = Some r ∧ full_form r source_50a ∧ _size r = 111)
     ∧ _reference_message (tlb (manager vm1) 0%nat) = Some 0
     ∧ remaining_space (manager vm1) 0%nat = 16)
  ∧ (buffer_of 1%nat vm2 = Some 1%nat
     ∧ _leased_list (manager vm2) = [1; 0]%nat ∧ _free_list (manager vm2) = []
     ∧ (∃ r, region vm2 !! 128 = Some r ∧ full_form r source_50a ∧ _size r = 111)
     ∧ _reference_message (tlb (manager vm2) 1%nat) = Some 128
     ∧ remaining_space (manager vm2) 1%nat = 16
     ∧ dom (region vm2) = {[ 0; 128 ]})
  ∧ (region vm3 = region vm2
     ∧ _overflow (memory vm3) = true
     ∧ buffer_of 1%nat vm3 = None)
  ∧ (∀ vm k hash s thread b',
       _overflow (memory vm) = false → is_c_string s → s ≠ [] →
       let vm' := CrsClassLoadMessage_post k hash (Some s) thread vm in
       buffer_of thread vm' = Some b' →
       buffer_of thread vm' ≠ buffer_of thread vm →
       let p := _base (tlb (manager vm') b') in
       (∃ r, region vm' !! p = Some r ∧ full_form r s)
       ∧ _reference_message (tlb (manager vm') b') = Some p).
Proof.
  cbv zeta. split; [|split; [|split; [|split]]].
  - split_and!; by vm_compute.
  - split; [by vm_compute|]. split; [|split; by vm_compute].
    eexists. split; [vm_compute; reflexivity|]. split; by vm_compute.
  - split; [by vm_compute|]. split; [by vm_compute|]. split; [by vm_compute|].
    split; [|split_and!; by vm_compute].
    eexists. split; [vm_compute; reflexivity|]. split; by vm_compute.
  - split_and!; by vm_compute.
  - intros vm k hash s thread b'. apply CrsClassLoadMessage_post_new_buffer.
Qed.

(** The second event is not written in reference form in buffer 2.  With
    buffers of 64 bytes the first record, of 111 bytes, runs over the end
    of buffer 1; [_buffer_size - pos] wraps around, the thread stays in
    buffer 1 and buffer 2 is never leased.  With buffers of 128 bytes the
    second event does lease buffer 2, and its record there carries the
    source. *)
Lemma second_event_is_not_reference_in_buffer_2 :
  (buffer_of 1%nat (after_events (vm_of_two 64) 2) = Some 0%nat
   ∧ _free_list (manager (after_events (vm_of_two 64) 2)) = [1%nat]
   ∧ buffer_of 1%nat (after_events (vm_of_two 64) 3) = Some 0%nat
   ∧ ¬ second_event_is_reference_in_buffer_2 (after_events (vm_of_two 64) 2))
  ∧ (buffer_of 1%nat (after_events (vm_of_two 128) 2) = Some 1%nat
     ∧ ¬ second_event_is_reference_in_buffer_2 (after_events (vm_of_two 128) 2)).
Proof.
  split.
  - split; [by vm_compute|]. split; [by vm_compute|]. split; [by vm_compute|].
    intros [Hb _]. by vm_compute in Hb.
  - split; [by vm_compute|].
    intros (_ & r & Hr & _ & Hhs & _).
    vm_compute in Hr. injection Hr as <-. by vm_compute in Hhs.
Qed.

(** ** The forced flush that stops the events (C7) *)

Lemma release_buffers_fold l :
  ∀ m locals m' locals',
    foldl (λ '(m, x) b, let '(t, x) := TLBReleaseClosure b (tlb m b) x in (set_tlb b t m, x))
      (m, locals) l = (m', locals') →
    _leased_list m' = _leased_list m ∧ _not_finished m' = _not_finished m
    ∧ _bytes_used m' = _bytes_used m
    ∧ (∀ b, _base (tlb m' b) = _base (tlb m b) ∧ _pos (tlb m' b) = _pos (tlb m b))
    ∧ (∀ b, _owner (tlb m b) = None → _owner (tlb m' b) = None)
    ∧ (∀ b, b ∈ l → _owner (tlb m' b) = None).
Proof.
  induction l as [|b l IH]; intros m locals m' locals'; simpl.
  - intros [= <- <-]. repeat split; try done. intros b Hb. by apply elem_of_nil in Hb.
  - destruct (TLBReleaseClosure b (tlb m b) locals) as [t locals1] eqn:Hrel.
    assert (Ht : _base t = _base (tlb m b) ∧ _pos t = _pos (tlb m b) ∧ _owner t = None).
    { unfold TLBReleaseClosure in Hrel.
      destruct (_owner (tlb m b)) eqn:Hown; injection Hrel as <- <-; done. }
    destruct Ht as (Hbase & Hpos & Hown).
    intros Hfold. apply IH in Hfold as (Hl & Hn & Hu & Hext & Hkeep & Hin).
    split; [done|]. split; [done|]. split; [done|].
    assert (Hown1 : ∀ b', _owner (tlb m b') = None → _owner (tlb (set_tlb b t m) b') = None).
    { intros b' Hb'. destruct (decide (b' = b)) as [->|Hne].
      - by rewrite tlb_set_tlb_eq.
      - by rewrite tlb_set_tlb_ne. }
    split; [|split].
    + intros b'. destruct (Hext b') as [-> ->].
      destruct (decide (b' = b)) as [->|Hne].
      * by rewrite tlb_set_tlb_eq.
      * by rewrite tlb_set_tlb_ne.
    + intros b' Hb'. by apply Hkeep, Hown1.
    + intros b' [->|Hb']%elem_of_cons; [|by apply Hin].
      apply Hkeep. by rewrite tlb_set_tlb_eq.
Qed.

(** [release_buffers] in a quiescent pool: every buffer on the leased list
    is left without an owner; the lists, the extents of the buffers and
    the records are as they were. *)
Lemma NativeMemory_release_buffers_releases vm :
  quiescent (manager vm) →
  let vm' := NativeMemory_release_buffers vm in
  _leased_list (manager vm') = _leased_list (manager vm)
  ∧ quiescent (manager vm')
  ∧ (∀ b, _base (tlb (manager vm') b) = _base (tlb (manager vm) b)
          ∧ _pos (tlb (manager vm') b) = _pos (tlb (manager vm) b))
  ∧ (∀ b, b ∈ _leased_list (manager vm') → _owner (tlb (manager vm') b) = None)
  ∧ region vm' = region vm
  ∧ UseCRS vm' = UseCRS vm ∧ _is_init vm' = _is_init vm
  ∧ CrsClassLoadMessage_should_notify vm' = CrsClassLoadMessage_should_notify vm
  ∧ CrsFirstCallMessage_should_notify vm' = CrsFirstCallMessage_should_notify vm.
Proof.
  unfold quiescent. intros Hq. cbv zeta.
  unfold NativeMemory_release_buffers, leased_buffers_do. rewrite Hq, app_nil_r.
  destruct (foldl _ _ _) as [m' locals'] eqn:Hfold.
  apply release_buffers_fold in Hfold as (Hl & Hn & _ & Hext & _ & Hin).
  change (manager (set_thread_locals locals' (set_manager m' vm))) with m'.
  split; [done|]. split; [by rewrite Hn|]. split; [done|].
  split; [|done]. intros b Hb. apply Hin. by rewrite <- Hl.
Qed.

(** The first loop of the flush, on a leased list whose buffers have all
    been released: nothing is put aside. *)
Lemma flush_leased_all_released {X} (f : TLBClosure X) leased :
  ∀ tu unc m os x tu' unc' m' os' x',
    (∀ b t x t' x', f b t x = Some (t', x') → _owner t' = _owner t) →
    (∀ b, b ∈ leased → _owner (tlb m b) = None) →
    flush_leased f leased tu unc m os x = Some (tu', unc', m', os', x') →
    _not_finished m' = _not_finished m.
Proof.
  induction leased as [|b leased IH]; intros tu unc m os x tu' unc' m' os' x' Hf Hown; simpl.
  - by intros [= <- <- <- <- <-].
  - change (tlb (set_leased_list leased m) b) with (tlb m b).
    rewrite (Hown b) by by left.
    destruct (f b (tlb m b) x) as [[t x1]|] eqn:Hfb; [|done].
    assert (Ht : _owner t = None) by (by rewrite (Hf _ _ _ _ _ Hfb), Hown by by left).
    assert (Hrest : ∀ m1, (∀ b', tlb m1 b' = tlb (set_tlb b t m) b') →
              ∀ b', b' ∈ leased → _owner (tlb m1 b') = None).
    { intros m1 Hm1 b' Hb'. rewrite Hm1. destruct (decide (b' = b)) as [->|Hne].
      - by rewrite tlb_set_tlb_eq.
      - rewrite tlb_set_tlb_ne by done. apply Hown. by right. }
    case_decide as Htu.
    + intros Hfl. eapply IH in Hfl; [by rewrite Hfl|done|by apply Hrest].
    + unfold uncommit_buffer. destruct (os_uncommit_memory os) as [[] os1].
      * intros Hfl. eapply IH in Hfl; [by rewrite Hfl|done|by apply Hrest].
      * intros Hfl. eapply IH in Hfl; [by rewrite Hfl|done|by apply Hrest].
Qed.

Lemma uncommit_free_keeps_leased free :
  ∀ tu unc m os unc' m' os',
    uncommit_free free tu unc m os = (unc', m', os') →
    _leased_list m' = _leased_list m ∧ _not_finished m' = _not_finished m.
Proof.
  induction free as [|b free IH]; intros tu unc m os unc' m' os'; simpl.
  - case_decide; by intros [= <- <- <-].
  - case_decide; [by intros [= <- <- <-]|].
    unfold uncommit_buffer. destruct (os_uncommit_memory os) as [[] os1].
    + intros Hu. by apply IH in Hu as [-> ->].
    + by intros [= <- <- <-].
Qed.

Lemma TLBFlushClosure_keeps_owner ms region b t x t' x' :
  TLBFlushClosure ms region b t x = Some (t', x') → _owner t' = _owner t.
Proof.
  unfold TLBFlushClosure. intros Hw.
  by apply MessageClosure_walk_keeps_buffer in Hw as (_ & _ & ?).
Qed.

(** A flush leaves the switches of the subsystem alone. *)
Lemma NativeMemory_flush_keeps_flags vm vm' :
  NativeMemory_flush vm = Some vm' →
  UseCRS vm' = UseCRS vm ∧ _is_init vm' = _is_init vm
  ∧ CrsClassLoadMessage_should_notify vm' = CrsClassLoadMessage_should_notify vm
  ∧ CrsFirstCallMessage_should_notify vm' = CrsFirstCallMessage_should_notify vm.
Proof.
  unfold NativeMemory_flush.
  destruct (flush_buffers _ _ _ _ _) as [[[m1 os1] agent1]|]; [|done].
  destruct (_overflow _); by intros [= <-].
Qed.

(** A flush of a quiescent pool whose leased buffers have all been
    released empties the leased list. *)
Lemma NativeMemory_flush_all_released vm vm' :
  quiescent (manager vm) →
  (∀ b, b ∈ _leased_list (manager vm) → _owner (tlb (manager vm) b) = None) →
  NativeMemory_flush vm = Some vm' →
  _leased_list (manager vm') = [] ∧ quiescent (manager vm').
Proof.
  unfold quiescent, NativeMemory_flush, flush_buffers. intros Hq Hown.
  change (manager (set_previous_usage (bytes_used (manager vm)) vm)) with (manager vm).
  destruct (flush_leased _ _ _ _ _ _ _) as [[[[[tu unc] m1] os1] x1]|] eqn:Hfl; [|done].
  pose proof Hfl as Hfl'.
  apply flush_leased_moves in Hfl' as (Hl1 & _); [|done].
  apply flush_leased_all_released in Hfl;
    [|intros ? ? ? ? ?; apply TLBFlushClosure_keeps_owner|done].
  rewrite Hfl, Hq.
  destruct (uncommit_free _ _ _ _ _) as [[unc2 m2] os2] eqn:Hun.
  apply uncommit_free_keeps_leased in Hun as [Hl2 Hn2].
  assert (Hfin : ∀ m3, m3 = match unc2 with
                            | [] => m2
                            | _ :: _ => set_uncommitted_list
                                          (AList.add_list_seq unc2 (_uncommitted_list m2)) m2
                            end →
                 _leased_list m3 = [] ∧ _not_finished m3 = []).
  { intros m3 ->. destruct unc2; simpl; by rewrite Hl2, Hn2, Hl1, Hfl, Hq. }
  destruct (_overflow _); intros [= <-]; by apply Hfin.
Qed.

Lemma NativeMemory_alloc_keeps_flags size thread vm :
  let vm' := (NativeMemory_alloc size thread vm).2 in
  UseCRS vm' = UseCRS vm ∧ _is_init vm' = _is_init vm
  ∧ CrsClassLoadMessage_should_notify vm' = CrsClassLoadMessage_should_notify vm
  ∧ CrsFirstCallMessage_should_notify vm' = CrsFirstCallMessage_should_notify vm
  ∧ metaspace vm' = metaspace vm.
Proof.
  unfold NativeMemory_alloc. destruct (_overflow (memory vm)); [done|].
  destruct (ensure _ _ _ _ _) as [[new_buffer m] os1].
  case_decide; destruct new_buffer; done.
Qed.

Lemma CrsFirstCallMessage_post_keeps_flags method thread vm :
  let vm' := CrsFirstCallMessage_post method thread vm in
  UseCRS vm' = UseCRS vm ∧ _is_init vm' = _is_init vm
  ∧ CrsClassLoadMessage_should_notify vm' = CrsClassLoadMessage_should_notify vm
  ∧ CrsFirstCallMessage_should_notify vm' = CrsFirstCallMessage_should_notify vm.
Proof.
  unfold CrsFirstCallMessage_post.
  pose proof (NativeMemory_alloc_keeps_flags sizeof_CrsFirstCallMessage thread vm) as Hk.
  destruct (NativeMemory_alloc _ _ _) as [[p|] vm1]; simpl in Hk |- *; naive_solver.
Qed.

Lemma notify_production_off vm n : production_off vm → notify vm n = vm.
Proof.
  intros [Hc Hf]. destruct n; simpl.
  - unfold notify_class_load. by rewrite Hc, andb_false_r.
  - unfold notify_first_call. by rewrite Hf, andb_false_r.
Qed.

Lemma ConnectedRuntime_flush_buffers_class_load_off force and_stop vm vm' :
  ConnectedRuntime_flush_buffers force and_stop vm = Some vm' →
  CrsClassLoadMessage_should_notify vm = false →
  CrsClassLoadMessage_should_notify vm' = false.
Proof.
  unfold ConnectedRuntime_flush_buffers. destruct (negb _); [by intros [= <-]|].
  intros Hfl Hoff. apply NativeMemory_flush_keeps_flags in Hfl as (_ & _ & -> & _).
  destruct force; [|done].
  unfold VMThread_execute. destruct (doit_prologue _ _); [|done].
  unfold doit. simpl. unfold release_buffers_do, NativeMemory_release_buffers.
  destruct (leased_buffers_do _ _ _) as [m locals]. by destruct and_stop.
Qed.

(** No step of the program or of the agent switches the class-load events
    on again: [CrsClassLoadMessage::set_should_notify] is only ever called
    with [false]. *)
Lemma step_class_load_off vm s vm' :
  step vm s = Some vm' →
  CrsClassLoadMessage_should_notify vm = false →
  CrsClassLoadMessage_should_notify vm' = false.
Proof.
  destruct s as [n|event enabled]; simpl.
  - intros [= <-] Hoff. destruct n as [ikh hash source thread|thread method]; simpl.
    + unfold notify_class_load. by rewrite Hoff, andb_false_r.
    + unfold notify_first_call. destruct (_ && _); [|done].
      by destruct (CrsFirstCallMessage_post_keeps_flags method thread vm) as (_ & _ & -> & _).
  - unfold setNativeEventFilter. case_decide; [by intros [= <-]|].
    case_decide; [|by intros [= <-]].
    apply ConnectedRuntime_flush_buffers_class_load_off.
Qed.

Lemma run_steps_class_load_off l :
  ∀ vm vm', run_steps vm l = Some vm' →
    CrsClassLoadMessage_should_notify vm = false →
    CrsClassLoadMessage_should_notify vm' = false.
Proof.
  induction l as [|s l IH]; intros vm vm'; simpl; [by intros [= <-]|].
  destruct (step vm s) as [vm1|] eqn:Hs; [|done].
  intros Hrun Hoff. eapply IH; [done|]. by eapply step_class_load_off.
Qed.

(** The forced flush with [and_stop], when the pool has bytes in use.  The
    operation that releases the buffers clears both switches itself, so
    they are off before any thread runs again; the flush that follows
    returns and leaves no buffer on the leased list.  From then on a
    notification writes nothing as long as the agent does not switch the
    first-call events on again, and class-load events stay off whatever
    the agent and the program do. *)
Theorem forced_flush_stops_production (vm : VM) :
  _is_init vm = true →
  bytes_used (manager vm) > 0 →
  quiescent (manager vm) →
  (∀ b, b ∈ _leased_list (manager vm) → walkable (region vm) (tlb (manager vm) b)) →
  let vm_op := VMThread_execute (release_buffers_op true) vm in
  production_off vm_op
  ∧ (∀ b, b ∈ _leased_list (manager vm_op) → _owner (tlb (manager vm_op) b) = None)
  ∧ ∃ vm', ConnectedRuntime_flush_buffers true true vm = Some vm'
      ∧ _leased_list (manager vm') = []
      ∧ production_off vm'
      ∧ (∀ l, foldl notify vm' l = vm')
      ∧ (∀ l vm'', run_steps vm' l = Some vm'' →
           CrsClassLoadMessage_should_notify vm'' = false).
Proof.
  intros Hinit Hused Hq Hwalk vm_op.
  pose proof (NativeMemory_release_buffers_releases vm Hq) as Hrel. cbv zeta in Hrel.
  destruct Hrel as (Hl & Hq' & Hext & Hown & Hreg & _).
  assert (Hop : vm_op = set_should_notify false false (NativeMemory_release_buffers vm)).
  { unfold vm_op, VMThread_execute, doit_prologue, release_buffers_op. simpl.
    unfold release_buffers_pre. by rewrite bool_decide_eq_true_2. }
  assert (Hm : manager vm_op = manager (NativeMemory_release_buffers vm)) by by rewrite Hop.
  assert (Hoff : production_off vm_op) by by rewrite Hop.
  split; [done|]. split; [by rewrite Hm|].
  assert (Hw : ∀ b, b ∈ _leased_list (manager vm_op) →
                    walkable (region vm_op) (tlb (manager vm_op) b)).
  { intros b Hb. rewrite Hm in Hb |- *. rewrite Hl in Hb.
    replace (region vm_op) with (region vm) by by rewrite Hop.
    destruct (Hext b) as [Hbase Hpos].
    eapply walkable_same_extent; [exact Hbase|exact Hpos|]. by apply Hwalk. }
  destruct (NativeMemory_flush_returns vm_op Hw) as [vm' Hfl].
  exists vm'.
  assert (Hflush : ConnectedRuntime_flush_buffers true true vm = Some vm').
  { unfold ConnectedRuntime_flush_buffers. by rewrite Hinit. }
  split; [done|].
  pose proof (NativeMemory_flush_keeps_flags _ _ Hfl) as (_ & _ & Hc & Hf).
  apply NativeMemory_flush_all_released in Hfl as [Hleased _];
    [|by rewrite Hm|by rewrite Hm].
  assert (Hoff' : production_off vm').
  { destruct Hoff as [Hc0 Hf0]. split; congruence. }
  split; [done|]. split; [done|]. split.
  - intros l. induction l as [|n l IH]; simpl; [done|].
    by rewrite notify_production_off.
  - intros l vm'' Hrun. eapply run_steps_class_load_off; [done|]. by destruct Hoff'.
Qed.

Lemma forced_flush_stops_production_witness :
  let vm_op := VMThread_execute (release_buffers_op true) vm_thread_1 in
  production_off vm_op
  ∧ (∀ b, b ∈ _leased_list (manager vm_op) → _owner (tlb (manager vm_op) b) = None)
  ∧ ∃ vm', ConnectedRuntime_flush_buffers true true vm_thread_1 = Some vm'
      ∧ _leased_list (manager vm') = []
      ∧ production_off vm'
      ∧ (∀ l, foldl notify vm' l = vm')
      ∧ (∀ l vm'', run_steps vm' l = Some vm'' →
           CrsClassLoadMessage_should_notify vm'' = false).
Proof.
  apply (forced_flush_stops_production vm_thread_1).
  - by vm_compute.
  - by vm_compute.
  - by vm_compute.
  - intros b Hb.
    assert (Hl : _leased_list (manager vm_thread_1) = [0%nat]) by by vm_compute.
    rewrite Hl in Hb. apply list_elem_of_singleton in Hb as ->.
    vm_compute. by eexists.
Defined.

(** The stop is not for ever, and not in every state.  After the forced
    flush with [and_stop] of [vm_thread_1], the agent switches the
    first-call events on again and the next first call is recorded.  And
    in a subsystem with no byte in use, [doit_prologue] cancels the
    operation: the switches stay on and the next first call is
    recorded. *)
Example forced_flush_does_not_stop_for_ever :
  (∃ vm' vm'',
     ConnectedRuntime_flush_buffers true true vm_thread_1 = Some vm'
     ∧ production_off vm'
     ∧ setNativeEventFilter CRS_MESSAGE_FIRST_CALL_value true vm' = Some vm''
     ∧ region (notify vm'' (FirstCalled 1%nat 5%nat)) ≠ region vm''
     ∧ ¬ production_stays_off vm')
  ∧ (∃ vm',
       bytes_used (manager vm_two_buffers) = 0
       ∧ ConnectedRuntime_flush_buffers true true vm_two_buffers = Some vm'
       ∧ CrsClassLoadMessage_should_notify vm' = true
       ∧ CrsFirstCallMessage_should_notify vm' = true
       ∧ region (notify vm' (FirstCalled 1%nat 5%nat)) ≠ region vm').
Proof.
  split.
  - eexists _, _. split; [vm_compute; reflexivity|]. split; [by vm_compute|].
    split; [vm_compute; reflexivity|]. split; [by vm_compute|].
    intros Hstay.
    specialize (Hstay [Filter CRS_MESSAGE_FIRST_CALL_value true] _ (FirstCalled 1%nat 5%nat)
                  ltac:(vm_compute; reflexivity)).
    by vm_compute in Hstay.
  - eexists. split; [by vm_compute|]. split; [vm_compute; reflexivity|].
    split_and!; by vm_compute.
Qed.

(** ** The arguments of the subsystem *)

Lemma lookup_c_string_NUL (v : list byte) (n : nat) :
  is_c_string v → (v ++ [NUL]) !! n = Some NUL ↔ n = length v.
Proof.
  unfold is_c_string. intros Hv. split.
  - intros Hn. destruct (decide (n < length v)%nat) as [Hlt|Hge].
    + rewrite lookup_app_l in Hn by done. destruct Hv. by eapply list_elem_of_lookup_2.
    + apply lookup_lt_Some in Hn. rewrite length_app in Hn. simpl in Hn. lia.
  - intros ->. by rewrite list_lookup_middle.
Qed.

(** [strncmp(a, b, n) == 0] for [n] characters that [a] has: the first [n]
    characters of [a] begin [b]. *)
Lemma strncmp_eq_prefix (a b : list byte) (n : nat) :
  is_c_string a → is_c_string b → (n ≤ length a)%nat →
  strncmp_eq a b n = bool_decide (take n a `prefix_of` b).
Proof.
  intros Ha Hb Hn. unfold strncmp_eq. rewrite !c_str_id by done.
  rewrite (take_app_le a) by done. apply bool_decide_ext. split.
  - intros Heq. destruct (decide (n ≤ length b)%nat) as [Hle|Hgt].
    + rewrite take_app_le in Heq by done. rewrite Heq. apply prefix_take.
    + rewrite (take_ge (b ++ [NUL])) in Heq by (rewrite length_app; simpl; lia).
      destruct Ha. apply (subseteq_take n a). rewrite Heq. set_solver.
  - intros [k ->]. rewrite <- app_assoc.
    rewrite take_app_le by (rewrite length_take; lia).
    rewrite take_take. f_equal. lia.
Qed.

Lemma strncmp_eq_sym (a b : list byte) (n : nat) : strncmp_eq a b n = strncmp_eq b a n.
Proof. unfold strncmp_eq. apply bool_decide_ext. split; by intros ->. Qed.

(** [strnequals(value1, value2, n)] for [n] characters that [value2] has:
    they are [value1], no more and no less. *)
Lemma strnequals_exact (value1 value2 : list byte) (n : nat) :
  is_c_string value1 → is_c_string value2 → (n ≤ length value2)%nat →
  strnequals value1 value2 n = bool_decide (take n value2 = value1).
Proof.
  intros H1 H2 Hn. unfold strnequals.
  rewrite strncmp_eq_sym, strncmp_eq_prefix by done.
  rewrite (c_str_id value1) by done.
  rewrite (bool_decide_ext _ _ (lookup_c_string_NUL value1 n H1)).
  rewrite <- bool_decide_and. apply bool_decide_ext. split.
  - intros [Hpre Hlen]. apply prefix_length_eq; [done|].
    rewrite length_take. lia.
  - intros <-. split; [done|]. rewrite length_take. lia.
Qed.

(** Both read no more of the argument string than the characters they are
    given the count of. *)
Lemma strncmp_eq_agree (a a' b : list byte) (n : nat) :
  is_c_string a → is_c_string a' → (n ≤ length a)%nat → (n ≤ length a')%nat →
  take n a = take n a' → strncmp_eq a b n = strncmp_eq a' b n.
Proof.
  intros Ha Ha' Hn Hn' Heq. unfold strncmp_eq. rewrite (c_str_id a), (c_str_id a') by done.
  rewrite (take_app_le a), (take_app_le a') by done. by rewrite Heq.
Qed.

Lemma strnequals_agree (v a a' : list byte) (n : nat) :
  is_c_string a → is_c_string a' → (n ≤ length a)%nat → (n ≤ length a')%nat →
  take n a = take n a' → strnequals v a n = strnequals v a' n.
Proof.
  intros Ha Ha' Hn Hn' Heq. unfold strnequals.
  by rewrite (strncmp_eq_sym v a), (strncmp_eq_sym v a'), (strncmp_eq_agree a a' v n).
Qed.

Lemma parse_log_level_agree var (a a' : list byte) (n : nat) :
  is_c_string a → is_c_string a' → (n ≤ length a)%nat → (n ≤ length a')%nat →
  take n a = take n a' → parse_log_level var a n = parse_log_level var a' n.
Proof.
  intros Ha Ha' Hn Hn' Heq. unfold parse_log_level.
  generalize 0%nat. induction log_level_values as [|v vs IH]; intros i; simpl; [done|].
  by rewrite (strnequals_agree v a a' n), IH.
Qed.

Lemma parse_option_agree i (a a' : list byte) (n : nat) st :
  is_c_string a → is_c_string a' → (n ≤ length a)%nat → (n ≤ length a')%nat →
  take n a = take n a' → parse_option i a n st = parse_option i a' n st.
Proof.
  intros Ha Ha' Hn Hn' Heq.
  destruct i as [|[|[|i]]]; simpl; [| |by rewrite !(strnequals_agree _ a a' n)|done].
  - by rewrite (parse_log_level_agree _ a a' n).
  - by rewrite (parse_log_level_agree _ a a' n).
Qed.

Lemma is_c_string_take (s : list byte) n : is_c_string s → is_c_string (take n s).
Proof. unfold is_c_string. intros Hs Hin. apply Hs. by eapply subseteq_take. Qed.

Lemma is_c_string_drop (s : list byte) n : is_c_string s → is_c_string (drop n s).
Proof. unfold is_c_string. intros Hs Hin. apply Hs. by eapply subseteq_drop. Qed.

Lemma index_of_Some (c : byte) (s : list byte) (n : nat) :
  index_of c s = Some n → (n < length s)%nat ∧ s !! n = Some c ∧ c ∉ take n s.
Proof.
  revert n. induction s as [|x s IH]; intros n; simpl; [done|].
  case_decide as Hx.
  - intros [= <-]. subst. split; [lia|]. split; [done|]. simpl. apply not_elem_of_nil.
  - destruct (index_of c s) as [m|]; simpl; [|done]. intros [= <-].
    destruct (IH m eq_refl) as (Hlt & Hlook & Hnot).
    split; [lia|]. split; [done|]. simpl. rewrite not_elem_of_cons. split; [congruence|done].
Qed.

Lemma index_of_None (c : byte) (s : list byte) : index_of c s = None → c ∉ s.
Proof.
  induction s as [|x s IH]; simpl; [intros _; apply not_elem_of_nil|].
  case_decide as Hx; [done|]. destruct (index_of c s); simpl; [done|].
  intros _. rewrite not_elem_of_cons. split; [congruence|by apply IH].
Qed.

Lemma index_of_app (c : byte) (k v : list byte) :
  c ∉ k → index_of c (k ++ c :: v) = Some (length k).
Proof.
  induction k as [|x k IH]; simpl; intros Hk.
  - by rewrite decide_True.
  - rewrite not_elem_of_cons in Hk. destruct Hk as [Hx Hk].
    rewrite decide_False by congruence. by rewrite IH.
Qed.

Lemma index_of_take (c : byte) (s : list byte) (n : nat) :
  index_of c (take n s) =
    match index_of c s with
    | Some e => if decide (e < n)%nat then Some e else None
    | None => None
    end.
Proof.
  revert n. induction s as [|x s IH]; intros n; simpl.
  - by destruct n.
  - destruct n as [|n]; simpl.
    + case_decide; [done|]. by destruct (index_of c s).
    + case_decide as Hx; [done|]. rewrite IH.
      destruct (index_of c s) as [e|]; simpl; [|done].
      destruct (decide (e < n)%nat), (decide (S e < S n)%nat); simpl; done || lia.
Qed.

Lemma pieces_comma (s : list byte) (n : nat) :
  index_of COMMA s = Some n → pieces s = take n s :: pieces (drop (S n) s).
Proof.
  revert n. induction s as [|x s IH]; intros n; simpl; [done|].
  case_decide as Hx.
  - by intros [= <-].
  - destruct (index_of COMMA s) as [m|] eqn:Hm; simpl; [|done]. intros [= <-].
    by rewrite (IH m eq_refl).
Qed.

Lemma pieces_no_comma (s : list byte) : index_of COMMA s = None → pieces s = [s].
Proof.
  induction s as [|x s IH]; simpl; [done|].
  case_decide as Hx; [done|]. destruct (index_of COMMA s); simpl; [done|].
  intros _. by rewrite IH.
Qed.

Lemma foldl_ext_all {A B} (f g : A → B → A) (l : list B) (a : A) :
  (∀ a b, f a b = g a b) → foldl f a l = foldl g a l.
Proof. intros Hfg. revert a. induction l as [|b l IH]; intros a; simpl; [done|]. by rewrite Hfg, IH. Qed.

(** One round of the loop reads the piece before the comma and nothing
    else of the string. *)
Lemma parse_round_piece (arguments : list byte) (n : nat) (st : ParsedArguments) :
  is_c_string arguments → (n ≤ length arguments)%nat →
  match strchr arguments EQUALS with
  | Some e =>
      if decide (e < n)%nat then parse_key_value arguments e n st
      else parse_flag arguments n st
  | None => parse_flag arguments n st
  end = parse_piece st (take n arguments).
Proof.
  intros Hs Hn. unfold strchr, parse_piece. rewrite c_str_id by done.
  rewrite index_of_take, length_take_le by done.
  assert (Hflag : parse_flag arguments n st = parse_flag (take n arguments) n st).
  { unfold parse_flag.
    by rewrite !(strnequals_agree _ arguments (take n arguments) n)
      by (try (by apply is_c_string_take); try done;
          rewrite ?length_take, ?take_take; try lia; f_equal; lia). }
  destruct (index_of EQUALS arguments) as [e|]; [|done].
  case_decide as He; [|done].
  unfold parse_key_value. apply foldl_ext_all. intros st' io.
  rewrite (strncmp_eq_agree arguments (take n arguments) io.2 e)
    by (try (by apply is_c_string_take); try done;
        rewrite ?length_take, ?take_take; try lia; f_equal; lia).
  destruct (strncmp_eq _ _ _); [|done].
  apply parse_option_agree.
  - by apply is_c_string_drop.
  - by apply is_c_string_drop, is_c_string_take.
  - rewrite length_drop. lia.
  - rewrite length_drop, length_take. lia.
  - rewrite !take_drop_commute, take_take. f_equal. f_equal. lia.
Qed.

Lemma parse_arguments_loop_pieces (fuel : nat) :
  ∀ arguments st,
    is_c_string arguments → (length arguments < fuel)%nat →
    parse_arguments_loop fuel arguments st = Some (foldl parse_piece st (pieces arguments)).
Proof.
  induction fuel as [|fuel IH]; intros arguments st Hs Hfuel; [lia|].
  cbn [parse_arguments_loop]. pose proof (parse_round_piece arguments) as Hround.
  assert (Hc : strchr arguments COMMA = index_of COMMA arguments)
    by (unfold strchr; by rewrite c_str_id).
  rewrite Hc. clear Hc.
  destruct (index_of COMMA arguments) as [n|] eqn:Hcomma.
  - apply index_of_Some in Hcomma as Hn. destruct Hn as (Hn & _ & _).
    rewrite Hround by (done || lia).
    rewrite (pieces_comma _ _ Hcomma). simpl.
    apply IH; [by apply is_c_string_drop|]. rewrite length_drop. lia.
  - rewrite strlen_c_string, Nat2Z.id by done.
    rewrite Hround by (done || lia).
    by rewrite firstn_all, (pieces_no_comma _ Hcomma).
Qed.

Lemma pieces_nonempty (s : list byte) : pieces s ≠ [].
Proof. destruct s as [|x s]; simpl; [done|]. case_decide; [done|]. by destruct (pieces s). Qed.

Lemma pieces_app (a b : list byte) : pieces (a ++ COMMA :: b) = pieces a ++ pieces b.
Proof.
  induction a as [|x a IH]; simpl.
  - done.
  - case_decide; [by rewrite IH|]. rewrite IH.
    pose proof (pieces_nonempty a). by destruct (pieces a).
Qed.

Lemma pieces_c_strings (s : list byte) : is_c_string s → Forall is_c_string (pieces s).
Proof.
  unfold is_c_string. induction s as [|x s IH]; simpl; intros Hs.
  - by repeat constructor.
  - rewrite not_elem_of_cons in Hs. destruct Hs as [Hx Hs]. specialize (IH Hs).
    case_decide.
    + constructor; [apply not_elem_of_nil|done].
    + destruct (pieces s) as [|p ps]; [repeat constructor; set_solver|].
      inversion IH as [|? ? Hp Hps]; subst. constructor; [|done].
      rewrite not_elem_of_cons. done.
Qed.

Lemma parse_arguments_pieces (arguments : list byte) (needs_unlock UseCRS : bool)
    (lvl : LogLevel) :
  is_c_string arguments →
  parse_arguments arguments needs_unlock (UseCRS, lvl) =
    let st := foldl parse_piece
                (mkParsedArguments CRS_LOG_LEVEL_NOT_SET CRS_LOG_LEVEL_NOT_SET false false)
                (pieces arguments) in
    Some (if use_crs st && (negb needs_unlock || unlock_is_set st) then true else UseCRS,
          if decide (vm_log_level st ≠ CRS_LOG_LEVEL_NOT_SET) then vm_log_level st
          else if decide (global_log_level st ≠ CRS_LOG_LEVEL_NOT_SET)
               then global_log_level st
               else lvl).
Proof.
  intros Hs. unfold parse_arguments.
  by rewrite parse_arguments_loop_pieces by (done || lia).
Qed.

Lemma parse_key_value_of_piece (st : ParsedArguments) (k v : list byte) :
  is_c_string k → is_c_string v → EQUALS ∉ k →
  parse_piece st (k ++ EQUALS :: v) =
    let st := if bool_decide (k `prefix_of` chars "log")
              then parse_option 0 v (length v) st else st in
    let st := if bool_decide (k `prefix_of` chars "log+vm")
              then parse_option 1 v (length v) st else st in
    if bool_decide (k `prefix_of` USE_CRS_ARGUMENT) then parse_option 2 v (length v) st else st.
Proof.
  intros Hk Hv He. unfold parse_piece. rewrite index_of_app by done.
  assert (Hpiece : is_c_string (k ++ EQUALS :: v)).
  { unfold is_c_string in *. rewrite elem_of_app, elem_of_cons. intros [?|[?|?]]; done. }
  assert (Hlen : (length (k ++ EQUALS :: v) - S (length k))%nat = length v).
  { rewrite length_app. simpl. lia. }
  assert (Hdrop : drop (S (length k)) (k ++ EQUALS :: v) = v).
  { rewrite (cons_middle EQUALS k v), app_assoc.
    rewrite drop_app_length'; [done|]. rewrite length_app. simpl. lia. }
  assert (Hcmp : ∀ opt, is_c_string opt →
            strncmp_eq (k ++ EQUALS :: v) opt (length k) = bool_decide (k `prefix_of` opt)).
  { intros opt Hopt. rewrite strncmp_eq_prefix; [|done|done|rewrite length_app; lia].
    by rewrite take_app_length. }
  unfold parse_key_value.
  change (imap pair options) with
    [(0, chars "log"); (1, chars "log+vm"); (2, USE_CRS_ARGUMENT); (3, UNLOCK_CRS_ARGUMENT)]%nat.
  cbn [foldl fst snd]. rewrite Hlen, Hdrop.
  rewrite !Hcmp by solve_c_string. cbv zeta.
  by destruct (bool_decide (k `prefix_of` UNLOCK_CRS_ARGUMENT)).
Qed.

Lemma parse_option_keeps_unlock i v n st :
  unlock_is_set (parse_option i v n st) = unlock_is_set st.
Proof. destruct i as [|[|[|i]]]; simpl; try done. by destruct (_ || _). Qed.

Lemma parse_piece_unlock (st : ParsedArguments) (piece : list byte) :
  is_c_string piece →
  unlock_is_set (parse_piece st piece)
  = unlock_is_set st || bool_decide (piece = UNLOCK_CRS_ARGUMENT).
Proof.
  intros Hp. unfold parse_piece. destruct (index_of EQUALS piece) as [e|] eqn:He.
  - assert (Hne : piece ≠ UNLOCK_CRS_ARGUMENT).
    { intros ->. by vm_compute in He. }
    rewrite (bool_decide_eq_false_2 _ Hne), orb_false_r.
    unfold parse_key_value.
    change (imap pair options) with
      [(0, chars "log"); (1, chars "log+vm"); (2, USE_CRS_ARGUMENT);
       (3, UNLOCK_CRS_ARGUMENT)]%nat.
    cbn [foldl fst snd].
    repeat (destruct (strncmp_eq _ _ _); rewrite ?parse_option_keeps_unlock); done.
  - unfold parse_flag.
    rewrite !strnequals_exact by (done || solve_c_string). rewrite !firstn_all.
    destruct (bool_decide_reflect (piece = USE_CRS_ARGUMENT)) as [->|Hne]; simpl.
    + by rewrite orb_false_r.
    + destruct (bool_decide (piece = UNLOCK_CRS_ARGUMENT)); simpl;
        by rewrite ?orb_true_r, ?orb_false_r.
Qed.

Lemma parse_pieces_unlock (ps : list (list byte)) :
  ∀ st, Forall is_c_string ps →
    unlock_is_set (foldl parse_piece st ps) = true →
    unlock_is_set st = true ∨ UNLOCK_CRS_ARGUMENT ∈ ps.
Proof.
  induction ps as [|p ps IH]; intros st Hps; simpl; [by left|].
  inversion Hps as [|? ? Hp Hps']; subst. intros Hset.
  destruct (IH _ Hps' Hset) as [Hset'|Hin]; [|right; by right].
  rewrite parse_piece_unlock in Hset' by done.
  apply orb_true_iff in Hset' as [?|Heq%bool_decide_eq_true]; [by left|].
  right. subst. by left.
Qed.

(** X2.  [parse_log_level] matches the value against the six level names
    exactly, case and length included: a value that is the name at index
    [i] sets the variable to the level [i]; any other value leaves the
    variable as it was. *)
Theorem parse_log_level_exact (var : LogLevel) (value : list byte) (n : nat) :
  is_c_string value → (n ≤ length value)%nat →
  (∀ i name, log_level_values !! i = Some name → take n value = name →
             parse_log_level var value n = LogLevel_of_index i)
  ∧ (take n value ∉ log_level_values → parse_log_level var value n = var).
Proof.
  intros Hv Hn. unfold parse_log_level, log_level_values. cbn [parse_log_level_from].
  rewrite !strnequals_exact by (done || solve_c_string). split.
  - intros i name Hi ->.
    do 6 (destruct i as [|i]; [simpl in Hi; injection Hi as <-; by vm_compute|]). done.
  - intros Hnot.
    rewrite !bool_decide_eq_false_2; [done|..]; intros Heq; apply Hnot; rewrite Heq;
      set_solver.
Qed.

Lemma parse_log_level_exact_witness :
  (∀ i name, log_level_values !! i = Some name →
             take 5 (chars "debug,useCRS") = name →
             parse_log_level CRS_LOG_LEVEL_NOT_SET (chars "debug,useCRS") 5
             = LogLevel_of_index i)
  ∧ (take 5 (chars "debug,useCRS") ∉ log_level_values →
     parse_log_level CRS_LOG_LEVEL_NOT_SET (chars "debug,useCRS") 5 = CRS_LOG_LEVEL_NOT_SET).
Proof.
  apply (parse_log_level_exact CRS_LOG_LEVEL_NOT_SET (chars "debug,useCRS") 5%nat).
  - solve_c_string.
  - vm_compute. lia.
Defined.



(** X4.  The key of a [key=value] piece selects every option whose name
    it begins, not only the option of that name ([strncmp] is given the
    length of the key): [log] is selected by the keys that begin [log],
    [log+vm] by those that begin [log+vm], [useCRS] by those that begin
    [useCRS], and the empty key selects them all. *)
Theorem option_key_selects_by_prefix (st : ParsedArguments) (k v : list byte) :
  is_c_string k → is_c_string v → EQUALS ∉ k →
  parse_piece st (k ++ EQUALS :: v) =
    let st := if bool_decide (k `prefix_of` chars "log")
              then parse_option 0 v (length v) st else st in
    let st := if bool_decide (k `prefix_of` chars "log+vm")
              then parse_option 1 v (length v) st else st in
    if bool_decide (k `prefix_of` USE_CRS_ARGUMENT) then parse_option 2 v (length v) st else st.
Proof. apply parse_key_value_of_piece. Qed.

Lemma option_key_selects_by_prefix_witness :
  parse_piece (mkParsedArguments CRS_LOG_LEVEL_NOT_SET CRS_LOG_LEVEL_NOT_SET false false)
    (chars "lo" ++ EQUALS :: chars "debug")
  = mkParsedArguments CRS_LOG_LEVEL_DEBUG CRS_LOG_LEVEL_DEBUG false false.
Proof.
  rewrite (option_key_selects_by_prefix _ (chars "lo") (chars "debug"));
    [by vm_compute|solve_c_string|solve_c_string|].
  apply (bool_decide_unpack _). by vm_compute.
Defined.

Ltac level_cases i Hi :=
  do 6 (try (destruct i as [|i]; [simpl in Hi; injection Hi as <-|]));
  try (by simpl in Hi).

(** X5.  A [log=] argument sets the log level of the VM too, so it takes
    the place of a [log+vm=] argument given before it: whatever comes
    first in the string, [...,log+vm=A,log=B] leaves the level [B]. *)
Theorem log_overrides_earlier_log_vm (before : list byte) (i j : nat) (a b : list byte)
    (needs_unlock UseCRS : bool) (lvl : LogLevel) :
  is_c_string before →
  log_level_values !! i = Some a → log_level_values !! j = Some b →
  snd <$> parse_arguments
            (before ++ COMMA :: (chars "log+vm=" ++ a) ++ COMMA :: (chars "log=" ++ b))
            needs_unlock (UseCRS, lvl)
  = Some (LogLevel_of_index j).
Proof.
  intros Hbefore Hi Hj.
  assert (Ha : is_c_string a ∧ COMMA ∉ a).
  { do 6 (destruct i as [|i]; [simpl in Hi; injection Hi as <-;
                                split; apply (bool_decide_unpack _); by vm_compute|]).
    done. }
  assert (Hb : is_c_string b ∧ COMMA ∉ b).
  { do 6 (destruct j as [|j]; [simpl in Hj; injection Hj as <-;
                                split; apply (bool_decide_unpack _); by vm_compute|]).
    done. }
  rewrite parse_arguments_pieces.
  2:{ destruct Ha as [Ha _], Hb as [Hb _].
      repeat (apply is_c_string_app || apply is_c_string_cons);
        done || solve_c_string. }
  cbv zeta. rewrite !pieces_app, !foldl_app.
  set (st0 := foldl parse_piece _ (pieces before)). clearbody st0.
  level_cases i Hi; level_cases j Hj; by vm_compute.
Qed.

Lemma log_overrides_earlier_log_vm_witness :
  snd <$> parse_arguments
            (chars "useCRS" ++ COMMA :: (chars "log+vm=" ++ chars "trace")
               ++ COMMA :: (chars "log=" ++ chars "error"))
            false (false, CRS_LOG_LEVEL_NOT_SET)
  = Some CRS_LOG_LEVEL_ERROR.
Proof.
  apply (log_overrides_earlier_log_vm (chars "useCRS") 0 4 (chars "trace") (chars "error")
           false false CRS_LOG_LEVEL_NOT_SET).
  - solve_c_string.
  - reflexivity.
  - reflexivity.
Defined.

(** X6.  The arguments of the environment variable are parsed with
    [needs_unlock]: they return flags for every string, never clear
    [UseCRS], and set it only when one of the pieces of the string is
    [UnlockExperimentalCRS]. *)
Theorem environment_needs_unlock (env_args : list byte) (UseCRS : bool) (lvl : LogLevel) :
  is_c_string env_args →
  ∃ UseCRS' lvl',
    parse_arguments env_args true (UseCRS, lvl) = Some (UseCRS', lvl')
    ∧ (UseCRS = true → UseCRS' = true)
    ∧ (UseCRS' = true → UseCRS = true ∨ UNLOCK_CRS_ARGUMENT ∈ pieces env_args).
Proof.
  intros Hs. rewrite parse_arguments_pieces by done. cbv zeta.
  eexists _, _. split; [done|]. split.
  - intros ->. by destruct (_ && _).
  - destruct (use_crs _ && _) eqn:Hon; [|by left]. intros _. right.
    apply andb_true_iff in Hon as [_ Hun]. simpl in Hun.
    by destruct (parse_pieces_unlock _ _ (pieces_c_strings _ Hs) Hun) as [Hun'|Hin].
Qed.

Lemma environment_needs_unlock_witness :
  ∃ UseCRS' lvl',
    parse_arguments (chars "useCRS,log=debug") true (false, CRS_LOG_LEVEL_NOT_SET)
    = Some (UseCRS', lvl')
    ∧ (false = true → UseCRS' = true)
    ∧ (UseCRS' = true →
       false = true ∨ UNLOCK_CRS_ARGUMENT ∈ pieces (chars "useCRS,log=debug")).
Proof.
  apply (environment_needs_unlock (chars "useCRS,log=debug") false CRS_LOG_LEVEL_NOT_SET).
  solve_c_string.
Defined.

(** ** The event queue of the service thread *)

(** The name of an event: holder, a dot, method. *)
Lemma CRSToJavaCallEvent_name_c_str (holder_symbol method_symbol : list byte) :
  is_c_string holder_symbol → is_c_string method_symbol →
  c_str (CRSToJavaCallEvent_name holder_symbol method_symbol)
  = holder_symbol ++ [DOT] ++ method_symbol.
Proof.
  intros Hh Hm. unfold CRSToJavaCallEvent_name. cbv zeta.
  rewrite !as_C_string_fits.
  set (h := holder_symbol). set (m := method_symbol).
  replace (Z.to_nat (Z.of_nat (length h) + 1 + Z.of_nat (length m) + 1))
    with ((length h + 1) + (length m + 1))%nat by lia.
  rewrite replicate_add.
  pose proof (write_at_middle [] (replicate (length h + 1) NUL)
                (replicate (length m + 1) NUL) (h ++ [NUL])) as H1.
  change (Z.of_nat (length (@nil byte))) with 0 in H1. cbn [app] in H1.
  rewrite H1 by (rewrite length_app, length_replicate; done). clear H1.
  pose proof (write_at_middle h [NUL] (replicate (length m + 1) NUL) [DOT] eq_refl) as H2.
  rewrite <- app_assoc. rewrite H2. clear H2.
  pose proof (write_at_middle (h ++ [DOT]) (replicate (length m + 1) NUL) [] (m ++ [NUL])) as H3.
  rewrite !length_app in H3. cbn [length] in H3. rewrite app_nil_r in H3.
  replace (Z.of_nat (length h) + 1) with (Z.of_nat (length h + 1)) by lia.
  rewrite (app_assoc h [DOT]), H3 by (by rewrite length_replicate).
  rewrite app_nil_r.
  replace ((h ++ [DOT]) ++ m ++ [NUL]) with ((h ++ [DOT] ++ m) ++ [NUL])
    by (by rewrite <- !app_assoc).
  apply c_str_app_NUL.
  apply is_c_string_app; [done|]. apply is_c_string_app; [|done].
  unfold is_c_string. by rewrite list_elem_of_singleton.
Qed.

Lemma named_lookup s l names e :
  named s l names → e ∈ l → is_Some (events s !! e).
Proof.
  unfold named. intros Hn He. apply list_elem_of_lookup in He as [i Hi].
  destruct (Forall2_lookup_l _ _ _ _ _ Hn Hi) as (n & _ & Hc).
  destruct (events s !! e); [by eexists|done].
Qed.

Lemma named_ext s s' l names :
  (∀ x, x ∈ l → (λ c, c_str (ev_name c)) <$> events s' !! x
                = (λ c, c_str (ev_name c)) <$> events s !! x) →
  named s l names → named s' l names.
Proof.
  unfold named. intros Hext Hn. induction Hn as [|x n l names Hx Hn IH]; constructor.
  - rewrite Hext; [done|]. by left.
  - apply IH. intros y Hy. apply Hext. by right.
Qed.

(** [schedule] puts the event after the last one. *)
Lemma schedule_holds (s : Service) (l : list nat) (names : list (list byte)) (e : nat)
    (n : list byte) :
  queue_holds s l → named s l names → e ∉ l →
  (λ c, c_str (ev_name c)) <$> events s !! e = Some n →
  queue_holds (schedule e s) (l ++ [e]) ∧ named (schedule e s) (l ++ [e]) (names ++ [n])
  ∧ to_java_calls (schedule e s) = to_java_calls s
  ∧ service_is_init (schedule e s) = service_is_init s
  ∧ to_java_call_should_notify (schedule e s) = to_java_call_should_notify s
  ∧ should_notify_java (schedule e s) = true.
Proof.
  intros (Hnd & Htail & Hhead & Hsome & Hlinks) Hnamed He Hn.
  assert (Hev : ∀ x, x ∈ l ++ [e] →
            (λ c, c_str (ev_name c)) <$> events (schedule e s) !! x
            = (λ c, c_str (ev_name c)) <$> events s !! x).
  { intros x Hx. unfold schedule. simpl. destruct (event_queue_tail s) as [|t]; [done|].
    destruct (decide (t = x)) as [->|Hne].
    - rewrite lookup_alter_eq. by destruct (events s !! x).
    - by rewrite lookup_alter_ne. }
  split; [|split; [|done]].
  - split; [|split; [|split; [|split]]].
    + apply NoDup_app. split; [done|]. split; [|apply NoDup_singleton].
      intros x Hx ->%list_elem_of_singleton. done.
    + by rewrite last_snoc.
    + intros _. unfold schedule. simpl. destruct l as [|e0 l'].
      * by rewrite Htail.
      * destruct (last (e0 :: l')) as [t|] eqn:Hlast.
        -- rewrite Htail. apply Hhead. done.
        -- destruct (proj2 (last_is_Some (e0 :: l')) ltac:(done)) as [? ?]. congruence.
    + intros x Hx. specialize (Hev x Hx).
      assert (is_Some (events s !! x)) as [c Hc].
      { apply elem_of_app in Hx as [Hx|Hx%list_elem_of_singleton]; [by apply Hsome|].
        subst x. destruct (events s !! e); [by eexists|done]. }
      rewrite Hc in Hev. destruct (events (schedule e s) !! x); [by eexists|done].
    + intros l1 a b l2 Heq. unfold schedule. simpl.
      destruct l2 as [|z l2 _] using rev_ind.
      * replace (l1 ++ [a; b]) with ((l1 ++ [a]) ++ [b]) in Heq by by rewrite <- app_assoc.
        apply app_inj_tail in Heq as [-> <-].
        rewrite last_snoc in Htail. rewrite Htail. rewrite lookup_alter_eq.
        destruct (Hsome a) as [c ->]; [set_solver|]. done.
      * replace (l1 ++ a :: b :: l2 ++ [z]) with ((l1 ++ a :: b :: l2) ++ [z]) in Heq
          by by rewrite <- app_assoc.
        apply app_inj_tail in Heq as [-> <-].
        destruct (event_queue_tail s) as [|t] eqn:Ht; [by eapply Hlinks|].
        destruct (last (l1 ++ a :: b :: l2)) as [t'|] eqn:Hlast; [|done].
        injection Htail as ->.
        assert (t' ≠ a).
        { intros ->. rewrite last_app_cons, last_cons_cons in Hlast.
          apply last_Some_elem_of in Hlast.
          apply NoDup_app in Hnd as (_ & _ & Hnd). apply NoDup_cons in Hnd as [Ha _].
          done. }
        rewrite lookup_alter_ne by done. by eapply Hlinks.
  - unfold named in *. apply Forall2_app.
    + eapply named_ext; [|done]. intros x Hx. apply Hev. set_solver.
    + constructor; [|constructor]. rewrite Hev; [done|]. set_solver.
Qed.

Lemma queue_holds_ext (s s' : Service) (l : list nat) :
  event_queue_head s' = event_queue_head s →
  event_queue_tail s' = event_queue_tail s →
  (∀ x, x ∈ l → events s' !! x = events s !! x) →
  queue_holds s l → queue_holds s' l.
Proof.
  intros Hh Ht Hev (Hnd & Htail & Hhead & Hsome & Hlinks).
  split; [done|]. split; [by rewrite Ht|]. split; [by rewrite Hh|]. split.
  - intros x Hx. rewrite Hev by done. by apply Hsome.
  - intros l1 a b l2 ->. rewrite Hev by set_solver. by eapply Hlinks.
Qed.

(** A round of [notify_java] on an empty queue changes nothing but
    [_should_notify]. *)
Lemma notify_java_round_empty (s : Service) :
  queue_holds s [] →
  ∃ s', notify_java_round s = Some (s', false)
    ∧ queue_holds s' [] ∧ to_java_calls s' = to_java_calls s
    ∧ service_is_init s' = service_is_init s
    ∧ to_java_call_should_notify s' = to_java_call_should_notify s
    ∧ should_notify_java s' = false.
Proof.
  intros Hq. pose proof Hq as (_ & Htail & _). simpl in Htail.
  unfold notify_java_round. simpl. rewrite decide_True by done.
  eexists. split; [done|]. split; [|done].
  by eapply queue_holds_ext; [..|exact Hq].
Qed.

(** A round of [notify_java] on a queue that holds events takes the first
    one, hands its name to the agent and frees it; the loop goes on when
    more events are left.  The [next] field of the last event is never
    read. *)
Lemma notify_java_round_holds (s : Service) (e : nat) (l : list nat) (n : list byte)
    (names : list (list byte)) :
  queue_holds s (e :: l) → named s (e :: l) (n :: names) →
  ∃ s', notify_java_round s = Some (s', bool_decide (l ≠ []))
    ∧ queue_holds s' l ∧ named s' l names
    ∧ to_java_calls s'
      = to_java_calls s ++ (if to_java_call_should_notify s then [n] else [])
    ∧ service_is_init s' = service_is_init s
    ∧ to_java_call_should_notify s' = to_java_call_should_notify s
    ∧ should_notify_java s' = false.
Proof.
  intros (Hnd & Htail & Hhead & Hsome & Hlinks) Hnamed.
  apply NoDup_cons in Hnd as [He Hnd].
  inversion Hnamed as [|? ? ? ? Hn Hnames]; subst.
  destruct (Hsome e ltac:(by left)) as [c Hc].
  rewrite Hc in Hn. simpl in Hn. injection Hn as Hn.
  specialize (Hhead ltac:(done)). simpl in Hhead.
  assert (Hdel : ∀ x, x ∈ l → delete e (events s) !! x = events s !! x).
  { intros x Hx. apply lookup_delete_ne. by intros ->. }
  assert (Hcalls : ∀ s1, events s1 = events s → to_java_calls s1 = to_java_calls s →
            to_java_call_should_notify s1 = to_java_call_should_notify s →
            to_java_calls (process_and_delete e s1)
            = to_java_calls s ++ (if to_java_call_should_notify s then [n] else [])).
  { intros s1 Hev Hcl Hfl. unfold process_and_delete. simpl. rewrite Hev, Hc, Hcl, Hfl, Hn.
    destruct (to_java_call_should_notify s); [done|by rewrite app_nil_r]. }
  unfold notify_java_round. simpl. rewrite Hhead, Hc.
  destruct l as [|e' l'].
  - simpl in Htail. rewrite Htail.
    rewrite decide_False by done. rewrite decide_True by done.
    inversion Hnames; subst.
    eexists. split; [done|]. split; [|split; [by constructor|]].
    + split; [constructor|]. split; [done|]. split; [done|]. split.
      * intros x Hx. by apply elem_of_nil in Hx.
      * intros l1 a b l2 Heq. by destruct l1.
    + split; [by apply Hcalls|done].
  - rewrite last_cons_cons in Htail.
    destruct (last (e' :: l')) as [t|] eqn:Hlast;
      [|destruct (proj2 (last_is_Some (e' :: l')) ltac:(done)) as [? ?]; congruence].
    rewrite Htail. rewrite decide_False by done.
    assert (Hte : t ≠ e).
    { intros ->. by apply last_Some_elem_of in Hlast. }
    rewrite decide_False by congruence.
    pose proof (Hlinks [] e e' l' eq_refl) as Hnext. rewrite Hc in Hnext. simpl in Hnext.
    injection Hnext as ->.
    rewrite bool_decide_eq_true_2 by done.
    eexists. split; [done|]. split; [|split].
    + split; [done|]. split; [by simpl; rewrite Hlast|]. split; [done|]. split.
      * intros x Hx. simpl. rewrite Hdel by done. apply Hsome. by right.
      * intros l1 a b l2 Heq. simpl. rewrite Hdel by (rewrite Heq; set_solver).
        apply (Hlinks (e :: l1) a b l2). by rewrite Heq.
    + eapply named_ext; [|done]. intros x Hx. simpl. by rewrite Hdel.
    + split; [by apply Hcalls|done].
Qed.

(** [notify_tojava_call], for a method that is not skipped, puts an event
    with the name [holder.method] at the end of the queue. *)
Lemma notify_tojava_call_holds (s : Service) (l : list nat) (names : list (list byte))
    (h m : list byte) :
  queue_holds s l → named s l names →
  service_is_init s = true → to_java_call_should_notify s = true →
  is_c_string h → is_c_string m →
  let s' := notify_tojava_call true false h m s in
  queue_holds s' (l ++ [new_event s]) ∧ named s' (l ++ [new_event s]) (names ++ [h ++ [DOT] ++ m])
  ∧ to_java_calls s' = to_java_calls s
  ∧ service_is_init s' = true ∧ to_java_call_should_notify s' = true.
Proof.
  intros Hq Hnamed Hinit Hon Hh Hm. cbv zeta.
  unfold notify_tojava_call. rewrite Hinit, Hon. cbn [negb orb].
  set (e := new_event s).
  assert (Hfresh : events s !! e = None).
  { apply not_elem_of_dom. unfold e, new_event. apply (is_fresh (dom (events s))). }
  assert (Hnot : e ∉ l).
  { intros Hin. destruct Hq as (_ & _ & _ & Hsome & _).
    destruct (Hsome e Hin) as [c Hc]. congruence. }
  set (s1 := mkService _ _ _ _ _ _ _ _).
  assert (Hev : ∀ x, x ∈ l → events s1 !! x = events s !! x).
  { intros x Hx. unfold s1. simpl. apply lookup_insert_ne. by intros ->. }
  destruct (schedule_holds s1 l names e (h ++ [DOT] ++ m)) as (Hq' & Hn' & Hc' & Hi' & Ho' & _).
  - by eapply queue_holds_ext; [..|exact Hq].
  - eapply named_ext; [|done]. intros x Hx. by rewrite Hev.
  - done.
  - unfold s1. simpl. rewrite lookup_insert_eq. simpl.
    by rewrite CRSToJavaCallEvent_name_c_str.
  - split; [done|]. split; [done|]. split; [by rewrite Hc'|].
    split; [by rewrite Hi'|by rewrite Ho'].
Qed.

Lemma Service_init_holds (is_init : bool) :
  queue_holds (Service_init is_init) [] ∧ named (Service_init is_init) [] [].
Proof.
  split; [|constructor]. split; [constructor|]. split; [done|]. split; [done|]. split.
  - intros x Hx. by apply elem_of_nil in Hx.
  - intros l1 a b l2 Heq. by destruct l1.
Qed.

Lemma queue_run_fifo (steps : list QueueStep) :
  ∀ s l names,
    queue_holds s l → named s l names →
    service_is_init s = true → to_java_call_should_notify s = true →
    Forall (λ st, match st with
                  | ToJavaCall h m => is_c_string h ∧ is_c_string m
                  | ServiceRound => True
                  end) steps →
    ∃ s' l',
      queue_run s steps = Some s'
      ∧ queue_holds s' l'
      ∧ named s' l' (foldl fifo_step (names, to_java_calls s) steps).1
      ∧ to_java_calls s' = (foldl fifo_step (names, to_java_calls s) steps).2.
Proof.
  induction steps as [|st steps IH]; intros s l names Hq Hn Hinit Hon Hsteps.
  - exists s, l. done.
  - inversion Hsteps as [|? ? Hst Hsteps']; subst. destruct st as [h m|].
    + destruct Hst as [Hh Hm].
      destruct (notify_tojava_call_holds s l names h m Hq Hn Hinit Hon Hh Hm)
        as (Hq' & Hn' & Hc' & Hi' & Ho').
      destruct (IH _ _ _ Hq' Hn' Hi' Ho' Hsteps') as (s' & l' & Hrun & ? & ? & ?).
      exists s', l'. simpl. rewrite Hc' in *. done.
    + destruct l as [|e l].
      * inversion Hn; subst.
        destruct (notify_java_round_empty s Hq) as (s1 & Hr & Hq1 & Hc1 & Hi1 & Ho1 & _).
        destruct (IH s1 [] [] Hq1 ltac:(constructor) ltac:(congruence) ltac:(congruence)
                    Hsteps') as (s' & l' & Hrun & ? & ? & ?).
        exists s', l'. simpl. rewrite Hr. simpl. rewrite Hc1 in *. done.
      * inversion Hn as [|? n ? names' ? ?]; subst.
        destruct (notify_java_round_holds s e l n names' Hq Hn)
          as (s1 & Hr & Hq1 & Hn1 & Hc1 & Hi1 & Ho1 & _).
        rewrite Hon in Hc1.
        destruct (IH s1 l names' Hq1 Hn1 ltac:(congruence) ltac:(congruence) Hsteps')
          as (s' & l' & Hrun & ? & ? & ?).
        exists s', l'. simpl. rewrite Hr. simpl. rewrite Hc1 in *. done.
Qed.

(** X7.  The event queue is first-in first-out under every interleaving
    of the threads that schedule events and the rounds of the service
    thread: every step returns (no round reads a [next] field that was
    never written, or an event that was freed), the agent is given the
    names [holder.method] in the order in which the calls were notified,
    each once, and the events still in the queue are the ones not yet
    delivered, in order. *)
Theorem event_queue_is_fifo (steps : list QueueStep) :
  Forall (λ st, match st with
                | ToJavaCall h m => is_c_string h ∧ is_c_string m
                | ServiceRound => True
                end) steps →
  ∃ s' l',
    queue_run (Service_init true) steps = Some s'
    ∧ to_java_calls s' = (foldl fifo_step ([], []) steps).2
    ∧ queue_holds s' l'
    ∧ named s' l' (foldl fifo_step ([], []) steps).1.
Proof.
  intros Hsteps. destruct (Service_init_holds true) as [Hq Hn].
  destruct (queue_run_fifo steps _ _ _ Hq Hn eq_refl eq_refl Hsteps)
    as (s' & l' & Hrun & Hq' & Hn' & Hc').
  exists s', l'. done.
Qed.

Lemma event_queue_is_fifo_witness :
  ∃ s' l',
    queue_run (Service_init true)
      [ToJavaCall (chars "A") (chars "m"); ToJavaCall (chars "B") (chars "n");
       ServiceRound; ToJavaCall (chars "C") (chars "o"); ServiceRound] = Some s'
    ∧ to_java_calls s' = [chars "A.m"; chars "B.n"]
    ∧ queue_holds s' l'
    ∧ named s' l' [chars "C.o"].
Proof.
  apply (event_queue_is_fifo
           [ToJavaCall (chars "A") (chars "m"); ToJavaCall (chars "B") (chars "n");
            ServiceRound; ToJavaCall (chars "C") (chars "o"); ServiceRound]).
  repeat constructor; solve_c_string.
Defined.

Lemma notify_java_loop_drains (l : list nat) :
  ∀ s names fuel,
    queue_holds s l → named s l names → (length l < fuel)%nat →
    ∃ s', notify_java_loop fuel s = Some s'
      ∧ queue_holds s' []
      ∧ to_java_calls s'
        = to_java_calls s ++ (if to_java_call_should_notify s then names else [])
      ∧ should_notify_java s' = false.
Proof.
  induction l as [|e l IH]; intros s names fuel Hq Hn Hfuel;
    (destruct fuel as [|fuel]; [simpl in Hfuel; lia|]); simpl.
  - inversion Hn; subst.
    destruct (notify_java_round_empty s Hq) as (s1 & -> & Hq1 & Hc1 & _ & _ & Hs1).
    exists s1. split; [done|]. split; [done|]. split; [|done].
    rewrite Hc1. by destruct (to_java_call_should_notify s); rewrite app_nil_r.
  - inversion Hn as [|? n ? names' ? ?]; subst.
    destruct (notify_java_round_holds s e l n names' Hq Hn)
      as (s1 & -> & Hq1 & Hn1 & Hc1 & Hi1 & Ho1 & Hs1).
    destruct l as [|e' l'].
    + rewrite bool_decide_eq_false_2 by (intros Hx; by apply Hx).
      inversion Hn1; subst.
      exists s1. split; [done|]. split; [done|]. split; [|done]. done.
    + rewrite bool_decide_eq_true_2 by done.
      destruct (IH s1 names' fuel Hq1 Hn1 ltac:(simpl in *; lia))
        as (s' & Hloop & Hq' & Hc' & Hs').
      exists s'. split; [done|]. split; [done|]. split; [|done].
      rewrite Hc', Hc1, Ho1.
      destruct (to_java_call_should_notify s); by rewrite <- ?app_assoc, ?app_nil_r.
Qed.

(** X8.  [notify_java], run by the service thread alone on an
    initialised subsystem, returns after one round for each event of the
    queue: it leaves the queue empty and [_should_notify] clear, and the
    agent has been given the names of the events in the order of the
    queue, or nothing when the to-Java-call events are filtered out. *)
Theorem notify_java_drains (s : Service) (l : list nat) (names : list (list byte)) :
  queue_holds s l → named s l names → service_is_init s = true →
  ∃ s', notify_java (S (length l)) s = Some s'
    ∧ queue_holds s' []
    ∧ to_java_calls s'
      = to_java_calls s ++ (if to_java_call_should_notify s then names else [])
    ∧ should_notify_java s' = false.
Proof.
  intros Hq Hn Hinit. unfold notify_java. rewrite Hinit. simpl negb. cbv iota.
  apply (notify_java_loop_drains l); [done|done|lia].
Qed.

Lemma notify_java_drains_witness :
  let s := notify_tojava_call true false (chars "A") (chars "m") (Service_init true) in
  ∃ s', notify_java 2 s = Some s'
    ∧ queue_holds s' []
    ∧ to_java_calls s' = to_java_calls s ++ (if to_java_call_should_notify s
                                             then [chars "A" ++ [DOT] ++ chars "m"] else [])
    ∧ should_notify_java s' = false.
Proof.
  destruct (Service_init_holds true) as [Hq Hn].
  destruct (notify_tojava_call_holds (Service_init true) [] [] (chars "A") (chars "m")
              Hq Hn eq_refl eq_refl ltac:(solve_c_string) ltac:(solve_c_string))
    as (Hq' & Hn' & _ & Hi' & _).
  exact (notify_java_drains _ _ _ Hq' Hn' Hi').
Defined.

(** ** From the notification to the upcall *)

Lemma align_up_mono (x y a : Z) : 0 < a → x ≤ y → align_up x a ≤ align_up y a.
Proof.
  intros Ha Hxy. apply align_up_le_multiple; [done|apply align_up_divide|].
  pose proof (align_up_ge y a Ha). lia.
Qed.

Lemma length_memcpy (src : list byte) (n : Z) : length (memcpy src n) = Z.to_nat n.
Proof. unfold memcpy. rewrite length_app, length_take, length_replicate. lia. Qed.

Lemma memcpy_memcpy (src : list byte) (n : Z) : 0 ≤ n → memcpy (memcpy src n) n = memcpy src n.
Proof.
  intros Hn. rewrite <- (memcpy_exact (memcpy src n)) at 2.
  by rewrite length_memcpy, Z2Nat.id.
Qed.

(** A class-load event without a source, posted by a thread whose buffer
    has the room: the record has the fixed size of the class, and refers
    to the record of the slot when that one carries a source. *)
Lemma CrsClassLoadMessage_post_in_place_no_source vm k hash source thread b :
  buffer_of thread vm = Some b →
  _overflow (memory vm) = false →
  normalized source = None →
  let m := manager vm in
  let t := tlb m b in
  0 ≤ _pos t → _pos t + sizeof_CrsClassLoadMessage ≤ _buffer_size m < 2 ^ 64 →
  CrsClassLoadMessage_post k hash source thread vm =
    set_region
      (<[_base t + _pos t :=
           CrsClassLoadMessage_ctor (metaspace vm) sizeof_CrsClassLoadMessage k hash None
             (match _reference_message t with
              | Some a => if cl_has_source (class_load_at (region vm) a) then Some a else None
              | None => None
              end)]> (region vm))
      (set_manager
         (set_tlb b
            (mkTLB (_pos t + sizeof_CrsClassLoadMessage) (_base t) (_owner t)
               (_reference_message t)) m) vm).
Proof.
  intros Hbuf Ho Hsrc. cbv zeta. intros Hpos Hroom.
  assert (Hrem : remaining_space (manager vm) b >= sizeof_CrsClassLoadMessage).
  { unfold remaining_space, uintx, sizeof_CrsClassLoadMessage in *.
    rewrite Z.mod_small by lia. lia. }
  unfold CrsClassLoadMessage_post, NativeMemory_reference_message.
  rewrite Hbuf. unfold TLB_reference_message.
  set (prev := match _reference_message (tlb (manager vm) b) with
               | Some a => if cl_has_source (class_load_at (region vm) a) then Some a else None
               | None => None
               end).
  assert (Hnorm : match source with Some [] => None | _ => source end = None).
  { by destruct source as [[|c s]|]. }
  rewrite Hnorm. cbv beta iota zeta.
  unfold NativeMemory_alloc_ref. rewrite Ho, Hbuf. unfold ensure.
  rewrite decide_True by exact Hrem. cbv beta iota zeta.
  rewrite decide_False by (intros Hx; by apply Hx).
  cbv beta iota zeta.
  unfold TLBManager_alloc, TLB_alloc. cbv beta iota zeta.
  rewrite set_manager_id, set_os_id.
  change (align_up sizeof_CrsClassLoadMessage TLBManager_align) with sizeof_CrsClassLoadMessage.
  unfold uintx. rewrite Z.mod_small by (unfold sizeof_CrsClassLoadMessage in *; lia).
  reflexivity.
Qed.

(** A first-call event posted by a thread whose buffer has the room. *)
Lemma CrsFirstCallMessage_post_in_place vm method thread b :
  buffer_of thread vm = Some b →
  _overflow (memory vm) = false →
  let m := manager vm in
  let t := tlb m b in
  0 ≤ _pos t → _pos t + sizeof_CrsFirstCallMessage ≤ _buffer_size m < 2 ^ 64 →
  CrsFirstCallMessage_post method thread vm =
    set_region
      (<[_base t + _pos t := CrsFirstCallMessage_ctor (metaspace vm) method]> (region vm))
      (set_manager
         (set_tlb b
            (mkTLB (_pos t + sizeof_CrsFirstCallMessage) (_base t) (_owner t)
               (_reference_message t)) m) vm).
Proof.
  intros Hbuf Ho. cbv zeta. intros Hpos Hroom.
  assert (Hrem : remaining_space (manager vm) b >= sizeof_CrsFirstCallMessage).
  { unfold remaining_space, uintx, sizeof_CrsFirstCallMessage in *.
    rewrite Z.mod_small by lia. lia. }
  unfold CrsFirstCallMessage_post, NativeMemory_alloc. rewrite Ho, Hbuf. unfold ensure.
  rewrite decide_True by exact Hrem. cbv beta iota zeta.
  rewrite decide_False by (intros Hx; by apply Hx).
  unfold TLBManager_alloc, TLB_alloc. cbv beta iota zeta.
  rewrite set_manager_id, set_os_id.
  change (align_up sizeof_CrsFirstCallMessage TLBManager_align) with sizeof_CrsFirstCallMessage.
  unfold uintx. rewrite Z.mod_small by (unfold sizeof_CrsFirstCallMessage in *; lia).
  reflexivity.
Qed.

(** *** Processing a record *)

Lemma process_full ms region this size k hash s t agent :
  is_c_string s →
  CrsMessage_process ms region this (CrsClassLoadMessage_ctor ms size k hash (Some s) None)
    t agent
  = (TLB_set_reference_message CRS_MESSAGE_BACK_REFERENCE_CLASS_LOAD (Some this) t,
     agent ++ [notifyClassLoad (klass_name (klass_at ms k))
                 ((λ h, memcpy h DL_SHA256) <$> hash)
                 (klass_crs_trace_id (klass_at ms k))
                 (class_loader_data_crs_trace_id (klass_at ms k)) (Some s)]).
Proof.
  intros Hs. unfold CrsMessage_process, CrsClassLoadMessage_ctor, CrsClassLoadMessage_process.
  destruct hash as [h|]; simpl; unfold hash_argument; rewrite c_str_strcpy by done;
    [by rewrite memcpy_memcpy|done].
Qed.

Lemma process_reference ms region this size k hash source a t agent s :
  _reference_message t = Some a →
  c_str (cl_source (class_load_at region a)) = s →
  CrsMessage_process ms region this (CrsClassLoadMessage_ctor ms size k hash source (Some a))
    t agent
  = (t, agent ++ [notifyClassLoad (klass_name (klass_at ms k))
                    ((λ h, memcpy h DL_SHA256) <$> hash)
                    (klass_crs_trace_id (klass_at ms k))
                    (class_loader_data_crs_trace_id (klass_at ms k)) (Some s)]).
Proof.
  intros Hslot Hs.
  unfold CrsMessage_process, CrsClassLoadMessage_ctor, CrsClassLoadMessage_process.
  destruct hash as [h|]; simpl; unfold hash_argument, TLB_reference_message;
    rewrite Hslot, Hs; [by rewrite memcpy_memcpy|done].
Qed.

Lemma process_no_source ms region this size k hash t agent :
  CrsMessage_process ms region this (CrsClassLoadMessage_ctor ms size k hash None None) t agent
  = (t, agent ++ [notifyClassLoad (klass_name (klass_at ms k))
                    ((λ h, memcpy h DL_SHA256) <$> hash)
                    (klass_crs_trace_id (klass_at ms k))
                    (class_loader_data_crs_trace_id (klass_at ms k)) None]).
Proof.
  unfold CrsMessage_process, CrsClassLoadMessage_ctor, CrsClassLoadMessage_process.
  destruct hash as [h|]; simpl; unfold hash_argument; [by rewrite memcpy_memcpy|done].
Qed.

Lemma first_call_name (name sig : list byte) :
  is_c_string name → is_c_string sig →
  c_str (write_at (as_C_string name (Z.of_nat (length name) + 1)) (Z.of_nat (length name))
           (as_C_string sig (Z.of_nat (length sig) + 1)))
  = name ++ sig.
Proof.
  intros Hn Hs. rewrite !as_C_string_fits.
  pose proof (write_at_middle name [NUL] [] (sig ++ [NUL])) as Hw.
  unfold write_at in *. rewrite Nat2Z.id.
  rewrite take_app_length.
  rewrite drop_ge by (rewrite !length_app; simpl; lia).
  rewrite app_nil_r, app_assoc. apply c_str_app_NUL. by apply is_c_string_app.
Qed.

Lemma process_first_call ms region this method t agent :
  is_c_string (method_name (method_at ms method)) →
  is_c_string (method_signature (method_at ms method)) →
  CrsMessage_process ms region this (CrsFirstCallMessage_ctor ms method) t agent
  = (t, agent ++ [notifyFirstCall
                    (klass_crs_trace_id (klass_at ms (method_holder (method_at ms method))))
                    (method_name (method_at ms method)
                     ++ method_signature (method_at ms method))]).
Proof.
  intros Hn Hs. unfold CrsMessage_process, CrsFirstCallMessage_ctor. simpl.
  unfold CrsFirstCallMessage_process. simpl. by rewrite first_call_name.
Qed.

(** *** The state after a record was written *)

Lemma written_state vm b r al slot :
  let t := tlb (manager vm) b in
  let vm' := written vm b r al slot in
  region vm' = <[_base t + _pos t := r]> (region vm)
  ∧ tlb (manager vm') b = mkTLB (_pos t + al) (_base t) (_owner t) slot
  ∧ (∀ thread, buffer_of thread vm' = buffer_of thread vm)
  ∧ _overflow (memory vm') = _overflow (memory vm)
  ∧ _buffer_size (manager vm') = _buffer_size (manager vm)
  ∧ metaspace vm' = metaspace vm
  ∧ UseCRS vm' = UseCRS vm
  ∧ CrsClassLoadMessage_should_notify vm' = CrsClassLoadMessage_should_notify vm
  ∧ CrsFirstCallMessage_should_notify vm' = CrsFirstCallMessage_should_notify vm.
Proof.
  cbv zeta.
  destruct (state_after_write vm b _ _ (written vm b r al slot) eq_refl)
    as (Hr & Ht & Hb & Ho & Hbs & Hms).
  by repeat split.
Qed.

Lemma written_recording vm thread b r al slot :
  recording vm thread b → 0 < al →
  (slot = _reference_message (tlb (manager vm) b)
   ∨ slot = Some (_base (tlb (manager vm) b) + _pos (tlb (manager vm) b))) →
  recording (written vm b r al slot) thread b.
Proof.
  intros (Hu & Hc & Hf & Ho & Hbuf & Hpos & Hbs & Hbelow) Hal Hslot.
  destruct (written_state vm b r al slot) as (_ & Ht & Hb & Ho' & Hbs' & _ & Hu' & Hc' & Hf').
  unfold recording. rewrite Ht, Hb, Ho', Hbs', Hu', Hc', Hf'. simpl.
  repeat split; try done; try lia.
  intros a Ha. destruct Hslot as [->| ->].
  - specialize (Hbelow a Ha). lia.
  - injection Ha as <-. lia.
Qed.

Lemma slot_source_written_same vm b r al :
  (∀ a, _reference_message (tlb (manager vm) b) = Some a →
        a < _base (tlb (manager vm) b) + _pos (tlb (manager vm) b)) →
  slot_source (written vm b r al (_reference_message (tlb (manager vm) b))) b
  = slot_source vm b.
Proof.
  intros Hbelow.
  destruct (written_state vm b r al (_reference_message (tlb (manager vm) b)))
    as (Hr & Ht & _).
  unfold slot_source, TLB_reference_message. rewrite Ht, Hr. simpl.
  destruct (_reference_message (tlb (manager vm) b)) as [a|] eqn:Hslot; [|done].
  specialize (Hbelow a eq_refl).
  unfold class_load_at. by rewrite lookup_insert_ne by lia.
Qed.

Lemma slot_source_written_full vm b size k hash s al :
  is_c_string s →
  slot_source
    (written vm b (CrsClassLoadMessage_ctor (metaspace vm) size k hash (Some s) None) al
       (Some (_base (tlb (manager vm) b) + _pos (tlb (manager vm) b)))) b
  = Some s.
Proof.
  intros Hs.
  match goal with |- slot_source (written ?vm ?b ?r ?al ?slot) _ = _ =>
    destruct (written_state vm b r al slot) as (Hr & Ht & _) end.
  eapply slot_source_of_full; [by rewrite Ht| |done].
  rewrite Hr. apply lookup_insert_eq.
Qed.

Lemma slot_source_Some vm b s :
  slot_source vm b = Some s →
  ∃ a, _reference_message (tlb (manager vm) b) = Some a
       ∧ cl_has_source (class_load_at (region vm) a) = true
       ∧ c_str (cl_source (class_load_at (region vm) a)) = s.
Proof.
  unfold slot_source, TLB_reference_message.
  destruct (_reference_message _) as [a|]; [|done].
  destruct (cl_has_source _) eqn:Hhs; [|done]. intros [= <-]. by exists a.
Qed.

Lemma slot_source_None vm b :
  slot_source vm b = None →
  match _reference_message (tlb (manager vm) b) with
  | Some a => if cl_has_source (class_load_at (region vm) a) then Some a else None
  | None => None
  end = None.
Proof.
  unfold slot_source, TLB_reference_message.
  destruct (_reference_message _) as [a|]; [|done]. by destruct (cl_has_source _).
Qed.

Lemma class_load_at_agree (region region' : gmap Z CrsMessage) a :
  region' !! a = region !! a → class_load_at region' a = class_load_at region a.
Proof. unfold class_load_at. by intros ->. Qed.

(** *** One notification *)

Lemma normalized_Some source s :
  normalized source = Some s → source = Some s ∧ s ≠ [].
Proof. destruct source as [[|c s']|]; simpl; intros [= <-]; done. Qed.

(** A notification of the thread that holds the buffer, when the buffer
    has the room: one record is written at the position of the buffer,
    and processing it makes the upcall of the notification, the slot of
    the processing following the slot of the writing. *)
Lemma notify_in_place vm thread b n :
  recording vm thread b → notification_of (metaspace vm) thread n →
  let t := tlb (manager vm) b in
  _pos t + room_needed n ≤ _buffer_size (manager vm) →
  _pos t + room_needed n < 2 ^ 16 →
  ∃ r al slot1,
    notify vm n = written vm b r al slot1
    ∧ 0 < al ≤ room_needed n
    ∧ walk_step r = al
    ∧ (slot1 = _reference_message t ∨ slot1 = Some (_base t + _pos t))
    ∧ slot_source (written vm b r al slot1) b = source_after (slot_source vm b) n
    ∧ (∀ region' t0 agent,
         (∀ a, _reference_message t = Some a → region' !! a = region vm !! a) →
         follows vm b t0 →
         ∃ t0', CrsMessage_process (metaspace vm) region' (_base t + _pos t) r t0 agent
                = (t0', agent ++ [delivered (metaspace vm) (slot_source vm b) n])
           ∧ (source_after (slot_source vm b) n ≠ None → _reference_message t0' = slot1)).
Proof.
  intros (Hu & Hc & Hf & Ho & Hbuf & Hpos & Hbs & Hbelow) Hwf t Hroom Hsmall.
  fold t in Hpos, Hbelow.
  destruct n as [ikh hash source th|th method]; simpl in Hwf.
  - destruct Hwf as [-> Hsrc]. simpl notify. unfold notify_class_load. rewrite Hu, Hc.
    cbn [andb]. cbn [room_needed] in Hroom, Hsmall.
    destruct (normalized source) as [s|] eqn:Hnorm.
    + apply normalized_Some in Hnorm as Hs. destruct Hs as [-> Hne].
      destruct s as [|c0 s0]; [done|]. clear Hnorm. set (s := c0 :: s0) in *.
      assert (Hnorm : normalized (Some s) = Some s) by done.
      pose proof (full_size_bounds s Hne) as Hfs.
      set (is_new := bool_decide (slot_source vm b ≠ Some s)).
      set (size := if is_new then full_size s else sizeof_CrsClassLoadMessage).
      assert (Hsize : 0 < size ≤ Z.max sizeof_CrsClassLoadMessage (full_size s)).
      { unfold size, sizeof_CrsClassLoadMessage. destruct is_new; lia. }
      pose proof (align_up_mono size _ TLBManager_align ltac:(done) (proj2 Hsize)) as Hal.
      pose proof (align_up_ge size TLBManager_align ltac:(done)) as Hge.
      pose proof (CrsClassLoadMessage_post_in_place vm ikh hash s thread b Hbuf Ho Hsrc Hne)
        as Hpost.
      cbv zeta in Hpost. fold is_new size t in Hpost.
      specialize (Hpost Hpos ltac:(lia)).
      eexists _, (align_up size TLBManager_align), (if is_new then Some (_base t + _pos t)
                                                    else _reference_message t).
      split; [exact Hpost|]. split; [cbn [room_needed]; rewrite Hnorm; lia|].
      assert (Hu2 : u2 size = size) by (unfold u2; apply Z.mod_small; lia).
      split.
      { unfold walk_step. destruct is_new.
        - destruct (CrsClassLoadMessage_ctor_full (metaspace vm) size ikh hash s)
            as (_ & -> & _). by rewrite Hu2.
        - destruct (_reference_message t) as [a|] eqn:Hslot.
          + destruct (CrsClassLoadMessage_ctor_reference (metaspace vm) size ikh hash (Some s) a)
              as (_ & -> & _). by rewrite Hu2.
          + destruct (CrsClassLoadMessage_ctor_full (metaspace vm) size ikh hash s)
              as (_ & -> & _). by rewrite Hu2. }
      split; [destruct is_new; [by right|by left]|].
      cbn [source_after delivered]. rewrite Hnorm.
      destruct (decide (slot_source vm b = Some s)) as [Hcur|Hnew].
      * assert (His : is_new = false)
          by (apply bool_decide_eq_false_2; intros Hx; by apply Hx).
        clearbody is_new. subst is_new.
        destruct (slot_source_Some _ _ _ Hcur) as (a & Hslot & Hhs & Hstr).
        split; [by rewrite slot_source_written_same|].
        intros region' t0 agent Hagree Hfollows. exists t0.
        fold t in Hslot. rewrite Hslot.
        assert (Ht0 : _reference_message t0 = Some a).
        { rewrite Hfollows by (by rewrite Hcur). done. }
        rewrite (process_reference _ region' _ _ _ _ _ a t0 agent s).
        -- done.
        -- done.
        -- rewrite (class_load_at_agree (region vm)); [done|].
           by apply Hagree.
      * assert (His : is_new = true) by (by apply bool_decide_eq_true_2).
        clearbody is_new. subst is_new.
        split; [by rewrite slot_source_written_full|].
        intros region' t0 agent _ _. eexists. split; [by rewrite process_full|].
        done.
    + pose proof (CrsClassLoadMessage_post_in_place_no_source vm ikh hash source thread b
                    Hbuf Ho Hnorm) as Hpost.
      cbv zeta in Hpost. fold t in Hpost.
      specialize (Hpost Hpos ltac:(unfold sizeof_CrsClassLoadMessage in *; lia)).
      eexists _, sizeof_CrsClassLoadMessage, (_reference_message t).
      split; [exact Hpost|].
      split; [cbn [room_needed]; rewrite Hnorm; unfold sizeof_CrsClassLoadMessage; lia|].
      split.
      { unfold walk_step.
        match goal with |- context [CrsClassLoadMessage_ctor ?ms ?sz ?k ?h None ?ref] =>
          assert (Hsz : _size (CrsClassLoadMessage_ctor ms sz k h None ref) = u2 sz)
            by (unfold CrsClassLoadMessage_ctor; destruct h, ref; done)
        end.
        by rewrite Hsz. }
      split; [by left|].
      cbn [source_after delivered]. rewrite Hnorm.
      split; [by rewrite slot_source_written_same|].
      intros region' t0 agent Hagree Hfollows. exists t0.
      destruct (slot_source vm b) as [s|] eqn:Hcur.
      * destruct (slot_source_Some _ _ _ Hcur) as (a & Hslot & Hhs & Hstr).
        fold t in Hslot. rewrite Hslot, Hhs.
        assert (Ht0 : _reference_message t0 = Some a).
        { rewrite Hfollows by (by rewrite Hcur). done. }
        rewrite (process_reference _ region' _ _ _ _ _ a t0 agent s).
        -- done.
        -- done.
        -- rewrite (class_load_at_agree (region vm)); [done|].
           by apply Hagree.
      * pose proof (slot_source_None _ _ Hcur) as Hprev. fold t in Hprev.
        rewrite Hprev. by rewrite process_no_source.
  - destruct Hwf as (-> & Hname & Hsig). simpl notify. unfold notify_first_call.
    rewrite Hu, Hf. cbn [andb]. cbn [room_needed] in Hroom, Hsmall.
    pose proof (CrsFirstCallMessage_post_in_place vm method thread b Hbuf Ho) as Hpost.
    cbv zeta in Hpost. fold t in Hpost.
    specialize (Hpost Hpos ltac:(unfold sizeof_CrsFirstCallMessage in *; lia)).
    eexists _, sizeof_CrsFirstCallMessage, (_reference_message t).
    split; [exact Hpost|].
    split; [cbn [room_needed]; unfold sizeof_CrsFirstCallMessage; lia|].
    split; [done|]. split; [by left|].
    cbn [source_after delivered].
    split; [by rewrite slot_source_written_same|].
    intros region' t0 agent _ Hfollows. exists t0.
    rewrite process_first_call by done. split; [done|]. apply Hfollows.
Qed.

(** *** A run of notifications *)

Lemma room_needed_pos n : 0 < room_needed n.
Proof.
  destruct n as [ikh hash source th|th method]; simpl; [|done].
  destruct (normalized source) as [s|]; [|done].
  pose proof (align_up_ge (Z.max sizeof_CrsClassLoadMessage (full_size s)) TLBManager_align
                ltac:(done)).
  unfold sizeof_CrsClassLoadMessage in *. lia.
Qed.

Lemma rooms_needed_nonneg l : 0 ≤ rooms_needed l.
Proof.
  induction l as [|n l IH]; simpl; [done|]. pose proof (room_needed_pos n). lia.
Qed.

Lemma process_records_done ms region fuel p t agent :
  process_records ms region fuel p p t agent = Some (t, agent).
Proof.
  unfold process_records. destruct fuel; simpl; by rewrite decide_False by lia.
Qed.

Lemma notifications_in_place evs :
  ∀ vm thread b,
    recording vm thread b →
    Forall (notification_of (metaspace vm) thread) evs →
    _pos (tlb (manager vm) b) + rooms_needed evs ≤ _buffer_size (manager vm) →
    _pos (tlb (manager vm) b) + rooms_needed evs < 2 ^ 16 →
    recording (foldl notify vm evs) thread b
    ∧ _base (tlb (manager (foldl notify vm evs)) b) = _base (tlb (manager vm) b)
    ∧ _pos (tlb (manager vm) b) + Z.of_nat (length evs)
      ≤ _pos (tlb (manager (foldl notify vm evs)) b)
      ≤ _pos (tlb (manager vm) b) + rooms_needed evs
    ∧ metaspace (foldl notify vm evs) = metaspace vm
    ∧ _buffer_size (manager (foldl notify vm evs)) = _buffer_size (manager vm)
    ∧ (∀ a, a < _base (tlb (manager vm) b) + _pos (tlb (manager vm) b) →
            region (foldl notify vm evs) !! a = region vm !! a)
    ∧ slot_source (foldl notify vm evs) b = foldl source_after (slot_source vm b) evs
    ∧ ∀ region' t0 agent fuel,
        (∀ a, a < _base (tlb (manager vm) b) + _pos (tlb (manager (foldl notify vm evs)) b) →
              region' !! a = region (foldl notify vm evs) !! a) →
        follows vm b t0 → (length evs ≤ fuel)%nat →
        ∃ t0',
          process_records (metaspace vm) region' fuel
            (_base (tlb (manager vm) b) + _pos (tlb (manager vm) b))
            (_base (tlb (manager vm) b) + _pos (tlb (manager (foldl notify vm evs)) b))
            t0 agent
          = Some (t0', agent ++ deliveries (metaspace vm) (slot_source vm b) evs)
          ∧ follows (foldl notify vm evs) b t0'.
Proof.
  induction evs as [|n evs IH]; intros vm thread b Hrec Hwf Hroom Hsmall.
  - simpl. split; [done|]. split; [done|]. split; [simpl in *; lia|].
    split; [done|]. split; [done|]. split; [done|]. split; [done|].
    intros region' t0 agent fuel _ Hfollows _. exists t0.
    by rewrite process_records_done, app_nil_r.
  - inversion Hwf as [|? ? Hn Hevs]; subst. simpl in Hroom, Hsmall.
    pose proof (rooms_needed_nonneg evs) as Hnn.
    destruct (notify_in_place vm thread b n Hrec Hn ltac:(lia) ltac:(lia))
      as (r & al & slot1 & Hnotify & Hal & Hstep & Hslot1 & Hsrc1 & Hproc).
    pose proof (written_recording vm thread b r al slot1 Hrec ltac:(lia) Hslot1) as Hrec1.
    destruct (written_state vm b r al slot1)
      as (Hreg1 & Ht1 & _ & _ & Hbs1 & Hms1 & _).
    cbn [foldl]. rewrite Hnotify.
    set (vm1 := written vm b r al slot1) in *.
    assert (Hbase1 : _base (tlb (manager vm1) b) = _base (tlb (manager vm) b))
      by by rewrite Ht1.
    assert (Hpos1 : _pos (tlb (manager vm1) b) = _pos (tlb (manager vm) b) + al)
      by by rewrite Ht1.
    destruct (IH vm1 thread b Hrec1) as (Hrec' & Hbase' & Hpos' & Hms' & Hbs' & Hframe' & Hsrc' & Hwalk').
    { by rewrite Hms1. }
    { rewrite Hpos1, Hbs1. lia. }
    { rewrite Hpos1. lia. }
    set (vm' := foldl notify vm1 evs) in *.
    rewrite Hbase1 in Hbase'. rewrite Hpos1 in Hpos'. rewrite Hbase1, Hpos1 in Hframe'.
    assert (Hframe : ∀ a, a < _base (tlb (manager vm) b) + _pos (tlb (manager vm) b) →
                          region vm' !! a = region vm !! a).
    { intros a Ha. rewrite Hframe' by lia. rewrite Hreg1. apply lookup_insert_ne. lia. }
    split; [done|]. split; [done|]. split.
    { change (rooms_needed (n :: evs)) with (room_needed n + rooms_needed evs).
      cbn [length]. lia. }
    split; [by rewrite Hms', Hms1|]. split; [by rewrite Hbs', Hbs1|].
    split; [done|]. split; [by rewrite Hsrc', Hsrc1|].
    intros region' t0 agent fuel Hagree Hfollows Hfuel.
    destruct fuel as [|fuel]; [simpl in Hfuel; lia|].
    destruct (Hproc region' t0 agent) as (t1 & Hp1 & Hf1); [|done|].
    { intros a Ha. destruct Hrec as (_ & _ & _ & _ & _ & _ & _ & Hbelow).
      specialize (Hbelow a Ha). rewrite Hagree by lia. by apply Hframe. }
    destruct (Hwalk' region' t1 (agent ++ [delivered (metaspace vm) (slot_source vm b) n]) fuel)
      as (t0' & Hw & Hf').
    { intros a Ha. apply Hagree. by rewrite <- Hbase1. }
    { unfold follows. rewrite Hsrc1, Ht1. simpl. done. }
    { simpl in Hfuel. lia. }
    exists t0'. split; [|done].
    unfold process_records in *. cbn [MessageClosure_walk].
    rewrite decide_True by lia.
    rewrite Hagree by lia. rewrite Hframe' by lia. rewrite Hreg1, lookup_insert_eq.
    rewrite Hp1, Hstep.
    rewrite Hms1, Hbase1, Hpos1, Hsrc1 in Hw.
    replace (_base (tlb (manager vm) b) + _pos (tlb (manager vm) b) + al)
      with (_base (tlb (manager vm) b) + (_pos (tlb (manager vm) b) + al)) by lia.
    rewrite Hw. simpl. by rewrite <- app_assoc.
Qed.

(** X9.  What a thread records in its buffer is what the agent is told
    when the buffer is processed.  A thread that holds a buffer with the
    room posts any run of class-load and first-call notifications; the
    thread keeps the buffer, and processing the part of the buffer that
    the run has written makes one upcall for each notification, in order,
    with the class name, the digest and the ids of the notification.  The
    source of the upcall of a class-load notification is the source the
    notification gives; when it gives none (NULL or the empty string) it
    is the source the slot of the buffer stands for at that point: the
    one given last before it in the run, or else the one the slot stood
    for when the run began, or none. *)
Theorem notifications_are_delivered (vm : VM) (thread : Thread) (b : nat)
    (evs : list Notification) :
  recording vm thread b →
  Forall (notification_of (metaspace vm) thread) evs →
  _pos (tlb (manager vm) b) + rooms_needed evs ≤ _buffer_size (manager vm) →
  _pos (tlb (manager vm) b) + rooms_needed evs < 2 ^ 16 →
  let vm' := foldl notify vm evs in
  let t := tlb (manager vm) b in
  let t' := tlb (manager vm') b in
  buffer_of thread vm' = Some b
  ∧ _overflow (memory vm') = false
  ∧ _base t' = _base t
  ∧ ∀ t0 agent,
      follows vm b t0 →
      ∃ t0',
        process_records (metaspace vm') (region vm') (length evs)
          (_base t + _pos t) (_base t' + _pos t') t0 agent
        = Some (t0', agent ++ deliveries (metaspace vm) (slot_source vm b) evs).
Proof.
  intros Hrec Hwf Hroom Hsmall. cbv zeta.
  destruct (notifications_in_place evs vm thread b Hrec Hwf Hroom Hsmall)
    as (Hrec' & Hbase & _ & Hms & _ & _ & _ & Hwalk).
  destruct Hrec' as (_ & _ & _ & Ho & Hbuf & _).
  split; [done|]. split; [done|]. split; [done|].
  intros t0 agent Hfollows.
  destruct (Hwalk (region (foldl notify vm evs)) t0 agent (length evs)) as (t0' & Hw & _);
    [done|done|done|].
  exists t0'. by rewrite Hms, Hbase.
Qed.

Lemma vm_thread_1_recording : recording vm_thread_1 1%nat 0%nat.
Proof.
  unfold recording. split_and!; by vm_compute.
Qed.

Lemma notifications_are_delivered_witness :
  let evs := [ClassLoaded 1%nat None (Some source_50a) 1%nat;
              ClassLoaded 2%nat None (Some source_50a) 1%nat;
              ClassLoaded 2%nat None None 1%nat;
              FirstCalled 1%nat 5%nat;
              ClassLoaded 1%nat None (Some source_50b) 1%nat] in
  let vm' := foldl notify vm_thread_1 evs in
  let t := tlb (manager vm_thread_1) 0%nat in
  let t' := tlb (manager vm') 0%nat in
  buffer_of 1%nat vm' = Some 0%nat
  ∧ _overflow (memory vm') = false
  ∧ _base t' = _base t
  ∧ ∀ t0 agent,
      follows vm_thread_1 0%nat t0 →
      ∃ t0',
        process_records (metaspace vm') (region vm') (length evs)
          (_base t + _pos t) (_base t' + _pos t') t0 agent
        = Some (t0', agent ++ deliveries (metaspace vm_thread_1)
                                (slot_source vm_thread_1 0%nat) evs).
Proof.
  apply (notifications_are_delivered vm_thread_1 1%nat 0%nat).
  - exact vm_thread_1_recording.
  - repeat constructor; solve_c_string.
  - by vm_compute.
  - by vm_compute.
Defined.

(** X10.  A class-load event without a source that follows, in the same
    buffer, an event with a source is recorded in reference form (the
    constructor is given the record of the slot as [reference]), and the
    agent is told that the class came from the source of the event
    before. *)
Theorem class_without_source_is_given_the_previous_source (vm : VM) (thread : Thread)
    (b k1 k2 : nat) (h1 h2 : option (list byte)) (s : list byte) :
  recording vm thread b →
  is_c_string s → s ≠ [] →
  let evs := [ClassLoaded k1 h1 (Some s) thread; ClassLoaded k2 h2 None thread] in
  _pos (tlb (manager vm) b) + rooms_needed evs ≤ _buffer_size (manager vm) →
  _pos (tlb (manager vm) b) + rooms_needed evs < 2 ^ 16 →
  let vm' := foldl notify vm evs in
  let t := tlb (manager vm) b in
  let t' := tlb (manager vm') b in
  ∀ t0 agent,
    follows vm b t0 →
    ∃ t0',
      process_records (metaspace vm) (region vm') 2 (_base t + _pos t) (_base t + _pos t')
        t0 agent
      = Some (t0',
              agent ++
              [notifyClassLoad (klass_name (klass_at (metaspace vm) k1))
                 ((λ h, memcpy h DL_SHA256) <$> h1)
                 (klass_crs_trace_id (klass_at (metaspace vm) k1))
                 (class_loader_data_crs_trace_id (klass_at (metaspace vm) k1)) (Some s);
               notifyClassLoad (klass_name (klass_at (metaspace vm) k2))
                 ((λ h, memcpy h DL_SHA256) <$> h2)
                 (klass_crs_trace_id (klass_at (metaspace vm) k2))
                 (class_loader_data_crs_trace_id (klass_at (metaspace vm) k2)) (Some s)]).
Proof.
  intros Hrec Hs Hne evs Hroom Hsmall. cbv zeta.
  destruct (notifications_in_place evs vm thread b Hrec) as (_ & _ & _ & _ & _ & _ & _ & Hwalk);
    [by repeat constructor|done|done|].
  intros t0 agent Hfollows.
  destruct (Hwalk (region (foldl notify vm evs)) t0 agent 2%nat) as (t0' & Hw & _);
    [done|done|done|].
  exists t0'. rewrite Hw. unfold evs. destruct s as [|c0 s0]; [done|]. done.
Qed.

Lemma class_without_source_is_given_the_previous_source_witness :
  let vm := vm_thread_1 in
  let evs := [ClassLoaded 1%nat None (Some source_ab) 1%nat;
              ClassLoaded 2%nat None None 1%nat] in
  let vm' := foldl notify vm evs in
  let t := tlb (manager vm) 0%nat in
  let t' := tlb (manager vm') 0%nat in
  ∃ t0',
    process_records (metaspace vm) (region vm') 2 (_base t + _pos t) (_base t + _pos t')
      t' []
    = Some (t0',
            [] ++
            [notifyClassLoad (klass_name (klass_at (metaspace vm) 1%nat))
               ((λ h, memcpy h DL_SHA256) <$> None)
               (klass_crs_trace_id (klass_at (metaspace vm) 1%nat))
               (class_loader_data_crs_trace_id (klass_at (metaspace vm) 1%nat))
               (Some source_ab);
             notifyClassLoad (klass_name (klass_at (metaspace vm) 2%nat))
               ((λ h, memcpy h DL_SHA256) <$> None)
               (klass_crs_trace_id (klass_at (metaspace vm) 2%nat))
               (class_loader_data_crs_trace_id (klass_at (metaspace vm) 2%nat))
               (Some source_ab)]).
Proof.
  apply (class_without_source_is_given_the_previous_source vm_thread_1 1%nat 0%nat
           1%nat 2%nat None None source_ab).
  - exact vm_thread_1_recording.
  - solve_c_string.
  - done.
  - by vm_compute.
  - by vm_compute.
  - unfold follows. intros Hslot. exfalso. apply Hslot. by vm_compute.
Defined.

(** ** The first event of a thread *)

Lemma set_os_set_manager m vm : set_os (os vm) (set_manager m vm) = set_manager m vm.
Proof. done. Qed.

Lemma leased_to_state vm thread b :
  let vm' := leased_to vm thread b in
  tlb (manager vm') b = TLB_lease thread (tlb (manager vm) b)
  ∧ buffer_of thread vm' = Some b
  ∧ region vm' = region vm ∧ metaspace vm' = metaspace vm ∧ agent vm' = agent vm
  ∧ _overflow (memory vm') = _overflow (memory vm)
  ∧ _buffer_size (manager vm') = _buffer_size (manager vm)
  ∧ _leased_list (manager vm') = b :: _leased_list (manager vm)
  ∧ _not_finished (manager vm') = _not_finished (manager vm)
  ∧ UseCRS vm' = UseCRS vm
  ∧ CrsClassLoadMessage_should_notify vm' = CrsClassLoadMessage_should_notify vm
  ∧ CrsFirstCallMessage_should_notify vm' = CrsFirstCallMessage_should_notify vm.
Proof.
  cbv zeta. unfold leased_to.
  split.
  { change (manager (set_thread_locals ?l (set_manager ?m ?v))) with m.
    by rewrite tlb_lease_to_eq. }
  split; [unfold buffer_of, set_buffer; simpl; by rewrite lookup_partial_alter_eq|].
  by repeat split.
Qed.

(** An allocation by a thread without a buffer leases the first free
    buffer and then goes on as an allocation by a thread that holds it. *)
Lemma NativeMemory_alloc_leases size thread vm b :
  _overflow (memory vm) = false → buffer_of thread vm = None →
  head (_free_list (manager vm)) = Some b →
  0 ≤ size ≤ _buffer_size (manager vm) → _buffer_size (manager vm) ≤ 2 ^ 16 →
  NativeMemory_alloc size thread vm = NativeMemory_alloc size thread (leased_to vm thread b).
Proof.
  intros Ho Hbuf Hfree Hsize Hbs16.
  destruct (leased_to_state vm thread b) as (Ht & Hb & _ & _ & _ & Ho' & Hbs & _).
  assert (Hrem : remaining_space (manager (leased_to vm thread b)) b >= size).
  { unfold remaining_space. rewrite Ht, Hbs. simpl. unfold uintx.
    rewrite Z.sub_0_r, Z.mod_small by lia. lia. }
  unfold NativeMemory_alloc at 2. rewrite Ho', Ho, Hb. unfold ensure.
  rewrite decide_True by exact Hrem. cbv beta iota zeta.
  rewrite decide_False by (intros Hx; by apply Hx).
  rewrite set_manager_id, set_os_id.
  unfold NativeMemory_alloc. rewrite Ho, Hbuf. unfold ensure, lease_buffer.
  destruct (_free_list (manager vm)) as [|b0 free] eqn:Hfl; [done|].
  simpl in Hfree. injection Hfree as ->. cbn [AList.remove_seq]. cbv beta iota zeta.
  rewrite decide_True by done.
  unfold leased_to. rewrite Hfl. cbn [tail]. by rewrite set_os_set_manager.
Qed.

Lemma NativeMemory_alloc_ref_leases id is_reference size size_reference thread vm b :
  _overflow (memory vm) = false → buffer_of thread vm = None →
  head (_free_list (manager vm)) = Some b →
  0 ≤ size ≤ _buffer_size (manager vm) → _buffer_size (manager vm) ≤ 2 ^ 16 →
  NativeMemory_alloc_ref id is_reference size size_reference thread vm
  = NativeMemory_alloc_ref id true size size_reference thread (leased_to vm thread b).
Proof.
  intros Ho Hbuf Hfree Hsize Hbs16.
  destruct (leased_to_state vm thread b) as (Ht & Hb & _ & _ & _ & Ho' & Hbs & _).
  assert (Hrem : remaining_space (manager (leased_to vm thread b)) b >= size).
  { unfold remaining_space. rewrite Ht, Hbs. simpl. unfold uintx.
    rewrite Z.sub_0_r, Z.mod_small by lia. lia. }
  unfold NativeMemory_alloc_ref at 2. rewrite Ho', Ho, Hb. unfold ensure.
  rewrite decide_True by exact Hrem. cbv beta iota zeta.
  rewrite decide_False by (intros Hx; by apply Hx).
  rewrite set_manager_id, set_os_id.
  unfold NativeMemory_alloc_ref. rewrite Ho, Hbuf. unfold ensure, lease_buffer.
  destruct (_free_list (manager vm)) as [|b0 free] eqn:Hfl; [done|].
  simpl in Hfree. injection Hfree as ->. cbn [AList.remove_seq]. cbv beta iota zeta.
  rewrite decide_True by done.
  unfold leased_to. rewrite Hfl. cbn [tail]. by rewrite set_os_set_manager.
Qed.

Lemma idle_leased_recording vm thread b :
  idle vm thread b → recording (leased_to vm thread b) thread b.
Proof.
  intros (Hu & Hc & Hf & Ho & Hbuf & Hfree & Hl & Hnf & Hbs).
  destruct (leased_to_state vm thread b)
    as (Ht & Hb & _ & _ & _ & Ho' & Hbs' & _ & _ & Hu' & Hc' & Hf').
  unfold recording. rewrite Ht, Hb, Ho', Hbs', Hu', Hc', Hf'. simpl.
  by repeat split.
Qed.

Lemma slot_source_leased vm thread b : slot_source (leased_to vm thread b) b = None.
Proof.
  destruct (leased_to_state vm thread b) as (Ht & _).
  unfold slot_source, TLB_reference_message. by rewrite Ht.
Qed.

Lemma CrsClassLoadMessage_post_leases vm k hash s thread b :
  idle vm thread b → s ≠ [] → is_c_string s →
  full_size s ≤ _buffer_size (manager vm) →
  CrsClassLoadMessage_post k hash (Some s) thread vm
  = CrsClassLoadMessage_post k hash (Some s) thread (leased_to vm thread b).
Proof.
  intros (Hu & Hc & Hf & Ho & Hbuf & Hfree & Hl & Hnf & Hbs) Hne Hs Hsize.
  destruct (leased_to_state vm thread b) as (Ht & Hb & Hr & Hms & _).
  pose proof (full_size_bounds s Hne) as Hfs.
  assert (Hstrlen : strlen s = Z.of_nat (length s)) by by apply strlen_c_string.
  unfold CrsClassLoadMessage_post, NativeMemory_reference_message.
  rewrite Hbuf, Hb, Ht. unfold TLB_reference_message. cbn [TLB_lease _reference_message].
  destruct s as [|c0 s0]; [done|]. cbv beta iota zeta.
  rewrite Hstrlen.
  change (offset_of_source + (Z.of_nat (length (c0 :: s0)) + 1)) with (full_size (c0 :: s0)).
  by rewrite (NativeMemory_alloc_ref_leases _ true _ _ thread vm b) by (done || lia).
Qed.

Lemma CrsFirstCallMessage_post_leases vm method thread b :
  idle vm thread b → sizeof_CrsFirstCallMessage ≤ _buffer_size (manager vm) →
  CrsFirstCallMessage_post method thread vm
  = CrsFirstCallMessage_post method thread (leased_to vm thread b).
Proof.
  intros (Hu & Hc & Hf & Ho & Hbuf & Hfree & Hl & Hnf & Hbs) Hsize.
  unfold CrsFirstCallMessage_post.
  by rewrite (NativeMemory_alloc_leases _ thread vm b) by (done || done).
Qed.

(** [alloc] with a back reference and [*is_reference] set, by a thread
    whose buffer has the room for both sizes. *)
Lemma NativeMemory_alloc_ref_in_place id size size_reference thread vm b :
  buffer_of thread vm = Some b →
  _overflow (memory vm) = false →
  let m := manager vm in
  let t := tlb m b in
  0 ≤ _pos t → 0 ≤ size_reference → 0 ≤ size →
  _pos t + size ≤ _buffer_size m → _buffer_size m < 2 ^ 64 →
  _pos t + align_up size_reference TLBManager_align < 2 ^ 64 →
  NativeMemory_alloc_ref id true size size_reference thread vm
  = (Some (_base t + _pos t), true,
     set_manager
       (set_tlb b
          (mkTLB (_pos t + align_up size_reference TLBManager_align) (_base t) (_owner t)
             (Some (_base t + _pos t))) m) vm).
Proof.
  intros Hbuf Ho. cbv zeta. intros Hpos Hsr Hsz Hroom Hbs Hal.
  pose proof (align_up_ge size_reference TLBManager_align ltac:(done)) as Hge.
  assert (Hrem : remaining_space (manager vm) b >= size).
  { unfold remaining_space, uintx. rewrite Z.mod_small by lia. lia. }
  unfold NativeMemory_alloc_ref. rewrite Ho, Hbuf. unfold ensure.
  rewrite decide_True by exact Hrem. cbv beta iota zeta.
  rewrite decide_False by (intros Hx; by apply Hx).
  cbv beta iota zeta.
  unfold TLBManager_alloc, TLB_alloc. cbv beta iota zeta.
  rewrite set_manager_id, set_os_id.
  rewrite tlb_set_tlb_eq, set_tlb_set_tlb.
  unfold uintx. rewrite Z.mod_small by lia. reflexivity.
Qed.

(** The first notification of a thread without a buffer: the first free
    buffer is leased to the thread, and the record is written at its
    start as by a thread that held the buffer; a class-load record that
    opens a buffer never refers to another one. *)
Lemma notify_first vm thread b n :
  idle vm thread b → notification_of (metaspace vm) thread n →
  room_needed n ≤ _buffer_size (manager vm) →
  room_needed n < 2 ^ 16 →
  let vml := leased_to vm thread b in
  let t := tlb (manager vml) b in
  ∃ r al slot1,
    notify vm n = written vml b r al slot1
    ∧ 0 < al ≤ room_needed n
    ∧ walk_step r = al
    ∧ (slot1 = _reference_message t ∨ slot1 = Some (_base t + _pos t))
    ∧ slot_source (written vml b r al slot1) b = source_after None n
    ∧ (∀ region' t0 agent,
         ∃ t0', CrsMessage_process (metaspace vm) region' (_base t + _pos t) r t0 agent
                = (t0', agent ++ [delivered (metaspace vm) None n])
           ∧ (source_after None n ≠ None → _reference_message t0' = slot1)).
Proof.
  intros Hidle Hwf Hroom Hsmall vml t.
  pose proof (idle_leased_recording vm thread b Hidle) as Hrec.
  pose proof (slot_source_leased vm thread b) as Hcur.
  destruct (leased_to_state vm thread b)
    as (Ht & Hb & Hr & Hms & _ & Ho' & Hbs' & _ & _ & Hu' & Hc' & Hf').
  fold vml in Hrec, Hcur, Ht, Hb, Hr, Hms, Ho', Hbs', Hu', Hc', Hf'.
  assert (Hpos0 : _pos t = 0) by (unfold t; by rewrite Ht).
  assert (Hslot0 : _reference_message t = None) by (unfold t; by rewrite Ht).
  assert (Hin : notify vm n = notify vml n →
    ∃ r al slot1,
      notify vm n = written vml b r al slot1
      ∧ 0 < al ≤ room_needed n
      ∧ walk_step r = al
      ∧ (slot1 = _reference_message t ∨ slot1 = Some (_base t + _pos t))
      ∧ slot_source (written vml b r al slot1) b = source_after None n
      ∧ (∀ region' t0 agent,
           ∃ t0', CrsMessage_process (metaspace vm) region' (_base t + _pos t) r t0 agent
                  = (t0', agent ++ [delivered (metaspace vm) None n])
             ∧ (source_after None n ≠ None → _reference_message t0' = slot1))).
  { intros Heq.
    destruct (notify_in_place vml thread b n Hrec)
      as (r & al & slot1 & Hn & Hal & Hw & Hs1 & Hsrc & Hproc).
    - by rewrite Hms.
    - fold t. rewrite Hpos0, Hbs'. lia.
    - fold t. rewrite Hpos0. lia.
    - exists r, al, slot1. rewrite Heq. rewrite Hcur in Hsrc, Hproc. rewrite Hms in Hproc.
      split; [done|]. split; [done|]. split; [done|]. split; [done|]. split; [done|].
      intros region' t0 agent. apply Hproc.
      + fold t. by rewrite Hslot0.
      + unfold follows. by rewrite Hcur. }
  destruct Hidle as (Hu & Hc & Hf & Ho & Hbuf & Hfree & Hl & Hnf & Hbs).
  pose proof (Hidle' := conj Hu (conj Hc (conj Hf (conj Ho (conj Hbuf
                          (conj Hfree (conj Hl (conj Hnf Hbs)))))))).
  destruct n as [ikh hash source th|th method]; simpl in Hwf.
  - destruct Hwf as [-> Hsrc]. cbn [room_needed] in Hroom, Hsmall.
    destruct (normalized source) as [s|] eqn:Hnorm.
    + apply normalized_Some in Hnorm as Hsn. destruct Hsn as [-> Hne].
      apply Hin. simpl. unfold notify_class_load. rewrite Hu', Hc', Hu, Hc. cbn [andb].
      apply CrsClassLoadMessage_post_leases; [done|done|done|].
      pose proof (align_up_ge (Z.max sizeof_CrsClassLoadMessage (full_size s))
                    TLBManager_align ltac:(done)). lia.
    + simpl notify. unfold notify_class_load. rewrite Hu, Hc. cbn [andb].
      unfold CrsClassLoadMessage_post, NativeMemory_reference_message. rewrite Hbuf.
      assert (Hn2 : match source with Some [] => None | _ => source end = None)
        by (by destruct source as [[|c0 s0]|]).
      rewrite Hn2. cbv beta iota zeta.
      rewrite (NativeMemory_alloc_ref_leases _ false _ _ thread vm b)
        by (done || unfold sizeof_CrsClassLoadMessage in *; lia).
      fold vml.
      rewrite (NativeMemory_alloc_ref_in_place _ _ _ thread vml b Hb);
        [|by rewrite Ho'|fold t; lia|done|done|fold t; unfold sizeof_CrsClassLoadMessage in *; lia
         |lia|fold t; rewrite Hpos0; by vm_compute].
      fold t.
      change (align_up (offset_of_source + 0) TLBManager_align) with 64.
      eexists _, 64, (Some (_base t + _pos t)).
      split; [reflexivity|].
      change (metaspace (set_manager ?m vml)) with (metaspace vml). rewrite Hms.
      split; [cbn [room_needed]; rewrite Hnorm; unfold sizeof_CrsClassLoadMessage; lia|].
      split; [unfold CrsClassLoadMessage_ctor; by destruct hash|].
      split; [by right|].
      cbn [source_after delivered]. rewrite Hnorm.
      split.
      * match goal with |- slot_source (written ?v ?b ?r ?al ?sl) _ = _ =>
          destruct (written_state v b r al sl) as (Hr1 & Ht1 & _) end.
        unfold slot_source, TLB_reference_message. rewrite Ht1, Hr1. simpl.
        unfold class_load_at. rewrite lookup_insert_eq.
        unfold CrsClassLoadMessage_ctor. by destruct hash.
      * intros region' t0 agent. exists t0.
        by rewrite process_no_source.
  - destruct Hwf as (-> & Hname & Hsig). cbn [room_needed] in Hroom, Hsmall.
    apply Hin. simpl. unfold notify_first_call. rewrite Hu', Hf', Hu, Hf. cbn [andb].
    by apply CrsFirstCallMessage_post_leases.
Qed.

(** ** From the notification to the agent *)

Lemma written_frame vm b r al slot :
  let vm' := written vm b r al slot in
  _leased_list (manager vm') = _leased_list (manager vm)
  ∧ _not_finished (manager vm') = _not_finished (manager vm)
  ∧ agent vm' = agent vm
  ∧ _owner (tlb (manager vm') b) = _owner (tlb (manager vm) b)
  ∧ _is_init vm' = _is_init vm
  ∧ _bytes_used (manager vm') = _bytes_used (manager vm).
Proof.
  cbv zeta. destruct (written_state vm b r al slot) as (_ & Ht & _).
  rewrite Ht. by repeat split.
Qed.

Lemma notifications_in_place_frame evs :
  ∀ vm thread b,
    recording vm thread b →
    Forall (notification_of (metaspace vm) thread) evs →
    _pos (tlb (manager vm) b) + rooms_needed evs ≤ _buffer_size (manager vm) →
    _pos (tlb (manager vm) b) + rooms_needed evs < 2 ^ 16 →
    _leased_list (manager (foldl notify vm evs)) = _leased_list (manager vm)
    ∧ _not_finished (manager (foldl notify vm evs)) = _not_finished (manager vm)
    ∧ agent (foldl notify vm evs) = agent vm
    ∧ _owner (tlb (manager (foldl notify vm evs)) b) = _owner (tlb (manager vm) b)
    ∧ _is_init (foldl notify vm evs) = _is_init vm
    ∧ _bytes_used (manager (foldl notify vm evs)) = _bytes_used (manager vm).
Proof.
  induction evs as [|n evs IH]; intros vm thread b Hrec Hwf Hroom Hsmall; [done|].
  inversion Hwf as [|? ? Hn Hevs]; subst.
  change (rooms_needed (n :: evs)) with (room_needed n + rooms_needed evs) in Hroom, Hsmall.
  pose proof (rooms_needed_nonneg evs) as Hnn.
  destruct (notify_in_place vm thread b n Hrec Hn ltac:(lia) ltac:(lia))
    as (r & al & slot1 & Hnotify & Hal & _ & Hslot1 & _).
  pose proof (written_recording vm thread b r al slot1 Hrec ltac:(lia) Hslot1) as Hrec1.
  destruct (written_state vm b r al slot1) as (_ & Ht1 & _ & _ & Hbs1 & Hms1 & _).
  destruct (written_frame vm b r al slot1) as (Hl1 & Hn1 & Ha1 & Ho1 & Hi1 & Hu1).
  cbn [foldl]. rewrite Hnotify.
  destruct (IH (written vm b r al slot1) thread b Hrec1) as (Hl & Hnf & Ha & Ho & Hi & Hu).
  - by rewrite Hms1.
  - rewrite Ht1, Hbs1. simpl. lia.
  - rewrite Ht1. simpl. lia.
  - rewrite Hl, Hnf, Ha, Ho, Hi, Hu. done.
Qed.

(** A flush of a pool whose only leased buffer has no owner processes the
    records of that buffer. *)
Lemma NativeMemory_flush_one vm b t' agent' :
  _leased_list (manager vm) = [b] →
  _not_finished (manager vm) = [] →
  _owner (tlb (manager vm) b) = None →
  TLBFlushClosure (metaspace vm) (region vm) b (tlb (manager vm) b) (agent vm)
  = Some (t', agent') →
  ∃ vm', NativeMemory_flush vm = Some vm' ∧ agent vm' = agent'.
Proof.
  intros Hl Hnf Hown Hcl. unfold NativeMemory_flush, flush_buffers.
  change (manager (set_previous_usage ?u vm)) with (manager vm).
  change (metaspace (set_previous_usage ?u vm)) with (metaspace vm).
  change (region (set_previous_usage ?u vm)) with (region vm).
  change (agent (set_previous_usage ?u vm)) with (agent vm).
  rewrite Hl. cbn [flush_leased].
  change (tlb (set_leased_list [] (manager vm)) b) with (tlb (manager vm) b).
  rewrite Hown, Hcl.
  case_decide as Htu.
  - cbn [flush_leased]. cbv beta iota zeta.
    destruct (uncommit_free _ _ _ _ _) as [[unc2 m2] os2].
    destruct (_overflow _); eexists; split; done.
  - unfold uncommit_buffer.
    destruct (os_uncommit_memory (os (set_previous_usage _ vm))) as [[] os1];
      cbn [flush_leased]; cbv beta iota zeta;
      destruct (uncommit_free _ _ _ _ _) as [[unc2 m2] os2];
      destruct (_overflow _); eexists; split; done.
Qed.

Lemma NativeMemory_flush_none vm :
  _leased_list (manager vm) = [] →
  _not_finished (manager vm) = [] →
  ∃ vm', NativeMemory_flush vm = Some vm' ∧ agent vm' = agent vm.
Proof.
  intros Hl Hnf. unfold NativeMemory_flush, flush_buffers.
  change (manager (set_previous_usage ?u vm)) with (manager vm).
  change (agent (set_previous_usage ?u vm)) with (agent vm).
  rewrite Hl. cbn [flush_leased]. cbv beta iota zeta.
  destruct (uncommit_free _ _ _ _ _) as [[unc2 m2] os2].
  destruct (_overflow _); eexists; split; done.
Qed.

(** The records of a thread that began without a buffer, walked from the
    start of the buffer it was leased. *)
Lemma notifications_from_idle vm thread b n evs :
  idle vm thread b →
  Forall (notification_of (metaspace vm) thread) (n :: evs) →
  rooms_needed (n :: evs) ≤ _buffer_size (manager vm) →
  rooms_needed (n :: evs) < 2 ^ 16 →
  let vmf := foldl notify vm (n :: evs) in
  let t := tlb (manager vmf) b in
  buffer_of thread vmf = Some b
  ∧ _leased_list (manager vmf) = [b]
  ∧ _not_finished (manager vmf) = []
  ∧ agent vmf = agent vm
  ∧ metaspace vmf = metaspace vm
  ∧ _owner t = Some thread
  ∧ _is_init vmf = _is_init vm
  ∧ _bytes_used (manager vmf) = uintx (_bytes_used (manager vm) + _buffer_size (manager vm))
  ∧ ∀ t0 agent0,
      ∃ t0',
        MessageClosure_walk (S (Z.to_nat (_pos t))) (region vmf)
          (λ this msg '(tlb, agent),
             CrsMessage_process (metaspace vm) (region vmf) this msg tlb agent)
          (_base t) (_base t + _pos t) (t0, agent0)
        = Some (t0', agent0 ++ deliveries (metaspace vm) None (n :: evs)).
Proof.
  intros Hidle Hwf Hroom Hsmall. cbv zeta.
  inversion Hwf as [|? ? Hn Hevs]; subst.
  change (rooms_needed (n :: evs)) with (room_needed n + rooms_needed evs) in Hroom, Hsmall.
  pose proof (rooms_needed_nonneg evs) as Hnn.
  pose proof (idle_leased_recording vm thread b Hidle) as Hrecl.
  destruct (leased_to_state vm thread b)
    as (Htl & _ & _ & Hmsl & Hal & _ & Hbsl & Hll & Hnfl & _).
  pose proof Hidle as (_ & _ & _ & _ & _ & _ & Hl0 & Hnf0 & _).
  destruct (notify_first vm thread b n Hidle Hn ltac:(lia) ltac:(lia))
    as (r & al & slot1 & Hnotify & Hal1 & Hstep & Hslot1 & Hsrc1 & Hproc).
  set (vml := leased_to vm thread b) in *.
  pose proof (written_recording vml thread b r al slot1 Hrecl ltac:(lia) Hslot1) as Hrec1.
  destruct (written_state vml b r al slot1) as (Hreg1 & Ht1 & _ & _ & Hbs1 & Hms1 & _).
  destruct (written_frame vml b r al slot1) as (Hl1 & Hnf1 & Ha1 & Ho1 & Hi1 & Hu1).
  set (vm1 := written vml b r al slot1) in *.
  assert (Hp1 : _pos (tlb (manager vm1) b) = al) by (rewrite Ht1, Htl; simpl; lia).
  assert (Hb1 : _base (tlb (manager vm1) b) = _base (tlb (manager vm) b))
    by (by rewrite Ht1, Htl).
  assert (Hbl : _base (tlb (manager vml) b) + _pos (tlb (manager vml) b)
                = _base (tlb (manager vm) b)) by (rewrite Htl; simpl; lia).
  rewrite Hbl in Hreg1, Hproc.
  assert (Hevs1 : Forall (notification_of (metaspace vm1) thread) evs)
    by (by rewrite Hms1, Hmsl).
  destruct (notifications_in_place evs vm1 thread b Hrec1 Hevs1)
    as (Hrec' & Hbase & Hpos & Hms & _ & Hframe & _ & Hwalk).
  { rewrite Hp1, Hbs1, Hbsl. lia. }
  { rewrite Hp1. lia. }
  destruct (notifications_in_place_frame evs vm1 thread b Hrec1 Hevs1)
    as (Hlf & Hnff & Haf & Hof & Hif & Huf).
  { rewrite Hp1, Hbs1, Hbsl. lia. }
  { rewrite Hp1. lia. }
  cbn [foldl]. rewrite Hnotify. fold vm1.
  set (vmf := foldl notify vm1 evs) in *.
  destruct Hrec' as (_ & _ & _ & _ & Hbuf & _).
  rewrite Hp1, Hb1 in Hframe, Hwalk. rewrite Hp1 in Hpos. rewrite Hb1 in Hbase.
  split; [done|]. split; [by rewrite Hlf, Hl1, Hll, Hl0|].
  split; [by rewrite Hnff, Hnf1, Hnfl|]. split; [by rewrite Haf, Ha1|].
  split; [by rewrite Hms, Hms1|].
  split; [by rewrite Hof, Ho1, Htl|].
  split; [by rewrite Hif, Hi1|].
  split; [by rewrite Huf, Hu1|].
  intros t0 agent0. rewrite Hbase.
  set (B := _base (tlb (manager vm) b)) in *.
  set (posf := _pos (tlb (manager vmf) b)) in *.
  cbn [MessageClosure_walk]. rewrite decide_True by lia.
  assert (Hr : region vmf !! B = Some r).
  { rewrite Hframe by lia. rewrite Hreg1. apply lookup_insert_eq. }
  rewrite Hr, Hstep.
  destruct (Hproc (region vmf) t0 agent0) as (t1 & Hp & Hfol).
  rewrite Hp.
  destruct (Hwalk (region vmf) t1 (agent0 ++ [delivered (metaspace vm) None n])
              (Z.to_nat posf)) as (t0' & Hw & _).
  - done.
  - intros Hne. rewrite Ht1. simpl. apply Hfol. by rewrite <- Hsrc1.
  - lia.
  - exists t0'. unfold process_records in Hw. rewrite Hms1, Hmsl, Hsrc1 in Hw.
    rewrite Hw. cbn [deliveries]. by rewrite <- app_assoc.
Qed.

(** A thread records events and exits; the flush after that delivers them. *)
Lemma flush_after_exit_delivers (vm : VM) (thread : Thread) (b : nat)
    (evs : list Notification) :
  idle vm thread b →
  Forall (notification_of (metaspace vm) thread) evs →
  rooms_needed evs ≤ _buffer_size (manager vm) →
  rooms_needed evs < 2 ^ 16 →
  ∃ vm',
    NativeMemory_flush (notify_thread_exit thread (foldl notify vm evs)) = Some vm'
    ∧ agent vm' = agent vm ++ deliveries (metaspace vm) None evs.
Proof.
  intros Hidle Hwf Hroom Hsmall.
  destruct evs as [|n evs].
  - destruct Hidle as (_ & _ & _ & _ & Hbuf & _ & Hl & Hnf & _).
    cbn [foldl deliveries]. unfold notify_thread_exit, NativeMemory_release_thread_buffer.
    rewrite Hbuf, app_nil_r. by apply NativeMemory_flush_none.
  - destruct (notifications_from_idle vm thread b n evs Hidle Hwf Hroom Hsmall)
      as (Hbuf & Hl & Hnf & Ha & Hms & _ & _ & _ & Hwalk).
    set (vmf := foldl notify vm (n :: evs)) in *.
    unfold notify_thread_exit, NativeMemory_release_thread_buffer. rewrite Hbuf.
    set (vmx := set_thread_locals _ _).
    destruct (Hwalk (TLB_release (tlb (manager vmf) b)) (agent vmf)) as (t0' & Hw).
    destruct (NativeMemory_flush_one vmx b t0'
                (agent vm ++ deliveries (metaspace vm) None (n :: evs)))
      as (vm' & Hflush & Hagent).
    + done.
    + done.
    + unfold vmx.
      change (manager (set_thread_locals ?l (set_manager ?m ?v))) with m.
      by rewrite tlb_set_tlb_eq.
    + unfold TLBFlushClosure, vmx.
      change (manager (set_thread_locals ?l (set_manager ?m ?v))) with m.
      change (metaspace (set_thread_locals ?l (set_manager ?m ?v))) with (metaspace v).
      change (region (set_thread_locals ?l (set_manager ?m ?v))) with (region v).
      change (agent (set_thread_locals ?l (set_manager ?m ?v))) with (agent v).
      rewrite tlb_set_tlb_eq. cbv zeta.
      change (_base (TLB_release ?t)) with (_base t).
      change (_pos (TLB_release ?t)) with (_pos t).
      rewrite Hms, Hw. by rewrite Ha.
    + by exists vm'.
Qed.

(** X11.  Events recorded by a thread reach the agent.  With the subsystem
    recording and no buffer leased, a thread posts a run of class-load and
    first-call notifications that fits one buffer, and exits; the flush of
    the buffers after that returns, and has made exactly one upcall for
    each notification, in the order of the notifications, with the name,
    digest, ids and source of the notification (a source given again, or
    left out, being the one given last). *)
Theorem recorded_events_reach_the_agent (vm : VM) (thread : Thread) (b : nat)
    (evs : list Notification) :
  idle vm thread b →
  Forall (notification_of (metaspace vm) thread) evs →
  rooms_needed evs ≤ _buffer_size (manager vm) →
  rooms_needed evs < 2 ^ 16 →
  ∃ vm',
    NativeMemory_flush (notify_thread_exit thread (foldl notify vm evs)) = Some vm'
    ∧ agent vm' = agent vm ++ deliveries (metaspace vm) None evs.
Proof. apply flush_after_exit_delivers. Qed.

Lemma recorded_events_reach_the_agent_witness :
  let evs := [ClassLoaded 1%nat None (Some source_50a) 1%nat;
              ClassLoaded 2%nat None (Some source_50a) 1%nat;
              FirstCalled 1%nat 5%nat;
              ClassLoaded 1%nat None None 1%nat] in
  ∃ vm',
    NativeMemory_flush (notify_thread_exit 1%nat (foldl notify vm_two_buffers evs))
    = Some vm'
    ∧ agent vm' = agent vm_two_buffers
                  ++ deliveries (metaspace vm_two_buffers) None evs.
Proof.
  apply (recorded_events_reach_the_agent vm_two_buffers 1%nat 0%nat).
  - unfold idle. split_and!; by vm_compute.
  - repeat constructor; solve_c_string.
  - by vm_compute.
  - by vm_compute.
Defined.

(** ** The pool: construction, lease and flush *)

Lemma set_bases_lookup (g : nat → TLB → TLB) l :
  ∀ m i, NoDup l → i ∈ l →
    tlb (foldl (λ m i, set_tlb i (g i (tlb m i)) m) m l) i = g i (tlb m i).
Proof.
  induction l as [|j l IH]; intros m i Hnd Hi; [by apply elem_of_nil in Hi|].
  apply NoDup_cons in Hnd as [Hj Hnd]. simpl.
  destruct (decide (i = j)) as [->|Hne].
  - assert (Hkeep : ∀ l' m', j ∉ l' →
              tlb (foldl (λ m i, set_tlb i (g i (tlb m i)) m) m' l') j = tlb m' j).
    { clear. induction l' as [|k l' IH]; intros m' Hk; [done|]. simpl.
      rewrite IH by set_solver. apply tlb_set_tlb_ne. set_solver. }
    rewrite Hkeep by done. by rewrite tlb_set_tlb_eq.
  - rewrite IH; [|done|set_solver]. by rewrite tlb_set_tlb_ne.
Qed.

(** X12.  The pool comes up.  For a page size that is a power of two up to
    64 KiB and an area of at least two bytes, the constructor of
    [TLBManager] returns.  It settles a buffer size that is a multiple of
    the page size and at most 65536, at least two buffers, and an initial
    commit of at least one and at most all of them.  When the commit
    succeeds the free list holds the committed buffers and the uncommitted
    list the others, both in the order of the addresses, no buffer is
    leased, no byte is in use, and buffer [i] begins [i] buffer sizes above
    the base of the area.  When the commit fails all lists are empty. *)
Theorem TLBManager_ctor_builds_pool (n size : Z) (os : OS) :
  0 ≤ n ≤ 16 → vm_page_size os = 2 ^ n → 2 ≤ size < 2 ^ 64 →
  ∃ m os' ok,
    TLBManager_ctor size os = Some (m, os', ok)
    ∧ ok = (os_commit_memory os).1
    ∧ (2 ^ n | _buffer_size m) ∧ 0 < _buffer_size m ≤ 2 ^ 16
    ∧ 2 ≤ _buffers_count m ∧ 1 ≤ _num_committed m ≤ _buffers_count m
    ∧ _leased_list m = [] ∧ _not_finished m = [] ∧ _bytes_used m = 0
    ∧ (ok = true →
       _free_list m = seq 0 (Z.to_nat (_num_committed m))
       ∧ _uncommitted_list m
         = seq (Z.to_nat (_num_committed m))
             (Z.to_nat (_buffers_count m) - Z.to_nat (_num_committed m))
       ∧ conservation m
       ∧ ∀ i, (i < Z.to_nat (_buffers_count m))%nat →
              _base (tlb m i) = Z.of_nat i * _buffer_size m)
    ∧ (ok = false → _free_list m = [] ∧ _uncommitted_list m = []).
Proof.
  intros Hn Hpage Hsize. unfold TLBManager_ctor. rewrite Hpage.
  destruct (TLBManager_geometry_bounds n size Hn Hsize)
    as (bs & count & nc & -> & Hdiv & Hbs & Hcount & Hnc).
  destruct (os_commit_memory os) as [[] os1]; eexists _, _, _; (split; [reflexivity|]).
  - rewrite for_down_uncommitted, for_down_free.
    match goal with |- context [foldl ?f ?m0 ?l] =>
      pose proof (set_bases_frame (λ i, TLB_set_base (Z.of_nat i * bs)) l m0) as Hfr;
      pose proof (set_bases_lookup (λ i, TLB_set_base (Z.of_nat i * bs)) l m0) as Hlk
    end.
    cbv zeta in Hfr. destruct Hfr as (Hf & Hl & Hu & Hnf & Hnum & Hbc & Hbsz & Hbu).
    unfold conservation. simpl.
    rewrite Hf, Hl, Hu, Hnf, Hnum, Hbc, Hbsz, Hbu. simpl.
    rewrite !app_nil_r, !length_seq, Nat.sub_0_r.
    split; [done|]. split; [done|]. split; [done|]. split; [done|]. split; [done|].
    split; [done|]. split; [done|]. split; [done|].
    split; [|done]. intros _.
    split; [done|]. split; [done|]. split; [split; lia|].
    intros i Hi. unfold tlb in Hlk |- *. simpl in Hlk |- *.
    rewrite Hlk; [done|apply NoDup_seq|]. apply elem_of_seq. lia.
  - simpl. split; [done|]. split; [done|]. split; [done|]. split; [done|].
    split; [done|]. split; [done|]. split; [done|]. split; [done|].
    split; [done|]. by intros _.
Qed.

Lemma TLBManager_ctor_builds_pool_witness :
  ∃ m os' ok,
    TLBManager_ctor (32 * K) os_4K = Some (m, os', ok)
    ∧ ok = (os_commit_memory os_4K).1
    ∧ (2 ^ 12 | _buffer_size m) ∧ 0 < _buffer_size m ≤ 2 ^ 16
    ∧ 2 ≤ _buffers_count m ∧ 1 ≤ _num_committed m ≤ _buffers_count m
    ∧ _leased_list m = [] ∧ _not_finished m = [] ∧ _bytes_used m = 0
    ∧ (ok = true →
       _free_list m = seq 0 (Z.to_nat (_num_committed m))
       ∧ _uncommitted_list m
         = seq (Z.to_nat (_num_committed m))
             (Z.to_nat (_buffers_count m) - Z.to_nat (_num_committed m))
       ∧ conservation m
       ∧ ∀ i, (i < Z.to_nat (_buffers_count m))%nat →
              _base (tlb m i) = Z.of_nat i * _buffer_size m)
    ∧ (ok = false → _free_list m = [] ∧ _uncommitted_list m = []).
Proof.
  apply (TLBManager_ctor_builds_pool 12 (32 * K) os_4K).
  - lia.
  - reflexivity.
  - by vm_compute.
Defined.

(** X13.  A lease keeps the account of the buffers.  [lease_buffer] on a
    pool in which every buffer is on one of the three lists leaves such a
    pool.  It fails exactly when the free list is empty and either the
    uncommitted list is empty too or the commit fails, and then the lists
    and the buffers are as before.  Otherwise it hands out the head of the
    free list or, that being empty, the head of the uncommitted list: the
    buffer is reset and owned by the thread, it is the new head of the
    leased list, one buffer size is added to the bytes in use, and no
    other buffer has changed. *)
Theorem lease_buffer_keeps_pool (thread : Thread) (m : TLBManager) (os : OS) :
  conservation m → quiescent m →
  ∃ r m' os',
    lease_buffer thread m os = (r, m', os')
    ∧ conservation m' ∧ quiescent m'
    ∧ (r = None
       ↔ _free_list m = [] ∧ (_uncommitted_list m = [] ∨ (os_commit_memory os).1 = false))
    ∧ (r = None →
       _free_list m' = _free_list m ∧ _leased_list m' = _leased_list m
       ∧ _uncommitted_list m' = _uncommitted_list m ∧ _bytes_used m' = _bytes_used m
       ∧ ∀ b, tlb m' b = tlb m b)
    ∧ (∀ b, r = Some b →
       (head (_free_list m) = Some b
        ∨ (_free_list m = [] ∧ head (_uncommitted_list m) = Some b))
       ∧ tlb m' b = TLB_lease thread (tlb m b)
       ∧ (∀ b', b' ≠ b → tlb m' b' = tlb m b')
       ∧ _leased_list m' = b :: _leased_list m
       ∧ _bytes_used m' = uintx (_bytes_used m + _buffer_size m)).
Proof.
  intros Hc Hq.
  pose proof (lease_buffer_conservation thread m os Hc) as Hc'.
  pose proof (lease_buffer_quiescent thread m os Hq) as Hq'.
  pose proof (lease_buffer_None_iff thread m os) as Hiff.
  destruct (lease_buffer thread m os) as [[r m'] os'] eqn:Hl. simpl in Hc', Hq', Hiff.
  exists r, m', os'. split; [done|]. split; [done|]. split; [done|]. split; [done|].
  split.
  - intros ->. destruct (lease_buffer_None _ _ _ _ _ Hl) as (Ht & _ & Hf & Hle & Hu).
    split; [done|]. split; [done|]. split; [done|]. split; [|done].
    revert Hl. unfold lease_buffer.
    destruct (_free_list m) as [|f free]; simpl; [|done].
    destruct (_uncommitted_list m) as [|u unc]; simpl; [by intros [= <- <-]|].
    destruct (os_commit_memory os) as [[] os1]; [done|]. by intros [= <- <-].
  - intros b ->. destruct (lease_buffer_Some _ _ _ _ _ _ Hl) as (Ht & Hothers & _ & Hfrom).
    split.
    { destruct Hfrom as [Hf|[Hf Hu]].
      - left. by destruct (_free_list m).
      - right. split; [done|]. by destruct (_uncommitted_list m). }
    split; [done|]. split; [done|].
    revert Hl. unfold lease_buffer.
    destruct (_free_list m) as [|f free]; simpl.
    + destruct (_uncommitted_list m) as [|u unc]; simpl; [done|].
      destruct (os_commit_memory os) as [[] os1]; [|done]. by intros [= <- <- <-].
    + by intros [= <- <- <-].
Qed.

Lemma lease_buffer_keeps_pool_witness :
  ∃ r m' os',
    lease_buffer 1%nat pool_32K os_4K = (r, m', os')
    ∧ conservation m' ∧ quiescent m'
    ∧ (r = None
       ↔ _free_list pool_32K = []
         ∧ (_uncommitted_list pool_32K = [] ∨ (os_commit_memory os_4K).1 = false))
    ∧ (r = None →
       _free_list m' = _free_list pool_32K ∧ _leased_list m' = _leased_list pool_32K
       ∧ _uncommitted_list m' = _uncommitted_list pool_32K
       ∧ _bytes_used m' = _bytes_used pool_32K
       ∧ ∀ b, tlb m' b = tlb pool_32K b)
    ∧ (∀ b, r = Some b →
       (head (_free_list pool_32K) = Some b
        ∨ (_free_list pool_32K = [] ∧ head (_uncommitted_list pool_32K) = Some b))
       ∧ tlb m' b = TLB_lease 1%nat (tlb pool_32K b)
       ∧ (∀ b', b' ≠ b → tlb m' b' = tlb pool_32K b')
       ∧ _leased_list m' = b :: _leased_list pool_32K
       ∧ _bytes_used m' = uintx (_bytes_used pool_32K + _buffer_size pool_32K)).
Proof.
  apply (lease_buffer_keeps_pool 1%nat pool_32K os_4K).
  - split; by vm_compute.
  - by vm_compute.
Defined.

(** A flush that returns, while [os::uncommit_memory] does not fail, keeps
    the account of the buffers. *)
Lemma NativeMemory_flush_keeps_pool (vm vm' : VM) :
  conservation (manager vm) → quiescent (manager vm) →
  Forall (λ r, r = true) (uncommit_memory_results (os vm)) →
  NativeMemory_flush vm = Some vm' →
  conservation (manager vm') ∧ quiescent (manager vm')
  ∧ _buffers_count (manager vm') = _buffers_count (manager vm)
  ∧ _overflow (memory vm') = false
  ∧ UseCRS vm' = UseCRS vm ∧ _is_init vm' = _is_init vm
  ∧ CrsClassLoadMessage_should_notify vm' = CrsClassLoadMessage_should_notify vm
  ∧ CrsFirstCallMessage_should_notify vm' = CrsFirstCallMessage_should_notify vm.
Proof.
  intros Hc Hq Hos Hfl.
  assert (Hbc : conservation (manager vm') ∧ quiescent (manager vm')
                ∧ _buffers_count (manager vm') = _buffers_count (manager vm)).
  { pose proof Hfl as Hfl0. revert Hfl0. unfold NativeMemory_flush.
    destruct (flush_buffers _ _ _ _ _) as [[[m1 os1] agent1]|] eqn:Hfb; [|done].
    change (manager (set_previous_usage ?u vm)) with (manager vm) in Hfb.
    change (os (set_previous_usage ?u vm)) with (os vm) in Hfb.
    pose proof Hfb as Hfb'.
    apply flush_buffers_conservation in Hfb as [Hc1 Hq1]; [|done|done|done].
    assert (Hcount : _buffers_count m1 = _buffers_count (manager vm)).
    { destruct Hc1 as [Hc1 _]. destruct Hc as [Hc _].
      revert Hfb'. unfold flush_buffers.
      destruct (flush_leased _ _ _ _ _ _ _) as [[[[[tu unc] m2] os2] x2]|] eqn:Hfll; [|done].
      apply flush_leased_moves in Hfll as (_ & _ & Hb2 & _); [|done].
      match goal with |- context [uncommit_free (_free_list ?M)] => set (m3 := M) end.
      assert (Hb3 : _buffers_count m3 = _buffers_count m2)
        by (unfold m3; by destruct (_not_finished m2)).
      clearbody m3.
      destruct (uncommit_free _ _ _ _ _) as [[unc4 m4] os4] eqn:Huf.
      assert (Hb4 : _buffers_count m4 = _buffers_count m3).
      { clear -Huf. revert Huf. generalize (_free_list m3) at 1. intros free.
        revert tu unc m3 os2. induction free as [|b free IH]; intros tu unc m3 os2; simpl.
        - case_decide; by intros [= <- <- <-].
        - case_decide; [by intros [= <- <- <-]|].
          unfold uncommit_buffer. destruct (os_uncommit_memory os2) as [[] os5].
          + intros Hu. by apply IH in Hu as ->.
          + by intros [= <- <- <-]. }
      intros [= <- <- <-]. destruct unc4; simpl; congruence. }
    destruct (_overflow _); intros Heq; injection Heq as <-; done. }
  destruct (NativeMemory_flush_keeps_flags vm vm' Hfl) as (Hu & Hi & Hcl & Hfc).
  destruct (NativeMemory_flush_clears_overflow vm vm' Hfl) as (Ho & _).
  destruct Hbc as (? & ? & ?). split_and!; done.
Qed.

(** X14.  A flush returns and keeps the account of the buffers as long as
    the walk of every leased buffer ends and [os::uncommit_memory] does
    not fail.  [NativeMemory::flush] on a pool in which every buffer is on
    one of the three lists then returns; afterwards every buffer is again
    on one of the three lists and the counter of committed buffers counts
    the free and the leased ones; no buffer is left put aside, the
    overflow flag is clear, and the switches of the subsystem are as
    before. *)
Theorem flush_keeps_pool_when_uncommit_succeeds (vm : VM) :
  conservation (manager vm) → quiescent (manager vm) →
  Forall (λ r, r = true) (uncommit_memory_results (os vm)) →
  (∀ b, b ∈ _leased_list (manager vm) → walkable (region vm) (tlb (manager vm) b)) →
  ∃ vm', NativeMemory_flush vm = Some vm'
    ∧ conservation (manager vm') ∧ quiescent (manager vm')
    ∧ _buffers_count (manager vm') = _buffers_count (manager vm)
    ∧ _overflow (memory vm') = false
    ∧ UseCRS vm' = UseCRS vm ∧ _is_init vm' = _is_init vm
    ∧ CrsClassLoadMessage_should_notify vm' = CrsClassLoadMessage_should_notify vm
    ∧ CrsFirstCallMessage_should_notify vm' = CrsFirstCallMessage_should_notify vm.
Proof.
  intros Hc Hq Hos Hwalk.
  destruct (NativeMemory_flush_returns vm Hwalk) as [vm' Hfl].
  exists vm'. split; [done|].
  by apply NativeMemory_flush_keeps_pool.
Qed.

Lemma flush_keeps_pool_when_uncommit_succeeds_witness :
  let vm := notify_thread_exit 1%nat vm_thread_1 in
  ∃ vm', NativeMemory_flush vm = Some vm'
    ∧ conservation (manager vm') ∧ quiescent (manager vm')
    ∧ _buffers_count (manager vm') = _buffers_count (manager vm)
    ∧ _overflow (memory vm') = false
    ∧ UseCRS vm' = UseCRS vm ∧ _is_init vm' = _is_init vm
    ∧ CrsClassLoadMessage_should_notify vm' = CrsClassLoadMessage_should_notify vm
    ∧ CrsFirstCallMessage_should_notify vm' = CrsFirstCallMessage_should_notify vm.
Proof.
  apply (flush_keeps_pool_when_uncommit_succeeds (notify_thread_exit 1%nat vm_thread_1)).
  - split; by vm_compute.
  - by vm_compute.
  - by vm_compute.
  - intros b Hb.
    assert (Hl : _leased_list (manager (notify_thread_exit 1%nat vm_thread_1)) = [0%nat])
      by by vm_compute.
    rewrite Hl in Hb. apply list_elem_of_singleton in Hb as ->.
    vm_compute. by eexists.
Defined.

(** X15.  The first record of a thread in a buffer carries its source.
    When posting a class-load event with a source string moves the thread
    to another buffer, the record is written at the start of that buffer in
    full form, with the source, whatever the buffer left behind held, and
    the slot of the new buffer points to the record. *)
Theorem first_record_of_a_buffer_is_full (vm : VM) (k : nat) (hash : option (list byte))
    (s : list byte) (thread : Thread) (b' : nat) :
  _overflow (memory vm) = false → is_c_string s → s ≠ [] →
  let vm' := CrsClassLoadMessage_post k hash (Some s) thread vm in
  buffer_of thread vm' = Some b' →
  buffer_of thread vm' ≠ buffer_of thread vm →
  let p := _base (tlb (manager vm') b') in
  (∃ r, region vm' !! p = Some r ∧ full_form r s)
  ∧ _reference_message (tlb (manager vm') b') = Some p.
Proof. apply CrsClassLoadMessage_post_new_buffer. Qed.

Lemma first_record_of_a_buffer_is_full_witness :
  let vm := after_events (vm_of_two 128) 1 in
  let vm' := CrsClassLoadMessage_post 2%nat None (Some source_50a) 1%nat vm in
  let p := _base (tlb (manager vm') 1%nat) in
  (∃ r, region vm' !! p = Some r ∧ full_form r source_50a)
  ∧ _reference_message (tlb (manager vm') 1%nat) = Some p.
Proof.
  apply (first_record_of_a_buffer_is_full (after_events (vm_of_two 128) 1) 2%nat None
           source_50a 1%nat 1%nat).
  - by vm_compute.
  - solve_c_string.
  - done.
  - by vm_compute.
  - by vm_compute.
Defined.

(** ** What a flush leaves alone *)

Lemma flush_leased_all_owned {X} (f : TLBClosure X) leased :
  ∀ tu unc m os x,
    _leased_list m = leased →
    (∀ b, b ∈ leased → is_Some (_owner (tlb m b))) →
    flush_leased f leased tu unc m os x
    = Some (tu, unc,
            set_not_finished (reverse leased ++ _not_finished m) (set_leased_list [] m),
            os, x).
Proof.
  induction leased as [|b leased IH]; intros tu unc m os x Hsync Hown; simpl.
  - destruct m. simpl in Hsync. by subst.
  - change (tlb (set_leased_list leased m) b) with (tlb m b).
    destruct (Hown b ltac:(by left)) as [owner ->].
    rewrite IH.
    + rewrite reverse_cons, <- app_assoc. done.
    + done.
    + intros b' Hb'. apply Hown. by right.
Qed.

Lemma uncommit_free_frame free :
  ∀ tu unc m os unc' m' os',
    uncommit_free free tu unc m os = (unc', m', os') →
    _leased_list m' = _leased_list m ∧ _not_finished m' = _not_finished m
    ∧ _bytes_used m' = _bytes_used m ∧ _buffer_size m' = _buffer_size m
    ∧ ∀ b, tlb m' b = tlb m b.
Proof.
  induction free as [|b free IH]; intros tu unc m os unc' m' os'; simpl.
  - case_decide; by intros [= <- <- <-].
  - case_decide; [by intros [= <- <- <-]|].
    unfold uncommit_buffer. destruct (os_uncommit_memory os) as [[] os1].
    + intros Hu. by apply IH in Hu as (-> & -> & -> & -> & Ht).
    + by intros [= <- <- <-].
Qed.

Lemma NativeMemory_flush_keeps_threads vm vm' :
  NativeMemory_flush vm = Some vm' → crs_thread_locals vm' = crs_thread_locals vm.
Proof.
  unfold NativeMemory_flush.
  destruct (flush_buffers _ _ _ _ _) as [[[m1 os1] agent1]|]; [|done].
  destruct (_overflow _); intros Heq; injection Heq as <-; done.
Qed.

Lemma NativeMemory_flush_held (vm : VM) :
  quiescent (manager vm) →
  (∀ b, b ∈ _leased_list (manager vm) → is_Some (_owner (tlb (manager vm) b))) →
  ∃ vm',
    NativeMemory_flush vm = Some vm'
    ∧ agent vm' = agent vm ∧ region vm' = region vm
    ∧ crs_thread_locals vm' = crs_thread_locals vm
    ∧ _leased_list (manager vm') = reverse (_leased_list (manager vm))
    ∧ quiescent (manager vm')
    ∧ _bytes_used (manager vm') = _bytes_used (manager vm)
    ∧ ∀ b, tlb (manager vm') b = tlb (manager vm) b.
Proof.
  unfold quiescent. intros Hq Hown. unfold NativeMemory_flush, flush_buffers.
  change (manager (set_previous_usage ?u vm)) with (manager vm).
  rewrite flush_leased_all_owned by done. rewrite Hq, app_nil_r.
  match goal with |- context [uncommit_free (_free_list ?M)] => set (m2 := M) end.
  assert (Hm2 : _leased_list m2 = reverse (_leased_list (manager vm)) ∧ _not_finished m2 = []
                ∧ _bytes_used m2 = _bytes_used (manager vm)
                ∧ ∀ b, tlb m2 b = tlb (manager vm) b).
  { unfold m2. simpl.
    destruct (reverse (_leased_list (manager vm))) as [|c cs] eqn:Hrev; simpl.
    - rewrite <- Hrev. apply (f_equal reverse) in Hrev. rewrite reverse_involutive in Hrev.
      rewrite Hrev. done.
    - unfold AList.add_list_seq. by rewrite app_nil_r. }
  destruct Hm2 as (Hl2 & Hnf2 & Hbu2 & Ht2). clearbody m2.
  destruct (uncommit_free _ _ _ _ _) as [[unc3 m3] os3] eqn:Huf.
  apply uncommit_free_frame in Huf as (Hl3 & Hnf3 & Hbu3 & _ & Ht3).
  assert (Hfin : ∀ m4, m4 = match unc3 with
                            | [] => m3
                            | _ :: _ => set_uncommitted_list
                                          (AList.add_list_seq unc3 (_uncommitted_list m3)) m3
                            end →
            _leased_list m4 = reverse (_leased_list (manager vm)) ∧ _not_finished m4 = []
            ∧ _bytes_used m4 = _bytes_used (manager vm)
            ∧ ∀ b, tlb m4 b = tlb (manager vm) b).
  { intros m4 ->. destruct unc3; simpl; rewrite ?Hl3, ?Hnf3, ?Hbu3; split_and!; try done;
      intros b; rewrite <- Ht2, <- Ht3; done. }
  specialize (Hfin _ eq_refl). destruct Hfin as (Hl4 & Hnf4 & Hbu4 & Ht4).
  cbv beta iota zeta.
  destruct (_overflow _); eexists; (split; [reflexivity|]); split_and!; done.
Qed.

(** X16.  A flush does not touch the buffers that threads still hold.
    When every leased buffer has an owner, [NativeMemory::flush] returns
    without an upcall: the records stay where they are, every buffer is as
    it was and is still leased (the leased list is in the reverse order),
    the threads keep their buffers, and the bytes in use are the same. *)
Theorem held_buffers_are_not_processed (vm : VM) :
  quiescent (manager vm) →
  (∀ b, b ∈ _leased_list (manager vm) → is_Some (_owner (tlb (manager vm) b))) →
  ∃ vm',
    NativeMemory_flush vm = Some vm'
    ∧ agent vm' = agent vm ∧ region vm' = region vm
    ∧ crs_thread_locals vm' = crs_thread_locals vm
    ∧ _leased_list (manager vm') = reverse (_leased_list (manager vm))
    ∧ quiescent (manager vm')
    ∧ _bytes_used (manager vm') = _bytes_used (manager vm)
    ∧ ∀ b, tlb (manager vm') b = tlb (manager vm) b.
Proof. apply NativeMemory_flush_held. Qed.

Lemma held_buffers_are_not_processed_witness :
  ∃ vm',
    NativeMemory_flush vm_thread_1 = Some vm'
    ∧ agent vm' = agent vm_thread_1 ∧ region vm' = region vm_thread_1
    ∧ crs_thread_locals vm' = crs_thread_locals vm_thread_1
    ∧ _leased_list (manager vm') = reverse (_leased_list (manager vm_thread_1))
    ∧ quiescent (manager vm')
    ∧ _bytes_used (manager vm') = _bytes_used (manager vm_thread_1)
    ∧ ∀ b, tlb (manager vm') b = tlb (manager vm_thread_1) b.
Proof.
  apply (held_buffers_are_not_processed vm_thread_1).
  - by vm_compute.
  - intros b Hb. vm_compute in Hb. apply list_elem_of_singleton in Hb as ->.
    exists 1%nat. by vm_compute.
Defined.

(** ** The events of a thread that runs *)

(** With one buffer leased, and owned by [thread], the release of the
    buffers at a safepoint does what the exit of the thread does. *)
Lemma NativeMemory_release_buffers_one vm thread b :
  _leased_list (manager vm) = [b] → _not_finished (manager vm) = [] →
  _owner (tlb (manager vm) b) = Some thread → buffer_of thread vm = Some b →
  NativeMemory_release_buffers vm = notify_thread_exit thread vm.
Proof.
  intros Hl Hnf Hown Hbuf.
  unfold NativeMemory_release_buffers, leased_buffers_do, notify_thread_exit,
    NativeMemory_release_thread_buffer.
  rewrite Hl, Hnf, Hbuf. cbn [app foldl]. unfold TLBReleaseClosure. by rewrite Hown.
Qed.

(** X17.  The events of a thread that still runs are delivered by a forced
    flush, and only by a forced one.  With the subsystem recording and no
    buffer leased, a thread posts a run of class-load and first-call
    notifications that fits one buffer, and goes on running.
    [ConnectedRuntime::flush_buffers] without [force] returns and makes no
    upcall, the thread keeping its buffer; with [force] it returns, has
    made one upcall for each notification, in order, and has taken the
    buffer from the thread. *)
Theorem running_thread_needs_forced_flush (vm : VM) (thread : Thread) (b : nat)
    (n : Notification) (evs : list Notification) :
  idle vm thread b → _is_init vm = true →
  _bytes_used (manager vm) = 0 → 0 < _buffer_size (manager vm) →
  Forall (notification_of (metaspace vm) thread) (n :: evs) →
  rooms_needed (n :: evs) ≤ _buffer_size (manager vm) →
  rooms_needed (n :: evs) < 2 ^ 16 →
  let vmf := foldl notify vm (n :: evs) in
  (∃ vm',
     ConnectedRuntime_flush_buffers false false vmf = Some vm'
     ∧ agent vm' = agent vm ∧ buffer_of thread vm' = Some b)
  ∧ (∃ vm',
       ConnectedRuntime_flush_buffers true false vmf = Some vm'
       ∧ agent vm' = agent vm ++ deliveries (metaspace vm) None (n :: evs)
       ∧ buffer_of thread vm' = None).
Proof.
  intros Hidle Hinit Hused Hbs Hwf Hroom Hsmall vmf.
  destruct (notifications_from_idle vm thread b n evs Hidle Hwf Hroom Hsmall)
    as (Hbuf & Hl & Hnf & Ha & Hms & Hown & Hi & Hu & _).
  fold vmf in Hbuf, Hl, Hnf, Ha, Hms, Hown, Hi, Hu.
  pose proof Hidle as (_ & _ & _ & _ & _ & _ & _ & _ & Hbs16).
  unfold ConnectedRuntime_flush_buffers. rewrite Hi, Hinit. cbn [negb].
  split.
  - destruct (NativeMemory_flush_held vmf) as (vm' & Hfl & Hag & _ & Hloc & _).
    + done.
    + intros b' Hb'. rewrite Hl in Hb'. apply list_elem_of_singleton in Hb' as ->.
      by rewrite Hown.
    + exists vm'. split; [done|]. split; [by rewrite Hag|].
      unfold buffer_of in *. by rewrite Hloc.
  - unfold VMThread_execute, doit_prologue, doit, release_buffers_pre, release_buffers_do.
    cbn [_op_pre _op_do _and_stop]. unfold bytes_used. rewrite Hu, Hused.
    rewrite bool_decide_eq_true_2 by (unfold uintx; rewrite Z.mod_small; lia).
    rewrite (NativeMemory_release_buffers_one vmf thread b) by done.
    destruct (flush_after_exit_delivers vm thread b (n :: evs) Hidle Hwf Hroom Hsmall)
      as (vm' & Hfl & Hag).
    fold vmf in Hfl. exists vm'. split; [done|]. split; [done|].
    apply NativeMemory_flush_keeps_threads in Hfl.
    unfold buffer_of. rewrite Hfl.
    unfold notify_thread_exit, NativeMemory_release_thread_buffer. rewrite Hbuf.
    cbn [crs_thread_locals set_thread_locals]. unfold set_buffer.
    by rewrite lookup_partial_alter_eq.
Qed.

Lemma running_thread_needs_forced_flush_witness :
  let n := ClassLoaded 1%nat None (Some source_50a) 1%nat in
  let evs := [ClassLoaded 2%nat None (Some source_50a) 1%nat;
              FirstCalled 1%nat 5%nat;
              ClassLoaded 1%nat None (Some source_50b) 1%nat] in
  let vmf := foldl notify vm_two_buffers (n :: evs) in
  (∃ vm',
     ConnectedRuntime_flush_buffers false false vmf = Some vm'
     ∧ agent vm' = agent vm_two_buffers ∧ buffer_of 1%nat vm' = Some 0%nat)
  ∧ (∃ vm',
       ConnectedRuntime_flush_buffers true false vmf = Some vm'
       ∧ agent vm' = agent vm_two_buffers
                     ++ deliveries (metaspace vm_two_buffers) None (n :: evs)
       ∧ buffer_of 1%nat vm' = None).
Proof.
  apply (running_thread_needs_forced_flush vm_two_buffers 1%nat 0%nat).
  - unfold idle. split_and!; by vm_compute.
  - by vm_compute.
  - by vm_compute.
  - by vm_compute.
  - repeat constructor; solve_c_string.
  - by vm_compute.
  - by vm_compute.
Defined.

(** ** Blown records *)

Lemma NativeMemory_alloc_keeps_region size thread vm :
  region (NativeMemory_alloc size thread vm).2 = region vm.
Proof.
  unfold NativeMemory_alloc. destruct (_overflow (memory vm)); [done|].
  destruct (ensure _ _ _ _ _) as [[new_buffer m] os1].
  case_decide; destruct new_buffer; done.
Qed.

Lemma blown_first_call_name (name sig : list byte) :
  is_c_string name → is_c_string sig →
  let n := Z.of_nat (length name) in
  let s := Z.of_nat (length sig) in
  c_str (write_at (as_C_string name (n + s + 1)) n (as_C_string sig (n + s + 1 - n)))
  = name ++ sig.
Proof.
  intros Hn Hs n s. unfold as_C_string.
  rewrite !decide_True by lia.
  rewrite (take_ge name) by lia. rewrite (take_ge sig) by lia.
  unfold write_at, n. rewrite Nat2Z.id, take_app_length.
  rewrite drop_ge by (rewrite !length_app; simpl; lia).
  rewrite app_nil_r, app_assoc. apply c_str_app_NUL. by apply is_c_string_app.
Qed.

(** The copy that [CrsFirstCallMessage::blow] makes of a first-call record
    holds the name and the signature of the method themselves. *)
Lemma CrsFirstCallMessageBlown_process_ctor ms ms' region' p method t agent :
  is_c_string (method_name (method_at ms method)) →
  is_c_string (method_signature (method_at ms method)) →
  let f := as_FirstCall (CrsFirstCallMessage_ctor ms method) in
  CrsMessage_process ms' region' p
    (CrsFirstCallMessageBlown_ctor ms (first_call_blown_size ms f) f) t agent
  = CrsMessage_process ms region' p (CrsFirstCallMessage_ctor ms method) t agent.
Proof.
  intros Hn Hs f.
  rewrite process_first_call by done.
  unfold CrsMessage_process, CrsFirstCallMessageBlown_ctor, first_call_blown_size. simpl.
  unfold CrsFirstCallMessageBlown_process. simpl.
  pose proof (blown_first_call_name _ _ Hn Hs) as Hname. cbv zeta in Hname.
  set (a := Z.of_nat (length (method_name (method_at ms method)))) in *.
  set (b := Z.of_nat (length (method_signature (method_at ms method)))) in *.
  replace (offset_of_method_name + a + b + 1 - offset_of_method_name - a)
    with (a + b + 1 - a) by lia.
  replace (offset_of_method_name + a + b + 1 - offset_of_method_name)
    with (a + b + 1) by lia.
  by rewrite Hname.
Qed.

Lemma blown_source_and_name (s kname : list byte) :
  is_c_string s → is_c_string kname →
  let arr := memcpy (strcpy s) (Z.of_nat (length s) + 1)
             ++ as_C_string kname (Z.of_nat (length kname) + 1) in
  c_str arr = s ∧ c_str (offset_ptr arr (strlen arr + 1)) = kname.
Proof.
  intros Hs Hk arr. unfold arr, strcpy.
  replace (Z.of_nat (length s) + 1) with (Z.of_nat (length (s ++ [NUL])))
    by (rewrite length_app; simpl; lia).
  rewrite memcpy_exact, as_C_string_fits, <- app_assoc. cbn [app].
  split; [by apply c_str_app_NUL|].
  rewrite offset_ptr_after_c_string by done. by apply c_str_app_NUL.
Qed.

(** X18.  The copy that [blow] makes of a class-load record tells the agent
    what the record would tell it.  For a record as [post] constructs it
    -- in full form, in reference form or without a source -- the blown
    record built from it holds the name of the class, the ids, the digest
    and the source themselves: processing it, with any metadata and any
    buffer, makes the upcall that processing the record against its buffer
    makes, the source of a record in reference form being the one that the
    slot of the buffer stands for when the record is blown. *)
Theorem blown_class_load_makes_the_same_upcall (ms ms' : Metaspace)
    (region region' : gmap Z CrsMessage) (this p size : Z) (k : nat)
    (hash source : option (list byte)) (reference : option Z) (from_tlb t : TLB)
    (agent : list Upcall) :
  is_c_string (klass_name (klass_at ms k)) →
  as_posted region from_tlb size source reference →
  let r := CrsClassLoadMessage_ctor ms size k hash source reference in
  let source_size := blown_source_size region (_size r) (as_ClassLoad r) from_tlb in
  let blown :=
    CrsClassLoadMessageBlown_ctor ms region (blown_size ms (as_ClassLoad r) source_size)
      (as_ClassLoad r) from_tlb source_size in
  CrsMessage_process ms' region' p blown t agent
  = (t, (CrsMessage_process ms region this r from_tlb agent).2).
Proof.
  intros Hk Hposted. cbv zeta.
  set (kname := klass_name (klass_at ms k)) in *.
  assert (Hlen : ∀ s, full_size s < 2 ^ 16 →
            uintx (full_size s - offset_of_source) = Z.of_nat (length s) + 1).
  { intros s Hsmall. unfold uintx, full_size, offset_of_source in *.
    rewrite Z.mod_small; lia. }
  assert (Hname : ∀ n, offset_of_source_and_name + n + Z.of_nat (length kname) + 1
                       - (offset_of_source_and_name + n) = Z.of_nat (length kname) + 1)
    by (intros; lia).
  unfold CrsMessage_process, CrsClassLoadMessageBlown_ctor, CrsClassLoadMessage_ctor,
    CrsClassLoadMessage_process, CrsClassLoadMessageBlown_process, blown_source_size,
    blown_size, class_load_at, TLB_reference_message.
  destruct reference as [a0|]; [|destruct source as [s|]]; simpl in Hposted.
  - destruct Hposted as (s & Hs & a & ra & Hslot & Hra & Hsrc & Hsize & Hsmall).
    destruct (blown_source_and_name s kname Hs Hk) as [Hsource Hkname].
    destruct hash as [h|]; cbn -[memcpy as_C_string uintx hash_argument klass_at];
      rewrite Hslot, Hra, Hsrc, Hsize; fold kname;
      rewrite Hlen, Hname by done; cbn -[memcpy as_C_string uintx hash_argument klass_at];
      rewrite Hsource, Hkname, c_str_strcpy by done; unfold hash_argument;
      rewrite ?memcpy_memcpy by (unfold DL_SHA256; lia); done.
  - destruct Hposted as (Hs & -> & Hsmall).
    destruct (blown_source_and_name s kname Hs Hk) as [Hsource Hkname].
    assert (Hu2 : u2 (full_size s) = full_size s).
    { unfold u2, full_size, offset_of_source in *. rewrite Z.mod_small; lia. }
    destruct hash as [h|]; cbn -[memcpy as_C_string uintx hash_argument klass_at];
      fold kname; rewrite Hu2, Hlen, Hname by done;
      cbn -[memcpy as_C_string uintx hash_argument klass_at];
      rewrite Hsource, Hkname, c_str_strcpy by done; unfold hash_argument;
      rewrite ?memcpy_memcpy by (unfold DL_SHA256; lia); done.
  - destruct hash as [h|]; cbn -[memcpy as_C_string uintx hash_argument klass_at];
      fold kname; rewrite Hname, memcpy_0, as_C_string_fits;
      cbn -[memcpy as_C_string uintx hash_argument klass_at];
      rewrite c_str_app_NUL by done; unfold hash_argument;
      rewrite ?memcpy_memcpy by (unfold DL_SHA256; lia); done.
Qed.

Lemma blown_class_load_makes_the_same_upcall_witness :
  let ms := metaspace_AB in
  let r := CrsClassLoadMessage_ctor ms (full_size source_50a) 1%nat None (Some source_50a)
             None in
  let source_size := blown_source_size ∅ (_size r) (as_ClassLoad r) TLB_new in
  let blown :=
    CrsClassLoadMessageBlown_ctor ms ∅ (blown_size ms (as_ClassLoad r) source_size)
      (as_ClassLoad r) TLB_new source_size in
  CrsMessage_process no_metaspace ∅ 200 blown TLB_new []
  = (TLB_new, (CrsMessage_process ms ∅ 24 r TLB_new []).2).
Proof.
  apply (blown_class_load_makes_the_same_upcall metaspace_AB no_metaspace ∅ ∅ 24 200
           (full_size source_50a) 1%nat None (Some source_50a) None TLB_new TLB_new []).
  - solve_c_string.
  - split; [solve_c_string|]. split; [done|by vm_compute].
Defined.

(** X19.  The copy that [blow] makes of a first-call record tells the agent
    what the record would tell it.  The blown record built from a record
    that [post] constructed holds the id of the holder and the name and
    the signature of the method themselves: processing it, with any
    metadata, makes the upcall that processing the record makes while the
    method is there. *)
Theorem blown_first_call_makes_the_same_upcall (ms ms' : Metaspace)
    (region' : gmap Z CrsMessage) (p : Z) (method : nat) (t : TLB) (agent : list Upcall) :
  is_c_string (method_name (method_at ms method)) →
  is_c_string (method_signature (method_at ms method)) →
  let f := as_FirstCall (CrsFirstCallMessage_ctor ms method) in
  CrsMessage_process ms' region' p
    (CrsFirstCallMessageBlown_ctor ms (first_call_blown_size ms f) f) t agent
  = CrsMessage_process ms region' p (CrsFirstCallMessage_ctor ms method) t agent.
Proof. apply CrsFirstCallMessageBlown_process_ctor. Qed.

Lemma blown_first_call_makes_the_same_upcall_witness :
  let ms := metaspace_AB in
  let f := as_FirstCall (CrsFirstCallMessage_ctor ms 5%nat) in
  CrsMessage_process no_metaspace ∅ 200
    (CrsFirstCallMessageBlown_ctor ms (first_call_blown_size ms f) f) TLB_new []
  = CrsMessage_process ms ∅ 200 (CrsFirstCallMessage_ctor ms 5%nat) TLB_new [].
Proof.
  apply (blown_first_call_makes_the_same_upcall metaspace_AB no_metaspace ∅ 200 5%nat
           TLB_new []).
  - solve_c_string.
  - solve_c_string.
Defined.

(** ** The forced flush that stops the recording *)

(** X20.  A forced flush with [and_stop] ends the recording.  When the
    subsystem is initialised, bytes are in use and the walk of every
    leased buffer ends, the operation that releases the buffers at the
    safepoint also clears the switches of both kinds of event, so that
    they are off before any thread runs again; the flush that follows
    returns and leaves no buffer leased; and after it no notification of a
    class load or of a first call changes anything, as long as the
    switches are left alone. *)
Theorem forced_flush_with_stop_ends_recording (vm : VM) :
  _is_init vm = true →
  bytes_used (manager vm) > 0 →
  quiescent (manager vm) →
  (∀ b, b ∈ _leased_list (manager vm) → walkable (region vm) (tlb (manager vm) b)) →
  let vm_op := VMThread_execute (release_buffers_op true) vm in
  production_off vm_op
  ∧ (∀ b, b ∈ _leased_list (manager vm_op) → _owner (tlb (manager vm_op) b) = None)
  ∧ ∃ vm', ConnectedRuntime_flush_buffers true true vm = Some vm'
      ∧ _leased_list (manager vm') = []
      ∧ production_off vm'
      ∧ (∀ l, foldl notify vm' l = vm').
Proof.
  intros Hinit Hused Hq Hwalk.
  destruct (forced_flush_stops_production vm Hinit Hused Hq Hwalk)
    as (Hoff & Hown & vm' & Hfl & Hl & Hoff' & Hnotify & _).
  split; [done|]. split; [done|]. by exists vm'.
Qed.

Lemma forced_flush_with_stop_ends_recording_witness :
  let vm_op := VMThread_execute (release_buffers_op true) vm_thread_1 in
  production_off vm_op
  ∧ (∀ b, b ∈ _leased_list (manager vm_op) → _owner (tlb (manager vm_op) b) = None)
  ∧ ∃ vm', ConnectedRuntime_flush_buffers true true vm_thread_1 = Some vm'
      ∧ _leased_list (manager vm') = []
      ∧ production_off vm'
      ∧ (∀ l, foldl notify vm' l = vm').
Proof.
  apply (forced_flush_with_stop_ends_recording vm_thread_1).
  - by vm_compute.
  - by vm_compute.
  - by vm_compute.
  - intros b Hb.
    assert (Hl : _leased_list (manager vm_thread_1) = [0%nat]) by by vm_compute.
    rewrite Hl in Hb. apply list_elem_of_singleton in Hb as ->.
    vm_compute. by eexists.
Defined.

(** ** Eviction: the chain of records of a buffer *)

Lemma chain_bounds region p f l :
  chain region p f l →
  p ≤ f ∧ ∀ a msg, (a, msg) ∈ l → p ≤ a < f ∧ region !! a = Some msg ∧ 0 < walk_step msg.
Proof.
  induction 1 as [p|p f msg l Hp Hstep Hch [Hle IH]].
  - split; [lia|]. intros a msg Hin. by apply elem_of_nil in Hin.
  - split; [lia|]. intros a m Hin. apply elem_of_cons in Hin as [[= -> ->]|Hin].
    + split; [lia|done].
    + destruct (IH a m Hin) as (? & ? & ?). split; [lia|done].
Qed.

Lemma chain_length region p f l : chain region p f l → Z.of_nat (length l) ≤ f - p.
Proof.
  induction 1 as [p|p f msg l Hp Hstep Hch IH]; simpl; lia.
Qed.

Lemma chain_transfer (P P' : Z → CrsMessage → Prop) region region' p f l :
  chain region p f l →
  Forall (λ '(a, msg), P a msg) l →
  (∀ a msg, (a, msg) ∈ l → P a msg →
     ∃ msg', region' !! a = Some msg' ∧ walk_step msg' = walk_step msg ∧ P' a msg') →
  ∃ l', chain region' p f l' ∧ Forall (λ '(a, msg), P' a msg) l' ∧ l'.*1 = l.*1.
Proof.
  induction 1 as [p|p f msg l Hp Hstep Hch IH]; intros HP Htr.
  - exists []. split; [constructor|]. split; [constructor|done].
  - apply Forall_cons in HP as [HP0 HP].
    destruct (Htr p msg ltac:(by left) HP0) as (msg' & Hp' & Hs' & HP').
    destruct IH as (l' & Hch' & HP'' & Hfst); [done|intros; apply Htr; [by right|done]|].
    exists ((p, msg') :: l'). split; [|split].
    + constructor; [done|lia|by rewrite Hs'].
    + by constructor.
    + rewrite !fmap_cons, Hfst. done.
Qed.

Lemma chain_snoc region p f l msg :
  chain region p f l → region !! f = Some msg → 0 < walk_step msg →
  chain region p (f + walk_step msg) (l ++ [(f, msg)]).
Proof.
  induction 1 as [p|p f msg0 l Hp Hstep Hch IH]; intros Hf Hs; simpl.
  - constructor; [done|done|constructor].
  - constructor; [done|done|by apply IH].
Qed.

(** Buffers with different indices do not overlap. *)
Lemma buffers_apart (b b' : nat) (bs a a' : Z) :
  0 < bs → b ≠ b' →
  Z.of_nat b * bs ≤ a < Z.of_nat b * bs + bs →
  Z.of_nat b' * bs ≤ a' < Z.of_nat b' * bs + bs →
  a ≠ a'.
Proof.
  intros Hbs Hne Ha Ha' ->.
  destruct (decide (b < b')%nat).
  - assert ((Z.of_nat b + 1) * bs ≤ Z.of_nat b' * bs) by (apply Z.mul_le_mono_nonneg_r; lia).
    lia.
  - assert ((Z.of_nat b' + 1) * bs ≤ Z.of_nat b * bs) by (apply Z.mul_le_mono_nonneg_r; lia).
    lia.
Qed.

(** ** Eviction: what a lease moves *)

Lemma lease_buffer_geometry thread m os r m1 os1 :
  lease_buffer thread m os = (r, m1, os1) →
  _buffer_size m1 = _buffer_size m ∧ _not_finished m1 = _not_finished m
  ∧ all_buffers m1 ≡ₚ all_buffers m
  ∧ match r with
    | None => _leased_list m1 = _leased_list m ∧ ∀ b, tlb m1 b = tlb m b
    | Some b' =>
        b' ∈ _free_list m ++ _uncommitted_list m
        ∧ _leased_list m1 = b' :: _leased_list m
        ∧ tlb m1 b' = TLB_lease thread (tlb m b')
        ∧ ∀ b, b ≠ b' → tlb m1 b = tlb m b
    end.
Proof.
  unfold lease_buffer, all_buffers.
  destruct (_free_list m) as [|f free] eqn:Hfree; simpl.
  - destruct (_uncommitted_list m) as [|u unc] eqn:Hunc; simpl.
    + intros [= <- <- <-]. rewrite Hfree, Hunc. done.
    + destruct (os_commit_memory os) as [[] os2]; intros [= <- <- <-]; simpl.
      * split; [done|]. split; [done|]. split.
        { rewrite Hfree. simpl. by rewrite <- Permutation_middle. }
        split; [set_solver|]. split; [done|].
        split; [by rewrite tlb_lease_to_eq|]. intros b Hb. by rewrite tlb_lease_to_ne.
      * rewrite Hfree. done.
  - intros [= <- <- <-]. simpl. split; [done|]. split; [done|]. split.
    { unfold AList.add_seq.
      rewrite (app_assoc (_uncommitted_list m)), (app_assoc free).
      rewrite <- Permutation_middle. by rewrite <- !app_assoc. }
    split; [set_solver|]. split; [done|].
    split; [by rewrite tlb_lease_to_eq|]. intros b Hb. by rewrite tlb_lease_to_ne.
Qed.

(** ** Eviction: what an allocation by the VM thread does *)

Lemma same_buffer_refl t : same_buffer t t.
Proof. done. Qed.

Lemma manager_set_manager m vm : manager (set_manager m vm) = m.
Proof. done. Qed.

Lemma remaining_space_in_bounds m b :
  0 ≤ _pos (tlb m b) ≤ _buffer_size m → _buffer_size m ≤ 2 ^ 16 →
  remaining_space m b = _buffer_size m - _pos (tlb m b).
Proof.
  intros Hpos Hbs. unfold remaining_space, uintx. apply Z.mod_small. lia.
Qed.

Lemma align_up_fits (size pos bs : Z) :
  (TLBManager_align | pos) → (TLBManager_align | bs) → size ≤ bs - pos →
  pos + align_up size TLBManager_align ≤ bs.
Proof.
  intros Hp Hb Hs.
  assert (align_up size TLBManager_align ≤ bs - pos); [|lia].
  apply align_up_le_multiple; [done| |done]. by apply Z.divide_sub_r.
Qed.

(** The three outcomes of an allocation of [size] bytes by the VM thread:
    nothing is written; the room is found in the buffer of the thread; or
    a buffer is leased for it. *)
Lemma NativeMemory_alloc_cases size vt vm r vm1 :
  pool_geometry vm vt →
  (∀ b, b ∈ in_use (manager vm) →
        0 ≤ _pos (tlb (manager vm) b) ≤ _buffer_size (manager vm)
        ∧ (TLBManager_align | _pos (tlb (manager vm) b))) →
  0 < size ≤ _buffer_size (manager vm) →
  NativeMemory_alloc size vt vm = (r, vm1) →
  region vm1 = region vm ∧ metaspace vm1 = metaspace vm ∧ UseCRS vm1 = UseCRS vm
  ∧ _buffer_size (manager vm1) = _buffer_size (manager vm)
  ∧ _not_finished (manager vm1) = _not_finished (manager vm)
  ∧ pool_geometry vm1 vt
  ∧ ((r = None
      ∧ _leased_list (manager vm1) = _leased_list (manager vm)
      ∧ ∀ b, same_buffer (tlb (manager vm) b) (tlb (manager vm1) b))
     ∨ (∃ bw,
          bw ∈ in_use (manager vm)
          ∧ r = Some (_base (tlb (manager vm) bw) + _pos (tlb (manager vm) bw))
          ∧ _leased_list (manager vm1) = _leased_list (manager vm)
          ∧ _base (tlb (manager vm1) bw) = _base (tlb (manager vm) bw)
          ∧ _pos (tlb (manager vm1) bw)
            = _pos (tlb (manager vm) bw) + align_up size TLBManager_align
          ∧ _pos (tlb (manager vm1) bw) ≤ _buffer_size (manager vm)
          ∧ _reference_message (tlb (manager vm1) bw)
            = _reference_message (tlb (manager vm) bw)
          ∧ ∀ b, b ≠ bw → same_buffer (tlb (manager vm) b) (tlb (manager vm1) b))
     ∨ (∃ bw,
          bw ∉ in_use (manager vm)
          ∧ r = Some (_base (tlb (manager vm1) bw))
          ∧ _leased_list (manager vm1) = bw :: _leased_list (manager vm)
          ∧ _pos (tlb (manager vm1) bw) = align_up size TLBManager_align
          ∧ _pos (tlb (manager vm1) bw) ≤ _buffer_size (manager vm)
          ∧ _reference_message (tlb (manager vm1) bw) = None
          ∧ ∀ b, b ≠ bw → same_buffer (tlb (manager vm) b) (tlb (manager vm1) b))).
Proof.
  intros (Hbs & Hal & Hnd & Hbase & Hvt) Hpos Hsize.
  set (m := manager vm) in *. set (bs := _buffer_size m) in *.
  (* the path through a lease *)
  assert (Hlease : ∀ m0 os0 nb m1 os1,
    _free_list m0 = _free_list m → _uncommitted_list m0 = _uncommitted_list m →
    _leased_list m0 = _leased_list m → _not_finished m0 = _not_finished m →
    _buffer_size m0 = bs →
    (∀ b, same_buffer (tlb m b) (tlb m0 b)) →
    lease_buffer vt m0 os0 = (nb, m1, os1) →
    ∀ vm0, manager vm0 = m1 → region vm0 = region vm → metaspace vm0 = metaspace vm →
           UseCRS vm0 = UseCRS vm → buffer_of vt vm0 = nb →
    match nb with
    | Some _ =>
        let '(p, m2) := TLBManager_alloc nb size m1 in
        ∀ vm1, vm1 = set_manager m2 vm0 → r = p →
          region vm1 = region vm ∧ metaspace vm1 = metaspace vm ∧ UseCRS vm1 = UseCRS vm
          ∧ _buffer_size (manager vm1) = bs
          ∧ _not_finished (manager vm1) = _not_finished m
          ∧ pool_geometry vm1 vt
          ∧ ∃ bw,
              bw ∉ in_use m
              ∧ r = Some (_base (tlb (manager vm1) bw))
              ∧ _leased_list (manager vm1) = bw :: _leased_list m
              ∧ _pos (tlb (manager vm1) bw) = align_up size TLBManager_align
              ∧ _pos (tlb (manager vm1) bw) ≤ bs
              ∧ _reference_message (tlb (manager vm1) bw) = None
              ∧ ∀ b, b ≠ bw → same_buffer (tlb m b) (tlb (manager vm1) b)
    | None =>
        ∀ vm1, vm1 = set_overflow true vm0 →
          region vm1 = region vm ∧ metaspace vm1 = metaspace vm ∧ UseCRS vm1 = UseCRS vm
          ∧ _buffer_size (manager vm1) = bs
          ∧ _not_finished (manager vm1) = _not_finished m
          ∧ pool_geometry vm1 vt
          ∧ _leased_list (manager vm1) = _leased_list m
          ∧ ∀ b, same_buffer (tlb m b) (tlb (manager vm1) b)
    end).
  { intros m0 os0 nb m1 os1 Hf0 Hu0 Hl0 Hn0 Hb0 Hsame Hl vm0 Hm0 Hr0 Hms0 Hu Hbuf.
    apply lease_buffer_geometry in Hl as (Hbs1 & Hnf1 & Hperm & Hres).
    assert (Hall0 : all_buffers m0 = all_buffers m)
      by (unfold all_buffers; by rewrite Hf0, Hu0, Hl0, Hn0).
    rewrite Hall0 in Hperm.
    destruct nb as [b'|].
    - destruct Hres as (Hin & Hleased & Ht' & Hothers).
      rewrite Hf0, Hu0 in Hin.
      assert (Hfresh : b' ∉ in_use m).
      { unfold all_buffers in Hnd. rewrite app_assoc in Hnd.
        apply NoDup_app in Hnd as (_ & Hdisj & _). by apply Hdisj. }
      unfold TLBManager_alloc, TLB_alloc. intros vm1' -> ->.
      rewrite !manager_set_manager, Ht'.
      cbn [TLB_lease _base _pos _reference_message _owner].
      assert (Hau : uintx (0 + align_up size TLBManager_align)
                    = align_up size TLBManager_align ∧ align_up size TLBManager_align ≤ bs).
      { pose proof (align_up_ge size TLBManager_align ltac:(done)).
        pose proof (align_up_le_multiple size TLBManager_align bs ltac:(done) Hal
                      ltac:(lia)).
        split; [|done]. unfold uintx. rewrite Z.add_0_l. apply Z.mod_small. lia. }
      destruct Hau as [-> Hale].
      set (t2 := mkTLB (align_up size TLBManager_align) (_base (tlb m0 b')) (Some vt) None).
      assert (Ht2 : ∀ b, _base (tlb (set_tlb b' t2 m1) b) = _base (tlb m b)).
      { intros b. destruct (decide (b = b')) as [->|Hne].
        - rewrite tlb_set_tlb_eq. simpl. by destruct (Hsame b') as (-> & _).
        - rewrite tlb_set_tlb_ne by done. rewrite Hothers by done.
          by destruct (Hsame b) as (-> & _). }
      split; [done|]. split; [done|]. split; [done|].
      split; [change (_buffer_size m1 = bs); by rewrite Hbs1|].
      split; [change (_not_finished m1 = _not_finished m); by rewrite Hnf1|].
      split.
      { unfold pool_geometry. rewrite !manager_set_manager.
        change (all_buffers (set_tlb b' t2 m1)) with (all_buffers m1).
        change (_buffer_size (set_tlb b' t2 m1)) with (_buffer_size m1).
        rewrite Hbs1, Hb0.
        split; [done|]. split; [done|].
        split; [by rewrite Hperm|]. split.
        - rewrite Hperm. eapply Forall_impl; [exact Hbase|]. intros b Hb. cbv beta in Hb |- *.
          by rewrite Ht2.
        - intros b. change (buffer_of vt (set_manager ?x vm0)) with (buffer_of vt vm0).
          rewrite Hbuf. intros [= <-]. unfold in_use.
          change (_leased_list (set_tlb b' t2 m1)) with (_leased_list m1).
          rewrite Hleased. set_solver. }
      exists b'. rewrite tlb_set_tlb_eq. cbn [t2 _base _pos _reference_message].
      split; [done|]. split; [by rewrite Z.add_0_r|].
      split; [change (_leased_list m1 = b' :: _leased_list m); by rewrite Hleased, Hl0|].
      split; [done|]. split; [done|]. split; [done|].
      intros b Hb. rewrite tlb_set_tlb_ne by done. rewrite Hothers by done. apply Hsame.
    - destruct Hres as (Hleased & Hsame1). intros vm1' ->.
      split; [done|]. split; [done|]. split; [done|].
      change (manager (set_overflow true vm0)) with (manager vm0). rewrite Hm0.
      split; [by rewrite Hbs1|]. split; [by rewrite Hnf1|]. split.
      { unfold pool_geometry. change (manager (set_overflow true vm0)) with (manager vm0).
        rewrite Hm0. split; [by rewrite Hbs1, Hb0|]. split; [by rewrite Hbs1, Hb0|].
        split; [by rewrite Hperm|]. split.
        - rewrite Hperm. eapply Forall_impl; [exact Hbase|]. intros b Hb. cbv beta in Hb |- *.
          rewrite Hbs1, Hb0, <- Hb, Hsame1. by destruct (Hsame b) as (-> & _).
        - intros b. change (buffer_of vt (set_overflow true vm0)) with (buffer_of vt vm0).
          by rewrite Hbuf. }
      split; [by rewrite Hleased|]. intros b. rewrite Hsame1. apply Hsame. }
  assert (Hgeo : pool_geometry vm vt) by done.
  intros Halloc. unfold NativeMemory_alloc in Halloc.
  destruct (_overflow (memory vm)) eqn:Hov.
  { injection Halloc as <- <-. do 5 (split; [done|]). split; [done|]. left. done. }
  fold m in Halloc.
  destruct (buffer_of vt vm) as [bv|] eqn:Hbuf.
  - assert (Hbv : bv ∈ in_use m) by by apply Hvt.
    destruct (Hpos bv Hbv) as [Hposbv Halbv].
    unfold ensure in Halloc.
    destruct (decide (remaining_space m bv >= size)) as [Hroom|Hroom].
    + rewrite remaining_space_in_bounds in Hroom by (fold bs; lia).
      cbv beta iota zeta in Halloc.
      rewrite decide_False in Halloc by (intros Hx; by apply Hx).
      unfold TLBManager_alloc, TLB_alloc in Halloc.
      unfold m in Halloc. rewrite set_manager_id, set_os_id in Halloc. fold m in Halloc.
      pose proof (align_up_fits size (_pos (tlb m bv)) bs Halbv Hal ltac:(fold bs in Hroom; lia))
        as Hfit.
      pose proof (align_up_ge size TLBManager_align ltac:(done)) as Hge.
      assert (Hu : uintx (_pos (tlb m bv) + align_up size TLBManager_align)
                   = _pos (tlb m bv) + align_up size TLBManager_align)
        by (unfold uintx; apply Z.mod_small; lia).
      rewrite Hu in Halloc. injection Halloc as <- <-.
      rewrite !manager_set_manager. fold m.
      set (t2 := mkTLB _ _ _ _).
      split; [done|]. split; [done|]. split; [done|]. split; [done|]. split; [done|].
      split.
      { unfold pool_geometry. rewrite !manager_set_manager.
        change (all_buffers (set_tlb bv t2 m)) with (all_buffers m).
        change (_buffer_size (set_tlb bv t2 m)) with bs.
        split; [done|]. split; [done|]. split; [done|]. split.
        - eapply Forall_impl; [exact Hbase|]. intros b Hb. cbv beta in Hb |- *.
          destruct (decide (b = bv)) as [->|Hne];
            [by rewrite tlb_set_tlb_eq|by rewrite tlb_set_tlb_ne].
        - intros b. change (buffer_of vt (set_manager ?x vm)) with (buffer_of vt vm).
          rewrite Hbuf. by intros [= <-]. }
      right. left. exists bv. rewrite tlb_set_tlb_eq.
      split; [done|]. split; [done|]. split; [done|]. split; [done|]. split; [done|].
      split; [done|]. split; [done|].
      intros b Hb. by rewrite tlb_set_tlb_ne.
    + destruct (lease_buffer vt (set_tlb bv (TLB_release (tlb m bv)) m) (os vm))
        as [[nb m1] os1] eqn:Hl.
      assert (Hnb : nb ≠ Some bv).
      { intros ->. apply lease_buffer_geometry in Hl as (_ & _ & _ & Hin & _).
        change (bv ∈ _free_list m ++ _uncommitted_list m) in Hin.
        unfold all_buffers in Hnd. rewrite app_assoc in Hnd.
        apply NoDup_app in Hnd as (_ & Hdisj & _). by apply (Hdisj bv). }
      cbv beta iota zeta in Halloc.
      rewrite decide_True in Halloc by done.
      set (vm0 := set_thread_locals _ _) in Halloc.
      assert (Hrel : ∀ b, same_buffer (tlb m b)
                            (tlb (set_tlb bv (TLB_release (tlb m bv)) m) b)).
      { intros b. destruct (decide (b = bv)) as [->|Hne];
          [by rewrite tlb_set_tlb_eq|by rewrite tlb_set_tlb_ne]. }
      specialize (Hlease (set_tlb bv (TLB_release (tlb m bv)) m) _ _ _ _
                    eq_refl eq_refl eq_refl eq_refl eq_refl Hrel
                    Hl vm0 eq_refl eq_refl eq_refl eq_refl
                    ltac:(unfold vm0, buffer_of, set_buffer; simpl;
                          by rewrite lookup_partial_alter_eq)).
      destruct nb as [b'|].
      * change (manager vm0) with m1 in Halloc.
        destruct (TLBManager_alloc (Some b') size m1) as [p m2].
        injection Halloc as <- <-.
        destruct (Hlease _ eq_refl eq_refl) as (? & ? & ? & ? & ? & ? & Hcase).
        do 5 (split; [done|]). split; [done|]. right. right. done.
      * injection Halloc as <- <-.
        destruct (Hlease _ eq_refl) as (? & ? & ? & ? & ? & ? & ? & ?).
        do 5 (split; [done|]). split; [done|]. left. done.
  - unfold ensure in Halloc.
    destruct (lease_buffer vt m (os vm)) as [[nb m1] os1] eqn:Hl.
    cbv beta iota zeta in Halloc.
    destruct nb as [b'|].
    + rewrite decide_True in Halloc by done.
      set (vm0 := set_thread_locals _ _) in Halloc.
      specialize (Hlease m _ _ _ _ eq_refl eq_refl eq_refl eq_refl eq_refl
                    ltac:(done) Hl vm0 eq_refl eq_refl eq_refl eq_refl
                    ltac:(unfold vm0, buffer_of, set_buffer; simpl;
                          by rewrite lookup_partial_alter_eq)).
      change (manager vm0) with m1 in Halloc.
      destruct (TLBManager_alloc (Some b') size m1) as [p m2].
      injection Halloc as <- <-.
      destruct (Hlease _ eq_refl eq_refl) as (? & ? & ? & ? & ? & ? & Hcase).
      do 5 (split; [done|]). split; [done|]. right. right. done.
    + rewrite decide_False in Halloc by (intros Hx; by apply Hx).
      set (vm0 := set_os _ _) in Halloc.
      specialize (Hlease m _ _ _ _ eq_refl eq_refl eq_refl eq_refl eq_refl
                    ltac:(done) Hl vm0 eq_refl eq_refl eq_refl eq_refl Hbuf).
      injection Halloc as <- <-.
      destruct (Hlease _ eq_refl) as (? & ? & ? & ? & ? & ? & ? & ?).
      do 5 (split; [done|]). split; [done|]. left. done.
Qed.

(** ** Eviction: the records of a buffer after a write elsewhere *)

Lemma blown_size_of_stable vm vm2 b msg :
  metaspace vm2 = metaspace vm →
  _reference_message (tlb (manager vm2) b) = _reference_message (tlb (manager vm) b) →
  (∀ ref, _reference_message (tlb (manager vm) b) = Some ref →
          (_size <$> region vm2 !! ref) = (_size <$> region vm !! ref)) →
  blown_size_of vm2 b msg = blown_size_of vm b msg.
Proof.
  intros Hms Hslot Hsize. unfold blown_size_of. rewrite Hms.
  destruct (_type msg); try done.
  f_equal. unfold blown_source_size, TLB_reference_message. rewrite Hslot.
  destruct (cl_has_source _); [done|]. destruct (cl_has_same_source _); [|done].
  destruct (_reference_message (tlb (manager vm) b)) as [ref|]; [|done].
  specialize (Hsize ref eq_refl).
  destruct (region vm2 !! ref), (region vm !! ref); simpl in Hsize; congruence.
Qed.

Lemma fits_not_blowable vm b msg :
  0 < _buffer_size (manager vm) →
  _type msg ≠ CRS_MESSAGE_CLASS_LOAD → _type msg ≠ CRS_MESSAGE_FIRST_CALL →
  fits vm b msg.
Proof.
  intros Hbs H1 H2. unfold fits, blown_size_of. destruct (_type msg); try done; lia.
Qed.

(** What a write leaves of the records of a buffer: within the written
    part of the buffer every record is as it was, or is of the same size
    and of a kind that is not blown and does not pass the test. *)
Lemma records_chain_transfer vm vm2 (refers : CrsMessage → bool) (U U' : Z → Prop) b p f l :
  chain (region vm) p f l →
  Forall (λ '(a, msg), fits vm b msg ∧ (refers msg = false ∨ U a)) l →
  0 < _buffer_size (manager vm) →
  _buffer_size (manager vm2) = _buffer_size (manager vm) →
  (∀ msg, blown_size_of vm2 b msg = blown_size_of vm b msg) →
  (∀ a msg, region vm !! a = Some msg → p ≤ a < f →
     ∃ msg', region vm2 !! a = Some msg' ∧ _size msg' = _size msg
       ∧ ((msg' = msg ∧ (refers msg = false ∨ U a → refers msg = false ∨ U' a))
          ∨ (_type msg' ≠ CRS_MESSAGE_CLASS_LOAD ∧ _type msg' ≠ CRS_MESSAGE_FIRST_CALL
             ∧ refers msg' = false))) →
  ∃ l', chain (region vm2) p f l'
        ∧ Forall (λ '(a, msg), fits vm2 b msg ∧ (refers msg = false ∨ U' a)) l'
        ∧ l'.*1 = l.*1.
Proof.
  intros Hch Hall Hbs Hbs2 Hblown Hframe.
  pose proof (chain_bounds _ _ _ _ Hch) as [_ Hb].
  eapply (chain_transfer _ _ _ _ _ _ _ Hch Hall).
  intros a msg Hin [Hfit Hnr].
  destruct (Hb a msg Hin) as (Hrange & Hreg & _).
  destruct (Hframe a msg Hreg Hrange) as (msg' & Hreg' & Hsize & Hcase).
  exists msg'. split; [done|]. split; [unfold walk_step; by rewrite Hsize|].
  destruct Hcase as [[-> Hu]|(Ht1 & Ht2 & Hnr')].
  - split; [|by apply Hu]. unfold fits in *. by rewrite Hblown, Hbs2.
  - split; [|by left]. apply fits_not_blowable; [by rewrite Hbs2|done|done].
Qed.

Lemma chain_app region p f g l1 l2 :
  chain region p f l1 → chain region f g l2 → chain region p g (l1 ++ l2).
Proof.
  induction 1 as [p|p f msg l Hp Hstep Hch IH]; intros H2; simpl; [done|].
  constructor; [done|done|by apply IH].
Qed.

Lemma records_ok_after vm vm2 (refers : CrsMessage → bool) (U U' : Z → Prop) b :
  records_ok vm refers U b →
  0 < _buffer_size (manager vm) →
  _buffer_size (manager vm2) = _buffer_size (manager vm) →
  metaspace vm2 = metaspace vm →
  let t := tlb (manager vm) b in
  let t2 := tlb (manager vm2) b in
  _base t2 = _base t → _reference_message t2 = _reference_message t →
  _pos t ≤ _pos t2 ≤ _buffer_size (manager vm) → (TLBManager_align | _pos t2) →
  (∀ a, _base t ≤ a < _base t + _pos t →
        (_size <$> region vm2 !! a) = (_size <$> region vm !! a)) →
  (∀ a msg, region vm !! a = Some msg → _base t ≤ a < _base t + _pos t →
     ∃ msg', region vm2 !! a = Some msg' ∧ _size msg' = _size msg
       ∧ ((msg' = msg ∧ (refers msg = false ∨ U a → refers msg = false ∨ U' a))
          ∨ (_type msg' ≠ CRS_MESSAGE_CLASS_LOAD ∧ _type msg' ≠ CRS_MESSAGE_FIRST_CALL
             ∧ refers msg' = false))) →
  (∃ l3, chain (region vm2) (_base t + _pos t) (_base t + _pos t2) l3
         ∧ Forall (λ '(a, msg), _type msg ≠ CRS_MESSAGE_CLASS_LOAD
                                ∧ _type msg ≠ CRS_MESSAGE_FIRST_CALL
                                ∧ refers msg = false) l3) →
  records_ok vm2 refers U' b.
Proof.
  intros (Hpos & Hal & Hslot & l & Hch & Hall) Hbs Hbs2 Hms t t2 Hbase Hsl Hpos2 Hal2
    Hsizes Hframe (l3 & Hch3 & Hall3).
  fold t in Hpos, Hal, Hslot, Hch.
  assert (Hblown : ∀ msg, blown_size_of vm2 b msg = blown_size_of vm b msg).
  { intros msg. apply blown_size_of_stable; [done|done|].
    intros ref Href. apply Hsizes. by apply Hslot. }
  destruct (records_chain_transfer vm vm2 refers U U' b _ _ l Hch Hall Hbs Hbs2 Hblown Hframe)
    as (l' & Hch' & Hall' & _).
  unfold records_ok. fold t2. rewrite Hbs2, Hbase, Hsl.
  split; [lia|]. split; [done|]. split.
  { intros a Ha. specialize (Hslot a Ha). lia. }
  exists (l' ++ l3). split; [by eapply chain_app|].
  apply Forall_app. split; [done|].
  eapply Forall_impl; [exact Hall3|]. intros [a msg] (H1 & H2 & H3).
  split; [|by left]. apply fits_not_blowable; [by rewrite Hbs2|done|done].
Qed.

Lemma in_use_all m b : b ∈ in_use m → b ∈ all_buffers m.
Proof. unfold in_use, all_buffers. set_solver. Qed.

Lemma pool_geometry_set_region reg vm vt :
  pool_geometry (set_region reg vm) vt ↔ pool_geometry vm vt.
Proof. done. Qed.

(** The copy of a record is posted: the allocation by the VM thread and
    the construction of the copy where it succeeded.  The records of the
    buffers in use are as they were, the copy is one more record of the
    buffer it went to, and that buffer is in use. *)
Lemma post_effect vm vt (refers : CrsMessage → bool) (U : nat → Z → Prop) size rec r vm1 :
  pool_geometry vm vt →
  (∀ b, b ∈ in_use (manager vm) → records_ok vm refers (U b) b) →
  0 < size ≤ _buffer_size (manager vm) → size < 2 ^ 16 →
  NativeMemory_alloc size vt vm = (r, vm1) →
  _size rec = size →
  _type rec ≠ CRS_MESSAGE_CLASS_LOAD → _type rec ≠ CRS_MESSAGE_FIRST_CALL →
  refers rec = false →
  ∀ vm2,
    vm2 = match r with
          | Some p => set_region (<[p := rec]> (region vm1)) vm1
          | None => vm1
          end →
    pool_geometry vm2 vt ∧ metaspace vm2 = metaspace vm ∧ UseCRS vm2 = UseCRS vm
    ∧ _buffer_size (manager vm2) = _buffer_size (manager vm)
    ∧ (∃ new, in_use (manager vm2) = new ++ in_use (manager vm))
    ∧ (∀ b, b ∈ in_use (manager vm2) →
            records_ok vm2 refers (λ a, b ∈ in_use (manager vm) ∧ U b a) b)
    ∧ (∀ b a, b ∈ in_use (manager vm) →
              _base (tlb (manager vm) b) ≤ a
              < _base (tlb (manager vm) b) + _pos (tlb (manager vm) b) →
              region vm2 !! a = region vm !! a)
    ∧ (∀ b, b ∈ in_use (manager vm) →
            _base (tlb (manager vm2) b) = _base (tlb (manager vm) b)
            ∧ _pos (tlb (manager vm) b) ≤ _pos (tlb (manager vm2) b))
    ∧ (∀ b msg, b ∈ in_use (manager vm) → blown_size_of vm2 b msg = blown_size_of vm b msg).
Proof.
  intros Hgeo Hrec Hsize Hsmall Halloc Hrsize Ht1 Ht2 Hnr vm2 ->.
  assert (Hpos : ∀ b, b ∈ in_use (manager vm) →
            0 ≤ _pos (tlb (manager vm) b) ≤ _buffer_size (manager vm)
            ∧ (TLBManager_align | _pos (tlb (manager vm) b))).
  { intros b Hb. by destruct (Hrec b Hb) as (? & ? & _). }
  destruct (NativeMemory_alloc_cases size vt vm r vm1 Hgeo Hpos Hsize Halloc)
    as (Hreg1 & Hms1 & Hu1 & Hbs1 & Hnf1 & Hgeo1 & Hcase).
  pose proof Hgeo as (Hbs & Hal & Hnd & Hbase & Hvt).
  set (bs := _buffer_size (manager vm)) in *.
  assert (Hbase' : ∀ b, b ∈ in_use (manager vm) →
            _base (tlb (manager vm) b) = Z.of_nat b * bs).
  { intros b Hb. apply in_use_all in Hb. by apply (proj1 (Forall_forall _ _) Hbase). }
  pose proof (align_up_ge size TLBManager_align ltac:(done)) as Hge.
  assert (Hstep : walk_step rec = align_up size TLBManager_align)
    by (unfold walk_step; by rewrite Hrsize).
  (* a buffer whose extent was not written *)
  assert (Hkeep : ∀ vm2 b,
    b ∈ in_use (manager vm) →
    same_buffer (tlb (manager vm) b) (tlb (manager vm2) b) →
    _buffer_size (manager vm2) = bs → metaspace vm2 = metaspace vm →
    (∀ a, _base (tlb (manager vm) b) ≤ a
          < _base (tlb (manager vm) b) + _pos (tlb (manager vm) b) →
          region vm2 !! a = region vm !! a) →
    records_ok vm2 refers (λ a, b ∈ in_use (manager vm) ∧ U b a) b).
  { intros vm2 b Hb (Hb2 & Hp2 & Hs2) Hbs2 Hms2 Hfr.
    destruct (Hpos b Hb) as [Hposb Halb].
    apply (records_ok_after vm vm2 refers (U b) _ b (Hrec b Hb)); try done.
    - by destruct Hbs.
    - rewrite Hp2. fold bs. lia.
    - by rewrite Hp2.
    - intros a Ha. by rewrite Hfr.
    - intros a msg Hreg Ha. exists msg. rewrite Hfr by done.
      split; [done|]. split; [done|]. left. split; [done|]. intros [?|?]; [by left|by right].
    - exists []. rewrite Hp2. split; constructor. }
  destruct Hcase as [(-> & Hleased & Hsame)|[Hcase|Hcase]].
  - (* nothing is written *)
    assert (Hin : in_use (manager vm1) = in_use (manager vm))
      by (unfold in_use; by rewrite Hleased, Hnf1).
    split; [done|]. split; [done|]. split; [done|]. split; [done|].
    split; [exists []; by rewrite Hin|]. split.
    { intros b Hb. rewrite Hin in Hb. apply Hkeep; try done. intros a _. by rewrite Hreg1. }
    split; [intros b a _ _; by rewrite Hreg1|]. split.
    { intros b _. destruct (Hsame b) as (-> & -> & _). split; [done|lia]. }
    intros b msg Hb. apply blown_size_of_stable; [done|by destruct (Hsame b) as (_ & _ & ->)|].
    intros ref _. by rewrite Hreg1.
  - (* the copy goes to the buffer of the thread *)
    destruct Hcase as (bw & Hbw & -> & Hleased & Hbasew & Hposw & Hlew & Hslotw & Hothers).
    destruct (Hpos bw Hbw) as [Hposbw Halbw].
    set (p := _base (tlb (manager vm) bw) + _pos (tlb (manager vm) bw)) in *.
    assert (Hin : in_use (manager vm1) = in_use (manager vm))
      by (unfold in_use; by rewrite Hleased, Hnf1).
    assert (Hfr : ∀ b a, b ∈ in_use (manager vm) →
              _base (tlb (manager vm) b) ≤ a
              < _base (tlb (manager vm) b) + _pos (tlb (manager vm) b) →
              (<[p := rec]> (region vm1)) !! a = region vm !! a).
    { intros b a Hb Ha. rewrite lookup_insert_ne, Hreg1; [done|]. intros <-.
      destruct (decide (b = bw)) as [->|Hne]; [unfold p in Ha; lia|].
      destruct (Hpos b Hb) as [Hposb _].
      rewrite (Hbase' b Hb) in Ha. unfold p in Ha. rewrite (Hbase' bw Hbw) in Ha.
      eapply (buffers_apart b bw bs); [by destruct Hbs|done| | |reflexivity];
        [instantiate (1 := Z.of_nat bw * bs + _pos (tlb (manager vm) bw)); lia|lia]. }
    split; [by apply pool_geometry_set_region|]. split; [done|]. split; [done|]. split; [done|].
    split; [exists []; simpl; rewrite manager_set_manager || idtac; exact Hin|].
    split.
    { intros b Hb. change (in_use (manager (set_region ?x vm1))) with (in_use (manager vm1)) in Hb.
      rewrite Hin in Hb.
      destruct (decide (b = bw)) as [->|Hne].
      - apply (records_ok_after vm _ refers (U bw) _ bw (Hrec bw Hbw)); try done.
        + by destruct Hbs.
        + change (tlb (manager (set_region ?x vm1)) bw) with (tlb (manager vm1) bw).
          rewrite Hposw. fold bs. lia.
        + change (tlb (manager (set_region ?x vm1)) bw) with (tlb (manager vm1) bw).
          rewrite Hposw. apply Z.divide_add_r; [done|apply align_up_divide].
        + intros a Ha. change (region (set_region ?x vm1)) with x. by rewrite (Hfr bw).
        + intros a msg Hreg Ha. exists msg.
          change (region (set_region ?x vm1)) with x. rewrite (Hfr bw) by done.
          split; [done|]. split; [done|]. left. split; [done|].
          intros [?|?]; [by left|by right].
        + exists [(p, rec)].
          change (tlb (manager (set_region ?x vm1)) bw) with (tlb (manager vm1) bw).
          change (region (set_region ?x vm1)) with x.
          rewrite Hposw. split.
          * replace (_base (tlb (manager vm) bw)
                     + (_pos (tlb (manager vm) bw) + align_up size TLBManager_align))
              with (p + walk_step rec) by (unfold p; lia).
            constructor; [by rewrite lookup_insert_eq|lia|constructor].
          * by repeat constructor.
      - apply Hkeep; try done.
        + apply Hothers. done.
        + intros a Ha. by apply (Hfr b). }
    split; [intros b a Hb Ha; by apply (Hfr b)|]. split.
    { intros b Hb. change (tlb (manager (set_region ?x vm1)) b) with (tlb (manager vm1) b).
      destruct (decide (b = bw)) as [->|Hne].
      - rewrite Hbasew, Hposw. split; [done|lia].
      - destruct (Hothers b Hne) as (-> & -> & _). split; [done|lia]. }
    intros b msg Hb. apply blown_size_of_stable; [done| |].
    + change (tlb (manager (set_region ?x vm1)) b) with (tlb (manager vm1) b).
      destruct (decide (b = bw)) as [->|Hne]; [done|by destruct (Hothers b Hne) as (_ & _ & ->)].
    + intros ref Href. change (region (set_region ?x vm1)) with x.
      rewrite (Hfr b); [done|done|]. destruct (Hrec b Hb) as (_ & _ & Hslot & _).
      by apply Hslot.
  - (* a buffer is leased for the copy *)
    destruct Hcase as (bw & Hbw & -> & Hleased & Hposw & Hlew & Hslotw & Hothers).
    set (p := _base (tlb (manager vm1) bw)) in *.
    assert (Hin : in_use (manager vm1) = bw :: in_use (manager vm))
      by (unfold in_use; by rewrite Hleased, Hnf1).
    assert (Hp : p = Z.of_nat bw * bs).
    { destruct Hgeo1 as (_ & _ & _ & Hbase1 & _). rewrite Hbs1 in Hbase1.
      apply (proj1 (Forall_forall _ _) Hbase1). apply in_use_all. rewrite Hin. by left. }
    assert (Hfr : ∀ b a, b ∈ in_use (manager vm) →
              _base (tlb (manager vm) b) ≤ a
              < _base (tlb (manager vm) b) + _pos (tlb (manager vm) b) →
              (<[p := rec]> (region vm1)) !! a = region vm !! a).
    { intros b a Hb Ha. rewrite lookup_insert_ne, Hreg1; [done|]. intros <-.
      assert (Hne : b ≠ bw) by (intros ->; done).
      destruct (Hpos b Hb) as [Hposb _].
      rewrite (Hbase' b Hb) in Ha.
      eapply (buffers_apart b bw bs); [by destruct Hbs|done| | |reflexivity];
        [instantiate (1 := p); lia|lia]. }
    split; [by apply pool_geometry_set_region|]. split; [done|]. split; [done|]. split; [done|].
    split; [exists [bw]; exact Hin|].
    split.
    { intros b Hb. change (in_use (manager (set_region ?x vm1))) with (in_use (manager vm1)) in Hb.
      rewrite Hin in Hb. apply elem_of_cons in Hb as [->|Hb].
      - unfold records_ok.
        change (tlb (manager (set_region ?x vm1)) bw) with (tlb (manager vm1) bw).
        change (region (set_region ?x vm1)) with x.
        change (_buffer_size (manager (set_region ?x vm1))) with (_buffer_size (manager vm1)).
        rewrite Hbs1, Hposw, Hslotw. fold p. fold bs. fold bs in Hlew. rewrite Hposw in Hlew.
        split; [lia|]. split; [apply align_up_divide|]. split; [done|].
        exists [(p, rec)]. split.
        + rewrite <- Hstep. constructor; [by rewrite lookup_insert_eq|lia|constructor].
        + apply Forall_cons. split; [|constructor]. split; [|by left].
          apply fits_not_blowable; [|done|done].
          change (_buffer_size (manager (set_region ?x vm1))) with (_buffer_size (manager vm1)).
          rewrite Hbs1. by destruct Hbs.
      - assert (Hne : b ≠ bw) by (intros ->; done).
        apply Hkeep; try done.
        + apply Hothers. done.
        + intros a Ha. by apply (Hfr b). }
    split; [intros b a Hb Ha; by apply (Hfr b)|]. split.
    { intros b Hb. change (tlb (manager (set_region ?x vm1)) b) with (tlb (manager vm1) b).
      assert (Hne : b ≠ bw) by (intros ->; done).
      destruct (Hothers b Hne) as (-> & -> & _). split; [done|lia]. }
    intros b msg Hb. assert (Hne : b ≠ bw) by (intros ->; done).
    apply blown_size_of_stable; [done| |].
    + change (tlb (manager (set_region ?x vm1)) b) with (tlb (manager vm1) b).
      by destruct (Hothers b Hne) as (_ & _ & ->).
    + intros ref Href. change (region (set_region ?x vm1)) with x.
      rewrite (Hfr b); [done|done|]. destruct (Hrec b Hb) as (_ & _ & Hslot & _).
      by apply Hslot.
Qed.

(** The record at [this] is deleted: nothing but its tag changes. *)
Lemma delete_effect vm vt (refers : CrsMessage → bool) (U : nat → Z → Prop) this :
  (∀ msg, _type msg ≠ CRS_MESSAGE_CLASS_LOAD → _type msg ≠ CRS_MESSAGE_FIRST_CALL →
          refers msg = false) →
  pool_geometry vm vt →
  (∀ b, b ∈ in_use (manager vm) → records_ok vm refers (U b) b) →
  let vm3 := set_region (alter (switch_type CRS_MESSAGE_DELETED) this (region vm)) vm in
  ∀ b, b ∈ in_use (manager vm) → records_ok vm3 refers (λ a, U b a ∧ a ≠ this) b.
Proof.
  intros Hrefers Hgeo Hrec vm3 b Hb.
  pose proof Hgeo as (Hbs & _).
  destruct (Hrec b Hb) as (Hpos & Hal & _).
  assert (Hsz : ∀ a, (_size <$> region vm3 !! a) = (_size <$> region vm !! a)).
  { intros a. unfold vm3. change (region (set_region ?x vm)) with x.
    destruct (decide (a = this)) as [->|Hne].
    - rewrite lookup_alter_eq. by destruct (region vm !! this).
    - by rewrite lookup_alter_ne. }
  apply (records_ok_after vm vm3 refers (U b) _ b (Hrec b Hb)); try done.
  - by destruct Hbs.
  - change (tlb (manager vm3) b) with (tlb (manager vm) b). lia.
  - intros a msg Hreg Ha. unfold vm3. change (region (set_region ?x vm)) with x.
    destruct (decide (a = this)) as [->|Hne].
    + rewrite lookup_alter_eq, Hreg. simpl. eexists. split; [done|]. split; [done|].
      right. split; [done|]. split; [done|]. by apply Hrefers.
    + rewrite lookup_alter_ne by done. exists msg. split; [done|]. split; [done|].
      left. split; [done|]. intros [?|?]; [by left|by right].
  - exists []. split; constructor.
Qed.

Lemma blown_source_size_nonneg region size f t : 0 ≤ blown_source_size region size f t.
Proof.
  unfold blown_source_size, uintx.
  destruct (cl_has_source f); [apply Z.mod_pos_bound; lia|].
  destruct (cl_has_same_source f); [|lia].
  destruct (TLB_reference_message _ _); apply Z.mod_pos_bound; lia.
Qed.

Lemma u2_small size : 0 ≤ size < 2 ^ 16 → u2 size = size.
Proof. intros H. unfold u2. by apply Z.mod_small. Qed.

(** [blow] of a class-load record, and of a first-call record, as the
    posting of a copy followed by the deletion of the record. *)
Lemma CrsClassLoadMessage_blow_effect vm vt b this msg :
  region vm !! this = Some msg → _type msg = CRS_MESSAGE_CLASS_LOAD →
  blown_size_of vm b msg < 2 ^ 16 →
  ∃ r vm1 rec,
    NativeMemory_alloc (blown_size_of vm b msg) vt vm = (r, vm1)
    ∧ 0 < blown_size_of vm b msg
    ∧ _size rec = blown_size_of vm b msg
    ∧ _type rec = CRS_MESSAGE_CLASS_LOAD_BLOWN
    ∧ CrsClassLoadMessage_blow b this vt vm
      = let vm2 := match r with
                   | Some p => set_region (<[p := rec]> (region vm1)) vm1
                   | None => vm1
                   end in
        set_region (alter (switch_type CRS_MESSAGE_DELETED) this (region vm2)) vm2.
Proof.
  intros Hreg Htype Hsmall.
  unfold CrsClassLoadMessage_blow, CrsClassLoadMessageBlown_post. rewrite Hreg.
  assert (Hsize : blown_size_of vm b msg
                  = blown_size (metaspace vm) (as_ClassLoad msg)
                      (blown_source_size (region vm) (_size msg) (as_ClassLoad msg)
                         (tlb (manager vm) b)))
    by (unfold blown_size_of; by rewrite Htype).
  rewrite <- Hsize.
  assert (Hpos : 0 < blown_size_of vm b msg).
  { rewrite Hsize. unfold blown_size, offset_of_source_and_name.
    pose proof (blown_source_size_nonneg (region vm) (_size msg) (as_ClassLoad msg)
                  (tlb (manager vm) b)). lia. }
  destruct (NativeMemory_alloc (blown_size_of vm b msg) vt vm) as [[p|] vm1] eqn:Halloc.
  - eexists (Some p), vm1, _. split; [done|]. split; [done|].
    split; [|split; [|reflexivity]].
    + unfold CrsClassLoadMessageBlown_ctor, CrsMessage_ctor. simpl. apply u2_small. lia.
    + done.
  - exists None, vm1, (mkCrsMessage CRS_MESSAGE_CLASS_LOAD_BLOWN (blown_size_of vm b msg) NoFields).
    done.
Qed.

Lemma CrsFirstCallMessage_blow_effect vm vt b this msg :
  region vm !! this = Some msg → _type msg = CRS_MESSAGE_FIRST_CALL →
  blown_size_of vm b msg < 2 ^ 16 →
  ∃ r vm1 rec,
    NativeMemory_alloc (blown_size_of vm b msg) vt vm = (r, vm1)
    ∧ 0 < blown_size_of vm b msg
    ∧ _size rec = blown_size_of vm b msg
    ∧ _type rec = CRS_MESSAGE_FIRST_CALL_BLOWN
    ∧ CrsFirstCallMessage_blow this vt vm
      = let vm2 := match r with
                   | Some p => set_region (<[p := rec]> (region vm1)) vm1
                   | None => vm1
                   end in
        set_region (alter (switch_type CRS_MESSAGE_DELETED) this (region vm2)) vm2.
Proof.
  intros Hreg Htype Hsmall.
  unfold CrsFirstCallMessage_blow, CrsFirstCallMessageBlown_post. rewrite Hreg.
  assert (Hsize : blown_size_of vm b msg
                  = first_call_blown_size (metaspace vm) (as_FirstCall msg))
    by (unfold blown_size_of; by rewrite Htype).
  rewrite <- Hsize.
  assert (Hpos : 0 < blown_size_of vm b msg).
  { rewrite Hsize. unfold first_call_blown_size, offset_of_method_name. lia. }
  destruct (NativeMemory_alloc (blown_size_of vm b msg) vt vm) as [[p|] vm1] eqn:Halloc.
  - eexists (Some p), vm1, _. split; [done|]. split; [done|].
    split; [|split; [|reflexivity]].
    + unfold CrsFirstCallMessageBlown_ctor, CrsMessage_ctor. simpl. apply u2_small. lia.
    + done.
  - exists None, vm1, (mkCrsMessage CRS_MESSAGE_FIRST_CALL_BLOWN (blown_size_of vm b msg) NoFields).
    done.
Qed.

(** One call of [message_do] of an introspector. *)
Lemma introspect_effect vm vt (refers : CrsMessage → bool) (U : nat → Z → Prop) b this msg :
  (∀ msg, _type msg ≠ CRS_MESSAGE_CLASS_LOAD → _type msg ≠ CRS_MESSAGE_FIRST_CALL →
          refers msg = false) →
  pool_geometry vm vt →
  (∀ b, b ∈ in_use (manager vm) → records_ok vm refers (U b) b) →
  b ∈ in_use (manager vm) →
  region vm !! this = Some msg → fits vm b msg →
  let vm' := introspect refers vt b this msg vm in
  pool_geometry vm' vt ∧ metaspace vm' = metaspace vm ∧ UseCRS vm' = UseCRS vm
  ∧ _buffer_size (manager vm') = _buffer_size (manager vm)
  ∧ (∃ new, in_use (manager vm') = new ++ in_use (manager vm))
  ∧ (∀ b0, b0 ∈ in_use (manager vm') →
           records_ok vm' refers (λ a, b0 ∈ in_use (manager vm) ∧ U b0 a ∧ a ≠ this) b0)
  ∧ (∀ b0 a, b0 ∈ in_use (manager vm) →
             _base (tlb (manager vm) b0) ≤ a
             < _base (tlb (manager vm) b0) + _pos (tlb (manager vm) b0) →
             a ≠ this → region vm' !! a = region vm !! a)
  ∧ (∀ b0, b0 ∈ in_use (manager vm) →
           _base (tlb (manager vm') b0) = _base (tlb (manager vm) b0)
           ∧ _pos (tlb (manager vm) b0) ≤ _pos (tlb (manager vm') b0))
  ∧ (∀ b0 m, b0 ∈ in_use (manager vm) → blown_size_of vm' b0 m = blown_size_of vm b0 m).
Proof.
  intros Hrefers Hgeo Hrec Hb Hreg [Hfit Hsmall] vm'.
  pose proof Hgeo as (Hbs & _).
  (* the record is left alone *)
  assert (Hsame : refers msg = false ∨ vm' = vm →
    vm' = vm → refers msg = false →
    pool_geometry vm vt ∧ metaspace vm = metaspace vm ∧ UseCRS vm = UseCRS vm
    ∧ _buffer_size (manager vm) = _buffer_size (manager vm)
    ∧ (∃ new, in_use (manager vm) = new ++ in_use (manager vm))
    ∧ (∀ b0, b0 ∈ in_use (manager vm) →
             records_ok vm refers (λ a, b0 ∈ in_use (manager vm) ∧ U b0 a ∧ a ≠ this) b0)
    ∧ (∀ b0 a, b0 ∈ in_use (manager vm) →
               _base (tlb (manager vm) b0) ≤ a
               < _base (tlb (manager vm) b0) + _pos (tlb (manager vm) b0) →
               a ≠ this → region vm !! a = region vm !! a)
    ∧ (∀ b0, b0 ∈ in_use (manager vm) →
             _base (tlb (manager vm) b0) = _base (tlb (manager vm) b0)
             ∧ _pos (tlb (manager vm) b0) ≤ _pos (tlb (manager vm) b0))
    ∧ (∀ b0 m, b0 ∈ in_use (manager vm) → blown_size_of vm b0 m = blown_size_of vm b0 m)).
  { intros _ _ Hnr. split; [done|]. split; [done|]. split; [done|]. split; [done|].
    split; [by exists []|]. split.
    { intros b0 Hb0. destruct (Hrec b0 Hb0) as (Hpos & Hal & _).
      apply (records_ok_after vm vm refers (U b0) _ b0 (Hrec b0 Hb0)); try done.
      - by destruct Hbs.
      - lia.
      - intros a m Hm Ha. exists m. split; [done|]. split; [done|]. left. split; [done|].
        destruct (decide (a = this)) as [->|Hne].
        + assert (m = msg) as -> by congruence. intros _. by left.
        + intros [?|?]; [by left|by right].
      - exists []. split; constructor. }
    split; [done|]. split; [|done]. intros b0 _. split; [done|lia]. }
  unfold introspect in vm'.
  destruct (refers msg) eqn:Hnr; [|by apply Hsame; [left| |]].
  assert (Hblow : ∀ r vm1 rec,
    NativeMemory_alloc (blown_size_of vm b msg) vt vm = (r, vm1) →
    0 < blown_size_of vm b msg →
    _size rec = blown_size_of vm b msg →
    _type rec ≠ CRS_MESSAGE_CLASS_LOAD → _type rec ≠ CRS_MESSAGE_FIRST_CALL →
    vm' = (let vm2 := match r with
                      | Some p => set_region (<[p := rec]> (region vm1)) vm1
                      | None => vm1
                      end in
           set_region (alter (switch_type CRS_MESSAGE_DELETED) this (region vm2)) vm2) →
    pool_geometry vm' vt ∧ metaspace vm' = metaspace vm ∧ UseCRS vm' = UseCRS vm
    ∧ _buffer_size (manager vm') = _buffer_size (manager vm)
    ∧ (∃ new, in_use (manager vm') = new ++ in_use (manager vm))
    ∧ (∀ b0, b0 ∈ in_use (manager vm') →
             records_ok vm' refers (λ a, b0 ∈ in_use (manager vm) ∧ U b0 a ∧ a ≠ this) b0)
    ∧ (∀ b0 a, b0 ∈ in_use (manager vm) →
               _base (tlb (manager vm) b0) ≤ a
               < _base (tlb (manager vm) b0) + _pos (tlb (manager vm) b0) →
               a ≠ this → region vm' !! a = region vm !! a)
    ∧ (∀ b0, b0 ∈ in_use (manager vm) →
             _base (tlb (manager vm') b0) = _base (tlb (manager vm) b0)
             ∧ _pos (tlb (manager vm) b0) ≤ _pos (tlb (manager vm') b0))
    ∧ (∀ b0 m, b0 ∈ in_use (manager vm) → blown_size_of vm' b0 m = blown_size_of vm b0 m)).
  { intros r vm1 rec Halloc Hpos Hrsize Ht1 Ht2 Hvm'. clearbody vm'. subst vm'. cbv zeta.
    set (vm2 := match r with
                | Some p => set_region (<[p := rec]> (region vm1)) vm1
                | None => vm1
                end).
    destruct (post_effect vm vt refers U (blown_size_of vm b msg) rec r vm1 Hgeo Hrec
                ltac:(lia) Hsmall Halloc Hrsize Ht1 Ht2 (Hrefers rec Ht1 Ht2) vm2 eq_refl)
      as (Hgeo2 & Hms2 & Hu2 & Hbs2 & Hnew & Hrec2 & Hfr2 & Hext2 & Hblown2).
    pose proof (delete_effect vm2 vt refers _ this Hrefers Hgeo2 Hrec2) as Hrec3.
    cbv zeta in Hrec3.
    split; [by apply pool_geometry_set_region|]. split; [done|]. split; [done|].
    split; [done|]. split; [done|]. split.
    { intros b0 Hb0. specialize (Hrec3 b0 Hb0).
      destruct Hrec3 as (H1 & H2 & H3 & l & Hch & Hall).
      split; [done|]. split; [done|]. split; [done|]. exists l. split; [done|].
      eapply Forall_impl; [exact Hall|]. intros [a m] [Hf [Hn|[[Hi Hu] Hne]]].
      - split; [done|by left].
      - split; [done|]. by right. }
    split.
    { intros b0 a Hb0 Ha Hne. change (region (set_region ?x vm2)) with x.
      rewrite lookup_alter_ne by done. by apply (Hfr2 b0). }
    split; [done|].
    intros b0 m Hb0. rewrite <- (Hblown2 b0 m Hb0).
    apply blown_size_of_stable; [done|done|].
    intros ref _. change (region (set_region ?x vm2)) with x.
    destruct (decide (ref = this)) as [->|Hne].
    - rewrite lookup_alter_eq. by destruct (region vm2 !! this).
    - by rewrite lookup_alter_ne. }
  destruct (_type msg) eqn:Htype.
  - destruct (CrsClassLoadMessage_blow_effect vm vt b this msg Hreg Htype Hsmall)
      as (r & vm1 & rec & Halloc & Hpos & Hrsize & Hrtype & Heq).
    apply (Hblow r vm1 rec); try done; by rewrite Hrtype.
  - destruct (CrsFirstCallMessage_blow_effect vm vt b this msg Hreg Htype Hsmall)
      as (r & vm1 & rec & Halloc & Hpos & Hrsize & Hrtype & Heq).
    apply (Hblow r vm1 rec); try done; by rewrite Hrtype.
  - rewrite Hrefers in Hnr by (by rewrite Htype). done.
  - rewrite Hrefers in Hnr by (by rewrite Htype). done.
  - rewrite Hrefers in Hnr by (by rewrite Htype). done.
Qed.

(** ** Eviction: the walk of a buffer and of the buffers *)

Lemma records_ok_weaken vm (refers refers' : CrsMessage → bool) (U U' : Z → Prop) b :
  (∀ a msg, refers msg = false ∨ U a → refers' msg = false ∨ U' a) →
  records_ok vm refers U b → records_ok vm refers' U' b.
Proof.
  intros Himp (H1 & H2 & H3 & l & Hch & Hall).
  split; [done|]. split; [done|]. split; [done|]. exists l. split; [done|].
  eapply Forall_impl; [exact Hall|]. intros [a msg] [Hf Hn]. split; [done|]. by eapply Himp.
Qed.

Lemma chain_ext region region' p f l :
  chain region p f l → (∀ a msg, (a, msg) ∈ l → region' !! a = Some msg) →
  chain region' p f l.
Proof.
  induction 1 as [p|p f msg l Hp Hstep Hch IH]; intros Hext; [constructor|].
  constructor; [apply Hext; by left|done|]. apply IH. intros a m Hin. apply Hext. by right.
Qed.

Lemma walk_effect (refers : CrsMessage → bool) (message_do : nat → Z → CrsMessage → VM → VM)
    ms0 vt b l2 :
  (∀ msg, _type msg ≠ CRS_MESSAGE_CLASS_LOAD → _type msg ≠ CRS_MESSAGE_FIRST_CALL →
          refers msg = false) →
  (∀ vm b this msg, metaspace vm = ms0 →
                    message_do b this msg vm = introspect refers vt b this msg vm) →
  ∀ vm p f0 fuel (U : nat → Z → Prop),
    metaspace vm = ms0 →
    pool_geometry vm vt →
    (∀ b0, b0 ∈ in_use (manager vm) → records_ok vm refers (U b0) b0) →
    b ∈ in_use (manager vm) →
    chain (region vm) p f0 l2 → Forall (λ '(a, msg), fits vm b msg) l2 →
    _base (tlb (manager vm) b) ≤ p →
    f0 ≤ _base (tlb (manager vm) b) + _pos (tlb (manager vm) b) →
    (length l2 ≤ fuel)%nat →
    ∃ vm',
      MessageClosure_walk_vm fuel (message_do b) p f0 vm = Some vm'
      ∧ pool_geometry vm' vt ∧ metaspace vm' = ms0 ∧ UseCRS vm' = UseCRS vm
      ∧ (∃ new, in_use (manager vm') = new ++ in_use (manager vm))
      ∧ (∀ b0, b0 ∈ in_use (manager vm') →
               records_ok vm' refers
                 (λ a, b0 ∈ in_use (manager vm) ∧ U b0 a ∧ a ∉ l2.*1) b0).
Proof.
  intros Hrefers Hdo.
  induction l2 as [|[a0 msg] l IH]; intros vm p f0 fuel U Hms Hgeo Hrec Hb Hch Hfits Hlo Hhi Hfuel.
  - inversion Hch; subst. exists vm.
    destruct fuel; simpl; rewrite decide_False by lia;
      (split; [done|]); (split; [done|]); (split; [done|]); (split; [done|]);
      (split; [by exists []|]); intros b0 Hb0;
      (eapply records_ok_weaken; [|by apply Hrec]); intros a m [?|?]; [by left|right|by left|right];
      (split; [done|]); (split; [done|]); apply not_elem_of_nil.
  - inversion Hch as [|? ? ? ? Hreg Hstep Htail]; subst.
    pose proof (chain_bounds _ _ _ _ Htail) as [Hle Htb].
    apply Forall_cons in Hfits as [Hfit Hfits].
    destruct fuel as [|fuel]; [simpl in Hfuel; lia|].
    cbn [MessageClosure_walk_vm]. rewrite decide_True by lia. rewrite Hreg.
    rewrite Hdo by done.
    destruct (introspect_effect vm vt refers U b a0 msg Hrefers Hgeo Hrec Hb Hreg Hfit)
      as (Hgeo1 & Hms1 & Hu1 & Hbs1 & [new Hnew] & Hrec1 & Hfr1 & Hext1 & Hblown1).
    set (vm1 := introspect refers vt b a0 msg vm) in *.
    destruct (Hext1 b Hb) as [Hbase1 Hpos1].
    destruct (IH vm1 (a0 + walk_step msg) f0 fuel
                (λ b0 a, b0 ∈ in_use (manager vm) ∧ U b0 a ∧ a ≠ a0))
      as (vm' & Hwalk & Hgeo' & Hms' & Hu' & [new' Hnew'] & Hrec').
    + by rewrite Hms1.
    + done.
    + done.
    + rewrite Hnew. set_solver.
    + eapply chain_ext; [exact Htail|]. intros a m Hin.
      destruct (Htb a m Hin) as (Ha & Hm & _).
      rewrite (Hfr1 b a Hb); [done|lia|lia].
    + eapply Forall_impl; [exact Hfits|]. intros [a m] [H1 H2].
      unfold fits. by rewrite Hblown1, Hbs1.
    + rewrite Hbase1. lia.
    + rewrite Hbase1. lia.
    + simpl in Hfuel. lia.
    + exists vm'. split; [done|]. split; [done|]. split; [done|]. split; [congruence|].
      split; [exists (new' ++ new); by rewrite Hnew', Hnew, app_assoc|].
      intros b0 Hb0. eapply records_ok_weaken; [|by apply Hrec'].
      intros a m [?|(Hin1 & (Hin & Hu & Hne) & Hnot)]; [by left|right].
      split; [done|]. split; [done|]. rewrite fmap_cons. simpl.
      apply not_elem_of_cons. done.
Qed.

Lemma tlb_do_effect (refers : CrsMessage → bool) (message_do : nat → Z → CrsMessage → VM → VM)
    ms0 vt b vm (T : list nat) :
  (∀ msg, _type msg ≠ CRS_MESSAGE_CLASS_LOAD → _type msg ≠ CRS_MESSAGE_FIRST_CALL →
          refers msg = false) →
  (∀ vm b this msg, metaspace vm = ms0 →
                    message_do b this msg vm = introspect refers vt b this msg vm) →
  metaspace vm = ms0 →
  pool_geometry vm vt →
  (∀ b0, b0 ∈ in_use (manager vm) → records_ok vm refers (λ _, b0 ∈ b :: T) b0) →
  b ∈ in_use (manager vm) →
  ∃ vm',
    MessageClosure_tlb_do message_do b vm = Some vm'
    ∧ pool_geometry vm' vt ∧ metaspace vm' = ms0 ∧ UseCRS vm' = UseCRS vm
    ∧ (∃ new, in_use (manager vm') = new ++ in_use (manager vm))
    ∧ (∀ b0, b0 ∈ in_use (manager vm') → records_ok vm' refers (λ _, b0 ∈ T) b0).
Proof.
  intros Hrefers Hdo Hms Hgeo Hrec Hb.
  destruct (Hrec b Hb) as (Hpos & Hal & Hslot & l & Hch & Hall).
  set (U := λ (b0 : nat) (a : Z), if decide (b0 = b) then a ∈ l.*1 else b0 ∈ T).
  assert (HrecU : ∀ b0, b0 ∈ in_use (manager vm) → records_ok vm refers (U b0) b0).
  { intros b0 Hb0. unfold U. destruct (decide (b0 = b)) as [->|Hne].
    - split; [done|]. split; [done|]. split; [done|]. exists l. split; [done|].
      apply Forall_forall. intros [a m] Hin.
      pose proof (proj1 (Forall_forall _ _) Hall _ Hin) as [Hf _]. split; [done|]. right.
      apply list_elem_of_fmap. by exists (a, m).
    - eapply records_ok_weaken; [|by apply Hrec]. intros a m [?|Hin]; [by left|right].
      apply elem_of_cons in Hin as [?|?]; done. }
  destruct (walk_effect refers message_do ms0 vt b l Hrefers Hdo vm
              (_base (tlb (manager vm) b))
              (_base (tlb (manager vm) b) + _pos (tlb (manager vm) b))
              (S (Z.to_nat (_pos (tlb (manager vm) b)))) U Hms Hgeo HrecU Hb Hch)
    as (vm' & Hwalk & Hgeo' & Hms' & Hu' & Hnew & Hrec').
  - eapply Forall_impl; [exact Hall|]. by intros [a m] [? _].
  - lia.
  - lia.
  - pose proof (chain_length _ _ _ _ Hch). lia.
  - exists vm'. split; [done|]. split; [done|]. split; [done|]. split; [done|].
    split; [done|]. intros b0 Hb0. eapply records_ok_weaken; [|by apply Hrec'].
    intros a m [?|(Hin & Hu & Hnot)]; [by left|]. unfold U in Hu.
    destruct (decide (b0 = b)); [done|by right].
Qed.

Lemma buffers_do_effect (refers : CrsMessage → bool)
    (message_do : nat → Z → CrsMessage → VM → VM) ms0 vt todo :
  (∀ msg, _type msg ≠ CRS_MESSAGE_CLASS_LOAD → _type msg ≠ CRS_MESSAGE_FIRST_CALL →
          refers msg = false) →
  (∀ vm b this msg, metaspace vm = ms0 →
                    message_do b this msg vm = introspect refers vt b this msg vm) →
  ∀ vm,
    metaspace vm = ms0 →
    pool_geometry vm vt →
    (∀ b, b ∈ todo → b ∈ in_use (manager vm)) →
    (∀ b0, b0 ∈ in_use (manager vm) → records_ok vm refers (λ _, b0 ∈ todo) b0) →
    ∃ vm',
      foldl (λ r b, match r with
                    | Some vm => MessageClosure_tlb_do message_do b vm
                    | None => None
                    end) (Some vm) todo = Some vm'
      ∧ pool_geometry vm' vt ∧ metaspace vm' = ms0 ∧ UseCRS vm' = UseCRS vm
      ∧ (∀ b0, b0 ∈ in_use (manager vm') → records_ok vm' refers (λ _, False) b0).
Proof.
  intros Hrefers Hdo.
  induction todo as [|b todo IH]; intros vm Hms Hgeo Htodo Hrec.
  - exists vm. split; [done|]. split; [done|]. split; [done|]. split; [done|].
    intros b0 Hb0. eapply records_ok_weaken; [|by apply Hrec].
    intros a m [?|Hin]; [by left|]. by apply elem_of_nil in Hin.
  - destruct (tlb_do_effect refers message_do ms0 vt b vm todo Hrefers Hdo Hms Hgeo Hrec
                ltac:(apply Htodo; by left))
      as (vm1 & Hdo1 & Hgeo1 & Hms1 & Hu1 & [new Hnew] & Hrec1).
    destruct (IH vm1 Hms1 Hgeo1) as (vm' & Hfold & Hgeo' & Hms' & Hu' & Hrec').
    + intros b0 Hb0. rewrite Hnew. apply elem_of_app. right. apply Htodo. by right.
    + done.
    + exists vm'. cbn [foldl]. rewrite Hdo1. split; [done|]. split; [done|].
      split; [done|]. split; [congruence|done].
Qed.

(** ** Eviction of metadata: the theorem *)

Lemma refers_to_klass_blowable ms ik methods msg :
  _type msg ≠ CRS_MESSAGE_CLASS_LOAD → _type msg ≠ CRS_MESSAGE_FIRST_CALL →
  refers_to_klass ms ik methods msg = false.
Proof. unfold refers_to_klass. by destruct (_type msg). Qed.

Lemma refers_to_method_blowable m msg :
  _type msg ≠ CRS_MESSAGE_CLASS_LOAD → _type msg ≠ CRS_MESSAGE_FIRST_CALL →
  refers_to_method m msg = false.
Proof. unfold refers_to_method. by destruct (_type msg). Qed.

Lemma TLBKlassEvictionIntrospector_introspect ik methods vt vm b this msg :
  TLBKlassEvictionIntrospector_message_do ik methods vt b this msg vm
  = introspect (refers_to_klass (metaspace vm) ik methods) vt b this msg vm.
Proof.
  unfold TLBKlassEvictionIntrospector_message_do, introspect, refers_to_klass.
  by destruct (_type msg).
Qed.

Lemma TLBMethodEvictionIntrospector_introspect m vt vm b this msg :
  TLBMethodEvictionIntrospector_message_do m vt b this msg vm
  = introspect (refers_to_method m) vt b this msg vm.
Proof.
  unfold TLBMethodEvictionIntrospector_message_do, introspect, refers_to_method.
  by destruct (_type msg).
Qed.

Lemma evicted_evictable vm vt refers :
  pool_geometry vm vt → evicted vm refers → evictable vm vt.
Proof.
  intros Hgeo Hev. split; [done|]. eapply Forall_impl; [exact Hev|].
  intros b. apply records_ok_weaken. intros a msg _. by right.
Qed.

Lemma eviction_effect (refers : CrsMessage → bool)
    (message_do : nat → Z → CrsMessage → VM → VM) vt vm :
  (∀ msg, _type msg ≠ CRS_MESSAGE_CLASS_LOAD → _type msg ≠ CRS_MESSAGE_FIRST_CALL →
          refers msg = false) →
  (∀ vm' b this msg, metaspace vm' = metaspace vm →
                     message_do b this msg vm' = introspect refers vt b this msg vm') →
  evictable vm vt →
  ∃ vm',
    NativeMemory_buffers_do (MessageClosure_tlb_do message_do) vm = Some vm'
    ∧ evicted vm' refers ∧ evictable vm' vt
    ∧ metaspace vm' = metaspace vm ∧ UseCRS vm' = UseCRS vm.
Proof.
  intros Hrefers Hdo [Hgeo Hrec].
  destruct (buffers_do_effect refers message_do (metaspace vm) vt (in_use (manager vm))
              Hrefers Hdo vm eq_refl Hgeo ltac:(done))
    as (vm' & Hfold & Hgeo' & Hms' & Hu' & Hrec').
  - intros b0 Hb0. pose proof (proj1 (Forall_forall _ _) Hrec b0 Hb0) as Hr.
    eapply records_ok_weaken; [|exact Hr]. intros a m _. by right.
  - exists vm'. split; [done|].
    assert (Hev : evicted vm' refers) by (by apply Forall_forall).
    split; [done|]. split; [by eapply evicted_evictable|done].
Qed.

(** X21.  After the eviction of a class no record of a buffer in use
    refers to it.  In a pool as the constructor and the leases leave it,
    whose buffers in use hold chains of records with copies that would fit
    a buffer, [notify_metaspace_eviction] for a class and its methods
    returns; afterwards the walk of every buffer in use ends and meets no
    class-load record of the class and no first-call record of the class
    or of one of the methods (each was blown: copied, if a buffer had the
    room, and deleted), and metadata can be evicted again.  The same holds
    of the eviction of a method and the first-call records of the
    method. *)
Theorem eviction_leaves_no_reference (vm : VM) (vm_thread : Thread) (ik : nat)
    (methods : option MethodArray) (m : nat) :
  UseCRS vm = true → evictable vm vm_thread →
  (∃ vm',
     notify_metaspace_eviction ik methods vm_thread vm = Some vm'
     ∧ evicted vm' (refers_to_klass (metaspace vm) ik methods)
     ∧ evictable vm' vm_thread ∧ metaspace vm' = metaspace vm)
  ∧ (∃ vm',
       notify_metaspace_eviction_method m vm_thread vm = Some vm'
       ∧ evicted vm' (refers_to_method m)
       ∧ evictable vm' vm_thread ∧ metaspace vm' = metaspace vm).
Proof.
  intros Huse Hev.
  unfold notify_metaspace_eviction, notify_metaspace_eviction_method. rewrite Huse.
  cbn [negb]. split.
  - destruct (eviction_effect (refers_to_klass (metaspace vm) ik methods)
                (TLBKlassEvictionIntrospector_message_do ik methods vm_thread) vm_thread vm)
      as (vm' & Hdo & Hevd & Hev' & Hms & _).
    + apply refers_to_klass_blowable.
    + intros vm' b this msg Hms.
      by rewrite TLBKlassEvictionIntrospector_introspect, Hms.
    + done.
    + by exists vm'.
  - destruct (eviction_effect (refers_to_method m)
                (TLBMethodEvictionIntrospector_message_do m vm_thread) vm_thread vm)
      as (vm' & Hdo & Hevd & Hev' & Hms & _).
    + apply refers_to_method_blowable.
    + intros vm' b this msg _. apply TLBMethodEvictionIntrospector_introspect.
    + done.
    + by exists vm'.
Qed.

Lemma records_of_chain fuel region :
  ∀ p f l, records_of fuel region p f = Some l → chain region p f l.
Proof.
  induction fuel as [|fuel IH]; intros p f l; simpl.
  - case_decide; [|done]. intros [= <-]. subst. constructor.
  - case_decide; [intros [= <-]; subst; constructor|].
    destruct (region !! p) as [msg|] eqn:Hp; [|done].
    case_decide; [|done].
    destruct (records_of fuel region (p + walk_step msg) f) as [l'|] eqn:Hrec; [|done].
    intros [= <-]. constructor; [done|done|by apply IH].
Qed.

Lemma vm_four_events_evictable : evictable vm_four_events 0%nat.
Proof.
  assert (Hbs : _buffer_size (manager vm_four_events) = 8192) by by vm_compute.
  assert (Hall : all_buffers (manager vm_four_events) = [1; 0]%nat) by by vm_compute.
  assert (Hin : in_use (manager vm_four_events) = [0%nat]) by by vm_compute.
  assert (Hb0 : _base (tlb (manager vm_four_events) 0%nat) = 0) by by vm_compute.
  assert (Hb1 : _base (tlb (manager vm_four_events) 1%nat) = 8192) by by vm_compute.
  assert (Hp0 : _pos (tlb (manager vm_four_events) 0%nat) = 264) by by vm_compute.
  assert (Hs0 : _reference_message (tlb (manager vm_four_events) 0%nat) = Some 0)
    by by vm_compute.
  assert (Hvt : buffer_of 0%nat vm_four_events = None) by by vm_compute.
  split.
  - unfold pool_geometry. rewrite Hbs, Hall, Hvt.
    split; [lia|]. split; [by exists 1024|].
    split; [apply (bool_decide_unpack _); by vm_compute|]. split.
    + apply Forall_cons. split; [by rewrite Hb1|].
      apply Forall_cons. split; [by rewrite Hb0|constructor].
    + by intros b Hb.
  - rewrite Hin. constructor; [|constructor].
    unfold records_ok. rewrite Hbs, Hb0, Hp0, Hs0.
    split; [lia|]. split; [by exists 33|]. split.
    { intros a [= <-]. lia. }
    destruct (records_of 4 (region vm_four_events) 0 (0 + 264)) as [l|] eqn:Hl;
      [|by vm_compute in Hl].
    exists l. split; [by eapply records_of_chain|].
    vm_compute in Hl. injection Hl as <-.
    repeat (apply Forall_cons; split; [split; [split; by vm_compute|by right]|]).
    constructor.
Qed.

Lemma eviction_leaves_no_reference_witness :
  (∃ vm',
     notify_metaspace_eviction 1%nat None 0%nat vm_four_events = Some vm'
     ∧ evicted vm' (refers_to_klass (metaspace vm_four_events) 1%nat None)
     ∧ evictable vm' 0%nat ∧ metaspace vm' = metaspace vm_four_events)
  ∧ (∃ vm',
       notify_metaspace_eviction_method 5%nat 0%nat vm_four_events = Some vm'
       ∧ evicted vm' (refers_to_method 5%nat)
       ∧ evictable vm' 0%nat ∧ metaspace vm' = metaspace vm_four_events).
Proof.
  apply (eviction_leaves_no_reference vm_four_events 0%nat 1%nat None 5%nat).
  - by vm_compute.
  - exact vm_four_events_evictable.
Defined.

(** ** A record bigger than a buffer *)

(** [alloc] by a thread without a buffer: the first free buffer is leased
    whatever the size is, and the record starts at its base. *)
Lemma NativeMemory_alloc_ref_unchecked id is_reference size size_reference thread vm b :
  _overflow (memory vm) = false → buffer_of thread vm = None →
  head (_free_list (manager vm)) = Some b →
  let t := tlb (manager vm) b in
  let vm1 := leased_to vm thread b in
  NativeMemory_alloc_ref id is_reference size size_reference thread vm
  = (Some (_base t), true,
     set_manager
       (set_tlb b
          (mkTLB (uintx (0 + align_up size_reference TLBManager_align)) (_base t) (Some thread)
             (Some (_base t))) (manager vm1)) vm1).
Proof.
  intros Ho Hbuf Hfree. cbv zeta.
  unfold NativeMemory_alloc_ref. rewrite Ho, Hbuf. unfold ensure, lease_buffer.
  destruct (_free_list (manager vm)) as [|b0 free] eqn:Hfl; [done|].
  simpl in Hfree. injection Hfree as ->. cbn [AList.remove_seq]. cbv beta iota zeta.
  rewrite decide_True by done. cbv beta iota zeta.
  unfold TLBManager_alloc, TLB_alloc. cbv beta iota zeta.
  unfold leased_to. rewrite Hfl. cbn [tail].
  rewrite set_os_set_manager.
  change (manager (set_thread_locals ?l ?v)) with (manager v).
  change (manager (set_manager ?m ?v)) with m.
  rewrite tlb_lease_to_eq.
  change (tlb (set_free_list free (manager vm)) b) with (tlb (manager vm) b).
  unfold TLB_set_reference_message, TLB_lease. cbn [_pos _base _owner _reference_message].
  rewrite tlb_set_tlb_eq, set_tlb_set_tlb. cbn [_pos _base _owner _reference_message].
  rewrite Z.add_0_r. reflexivity.
Qed.

(** X22.  A record that is bigger than a buffer is written over the end
    of the buffer.  [ensure] does not look at the size when the thread has
    no buffer: a thread without a buffer that posts a class-load event
    whose full record is bigger than the buffers is leased the first free
    buffer, and the record is constructed at its start in full; the
    position of the buffer is then beyond the size of a buffer, and the
    room that [ensure] computes for the buffer has wrapped around to more
    than a buffer holds. *)
Theorem oversized_record_runs_over_the_buffer (vm : VM) (thread : Thread) (b k : nat)
    (hash : option (list byte)) (s : list byte) :
  idle vm thread b → 0 < _buffer_size (manager vm) →
  is_c_string s → s ≠ [] →
  _buffer_size (manager vm) < full_size s → full_size s < 2 ^ 16 →
  let vm' := notify_class_load k hash (Some s) thread vm in
  let t' := tlb (manager vm') b in
  buffer_of thread vm' = Some b
  ∧ _owner t' = Some thread
  ∧ _overflow (memory vm') = false
  ∧ (∃ r, region vm' !! _base t' = Some r ∧ full_form r s ∧ _size r = full_size s)
  ∧ _buffer_size (manager vm') < _pos t'
  ∧ _buffer_size (manager vm') < remaining_space (manager vm') b.
Proof.
  intros (Hu & Hc & Hf & Ho & Hbuf & Hfree & Hl & Hnf & Hbs) Hbs0 Hs Hne Hbig Hsmall.
  destruct (leased_to_state vm thread b)
    as (Ht & Hb & Hr & Hms & _ & Ho' & Hbs' & _).
  assert (Hstrlen : strlen s = Z.of_nat (length s)) by by apply strlen_c_string.
  pose proof (align_up_ge (full_size s) TLBManager_align ltac:(done)) as Hge.
  assert (Hal : align_up (full_size s) TLBManager_align < 2 ^ 17).
  { unfold align_up, TLBManager_align in *.
    pose proof (Z.div_mod (full_size s + (8 - 1)) 8 ltac:(lia)) as Hdm.
    pose proof (Z.mod_pos_bound (full_size s + (8 - 1)) 8 ltac:(lia)) as Hm.
    lia. }
  cbv zeta. unfold notify_class_load. rewrite Hu, Hc. cbn [andb].
  unfold CrsClassLoadMessage_post, NativeMemory_reference_message.
  rewrite Hbuf. destruct s as [|c0 s0]; [done|]. cbv beta iota zeta.
  rewrite Hstrlen.
  change (offset_of_source + (Z.of_nat (length (c0 :: s0)) + 1)) with (full_size (c0 :: s0)).
  rewrite (NativeMemory_alloc_ref_unchecked _ _ _ _ thread vm b) by done.
  cbv beta iota zeta.
  set (s := c0 :: s0) in *.
  set (t2 := mkTLB _ _ _ _).
  set (msg := CrsClassLoadMessage_ctor _ _ _ _ _ _).
  change (buffer_of thread (set_region ?r (set_manager ?m ?v))) with (buffer_of thread v).
  change (manager (set_region ?r (set_manager ?m ?v))) with m.
  change (memory (set_region ?r (set_manager ?m ?v)))
    with (mkNativeMemory m (_previous_usage (memory v)) (_overflow (memory v))).
  change (region (set_region ?r ?v)) with r.
  unfold remaining_space.
  rewrite tlb_set_tlb_eq. cbn [_overflow].
  change (_buffer_size (set_tlb b t2 ?m)) with (_buffer_size m).
  rewrite Hbs', Ho'.
  assert (Hpos : _pos t2 = align_up (full_size s) TLBManager_align).
  { unfold t2. cbn [_pos]. unfold uintx. rewrite Z.add_0_l, Z.mod_small; [done|lia]. }
  rewrite Hpos. change (_base t2) with (_base (tlb (manager vm) b)).
  change (_owner t2) with (Some thread).
  split_and!; try done.
  - exists msg. split; [by rewrite lookup_insert_eq|].
    unfold msg, CrsClassLoadMessage_ctor, CrsMessage_ctor, full_form.
    pose proof (full_size_bounds s Hne) as Hfs.
    destruct hash; cbn -[c_str strcpy u2 full_size];
      (split_and!; [done | done | done | by apply c_str_strcpy | apply u2_small; lia]).
  - lia.
  - unfold uintx.
    replace (_buffer_size (manager vm) - align_up (full_size s) TLBManager_align)
      with (2 ^ 64 + _buffer_size (manager vm) - align_up (full_size s) TLBManager_align
            + (-1) * 2 ^ 64) by lia.
    rewrite Z.mod_add by lia. rewrite Z.mod_small by lia. lia.
Qed.

Lemma oversized_record_runs_over_the_buffer_witness :
  let vm := vm_of_two 64 in
  let s := source_50a in
  let vm' := notify_class_load 1 None (Some s) 1%nat vm in
  let t' := tlb (manager vm') 0%nat in
  buffer_of 1%nat vm' = Some 0%nat
  ∧ _owner t' = Some 1%nat
  ∧ _overflow (memory vm') = false
  ∧ (∃ r, region vm' !! _base t' = Some r ∧ full_form r s ∧ _size r = full_size s)
  ∧ _buffer_size (manager vm') < _pos t'
  ∧ _buffer_size (manager vm') < remaining_space (manager vm') 0%nat.
Proof.
  apply (oversized_record_runs_over_the_buffer (vm_of_two 64) 1%nat 0%nat 1%nat None source_50a).
  - unfold idle. split_and!; by vm_compute.
  - by vm_compute.
  - apply (bool_decide_unpack _). by vm_compute.
  - done.
  - by vm_compute.
  - by vm_compute.
Defined.
